(** * ReadVue: the deferred-callback queue and the watcher scheduler

    A shallow embedding of [src/core/util/next-tick.js] (the [callbacks]
    array, [flushCallbacks], [timerFunc], [nextTick]) and of the scheduler
    that follows it in the same file ([queueWatcher], [flushSchedulerQueue],
    [resetSchedulerState], [callUpdatedHooks], [callActivatedHooks],
    [queueActivatedComponent]).

    The module-level variables of the two JavaScript modules become the
    fields of one [State] record that every function threads explicitly.
    Code that lives outside the two modules (a watcher's [run] and [before],
    the lifecycle hooks, user callbacks given to [nextTick]) is a parameter:
    for each of them the environment gives the sequence of calls it makes
    back into the modules and whether it ends by throwing.  Loops whose
    bound is read from a live array, and the recursion between the scheduler
    and the code it runs, are indexed by fuel. *)

From Stdlib Require Import ZArith Lia Ascii String.
From stdpp Require Import base option list gmap strings sorting.

Local Open Scope Z_scope.

(** ** Data *)

(** A component instance is a mutable object; the store maps its identity to
    the fields the scheduler reads and writes. *)
Definition VmId := nat.

(** [Watcher]: the fields of a watcher that the scheduler reads.  [before]
    tells whether the optional [watcher.before] hook is set. *)
Module Watcher.
Record t := mk {
  id : Z;
  user : bool;
  expression : string;
  vm : VmId;
  before : bool
}.
End Watcher.

#[global] Instance Watcher_eq_dec : EqDecision Watcher.t.
Proof. solve_decision. Defined.

Module Component.
Record t := mk {
  _watcher : option Watcher.t;
  _isMounted : bool;
  _isDestroyed : bool;
  _inactive : bool
}.
(** An object none of whose fields has been written. *)
Definition blank : t := mk None false false false.
Definition set_inactive (b : bool) (c : t) : t :=
  mk (_watcher c) (_isMounted c) (_isDestroyed c) b.
End Component.

(** Values passed as the [ctx] argument of [nextTick]. *)
Inductive Ctx :=
| Undefined
| Str (s : string)
| Obj (o : nat).

(** Thrown values. *)
Definition Err := string.

(** The functions that are given to [nextTick] as [cb]: the scheduler's own
    [flushSchedulerQueue], or a function of the caller. *)
Inductive Fn :=
| FlushSchedulerQueue
| UserFn (f : nat).

(** Calls that outside code makes into the two modules, and its writes to a
    component instance. *)
Inductive Call :=
| CQueueWatcher (w : Watcher.t)
| CQueueActivatedComponent (vm : VmId)
| CNextTick (cb : option Fn) (ctx : Ctx)
| CSetComponent (vm : VmId) (c : Component.t).

(** What a piece of outside code does when it is run: the calls it makes, in
    order, and the value it throws at the end, if any. *)
Definition Body := (list Call * option Err)%type.

(** Everything observable from outside, in the order it happens. *)
Inductive Event :=
| PromiseThen                    (* p.then(flushCallbacks) *)
| SetTimeoutNoop                 (* setTimeout(noop) *)
| ObserverData (counter : Z)     (* textNode.data = String(counter) *)
| SetImmediate                   (* setImmediate(flushCallbacks) *)
| SetTimeout0                    (* setTimeout(flushCallbacks, 0) *)
| Invoke (f : Fn) (ctx : Ctx)    (* cb.call(ctx) *)
| HandleError (e : Err) (ctx : Ctx) (info : string)
| Before (w : Watcher.t)         (* watcher.before() *)
| Run (w : Watcher.t)            (* watcher.run() *)
| Warn (msg : string) (vm : VmId)
| CallHook (vm : VmId) (hook : string)
| ActivateChildComponent (vm : VmId)
| DevtoolsFlush.

(** The arrow function that [nextTick] pushes on [callbacks].  It closes over
    [cb], [ctx] and the local variable [_resolve]; the variable is assigned
    after the push, so the closure holds the variable's cell, not its value. *)
Record Closure := mkClosure {
  cl_cb : option Fn;
  cl_ctx : Ctx;
  cl_resolve : nat
}.

(** The values [has[id]] takes besides [undefined]. *)
Inductive HasVal := HNull | HTrue.

Record State := mkState {
  (* next-tick.js *)
  callbacks : list Closure;
  pending : bool;
  counter : Z;                          (* of the MutationObserver branch *)
  resolve_cells : list (option nat);    (* one [_resolve] per nextTick call *)
  promises : list (option Ctx);         (* [None]: not settled yet *)
  (* scheduler *)
  queue : list Watcher.t;
  activatedChildren : list VmId;
  has : gmap Z HasVal;
  circular : gmap Z Z;
  waiting : bool;
  flushing : bool;
  index : nat;
  (* outside the modules *)
  components : gmap VmId Component.t;
  log : list Event
}.

Definition set_callbacks (x : list Closure) (s : State) : State :=
  mkState x (pending s) (counter s) (resolve_cells s) (promises s) (queue s)
    (activatedChildren s) (has s) (circular s) (waiting s) (flushing s)
    (index s) (components s) (log s).
Definition set_pending (x : bool) (s : State) : State :=
  mkState (callbacks s) x (counter s) (resolve_cells s) (promises s) (queue s)
    (activatedChildren s) (has s) (circular s) (waiting s) (flushing s)
    (index s) (components s) (log s).
Definition set_counter (x : Z) (s : State) : State :=
  mkState (callbacks s) (pending s) x (resolve_cells s) (promises s) (queue s)
    (activatedChildren s) (has s) (circular s) (waiting s) (flushing s)
    (index s) (components s) (log s).
Definition set_resolve_cells (x : list (option nat)) (s : State) : State :=
  mkState (callbacks s) (pending s) (counter s) x (promises s) (queue s)
    (activatedChildren s) (has s) (circular s) (waiting s) (flushing s)
    (index s) (components s) (log s).
Definition set_promises (x : list (option Ctx)) (s : State) : State :=
  mkState (callbacks s) (pending s) (counter s) (resolve_cells s) x (queue s)
    (activatedChildren s) (has s) (circular s) (waiting s) (flushing s)
    (index s) (components s) (log s).
Definition set_queue (x : list Watcher.t) (s : State) : State :=
  mkState (callbacks s) (pending s) (counter s) (resolve_cells s) (promises s)
    x (activatedChildren s) (has s) (circular s) (waiting s) (flushing s)
    (index s) (components s) (log s).
Definition set_activatedChildren (x : list VmId) (s : State) : State :=
  mkState (callbacks s) (pending s) (counter s) (resolve_cells s) (promises s)
    (queue s) x (has s) (circular s) (waiting s) (flushing s)
    (index s) (components s) (log s).
Definition set_has (x : gmap Z HasVal) (s : State) : State :=
  mkState (callbacks s) (pending s) (counter s) (resolve_cells s) (promises s)
    (queue s) (activatedChildren s) x (circular s) (waiting s) (flushing s)
    (index s) (components s) (log s).
Definition set_circular (x : gmap Z Z) (s : State) : State :=
  mkState (callbacks s) (pending s) (counter s) (resolve_cells s) (promises s)
    (queue s) (activatedChildren s) (has s) x (waiting s) (flushing s)
    (index s) (components s) (log s).
Definition set_waiting (x : bool) (s : State) : State :=
  mkState (callbacks s) (pending s) (counter s) (resolve_cells s) (promises s)
    (queue s) (activatedChildren s) (has s) (circular s) x (flushing s)
    (index s) (components s) (log s).
Definition set_flushing (x : bool) (s : State) : State :=
  mkState (callbacks s) (pending s) (counter s) (resolve_cells s) (promises s)
    (queue s) (activatedChildren s) (has s) (circular s) (waiting s) x
    (index s) (components s) (log s).
Definition set_index (x : nat) (s : State) : State :=
  mkState (callbacks s) (pending s) (counter s) (resolve_cells s) (promises s)
    (queue s) (activatedChildren s) (has s) (circular s) (waiting s)
    (flushing s) x (components s) (log s).
Definition set_components (x : gmap VmId Component.t) (s : State) : State :=
  mkState (callbacks s) (pending s) (counter s) (resolve_cells s) (promises s)
    (queue s) (activatedChildren s) (has s) (circular s) (waiting s)
    (flushing s) (index s) x (log s).
Definition set_log (x : list Event) (s : State) : State :=
  mkState (callbacks s) (pending s) (counter s) (resolve_cells s) (promises s)
    (queue s) (activatedChildren s) (has s) (circular s) (waiting s)
    (flushing s) (index s) (components s) x.

(** Append one event to the trace. *)
Definition emit (e : Event) (s : State) : State := set_log (log s ++ [e]) s.

(** The state of the two modules right after they are loaded. *)
Definition initial : State :=
  mkState [] false 1 [] [] [] [] ∅ ∅ false false 0%nat ∅ [].

(** The outcome of running code: it returns, it throws, or the fuel given to
    the model ran out before it finished. *)
Inductive Res :=
| Done (s : State)
| Throw (e : Err) (s : State)
| OutOfFuel.

Definition bind (r : Res) (k : State -> Res) : Res :=
  match r with
  | Done s => k s
  | Throw e s => Throw e s
  | OutOfFuel => OutOfFuel
  end.

Notation "s <- r ;; k" := (bind r (fun s => k))
  (at level 100, r at next level, right associativity).

(** ** The environment *)

(** What the host offers; read once when next-tick.js is loaded. *)
Module Host.
Record t := mk {
  promiseDefined : bool;        (* typeof Promise !== 'undefined' *)
  promiseNative : bool;         (* isNative(Promise) *)
  isIE : bool;
  isIOS : bool;
  observerDefined : bool;       (* typeof MutationObserver !== 'undefined' *)
  observerNative : bool;        (* isNative(..) || toString() === '[object ..]' *)
  setImmediateDefined : bool;
  setImmediateNative : bool
}.
End Host.

(** The host, the build and configuration switches, and the code outside the
    two modules.  A body may depend on the state in which it is started. *)
Record Env := mkEnv {
  host : Host.t;
  production : bool;              (* process.env.NODE_ENV === 'production' *)
  async : bool;                   (* config.async *)
  devtools : bool;                (* devtools && config.devtools *)
  run_body : Watcher.t -> State -> Body;
  before_body : Watcher.t -> State -> Body;
  updated_body : VmId -> State -> Body;       (* callHook(vm, 'updated') *)
  activate_body : VmId -> State -> Body;      (* activateChildComponent(vm, true) *)
  fn_body : nat -> Ctx -> State -> Body       (* a user callback, called on ctx *)
}.

(** ** next-tick.js *)

Inductive TimerKind := ViaPromise | ViaObserver | ViaSetImmediate | ViaSetTimeout.

(** The cascade that chooses [timerFunc] when the module is loaded. *)
Definition timerKind (h : Host.t) : TimerKind :=
  if Host.promiseDefined h && Host.promiseNative h then ViaPromise
  else if negb (Host.isIE h) && Host.observerDefined h && Host.observerNative h
  then ViaObserver
  else if Host.setImmediateDefined h && Host.setImmediateNative h
  then ViaSetImmediate
  else ViaSetTimeout.

Definition isUsingMicroTask (h : Host.t) : bool :=
  match timerKind h with
  | ViaPromise | ViaObserver => true
  | ViaSetImmediate | ViaSetTimeout => false
  end.

(** The events by which the host is asked to run [flushCallbacks]. *)
Definition schedules_flush (e : Event) : bool :=
  match e with
  | PromiseThen | ObserverData _ | SetImmediate | SetTimeout0 => true
  | _ => false
  end.

(** All calls to a scheduling primitive of the host. *)
Definition is_platform_call (e : Event) : bool :=
  match e with
  | PromiseThen | SetTimeoutNoop | ObserverData _ | SetImmediate | SetTimeout0 => true
  | _ => false
  end.

Definition MAX_UPDATE_COUNT : Z := 100.

Definition dquote : string := String "034"%char EmptyString.

Definition id_le (a b : Watcher.t) : Prop := Watcher.id a ≤ Watcher.id b.

#[global] Instance id_le_dec : RelDecision id_le.
Proof. intros a b. unfold id_le. apply _. Defined.

#[global] Instance id_le_trans : Transitive id_le.
Proof. intros a b c. unfold id_le. lia. Qed.

#[global] Instance id_le_total : Total id_le.
Proof. intros a b. unfold id_le. lia. Qed.

Section Program.
Context (E : Env).

Definition timerFunc (s : State) : State :=
  match timerKind (host E) with
  | ViaPromise =>
      let s := emit PromiseThen s in
      if Host.isIOS (host E) then emit SetTimeoutNoop s else s
  | ViaObserver =>
      let c := (counter s + 1) `mod` 2 in
      emit (ObserverData c) (set_counter c s)
  | ViaSetImmediate => emit SetImmediate s
  | ViaSetTimeout => emit SetTimeout0 s
  end.

(** [nextTick(cb, ctx)]; the second component is the promise returned, if
    one is. *)
Definition nextTick (cb : option Fn) (ctx : Ctx) (s : State)
  : State * option nat :=
  let cell := length (resolve_cells s) in                     (* let _resolve *)
  let s := set_resolve_cells (resolve_cells s ++ [None]) s in
  let s := set_callbacks (callbacks s ++ [mkClosure cb ctx cell]) s in
  let s := if pending s then s else timerFunc (set_pending true s) in
  match cb with
  | None =>
      if Host.promiseDefined (host E) then
        let p := length (promises s) in
        let s := set_promises (promises s ++ [None]) s in
        let s := set_resolve_cells (<[cell := Some p]> (resolve_cells s)) s in
        (s, Some p)
      else (s, None)
  | Some _ => (s, None)
  end.

(** Calling the resolve function of promise [p]: only the first call
    settles it.  The values of [Ctx] are not thenables, so the promise is
    fulfilled with the value itself. *)
Definition resolve (p : nat) (v : Ctx) (s : State) : State :=
  match promises s !! p with
  | Some None => set_promises (<[p := Some v]> (promises s)) s
  | _ => s
  end.

(** Modelled from the spec: [handleError] is imported from ./error, which is
    not among the sources; the spec has it route the error to a global
    error-reporting hook, so it records the report and returns. *)
Definition handleError (e : Err) (ctx : Ctx) (info : string) (s : State) : State :=
  emit (HandleError e ctx info) s.

(** The body of the arrow function pushed by [nextTick]; [callFn] runs
    [cb.call(ctx)]. *)
Definition invoke (callFn : Fn -> Ctx -> State -> Res) (c : Closure) (s : State)
  : Res :=
  match cl_cb c with
  | Some f =>
      match callFn f (cl_ctx c) (emit (Invoke f (cl_ctx c)) s) with
      | Done s => Done s
      | Throw e s => Done (handleError e (cl_ctx c) "nextTick" s)
      | OutOfFuel => OutOfFuel
      end
  | None =>
      match resolve_cells s !! cl_resolve c with
      | Some (Some p) => Done (resolve p (cl_ctx c) s)
      | _ => Done s
      end
  end.

(** [for (let i = 0; i < copies.length; i++) copies[i]()] *)
Fixpoint run_copies (inv : Closure -> State -> Res) (copies : list Closure)
    (s : State) : Res :=
  match copies with
  | [] => Done s
  | c :: copies => s <- inv c s ;; run_copies inv copies s
  end.

Definition flushCallbacks_with (callFn : Fn -> Ctx -> State -> Res) (s : State)
  : Res :=
  let s := set_pending false s in
  let copies := callbacks s in
  let s := set_callbacks [] s in
  run_copies (invoke callFn) copies s.

(** ** Outside code *)

Fixpoint exec_calls (call : Call -> State -> Res) (cs : list Call) (s : State)
  : Res :=
  match cs with
  | [] => Done s
  | c :: cs => s <- call c s ;; exec_calls call cs s
  end.

Definition exec_body (call : Call -> State -> Res) (b : Body) (s : State) : Res :=
  s <- exec_calls call (fst b) s ;;
  match snd b with
  | None => Done s
  | Some e => Throw e s
  end.

(** ** The scheduler *)

Definition component (s : State) (vm : VmId) : Component.t :=
  default Component.blank (components s !! vm).

Definition resetSchedulerState (s : State) : State :=
  let s := set_index 0%nat s in
  let s := set_queue [] s in
  let s := set_activatedChildren [] s in
  let s := set_has ∅ s in
  let s := if negb (production E) then set_circular ∅ s else s in
  let s := set_waiting false s in
  set_flushing false s.

(** [has[id] == null]: the entry is [undefined] or [null]. *)
Definition has_is_null (s : State) (id : Z) : bool :=
  match has s !! id with
  | Some HTrue => false
  | _ => true
  end.

Definition loop_warning (w : Watcher.t) : string :=
  "You may have an infinite update loop " ++
  (if Watcher.user w
   then "in watcher with expression " ++ dquote ++ Watcher.expression w ++ dquote
   else "in a component render function.").

(** Modelled from the spec: [warn] is imported from ../util, which is not
    among the sources; the spec has it report a diagnostic, so it records the
    message and returns. *)
Definition warn (msg : string) (vm : VmId) (s : State) : State :=
  emit (Warn msg vm) s.

(** One turn of the [for] loop of [flushSchedulerQueue], for the watcher at
    [queue[index]]; [continue] is the rest of the loop. *)
Definition flush_iteration (exec : Body -> State -> Res) (continue : State -> Res)
    (watcher : Watcher.t) (s : State) : Res :=
  s <- (if Watcher.before watcher
        then exec (before_body E watcher s) (emit (Before watcher) s)
        else Done s) ;;
  let id := Watcher.id watcher in
  let s := set_has (<[id := HNull]> (has s)) s in
  s <- exec (run_body E watcher s) (emit (Run watcher) s) ;;
  if negb (production E) && negb (has_is_null s id) then
    let n := default 0 (circular s !! id) + 1 in
    let s := set_circular (<[id := n]> (circular s)) s in
    if MAX_UPDATE_COUNT <? n
    then Done (warn (loop_warning watcher) (Watcher.vm watcher) s)   (* break *)
    else continue (set_index (S (index s)) s)
  else continue (set_index (S (index s)) s).

Fixpoint callActivatedHooks (exec : Body -> State -> Res) (queue : list VmId)
    (s : State) : Res :=
  match queue with
  | [] => Done s
  | vm :: queue =>
      let c := Component.set_inactive true (component s vm) in
      let s := set_components (<[vm := c]> (components s)) s in
      s <- exec (activate_body E vm s) (emit (ActivateChildComponent vm) s) ;;
      callActivatedHooks exec queue s
  end.

(** [let i = queue.length; while (i--) { ... queue[i] ... }] *)
Fixpoint callUpdatedHooks_from (exec : Body -> State -> Res)
    (queue : list Watcher.t) (i : nat) (s : State) : Res :=
  match i with
  | O => Done s
  | S i =>
      match queue !! i with
      | None => Done s
      | Some watcher =>
          let vm := Watcher.vm watcher in
          let c := component s vm in
          s <- (if bool_decide (Component._watcher c = Some watcher)
                   && Component._isMounted c && negb (Component._isDestroyed c)
                then exec (updated_body E vm s) (emit (CallHook vm "updated") s)
                else Done s) ;;
          callUpdatedHooks_from exec queue i s
      end
  end.

Definition callUpdatedHooks (exec : Body -> State -> Res) (queue : list Watcher.t)
    (s : State) : Res :=
  callUpdatedHooks_from exec queue (length queue) s.

Definition queueActivatedComponent (vm : VmId) (s : State) : State :=
  let c := Component.set_inactive false (component s vm) in
  let s := set_components (<[vm := c]> (components s)) s in
  set_activatedChildren (activatedChildren s ++ [vm]) s.

(** [while (i > index && queue[i].id > watcher.id) i--], started at [i];
    the loop body runs at most [queue.length] times. *)
Fixpoint scan (fuel : nat) (queue : list Watcher.t) (index : nat) (id : Z) (i : Z)
  : Z :=
  match fuel with
  | O => i
  | S fuel =>
      if (Z.of_nat index <? i)
         && match queue !! Z.to_nat i with
            | Some w => id <? Watcher.id w
            | None => false
            end
      then scan fuel queue index id (i - 1)
      else i
  end.

(** [queue.splice(start, 0, w)] for [0 <= start]. *)
Definition splice (start : Z) (w : Watcher.t) (queue : list Watcher.t)
  : list Watcher.t :=
  take (Z.to_nat start) queue ++ w :: drop (Z.to_nat start) queue.

(** The last part of [queueWatcher], under its comment [// queue the flush]. *)
Definition queue_the_flush (flush : State -> Res) (s : State) : Res :=
  if negb (waiting s) then
    let s := set_waiting true s in
    if negb (production E) && negb (async E) then flush s
    else Done (fst (nextTick (Some FlushSchedulerQueue) Undefined s))
  else Done s.

Definition queueWatcher (flush : State -> Res) (watcher : Watcher.t) (s : State)
  : Res :=
  let id := Watcher.id watcher in
  if has_is_null s id then
    let s := set_has (<[id := HTrue]> (has s)) s in
    let s :=
      if negb (flushing s) then set_queue (queue s ++ [watcher]) s
      else
        let i := scan (length (queue s)) (queue s) (index s) id
                   (Z.of_nat (length (queue s)) - 1) in
        set_queue (splice (i + 1) watcher (queue s)) s in
    queue_the_flush flush s
  else Done s.

(** The part of [flushSchedulerQueue] before the loop.  The timestamp taken
    first is not read by the scheduler and is left out; [Array.prototype.sort]
    with the comparator [a.id - b.id] is a sort by [id_le]. *)
Definition flush_begin (s : State) : State :=
  let s := set_flushing true s in
  let s := set_queue (merge_sort id_le (queue s)) s in
  set_index 0%nat s.

(** The part of [flushSchedulerQueue] after the loop. *)
Definition flush_end (exec : Body -> State -> Res) (s : State) : Res :=
  let activatedQueue := activatedChildren s in
  let updatedQueue := queue s in
  let s := resetSchedulerState s in
  s <- callActivatedHooks exec activatedQueue s ;;
  s <- callUpdatedHooks exec updatedQueue s ;;
  Done (if devtools E then emit DevtoolsFlush s else s).

(** The functions that call each other through outside code.  [call] runs
    one call made by outside code; [flush_loop] is the [for] loop of
    [flushSchedulerQueue], entered with [index] already set. *)
Fixpoint call (n : nat) (c : Call) (s : State) {struct n} : Res :=
  match n with
  | O => OutOfFuel
  | S n =>
      match c with
      | CQueueWatcher w => queueWatcher (flushSchedulerQueue n) w s
      | CQueueActivatedComponent vm => Done (queueActivatedComponent vm s)
      | CNextTick cb ctx => Done (fst (nextTick cb ctx s))
      | CSetComponent vm c => Done (set_components (<[vm := c]> (components s)) s)
      end
  end
with flushSchedulerQueue (n : nat) (s : State) {struct n} : Res :=
  match n with
  | O => OutOfFuel
  | S n =>
      s <- flush_loop n (flush_begin s) ;;
      flush_end (exec_body (call n)) s
  end
with flush_loop (n : nat) (s : State) {struct n} : Res :=
  match n with
  | O => OutOfFuel
  | S n =>
      match queue s !! index s with
      | None => Done s                            (* index >= queue.length *)
      | Some watcher =>
          flush_iteration (exec_body (call n)) (flush_loop n) watcher s
      end
  end.

(** [cb.call(ctx)] *)
Definition callFn (n : nat) (f : Fn) (ctx : Ctx) (s : State) : Res :=
  match f with
  | FlushSchedulerQueue => flushSchedulerQueue n s
  | UserFn k => exec_body (call n) (fn_body E k ctx s) s
  end.

Definition flushCallbacks (n : nat) (s : State) : Res :=
  flushCallbacks_with (callFn n) s.

End Program.

Arguments nextTick : simpl never.
Arguments timerFunc : simpl never.
Arguments resetSchedulerState : simpl never.
Arguments merge_sort : simpl never.

(** ** Relations and invariants used to state the results *)

(** Code that calls nothing and returns. *)
Definition inert : Body := ([], None).

(** [below r r']: [r'] is [r], unless [r] ran out of fuel. *)
Definition below (r r' : Res) : Prop := r = OutOfFuel ∨ r' = r.

(** The events of the deferred-callback loop itself. *)
Definition is_tick_event (e : Event) : bool :=
  match e with
  | Invoke _ _ | HandleError _ _ _ => true
  | _ => false
  end.

(** The events of the scheduler. *)
Definition is_sched_event (e : Event) : bool :=
  match e with
  | Before _ | Run _ | Warn _ _ | CallHook _ _ | ActivateChildComponent _
  | DevtoolsFlush => true
  | _ => false
  end.

(** A step that leaves the variables of next-tick.js alone and adds only
    scheduler events to the trace. *)
Definition sched_step (s s' : State) : Prop :=
  callbacks s' = callbacks s ∧ pending s' = pending s ∧ counter s' = counter s ∧
  resolve_cells s' = resolve_cells s ∧ promises s' = promises s ∧
  ∃ evs, log s' = log s ++ evs ∧ Forall (λ e, is_sched_event e = true) evs.

(** The lifting of a relation on states to outcomes. *)
Definition res_rel (R : State → State → Prop) (s : State) (r : Res) : Prop :=
  match r with
  | Done s' | Throw _ s' => R s s'
  | OutOfFuel => True
  end.

Section EvolvesDef.
Context (E : Env).

(** [evolves s s']: [s'] comes from [s] by scheduler steps and calls of
    [nextTick].  A scheduler step of a production build leaves [circular]
    alone. *)
Inductive evolves : State → State → Prop :=
| evolves_refl s : evolves s s
| evolves_sched s s' s'' :
    sched_step s s' → (production E = true → circular s' = circular s) →
    evolves s' s'' → evolves s s''
| evolves_nextTick s cb ctx s'' :
    evolves (fst (nextTick E cb ctx s)) s'' → evolves s s''.

End EvolvesDef.

Section NextTickResult.
Context (E : Env).

(** The value [nextTick] returns. *)
Definition nextTick_result (cb : option Fn) (s : State) : option nat :=
  match cb with
  | None => if Host.promiseDefined (host E) then Some (length (promises s)) else None
  | Some _ => None
  end.

End NextTickResult.

(** The closures of [callbacks] refer to allocated [_resolve] variables, and
    these hold resolve functions of allocated promises. *)
Definition wf (s : State) : Prop :=
  Forall (λ c, (cl_resolve c < length (resolve_cells s))%nat) (callbacks s) ∧
  (∀ i p, resolve_cells s !! i = Some (Some p) → (p < length (promises s))%nat).

(** The host calls that one run of [timerFunc] makes. *)
Definition timer_events (E : Env) (s : State) : list Event :=
  match timerKind (host E) with
  | ViaPromise => PromiseThen :: (if Host.isIOS (host E) then [SetTimeoutNoop] else [])
  | ViaObserver => [ObserverData ((counter s + 1) `mod` 2)]
  | ViaSetImmediate => [SetImmediate]
  | ViaSetTimeout => [SetTimeout0]
  end.

(** The callbacks invoked, read off a trace. *)
Definition invocations (l : list Event) : list (Fn * Ctx) :=
  omap (λ e, match e with Invoke f ctx => Some (f, ctx) | _ => None end) l.

(** [nextTick] called once for each request, in order. *)
Definition enqueue_all (E : Env) (reqs : list (Fn * Ctx)) (s : State) : State :=
  foldl (λ s r, fst (nextTick E (Some (fst r)) (snd r) s)) s reqs.

(** The promise [p] was returned by a [nextTick] call whose [_resolve] is
    [cell]; it is not settled, and no other variable holds its resolve
    function. *)
Definition awaiting (cell p : nat) (s : State) : Prop :=
  wf s ∧ promises s !! p = Some None ∧
  resolve_cells s !! cell = Some (Some p) ∧
  (∀ i, resolve_cells s !! i = Some (Some p) → i = cell).

(** The callback and context of a queued closure, when it has a callback. *)
Definition closure_request (c : Closure) : option (Fn * Ctx) :=
  (λ f, (f, cl_ctx c)) <$> cl_cb c.

(** No switch makes [queueWatcher] flush synchronously. *)
Definition deferred_flush (E : Env) : Prop :=
  negb (production E) && negb (async E) = false.


(** The events of the deferred-callback loop in a trace. *)
Definition tick_trace (l : list Event) : list Event :=
  filter (λ e, is_tick_event e = true) l.

(** What running one queued closure adds to [tick_trace] when user callback
    [k] called on [ctx] throws [throws k ctx]. *)
Definition closure_trace (throws : nat → Ctx → option Err) (c : Closure)
  : list Event :=
  match cl_cb c with
  | Some (UserFn k) =>
      Invoke (UserFn k) (cl_ctx c) ::
      match throws k (cl_ctx c) with
      | Some e => [HandleError e (cl_ctx c) "nextTick"]
      | None => []
      end
  | Some FlushSchedulerQueue => [Invoke FlushSchedulerQueue (cl_ctx c)]
  | None => []
  end.

(** The position at which [queueWatcher] splices a watcher with the given id
    into the queue during a flush. *)
Definition insert_position (queue : list Watcher.t) (index : nat) (id : Z) : nat :=
  Z.to_nat (scan (length queue) queue index id (Z.of_nat (length queue) - 1) + 1).

(** The watchers run, read off a trace. *)
Definition runs (l : list Event) : list Watcher.t :=
  omap (λ e, match e with Run w => Some w | _ => None end) l.

(** The loop warnings, read off a trace. *)
Definition warnings (l : list Event) : list (string * VmId) :=
  omap (λ e, match e with Warn msg vm => Some (msg, vm) | _ => None end) l.

(** The hooks called, read off a trace. *)
Definition hooks_called (l : list Event) : list (VmId * string) :=
  omap (λ e, match e with CallHook vm h => Some (vm, h) | _ => None end) l.

(** A watcher whose [run] and [before] call nothing and return. *)
Definition inert_watcher (E : Env) (w : Watcher.t) : Prop :=
  (∀ s, run_body E w s = inert) ∧ (∀ s, before_body E w s = inert).

(** Lifecycle hooks that call nothing and return. *)
Definition inert_hooks (E : Env) : Prop :=
  (∀ vm s, updated_body E vm s = inert) ∧ (∀ vm s, activate_body E vm s = inert).

(** One turn of the flush loop for an inert watcher, as a state update. *)
Definition inert_turn (w : Watcher.t) (s : State) : State :=
  let s := if Watcher.before w then emit (Before w) s else s in
  let s := set_has (<[Watcher.id w := HNull]> (has s)) s in
  let s := emit (Run w) s in
  set_index (S (index s)) s.

(** The test of [callUpdatedHooks] on a watcher. *)
Definition fires_updated (s : State) (w : Watcher.t) : bool :=
  let c := component s (Watcher.vm w) in
  bool_decide (Component._watcher c = Some w)
  && Component._isMounted c && negb (Component._isDestroyed c).

(** The turns of the flush loop for a run of inert watchers. *)
Definition inert_turns (ws : list Watcher.t) (s : State) : State :=
  foldl (λ s w, inert_turn w s) s ws.

(** What these turns add to the trace. *)
Definition inert_events (ws : list Watcher.t) : list Event :=
  flat_map (λ w, (if Watcher.before w then [Before w] else []) ++ [Run w]) ws.

(** ... and what they leave in [has]. *)
Definition nulled (ws : list Watcher.t) (h : gmap Z HasVal) : gmap Z HasVal :=
  foldl (λ h w, <[Watcher.id w := HNull]> h) h ws.

(** The hook calls that [callUpdatedHooks] makes for a queue when the hooks
    leave the components alone. *)
Definition updated_events (s : State) (q : list Watcher.t) : list Event :=
  map (λ w, CallHook (Watcher.vm w) "updated")
    (filter (λ w, fires_updated s w = true) (reverse q)).

(** [callActivatedHooks] when [activateChildComponent] calls nothing back. *)
Definition activate_all (q : list VmId) (s : State) : State :=
  foldl (λ s vm,
    emit (ActivateChildComponent vm)
      (set_components
         (<[vm := Component.set_inactive true (component s vm)]> (components s)) s))
    s q.

(** [callHook(vm, 'updated')] for the component of a watcher. *)
Definition exec_hook (E : Env) (ex : Body → State → Res) (w : Watcher.t) (s : State)
  : Res :=
  ex (updated_body E (Watcher.vm w) s) (emit (CallHook (Watcher.vm w) "updated") s).

(** The scheduler is not flushing and [has] marks exactly the ids of the
    queue, each queued once. *)
Definition idle_consistent (s : State) : Prop :=
  flushing s = false ∧ NoDup (map Watcher.id (queue s)) ∧
  ∀ i, has_is_null s i = false ↔ i ∈ map Watcher.id (queue s).

(** One turn of the flush loop for a watcher whose [run] registers the
    watcher itself, up to the test of the counter: the registration lands
    right behind the cursor. *)
Definition requeue_turn (w : Watcher.t) (s : State) : State :=
  let s := if Watcher.before w then emit (Before w) s else s in
  let s := set_has (<[Watcher.id w := HNull]> (has s)) s in
  let s := emit (Run w) s in
  let s := set_queue (splice (Z.of_nat (S (index s))) w (queue s))
             (set_has (<[Watcher.id w := HTrue]> (has s)) s) in
  set_circular
    (<[Watcher.id w := default 0 (circular s !! Watcher.id w) + 1]> (circular s)) s.

Arguments requeue_turn : simpl never.

(** A watcher whose [run] always registers the watcher itself. *)
Definition self_requeueing (E : Env) (w : Watcher.t) : Prop :=
  (∀ s, run_body E w s = ([CQueueWatcher w], None)) ∧
  (∀ s, before_body E w s = inert).

(** ** Concrete hosts, watchers and outside code, on which the model is run *)

(** A host with native promises. *)
Definition modern_host : Host.t :=
  Host.mk true true false false true true false false.

(** A host with nothing but [setTimeout]. *)
Definition bare_host : Host.t :=
  Host.mk false false false false false false false false.

(** A render watcher with the given id, of the component with that number. *)
Definition job (i : Z) : Watcher.t :=
  Watcher.mk i false EmptyString (Z.to_nat i) false.

(** A development build in which outside code does nothing. *)
Definition quiet_env (h : Host.t) : Env :=
  mkEnv h false true false
    (λ _ _, inert) (λ _ _, inert) (λ _ _, inert) (λ _ _, inert) (λ _ _ _, inert).

(** User callback 1 throws; callback 0 defers callback 3 from inside the
    flush; the others do nothing. *)
Definition throwing_env : Env :=
  mkEnv modern_host false true false
    (λ _ _, inert) (λ _ _, inert) (λ _ _, inert) (λ _ _, inert)
    (λ k _ _, match k with
              | 0%nat => ([CNextTick (Some (UserFn 3)) Undefined], None)
              | 1%nat => ([], Some "boom")
              | _ => inert
              end).

(** Which user callbacks of [throwing_env] throw. *)
Definition throwing_env_throws (k : nat) (ctx : Ctx) : option Err :=
  match k with
  | 1%nat => Some "boom"
  | _ => None
  end.

(** Five requests, as made by five calls of [nextTick] in one turn. *)
Definition five_requests : list (Fn * Ctx) :=
  [(UserFn 0, Str "a"); (UserFn 1, Str "b"); (UserFn 2, Str "c");
   (UserFn 3, Str "d"); (UserFn 4, Str "e")].

(** The state an outcome ends in. *)
Definition state_of (r : Res) : State :=
  match r with
  | Done s | Throw _ s => s
  | OutOfFuel => initial
  end.

(** Mounted components, each with the render watcher [job i]. *)
Definition mounted (ids : list Z) : gmap VmId Component.t :=
  list_to_map (map (λ i, (Z.to_nat i, Component.mk (Some (job i)) true false false)) ids).

(** The loaded modules, with components 1, 2 and 3 mounted. *)
Definition three_mounted : State := set_components (mounted [1; 2; 3]) initial.

(** Jobs 3, 1 and 2 queued in this order, in a quiet development build. *)
Definition queued_312 : State :=
  state_of (exec_calls (call (quiet_env modern_host) 1)
    [CQueueWatcher (job 3); CQueueWatcher (job 1); CQueueWatcher (job 2)]
    three_mounted).

(** ... and the flush loop run over them. *)
Definition after_loop_312 : State :=
  state_of (flush_loop (quiet_env modern_host) 4 (flush_begin queued_312)).

(** The [updated] hook of component 1 registers [job 1] again; nothing else
    calls back. *)
Definition requeueing_hook_env : Env :=
  mkEnv modern_host false true false
    (λ _ _, inert) (λ _ _, inert)
    (λ vm _, match vm with
             | 1%nat => ([CQueueWatcher (job 1)], None)
             | _ => inert
             end)
    (λ _ _, inert) (λ _ _ _, inert).

(** [job 1] registered in that build. *)
Definition queued_1 : State :=
  state_of (call requeueing_hook_env 1 (CQueueWatcher (job 1)) three_mounted).

(** ... and the loop of the flush run: the state in which the reset and the
    hooks start. *)
Definition after_loop_1 : State :=
  state_of (flush_loop requeueing_hook_env 2 (flush_begin queued_1)).

(** The [run] of [job 2] registers [job 4]; nothing else calls back. *)
Definition reentrant_env : Env :=
  mkEnv modern_host false true false
    (λ w _, if bool_decide (Watcher.id w = 2)
            then ([CQueueWatcher (job 4)], None) else inert)
    (λ _ _, inert) (λ _ _, inert) (λ _ _, inert) (λ _ _ _, inert).

(** Jobs 1, 2, 5 and 8 registered in that build. *)
Definition queued_1258 : State :=
  state_of (exec_calls (call reentrant_env 1)
    (map CQueueWatcher [job 1; job 2; job 5; job 8]) initial).

(** The flush has run [job 1]; the cursor is at [job 2]. *)
Definition cursor_at_2 : State := inert_turn (job 1) (flush_begin queued_1258).

(** [job 2] is running. *)
Definition running_2 : State :=
  emit (Run (job 2)) (set_has (<[2 := HNull]> (has cursor_at_2)) cursor_at_2).

(** The [run] of [job 1] registers [job 1]; nothing else calls back. *)
Definition looping_env : Env :=
  mkEnv modern_host false true false
    (λ w _, if bool_decide (Watcher.id w = 1)
            then ([CQueueWatcher w], None) else inert)
    (λ _ _, inert) (λ _ _, inert) (λ _ _, inert) (λ _ _ _, inert).

(** Jobs 5, 0 and 1 registered in that build. *)
Definition queued_501 : State :=
  state_of (exec_calls (call looping_env 1)
    (map CQueueWatcher [job 5; job 0; job 1]) initial).
(** ** Further notions and scenarios, for the results beyond the claims *)

(** A flush of the pending list is awaited exactly while the list holds
    entries. *)
Definition tick_consistent (s : State) : Prop := pending s = true ↔ callbacks s ≠ [].

(** The number of times a trace asks the host to run [flushCallbacks]. *)
Definition flush_requests (l : list Event) : nat :=
  length (filter (λ e, schedules_flush e = true) l).

(** The number of runs of [flushCallbacks] that the host still owes. *)
Definition owed (s : State) : nat := if pending s then 1%nat else 0%nat.

(** A host without promises that has a native [MutationObserver]. *)
Definition observer_host : Host.t :=
  Host.mk false false false false true true false false.

(** Internet Explorer with a [MutationObserver] and a native [setImmediate]. *)
Definition ie_host : Host.t :=
  Host.mk false false true false true true true true.

(** The requests that the host serves as microtasks. *)
Definition is_microtask_request (e : Event) : bool :=
  match e with
  | PromiseThen | ObserverData _ => true
  | _ => false
  end.

(** What the hooks add to the trace after a flush whose hooks call nothing
    back; [q] is the queue the loop leaves. *)
Definition hook_events (E : Env) (s : State) (q : list Watcher.t) : list Event :=
  map ActivateChildComponent (activatedChildren s)
  ++ updated_events s q
  ++ (if devtools E then [DevtoolsFlush] else []).

(** Components 2, 1 and 2 again activated and jobs 1 and 3 registered, in a
    quiet development build with components 1, 2 and 3 mounted. *)
Definition activated_212 : State :=
  state_of (exec_calls (call (quiet_env modern_host) 1)
    [CQueueActivatedComponent 2%nat; CQueueActivatedComponent 1%nat;
     CQueueActivatedComponent 2%nat; CQueueWatcher (job 1); CQueueWatcher (job 3)]
    three_mounted).

(** A user watcher with a [before] hook, with the given id, of the component
    with that number. *)
Definition watch_job (i : Z) : Watcher.t :=
  Watcher.mk i true "count" (Z.to_nat i) true.

(** [watch_job 2] and [job 1] registered and component 3 activated, in a
    quiet development build with components 1, 2 and 3 mounted. *)
Definition mixed_queue : State :=
  state_of (exec_calls (call (quiet_env modern_host) 1)
    [CQueueWatcher (watch_job 2); CQueueWatcher (job 1);
     CQueueActivatedComponent 3%nat] three_mounted).

(** The [run] of the watcher with id 2 throws; nothing else calls back. *)
Definition failing_env : Env :=
  mkEnv modern_host false true false
    (λ w _, if bool_decide (Watcher.id w = 2) then ([], Some "boom") else inert)
    (λ _ _, inert) (λ _ _, inert) (λ _ _, inert) (λ _ _ _, inert).

(** Jobs 3, 2 and 1 registered in that build. *)
Definition queued_321 : State :=
  state_of (exec_calls (call failing_env 1)
    (map CQueueWatcher [job 3; job 2; job 1]) initial).

(** What one registration adds to the trace in the synchronous mode, when
    watcher and hooks call nothing back. *)
Definition sync_events (E : Env) (s : State) (w : Watcher.t) : list Event :=
  inert_events [w] ++ updated_events s [w]
  ++ (if devtools E then [DevtoolsFlush] else []).

(** A development build with [config.async] switched off, in which outside
    code does nothing. *)
Definition sync_env : Env :=
  mkEnv modern_host false false false
    (λ _ _, inert) (λ _ _, inert) (λ _ _, inert) (λ _ _, inert) (λ _ _ _, inert).

(** The scheduler is not in its loop and its cursor is at the start. *)
Definition at_rest (s : State) : Prop := flushing s = false ∧ index s = 0%nat.

(** The reports of [handleError], read off a trace. *)
Definition error_reports (l : list Event) : list (Err * Ctx * string) :=
  omap (λ e, match e with HandleError e ctx i => Some (e, ctx, i) | _ => None end) l.

(** A production build in which the [run] of the watcher with id 1 registers
    the watcher again; nothing else calls back. *)
Definition production_looping_env : Env :=
  mkEnv modern_host true true false
    (λ w _, if bool_decide (Watcher.id w = 1)
            then ([CQueueWatcher w], None) else inert)
    (λ _ _, inert) (λ _ _, inert) (λ _ _, inert) (λ _ _ _, inert).

(** Jobs 5, 0 and 1 registered in that build. *)
Definition production_queued_501 : State :=
  state_of (exec_calls (call production_looping_env 1)
    (map CQueueWatcher [job 5; job 0; job 1]) initial).

(** The queue after one more registration while no flush runs: a watcher
    whose id is queued already is dropped. *)
Definition enqueue_new (q : list Watcher.t) (w : Watcher.t) : list Watcher.t :=
  if decide (Watcher.id w ∈ map Watcher.id q) then q else q ++ [w].

(** The entry that [queueWatcher] has [nextTick] queue. *)
Definition flush_closure (cell : nat) : Closure :=
  mkClosure (Some FlushSchedulerQueue) Undefined cell.

(** The entries of a pending list that run the scheduler's flush. *)
Definition is_flush_entry (c : Closure) : Prop := cl_cb c = Some FlushSchedulerQueue.

(** A scheduler that waits for its flush, and is not in it, has the flush
    among the entries [cs]. *)
Definition flush_is_queued (cs : list Closure) (s : State) : Prop :=
  flushing s = false → waiting s = true → Exists is_flush_entry cs.

(** The entries queued since the pending list held [l] cells. *)
Definition queued_since (l : nat) (s : State) : Prop :=
  (l ≤ length (resolve_cells s))%nat ∧
  Forall (λ c, (l ≤ cl_resolve c)%nat) (callbacks s).

(** The state in which an outcome ends has the property. *)
Definition outcome_has (P : State → Prop) (r : Res) : Prop :=
  match r with
  | Done s' | Throw _ s' => P s'
  | OutOfFuel => True
  end.

(** * The instance state set up at creation: props, methods, data, computed
    properties and watch declarations

    The second module of the source file: [proxy], [initState] and the
    functions it calls, [defineComputed], [createWatcher] and [$watch].
    JavaScript objects live in a heap; the instance [vm], its [$options] and
    the objects of the options are heap objects, so that a write through
    one reference is seen through every other.  A function imported from
    another module is a parameter of the environment when the module uses
    what it returns, and an event of the trace when it is called for its
    effect; functions of the component (the data function, setters, watch
    callbacks) are treated in the same way.

    The embedding follows the module on the states in which the instance's
    [_init] calls it: [vm] and [vm.$options] are objects, the options are
    primitive values, functions, arrays or plain objects that inherit
    nothing enumerable, and what the module reads from [vm.$options] and
    from the objects of the options are data properties.  A property that
    [defineReactive] defines is kept as a data property with its value: its
    reactive getter and setter belong to the observer module, and of the
    custom setter that [initProps] hands over in development only the
    presence is recorded, as it runs when a prop is assigned to after the
    set-up. *)

Module StateJs.

Definition dquote : string := String "034"%char EmptyString.
Definition newline : string := String "010"%char EmptyString.

(** ** Values *)

Definition Ref := nat.
Definition Err := string.

(** Function objects, as far as the module tells them apart. *)
Inductive Func :=
| UserFunction (n : nat)          (* a function of the component, by number *)
| Noop                            (* [noop] of shared/util *)
| Bound (f : Func)                (* [bind(f, vm)] *)
| Unwatch (watcher : nat).        (* [function unwatchFn () { watcher.teardown() }] *)

Inductive Value :=
| VUndefined
| VNull
| VBool (b : bool)
| VNumber (n : Z)
| VString (s : string)
| VFunction (f : Func)
| VWatcher (id : nat)             (* a Watcher instance *)
| VArray (r : Ref)
| VObject (r : Ref).              (* a plain object *)

Arguments UserFunction n%_nat.
Arguments Unwatch watcher%_nat.
Arguments VWatcher id%_nat.
Arguments VArray r%_nat.
Arguments VObject r%_nat.

#[global] Instance Func_eq_dec : EqDecision Func.
Proof. solve_decision. Defined.

#[global] Instance Value_eq_dec : EqDecision Value.
Proof. solve_decision. Defined.

(** The value is truthy (there is no NaN among the values). *)
Definition truthy (v : Value) : bool :=
  match v with
  | VUndefined | VNull | VBool false | VNumber 0 | VString EmptyString => false
  | _ => true
  end.

(** [typeof v] *)
Definition typeof (v : Value) : string :=
  match v with
  | VUndefined => "undefined"
  | VNull | VWatcher _ | VArray _ | VObject _ => "object"
  | VBool _ => "boolean"
  | VNumber _ => "number"
  | VString _ => "string"
  | VFunction _ => "function"
  end.

Definition is_function (v : Value) : bool :=
  match v with VFunction _ => true | _ => false end.

(** [isPlainObject(v)], of shared/util: objects whose class is [Object]. *)
Definition isPlainObject (v : Value) : bool :=
  match v with VObject _ => true | _ => false end.

(** [v1 || v2] *)
Definition or_else (v1 v2 : Value) : Value := if truthy v1 then v1 else v2.

(** ** Properties and objects *)

(** The functions that this module makes into getters and setters. *)
Inductive Getter :=
| GetNoop
| ProxyGetter (sourceKey key : string)   (* [return this[sourceKey][key]] *)
| ComputedGetter (key : string)          (* [createComputedGetter(key)] *)
| GetterInvoker (fn : Value).            (* [createGetterInvoker(fn)] *)

Inductive Setter :=
| SetNoop
| ProxySetter (sourceKey key : string)   (* [this[sourceKey][key] = val] *)
| UserSetter (fn : Value)                (* [userDef.set] *)
| NoSetterWarning (key : string).        (* warns that [key] has no setter *)

Record PropertyDescriptor := mkDescriptor {
  enumerable : bool;
  configurable : bool;
  get : Getter;
  set : Setter
}.

Inductive Property :=
| Data (v : Value)
| Accessor (d : PropertyDescriptor).

(** An object's own properties, in the order in which [Object.keys] and
    [for ... in] list them; an array's elements. *)
Inductive Cell :=
| Plain (props : list (string * Property))
| Elements (vs : list Value).

(** Calls of functions of other modules, and of functions of the component,
    in the order in which they are made. *)
Inductive Ev :=
| Warn (msg : string)                                  (* [warn(msg, vm)], [warn(msg)] *)
| HandleError (e : Err) (info : string)                (* [handleError(e, vm, info)] *)
| Observe (v : Value)                                  (* [observe(v, true)] *)
| DefineReactive (obj : Ref) (key : string) (v : Value) (customSetter : bool)
| ToggleObserving (b : bool)
| PushTarget
| PopTarget
| CallData (f : Func)                                  (* [data.call(vm, vm)] *)
| NewWatcher (id : nat) (expOrFn cb : Value) (options : list (string * Property))
| InvokeWithErrorHandling (cb arg : Value) (info : string)
| CallSetter (fn v : Value).                           (* a setter of the component *)

Arguments DefineReactive obj%_nat key v customSetter.

Record World := mkWorld {
  heap : list Cell;
  sharedPropertyDefinition : PropertyDescriptor;
  nwatchers : nat;                       (* Watcher instances created so far *)
  trace : list Ev
}.

Definition set_heap (x : list Cell) (w : World) : World :=
  mkWorld x (sharedPropertyDefinition w) (nwatchers w) (trace w).
Definition set_shared (x : PropertyDescriptor) (w : World) : World :=
  mkWorld (heap w) x (nwatchers w) (trace w).
Definition set_nwatchers (x : nat) (w : World) : World :=
  mkWorld (heap w) (sharedPropertyDefinition w) x (trace w).
Definition emit (e : Ev) (w : World) : World :=
  mkWorld (heap w) (sharedPropertyDefinition w) (nwatchers w) (trace w ++ [e]).

(** [sharedPropertyDefinition] as the module creates it. *)
Definition shared0 : PropertyDescriptor := mkDescriptor true true GetNoop SetNoop.

(** The outcome of a function that can throw, or whose recursion the model
    bounds by fuel. *)
Inductive Result (A : Type) :=
| Ok (a : A) (w : World)
| Throws (e : Err) (w : World)
| OutOfFuel.
Arguments Ok {A} a w.
Arguments Throws {A} e w.
Arguments OutOfFuel {A}.

Definition bind {A B} (r : Result A) (k : A → World → Result B) : Result B :=
  match r with
  | Ok a w => k a w
  | Throws e w => Throws e w
  | OutOfFuel => OutOfFuel
  end.

(** *** Own properties *)

Fixpoint lookup_key (k : string) (ps : list (string * Property)) : option Property :=
  match ps with
  | [] => None
  | (k', p) :: ps => if decide (k' = k) then Some p else lookup_key k ps
  end.

(** Writing a property keeps the place of a key that exists and appends a
    new one. *)
Fixpoint update_key (k : string) (p : Property) (ps : list (string * Property))
  : list (string * Property) :=
  match ps with
  | [] => [(k, p)]
  | (k', p') :: ps => if decide (k' = k) then (k, p) :: ps else (k', p') :: update_key k p ps
  end.

Definition props_of (w : World) (r : Ref) : list (string * Property) :=
  match heap w !! r with
  | Some (Plain ps) => ps
  | _ => []
  end.

Definition own (w : World) (r : Ref) (k : string) : option Property :=
  lookup_key k (props_of w r).

(** [obj[k]] where [obj] is an object and the property is an own data
    property, or there is none; every other read gives [undefined] (the
    places where the module reads from what can be [null] or [undefined], or
    through an accessor, use [member] and [Get]). *)
Definition read (w : World) (obj : Value) (k : string) : Value :=
  match obj with
  | VObject r =>
      match own w r k with
      | Some (Data v) => v
      | _ => VUndefined
      end
  | _ => VUndefined
  end.

(** [hasOwn(obj, k)] *)
Definition hasOwn (w : World) (obj : Value) (k : string) : bool :=
  match obj with
  | VObject r => bool_decide (is_Some (own w r k))
  | _ => false
  end.

(** [Object.keys(obj)], which is also the order of [for (const key in obj)]
    over a plain object that inherits nothing enumerable; the results below
    are about options that are plain objects. *)
Definition keys (w : World) (obj : Value) : list string :=
  match obj with
  | VObject r => map fst (props_of w r)
  | _ => []
  end.

Definition write_own (r : Ref) (k : string) (p : Property) (w : World) : World :=
  set_heap (<[r := Plain (update_key k p (props_of w r))]> (heap w)) w.

(** [Object.defineProperty(obj, k, d)] for an accessor descriptor; every
    property the module redefines is configurable. *)
Definition defineProperty (r : Ref) (k : string) (d : PropertyDescriptor) (w : World)
  : World :=
  write_own r k (Accessor d) w.

(** [{}], [[]] and [Object.create(null)]: a new object. *)
Definition alloc (c : Cell) (w : World) : Ref * World :=
  (length (heap w), set_heap (heap w ++ [c]) w).

(** [arr.push(v)] *)
Definition push (arr : Ref) (v : Value) (w : World) : World :=
  match heap w !! arr with
  | Some (Elements vs) => set_heap (<[arr := Elements (vs ++ [v])]> (heap w)) w
  | _ => w
  end.

Definition elements (w : World) (v : Value) : list Value :=
  match v with
  | VArray r => match heap w !! r with Some (Elements vs) => vs | _ => [] end
  | _ => []
  end.

(** ** The environment *)

Record Env := mkEnv {
  production : bool;                    (* process.env.NODE_ENV === 'production' *)
  isServerRendering : bool;
  isReserved : string → bool;           (* of util/lang *)
  hyphenate : string → string;
  isReservedAttribute : string → bool;
  config_isReservedAttr : string → bool;
  validateProp : string → Value;        (* validateProp(key, propsOptions, propsData, vm),
                                           the last three the same in every call *)
  call_data : Func → Value + Err;       (* what [data.call(vm, vm)] returns or throws *)
  vm_prototype : string → option Property;  (* what vm inherits under a key *)
  object_inherits : string → bool;      (* the key is on [Object.prototype] *)
  getter_value : Getter → Value;        (* what a getter that calls outside code returns *)
  nativeWatch : Value;                  (* [({}).watch] *)
  watcher_value : nat → Value;          (* [watcher.value] *)
  watcher_expression : nat → string     (* [watcher.expression] *)
}.

Section Program.
Context (E : Env).
Context (vm : Ref).

Definition warn (msg : string) (w : World) : World :=
  emit (Warn msg) w.

Definition handleError (e : Err) (info : string) (w : World) : World :=
  emit (HandleError e info) w.

Definition observe (v : Value) (w : World) : World :=
  emit (Observe v) w.

(** [defineReactive(obj, key, val, customSetter)]: the property is defined on
    [obj] with the value; what makes it reactive is outside the module. *)
Definition defineReactive (obj : Ref) (key : string) (v : Value) (customSetter : bool)
    (w : World) : World :=
  emit (DefineReactive obj key v customSetter) (write_own obj key (Data v) w).

(** The property found under [key] on [this] or, for [vm], on its
    prototype chain. *)
Definition find (w : World) (this : Ref) (key : string) : option Property :=
  match own w this key with
  | Some p => Some p
  | None => if decide (this = vm) then vm_prototype E key else None
  end.

(** [key in vm] *)
Definition in_vm (w : World) (key : string) : bool :=
  bool_decide (is_Some (find w vm key)).

(** [key in obj]: an own property of a plain object or a property of
    [Object.prototype]; own properties of arrays, functions and watchers are
    not followed.  The operator throws on values that are not objects. *)
Definition in_object (w : World) (obj : Value) (key : string) : option bool :=
  match obj with
  | VObject _ => Some (hasOwn w obj key || object_inherits E key)
  | VArray _ | VFunction _ | VWatcher _ => Some (object_inherits E key)
  | _ => None
  end.

(** A getter called on [this]: a proxy reads the property of the source
    object, taken to be a data property; the other getters call code outside
    the module. *)
Definition run_getter (w : World) (this : Ref) (g : Getter) : Value :=
  match g with
  | ProxyGetter sourceKey key => read w (read w (VObject this) sourceKey) key
  | _ => getter_value E g
  end.

(** [this[key]] *)
Definition Get (w : World) (this : Ref) (key : string) : Value :=
  match find w this key with
  | Some (Data v) => v
  | Some (Accessor d) => run_getter w this (get d)
  | None => VUndefined
  end.

Definition no_setter_warning (key : string) : string :=
  "Computed property " ++ dquote ++ key ++ dquote
  ++ " was assigned to but it has no setter.".

(** A setter called on [this] with [v]; a proxy writes the property of the
    source object, taken to be a data property or absent. *)
Definition run_setter (this : Ref) (s : Setter) (v : Value) (w : World) : World :=
  match s with
  | SetNoop => w
  | ProxySetter sourceKey key =>
      match read w (VObject this) sourceKey with
      | VObject r => write_own r key (Data v) w
      | _ => w
      end
  | UserSetter fn => emit (CallSetter fn v) w
  | NoSetterWarning key => warn (no_setter_warning key) w
  end.

(** [this[key] = v]: an accessor, own or inherited, gets the value; otherwise
    the value is written on [this]. *)
Definition assign (this : Ref) (key : string) (v : Value) (w : World) : World :=
  match find w this key with
  | Some (Accessor d) => run_setter this (set d) v w
  | _ => write_own this key (Data v) w
  end.

(** ** proxy *)

Definition proxy (target : Ref) (sourceKey key : string) (w : World) : World :=
  let d := sharedPropertyDefinition w in
  let w := set_shared (mkDescriptor (enumerable d) (configurable d)
                         (ProxyGetter sourceKey key) (set d)) w in
  let d := sharedPropertyDefinition w in
  let w := set_shared (mkDescriptor (enumerable d) (configurable d)
                         (get d) (ProxySetter sourceKey key)) w in
  defineProperty target key (sharedPropertyDefinition w) w.

(** ** initProps *)

Definition reserved_prop_warning (hyphenatedKey : string) : string :=
  dquote ++ hyphenatedKey ++ dquote
  ++ " is a reserved attribute and cannot be used as component prop.".

(** One turn of the loop of [initProps]. *)
Definition initProps_key (props keys : Ref) (key : string) (w : World) : World :=
  let w := push keys (VString key) w in
  let value := validateProp E key in
  let w :=
    if negb (production E) then
      let hyphenatedKey := hyphenate E key in
      let w :=
        if isReservedAttribute E hyphenatedKey || config_isReservedAttr E hyphenatedKey
        then warn (reserved_prop_warning hyphenatedKey) w
        else w in
      defineReactive props key value true w
    else defineReactive props key value false w in
  if negb (in_vm w key) then proxy vm "_props" key w else w.

Definition initProps (propsOptions : Value) (w : World) : World :=
  let opts := read w (VObject vm) "$options" in
  let '(propsData, w) :=
    if truthy (read w opts "propsData") then (read w opts "propsData", w)
    else let '(o, w) := alloc (Plain []) w in (VObject o, w) in
  let '(props, w) := alloc (Plain []) w in
  let w := assign vm "_props" (VObject props) w in
  let '(keys, w) := alloc (Elements []) w in
  let w :=
    match opts with
    | VObject o => assign o "_propKeys" (VArray keys) w
    | _ => w
    end in
  let isRoot := negb (truthy (read w (VObject vm) "$parent")) in
  let w := if negb isRoot then emit (ToggleObserving false) w else w in
  let w := foldl (λ w key, initProps_key props keys key w) w (StateJs.keys w propsOptions) in
  emit (ToggleObserving true) w.

(** ** initData and getData *)

Definition getData (data : Func) (w : World) : Value * World :=
  let w := emit PushTarget w in
  let w := emit (CallData data) w in
  match call_data E data with
  | inl v => (v, emit PopTarget w)
  | inr e =>
      let w := handleError e "data()" w in
      let '(o, w) := alloc (Plain []) w in
      (VObject o, emit PopTarget w)
  end.

Definition data_not_object_warning : string :=
  "data functions should return an object:" ++ newline
  ++ "https://vuejs.org/v2/guide/components.html#data-Must-Be-a-Function".

Definition method_data_warning (key : string) : string :=
  "Method " ++ dquote ++ key ++ dquote ++ " has already been defined as a data property.".

Definition data_prop_warning (key : string) : string :=
  "The data property " ++ dquote ++ key ++ dquote ++ " is already declared as a prop. "
  ++ "Use prop default value instead.".

(** The body of the loop of [initData] for one key. *)
Definition initData_key (props methods : Value) (key : string) (w : World) : World :=
  let w :=
    if negb (production E) then
      if truthy methods && hasOwn w methods key
      then warn (method_data_warning key) w
      else w
    else w in
  if truthy props && hasOwn w props key then
    (if negb (production E) then warn (data_prop_warning key) w else w)
  else if negb (isReserved E key) then proxy vm "_data" key w
  else w.

(** [let i = keys.length; while (i--) { const key = keys[i]; ... }] *)
Fixpoint initData_from (keys : list string) (props methods : Value) (i : nat)
    (w : World) : World :=
  match i with
  | O => w
  | S i =>
      match keys !! i with
      | None => w
      | Some key => initData_from keys props methods i (initData_key props methods key w)
      end
  end.

Definition initData (w : World) : World :=
  let data := read w (read w (VObject vm) "$options") "data" in
  let '(data, w) :=
    match data with
    | VFunction f => getData f w
    | _ =>
        if truthy data then (data, w)
        else let '(o, w) := alloc (Plain []) w in (VObject o, w)
    end in
  let w := assign vm "_data" data w in
  let '(data, w) :=
    if negb (isPlainObject data) then
      let '(o, w) := alloc (Plain []) w in
      (VObject o, if negb (production E) then warn data_not_object_warning w else w)
    else (data, w) in
  let keys := StateJs.keys w data in
  let props := read w (read w (VObject vm) "$options") "props" in
  let methods := read w (read w (VObject vm) "$options") "methods" in
  let w := initData_from keys props methods (length keys) w in
  observe data w.

(** ** Computed properties *)

(** [{ lazy: true }] *)
Definition computedWatcherOptions : list (string * Property) :=
  [("lazy", Data (VBool true))].

(** [new Watcher(vm, expOrFn, cb, options)]; the instances are numbered in
    the order in which they are created. *)
Definition newWatcher (expOrFn cb : Value) (options : list (string * Property))
    (w : World) : nat * World :=
  let id := nwatchers w in
  (id, emit (NewWatcher id expOrFn cb options) (set_nwatchers (S id) w)).

Definition set_get (g : Getter) (w : World) : World :=
  let d := sharedPropertyDefinition w in
  set_shared (mkDescriptor (enumerable d) (configurable d) g (set d)) w.

Definition set_set (s : Setter) (w : World) : World :=
  let d := sharedPropertyDefinition w in
  set_shared (mkDescriptor (enumerable d) (configurable d) (get d) s) w.

(** The setter that a function value makes; [noop] is told apart because
    [defineComputed] compares with it. *)
Definition setter_of (v : Value) : Setter :=
  match v with
  | VFunction Noop => SetNoop
  | _ => UserSetter v
  end.

#[global] Instance Getter_eq_dec : EqDecision Getter.
Proof. solve_decision. Defined.

#[global] Instance Setter_eq_dec : EqDecision Setter.
Proof. solve_decision. Defined.

(** [userDef.get], which throws when [userDef] is [null] or [undefined]. *)
Definition member (w : World) (obj : Value) (k : string) : option Value :=
  match obj with
  | VUndefined | VNull => None
  | _ => Some (read w obj k)
  end.

Definition defineComputed (target : Ref) (key : string) (userDef : Value) (w : World)
  : Result unit :=
  let shouldCache := negb (isServerRendering E) in
  bind
    (if is_function userDef then
       let w := set_get (if shouldCache then ComputedGetter key
                         else GetterInvoker userDef) w in
       Ok tt (set_set SetNoop w)
     else
       match member w userDef "get" with
       | None => Throws "TypeError" w
       | Some g =>
           let w :=
             set_get
               (if truthy g then
                  if shouldCache
                     && negb (bool_decide (read w userDef "cache" = VBool false))
                  then ComputedGetter key
                  else GetterInvoker g
                else GetNoop) w in
           Ok tt (set_set (setter_of (or_else (read w userDef "set") (VFunction Noop))) w)
       end)
    (λ _ w,
       let w :=
         if negb (production E)
            && bool_decide (set (sharedPropertyDefinition w) = SetNoop)
         then set_set (NoSetterWarning key) w
         else w in
       Ok tt (defineProperty target key (sharedPropertyDefinition w) w)).

Definition getter_missing_warning (key : string) : string :=
  "Getter is missing for computed property " ++ dquote ++ key ++ dquote ++ ".".

Definition computed_defined_warning (key where_ : string) : string :=
  "The computed property " ++ dquote ++ key ++ dquote ++ " is already defined " ++ where_.

(** [obj && key in obj] *)
Definition and_in (w : World) (obj : Value) (key : string) : option bool :=
  if truthy obj then in_object w obj key else Some false.

(** The warnings of [initComputed] for a key that is on [vm] already. *)
Definition computed_clash (key : string) (w : World) : Result unit :=
  let opts := read w (VObject vm) "$options" in
  match in_object w (read w (VObject vm) "_data") key with
  | None => Throws "TypeError" w
  | Some true => Ok tt (warn (computed_defined_warning key "in data.") w)
  | Some false =>
      match and_in w (read w opts "props") key with
      | None => Throws "TypeError" w
      | Some true => Ok tt (warn (computed_defined_warning key "as a prop.") w)
      | Some false =>
          match and_in w (read w opts "methods") key with
          | None => Throws "TypeError" w
          | Some true => Ok tt (warn (computed_defined_warning key "as a method.") w)
          | Some false => Ok tt w
          end
      end
  end.

(** One turn of the loop of [initComputed]. *)
Definition initComputed_key (watchers : Ref) (computed : Value) (key : string)
    (w : World) : Result unit :=
  let userDef := read w computed key in
  match (if is_function userDef then Some userDef else member w userDef "get") with
  | None => Throws "TypeError" w
  | Some getter =>
      let w :=
        if negb (production E) && negb (bool_decide (getter ≠ VUndefined ∧ getter ≠ VNull))
        then warn (getter_missing_warning key) w
        else w in
      let w :=
        if negb (isServerRendering E) then
          let '(id, w) :=
            newWatcher (or_else getter (VFunction Noop)) (VFunction Noop)
              computedWatcherOptions w in
          write_own watchers key (Data (VWatcher id)) w
        else w in
      if negb (in_vm w key) then defineComputed vm key userDef w
      else if negb (production E) then computed_clash key w
      else Ok tt w
  end.

(** A loop over keys whose body can throw. *)
Fixpoint for_each {A} (body : A → World → Result unit) (l : list A) (w : World)
  : Result unit :=
  match l with
  | [] => Ok tt w
  | a :: l => bind (body a w) (λ _ w, for_each body l w)
  end.

Definition initComputed (computed : Value) (w : World) : Result unit :=
  let '(watchers, w) := alloc (Plain []) w in
  let w := assign vm "_computedWatchers" (VObject watchers) w in
  for_each (initComputed_key watchers computed) (StateJs.keys w computed) w.

(** ** initMethods *)

Definition method_type_warning (key : string) (v : Value) : string :=
  "Method " ++ dquote ++ key ++ dquote ++ " has type " ++ dquote ++ typeof v ++ dquote
  ++ " in the component definition. " ++ "Did you reference the function correctly?".

Definition method_prop_warning (key : string) : string :=
  "Method " ++ dquote ++ key ++ dquote ++ " has already been defined as a prop.".

Definition method_reserved_warning (key : string) : string :=
  "Method " ++ dquote ++ key ++ dquote ++ " conflicts with an existing Vue instance method. "
  ++ "Avoid defining component methods that start with _ or $.".

(** [bind(fn, vm)] *)
Definition bind_vm (v : Value) : Value :=
  match v with
  | VFunction f => VFunction (Bound f)
  | _ => v
  end.

Definition initMethods_key (props methods : Value) (key : string) (w : World) : World :=
  let w :=
    if negb (production E) then
      let w :=
        if negb (is_function (read w methods key))
        then warn (method_type_warning key (read w methods key)) w
        else w in
      let w :=
        if truthy props && hasOwn w props key
        then warn (method_prop_warning key) w
        else w in
      if in_vm w key && isReserved E key
      then warn (method_reserved_warning key) w
      else w
    else w in
  assign vm key
    (if negb (is_function (read w methods key)) then VFunction Noop
     else bind_vm (read w methods key)) w.

Definition initMethods (methods : Value) (w : World) : World :=
  let props := read w (read w (VObject vm) "$options") "props" in
  foldl (λ w key, initMethods_key props methods key w) w (StateJs.keys w methods).

(** ** Watch declarations *)

Definition immediate_info (expression : string) : string :=
  "callback for immediate watcher " ++ dquote ++ expression ++ dquote.

(** [createWatcher] and [Vue.prototype.$watch], which call each other; the
    fuel bounds the nesting.  [options] is [undefined] or a plain object. *)
Fixpoint createWatcher (n : nat) (expOrFn handler : Value) (options : option Ref)
    (w : World) {struct n} : Result Value :=
  match n with
  | O => OutOfFuel
  | S n =>
      let '(handler, options) :=
        match handler with
        | VObject r => (read w handler "handler", Some r)
        | _ => (handler, options)
        end in
      let handler :=
        match handler with
        | VString name => Get w vm name
        | _ => handler
        end in
      dollar_watch n expOrFn handler options w
  end
with dollar_watch (n : nat) (expOrFn cb : Value) (options : option Ref) (w : World)
    {struct n} : Result Value :=
  match n with
  | O => OutOfFuel
  | S n =>
      if isPlainObject cb then createWatcher n expOrFn cb options w
      else
        let '(options, w) :=
          match options with
          | Some r => (r, w)
          | None => alloc (Plain []) w
          end in
        let w := write_own options "user" (Data (VBool true)) w in
        let '(watcher, w) := newWatcher expOrFn cb (props_of w options) w in
        let w :=
          if truthy (read w (VObject options) "immediate") then
            let info := immediate_info (watcher_expression E watcher) in
            let w := emit PushTarget w in
            let w := emit (InvokeWithErrorHandling cb (watcher_value E watcher) info) w in
            emit PopTarget w
          else w in
        Ok (VFunction (Unwatch watcher)) w
  end.

Definition initWatch_key (n : nat) (watch : Value) (key : string) (w : World)
  : Result unit :=
  let handler := read w watch key in
  match handler with
  | VArray _ =>
      for_each (λ h w, bind (createWatcher n (VString key) h None w) (λ _ w, Ok tt w))
        (elements w handler) w
  | _ => bind (createWatcher n (VString key) handler None w) (λ _ w, Ok tt w)
  end.

Definition initWatch (n : nat) (watch : Value) (w : World) : Result unit :=
  for_each (initWatch_key n watch) (StateJs.keys w watch) w.

(** ** initState *)

Definition initState (n : nat) (w : World) : Result unit :=
  let '(arr, w) := alloc (Elements []) w in
  let w := assign vm "_watchers" (VArray arr) w in
  let opts := read w (VObject vm) "$options" in
  let w := if truthy (read w opts "props") then initProps (read w opts "props") w else w in
  let w :=
    if truthy (read w opts "methods") then initMethods (read w opts "methods") w else w in
  let w :=
    if truthy (read w opts "data") then initData w
    else
      let '(o, w) := alloc (Plain []) w in
      observe (VObject o) (assign vm "_data" (VObject o) w) in
  bind
    (if truthy (read w opts "computed") then initComputed (read w opts "computed") w
     else Ok tt w)
    (λ _ w,
       if truthy (read w opts "watch")
          && negb (bool_decide (read w opts "watch" = nativeWatch E))
       then initWatch n (read w opts "watch") w
       else Ok tt w).

End Program.

(** ** Notions used to state results about the module *)

(** [r] is an object of the heap. *)
Definition is_object (w : World) (r : Ref) : Prop := ∃ ps, heap w !! r = Some (Plain ps).

(** The property that [proxy] defines. *)
Definition proxy_property (sh : PropertyDescriptor) (sourceKey key : string) : Property :=
  Accessor (mkDescriptor (enumerable sh) (configurable sh)
              (ProxyGetter sourceKey key) (ProxySetter sourceKey key)).

(** What [initData] takes as the data when the [data] option gives a value:
    the option itself, or what the function returns. *)
Definition data_source (E : Env) (option_ : Value) : option Value :=
  match option_ with
  | VFunction f =>
      match call_data E f with
      | inl v => Some v
      | inr _ => None
      end
  | v => if truthy v then Some v else None
  end.

(** What getting the data adds to the trace. *)
Definition data_events (E : Env) (option_ : Value) : list Ev :=
  match option_ with
  | VFunction f =>
      [PushTarget; CallData f]
      ++ match call_data E f with
         | inl _ => []
         | inr e => [HandleError e "data()"]
         end
      ++ [PopTarget]
  | _ => []
  end.

(** The first step of [initData]: the data is taken from the option. *)
Definition take_data (E : Env) (vm : Ref) (w : World) : Value * World :=
  let data := read w (read w (VObject vm) "$options") "data" in
  match data with
  | VFunction f => getData E f w
  | _ =>
      if truthy data then (data, w)
      else let '(o, w) := alloc (Plain []) w in (VObject o, w)
  end.

(** Objects other than [vm] are the same in both worlds. *)
Definition same_elsewhere (vm : Ref) (w w' : World) : Prop :=
  ∀ r, r ≠ vm → heap w' !! r = heap w !! r.

(** The key is a prop, or a method. *)
Definition declared_in (w : World) (obj : Value) (key : string) : bool :=
  truthy obj && hasOwn w obj key.

(** The warnings of the loop of [initData], which takes the keys from the
    last to the first. *)
Definition initData_warnings (E : Env) (w : World) (props methods : Value)
    (keys : list string) : list Ev :=
  if production E then []
  else
    flat_map
      (λ k, (if declared_in w methods k then [Warn (method_data_warning k)] else [])
            ++ (if declared_in w props k then [Warn (data_prop_warning k)] else []))
      (reverse keys).

(** What [initMethods] puts on [vm] for a method declared with the value [v]. *)
Definition method_value (v : Value) : Value :=
  if is_function v then bind_vm v else VFunction Noop.

(** The warnings of [initMethods] for the keys [ks], from the world in which
    it starts. *)
Definition initMethods_warnings (E : Env) (vm : Ref) (w : World) (props methods : Value)
    (ks : list string) : list Ev :=
  if production E then []
  else
    flat_map
      (λ key,
         (if is_function (read w methods key) then []
          else [Warn (method_type_warning key (read w methods key))])
         ++ (if declared_in w props key then [Warn (method_prop_warning key)] else [])
         ++ (if in_vm E vm w key && isReserved E key
             then [Warn (method_reserved_warning key)] else []))
      ks.

(** The environment with the build chosen. *)
Definition with_production (b : bool) (E : Env) : Env :=
  mkEnv b (isServerRendering E) (isReserved E) (hyphenate E) (isReservedAttribute E)
    (config_isReservedAttr E) (validateProp E) (call_data E) (vm_prototype E)
    (object_inherits E) (getter_value E) (nativeWatch E) (watcher_value E)
    (watcher_expression E).

Definition production_build (E : Env) : Env := with_production true E.
Definition development_build (E : Env) : Env := with_production false E.

Definition is_warning (e : Ev) : bool :=
  match e with Warn _ => true | _ => false end.

Definition without_warnings (t : list Ev) : list Ev :=
  List.filter (λ e, negb (is_warning e)) t.

(** The two worlds have the same objects, the same shared descriptor and the
    same watchers, and the same calls were made apart from the warnings. *)
Definition same_but_warnings (w w' : World) : Prop :=
  heap w = heap w' ∧
  sharedPropertyDefinition w = sharedPropertyDefinition w' ∧
  nwatchers w = nwatchers w' ∧
  without_warnings (trace w) = without_warnings (trace w').

(** The world in which a function ends, returning or throwing. *)
Definition world_of {A} (r : Result A) : option World :=
  match r with
  | Ok _ w | Throws _ w => Some w
  | OutOfFuel => None
  end.

(** The watchers created in a trace: the instance and its options. *)
Definition watchers_in (t : list Ev) : list (nat * list (string * Property)) :=
  omap (λ e, match e with
             | NewWatcher id _ _ options => Some (id, options)
             | _ => None
             end) t.

(** The setter that a computed property is declared with; [noop] when it
    has none. *)
Definition declared_setter (w : World) (userDef : Value) : Value :=
  if is_function userDef then VFunction Noop
  else or_else (read w userDef "set") (VFunction Noop).

(** The callback that a declaration object names: its [handler], looked up
    on [vm] when it is a string. *)
Definition declared_callback (E : Env) (vm : Ref) (w : World) (r : Ref) : Value :=
  match read w (VObject r) "handler" with
  | VString name => Get E vm w vm name
  | h => h
  end.

(** The call of the callback of an immediate watcher. *)
Definition immediate_call (E : Env) (cb : Value) (watcher : nat) : list Ev :=
  [PushTarget;
   InvokeWithErrorHandling cb (watcher_value E watcher)
     (immediate_info (watcher_expression E watcher));
   PopTarget].

(** The handlers declared for a key of [watch]: the elements of an array, or
    the value itself. *)
Definition handlers_of (w : World) (watch : Value) (key : string) : list Value :=
  match read w watch key with
  | VArray r => elements w (VArray r)
  | h => [h]
  end.

(** The value is none that the [in] operator accepts on its right. *)
Definition not_an_object (v : Value) : bool :=
  match v with
  | VUndefined | VNull | VBool _ | VNumber _ | VString _ => true
  | _ => false
  end.

(** The options that [$watch] makes when it is given none. *)
Definition user_options : list (string * Property) := [("user", Data (VBool true))].

(** What one turn of the loop of [initProps] adds to the trace. *)
Definition initProps_events (E : Env) (props : Ref) (key : string) : list Ev :=
  (if negb (production E)
      && (isReservedAttribute E (hyphenate E key) || config_isReservedAttr E (hyphenate E key))
   then [Warn (reserved_prop_warning (hyphenate E key))] else [])
  ++ [DefineReactive props key (validateProp E key) (negb (production E))].

(** ** A component used as an example

    The instance is object 0 and its options object 1; the options declare a
    prop, two methods (one of them not a function), data given by a function,
    two computed properties and watch declarations. *)

(** [isReserved] of util/lang: the key starts with [$] or [_]. *)
Definition starts_reserved (s : string) : bool :=
  match s with
  | String c _ => bool_decide (c = "$"%char) || bool_decide (c = "_"%char)
  | EmptyString => false
  end.

Definition sample_env (prod ssr : bool) : Env :=
  mkEnv prod ssr starts_reserved (λ s, s) (λ s, bool_decide (s = "key")) (λ _, false)
    (λ k, VString k)
    (λ f, match f with
          | UserFunction O => inl (VObject 4)
          | UserFunction (S O) => inl (VNumber 7)
          | _ => inr "boom"
          end)
    (λ _, None) (λ k, bool_decide (k = "toString")) (λ _, VUndefined) VUndefined
    (λ id, VNumber (Z.of_nat id)) (λ _, "count").

(** The objects of the component, with the [data] option given. *)
Definition sample_heap (data : Value) : list Cell :=
  [ Plain [("$options", Data (VObject 1))];
    Plain [("props", Data (VObject 2)); ("methods", Data (VObject 3));
           ("data", Data data);
           ("computed", Data (VObject 5)); ("watch", Data (VObject 8))];
    Plain [("title", Data VNull)];
    Plain [("greet", Data (VFunction (UserFunction 1))); ("count", Data (VNumber 3))];
    Plain [("count", Data (VNumber 0)); ("title", Data (VString "x"));
           ("_secret", Data VNull)];
    Plain [("double", Data (VFunction (UserFunction 2))); ("full", Data (VObject 6))];
    Plain [("get", Data (VFunction (UserFunction 3)));
           ("set", Data (VFunction (UserFunction 4)))];
    Plain [("handler", Data (VString "greet")); ("immediate", Data (VBool true))];
    Plain [("count", Data (VObject 7)); ("title", Data (VArray 9))];
    Elements [VFunction (UserFunction 5); VString "greet"];
    Plain [("count", Data (VFunction (UserFunction 6))); ("title", Data (VArray 11))];
    Elements [VFunction (UserFunction 7); VFunction (UserFunction 8)] ].

Definition sample_world (data : Value) : World := mkWorld (sample_heap data) shared0 0 [].

(** The instance already has a property named as a computed property, and
    its data function returned a number. *)
Definition clash_world : World :=
  mkWorld
    (<[0%nat := Plain [("$options", Data (VObject 1)); ("_data", Data (VNumber 7));
                       ("double", Data (VNumber 1))]]>
       (sample_heap (VFunction (UserFunction 1))))
    shared0 0 [].

(** A component whose options declare a prop, methods and data only. *)
Definition plain_world : World :=
  mkWorld
    [ Plain [("$options", Data (VObject 1))];
      Plain [("props", Data (VObject 2)); ("methods", Data (VObject 3));
             ("data", Data (VFunction (UserFunction 0)))];
      Plain [("title", Data VNull)];
      Plain [("greet", Data (VFunction (UserFunction 1))); ("count", Data (VNumber 3))];
      Plain [("count", Data (VNumber 0)); ("title", Data (VString "x"));
             ("_secret", Data VNull)] ]
    shared0 0 [].

(** An instance with its data object, before the proxies are defined. *)
Definition bare_world : World :=
  mkWorld [Plain [("_data", Data (VObject 1))]; Plain [("count", Data (VNumber 0))]]
    shared0 0 [].

(** A watch declaration whose handler is the declaration itself. *)
Definition looping_world : World :=
  mkWorld [Plain []; Plain [("handler", Data (VObject 1))]] shared0 0 [].

End StateJs.

(** ** Fuel: more of it never changes a result *)


Lemma below_refl r : below r r.
Proof. by right. Qed.

Lemma below_oof r : below OutOfFuel r.
Proof. by left. Qed.

Lemma below_trans r1 r2 r3 : below r1 r2 → below r2 r3 → below r1 r3.
Proof. intros [-> | ->] [-> | ->]; unfold below; auto. Qed.

Lemma below_bind r r' k k' :
  below r r' → (∀ s, below (k s) (k' s)) → below (bind r k) (bind r' k').
Proof.
  intros [-> | ->] Hk; [apply below_oof|].
  destruct r; simpl; auto using below_refl.
Qed.

Create HintDb fuel.
#[local] Hint Resolve below_refl below_oof below_bind : fuel.

Section Fuel.
Context (E : Env).

Lemma exec_calls_below f g cs s :
    (∀ c s, below (f c s) (g c s)) →
    below (exec_calls f cs s) (exec_calls g cs s).
  Proof.
    intros Hfg. revert s. induction cs as [|c cs IH]; intros s; simpl; auto with fuel.
  Qed.

Lemma exec_body_below f g b s :
    (∀ c s, below (f c s) (g c s)) →
    below (exec_body f b s) (exec_body g b s).
  Proof.
    intros Hfg. unfold exec_body. apply below_bind; [by apply exec_calls_below|].
    intros; apply below_refl.
  Qed.

Lemma flush_iteration_below ex ex' k k' w s :
    (∀ b s, below (ex b s) (ex' b s)) →
    (∀ s, below (k s) (k' s)) →
    below (flush_iteration E ex k w s) (flush_iteration E ex' k' w s).
  Proof.
    intros Hex Hk. unfold flush_iteration.
    apply below_bind; [destruct (Watcher.before w); auto with fuel|].
    intros s1. apply below_bind; [auto|]. intros s2.
    repeat case_match; auto with fuel.
  Qed.

Lemma callActivatedHooks_below ex ex' q s :
    (∀ b s, below (ex b s) (ex' b s)) →
    below (callActivatedHooks E ex q s) (callActivatedHooks E ex' q s).
  Proof.
    intros Hex. revert s. induction q as [|vm q IH]; intros s; simpl; auto with fuel.
  Qed.

Lemma callUpdatedHooks_from_below ex ex' q i s :
    (∀ b s, below (ex b s) (ex' b s)) →
    below (callUpdatedHooks_from E ex q i s) (callUpdatedHooks_from E ex' q i s).
  Proof.
    intros Hex. revert s. induction i as [|i IH]; intros s; simpl; auto with fuel.
    destruct (q !! i); auto with fuel.
    apply below_bind; [case_match; auto with fuel|]. auto.
  Qed.

Lemma flush_end_below ex ex' s :
    (∀ b s, below (ex b s) (ex' b s)) →
    below (flush_end E ex s) (flush_end E ex' s).
  Proof.
    intros Hex. unfold flush_end.
    apply below_bind; [by apply callActivatedHooks_below|]. intros s1.
    apply below_bind; [by apply callUpdatedHooks_from_below|]. auto with fuel.
  Qed.

Lemma queueWatcher_below fl fl' w s :
    (∀ s, below (fl s) (fl' s)) →
    below (queueWatcher E fl w s) (queueWatcher E fl' w s).
  Proof.
    intros Hfl. unfold queueWatcher, queue_the_flush. repeat case_match; auto with fuel.
  Qed.

Lemma fuel_step n :
    (∀ c s, below (call E n c s) (call E (S n) c s)) ∧
    (∀ s, below (flushSchedulerQueue E n s) (flushSchedulerQueue E (S n) s)) ∧
    (∀ s, below (flush_loop E n s) (flush_loop E (S n) s)).
  Proof.
    induction n as [|n (IHc & IHf & IHl)]; [repeat split; intros; apply below_oof|].
    repeat split.
    - intros c s. destruct c; try apply below_refl.
      cbn [call]. by apply queueWatcher_below.
    - intros s. cbn [flushSchedulerQueue].
      apply below_bind; [apply IHl|]. intros s1.
      apply flush_end_below. intros b s2. by apply exec_body_below.
    - intros s. cbn [flush_loop]. destruct (queue s !! index s); [|apply below_refl].
      apply flush_iteration_below; [|done].
      intros b s2. by apply exec_body_below.
  Qed.

Lemma fuel_mono n m :
    (n ≤ m)%nat →
    (∀ c s, below (call E n c s) (call E m c s)) ∧
    (∀ s, below (flushSchedulerQueue E n s) (flushSchedulerQueue E m s)) ∧
    (∀ s, below (flush_loop E n s) (flush_loop E m s)).
  Proof.
    induction 1 as [|m _ (IHc & IHf & IHl)]; [repeat split; intros; apply below_refl|].
    destruct (fuel_step m) as (Hc & Hf & Hl).
    repeat split; intros; eapply below_trans; eauto.
  Qed.

Lemma call_fuel n m c s r :
    (n ≤ m)%nat → call E n c s = r → r ≠ OutOfFuel → call E m c s = r.
  Proof.
    intros Hnm <- Hr. destruct (fuel_mono n m Hnm) as (Hc & _).
    by destruct (Hc c s).
  Qed.

Lemma flushSchedulerQueue_fuel n m s r :
    (n ≤ m)%nat → flushSchedulerQueue E n s = r → r ≠ OutOfFuel →
    flushSchedulerQueue E m s = r.
  Proof.
    intros Hnm <- Hr. destruct (fuel_mono n m Hnm) as (_ & Hf & _).
    by destruct (Hf s).
  Qed.

Lemma flush_loop_fuel n m s r :
    (n ≤ m)%nat → flush_loop E n s = r → r ≠ OutOfFuel → flush_loop E m s = r.
  Proof.
    intros Hnm <- Hr. destruct (fuel_mono n m Hnm) as (_ & _ & Hl).
    by destruct (Hl s).
  Qed.

End Fuel.

(** ** What the scheduler and outside code can do to the deferred-callback queue *)


Section Evolution.
Context (E : Env).


Lemma evolves_trans s1 s2 s3 : evolves E s1 s2 → evolves E s2 s3 → evolves E s1 s3.
Proof.
  induction 1; intros; eauto using evolves.
Qed.

Lemma evolves_step s s' :
  sched_step s s' → (production E = true → circular s' = circular s) →
  evolves E s s'.
Proof. intros. eapply evolves_sched; eauto using evolves. Qed.

Lemma evolves_tick s cb ctx : evolves E s (fst (nextTick E cb ctx s)).
Proof. eapply evolves_nextTick, evolves_refl. Qed.

Lemma sched_step_refl s : sched_step s s.
Proof.
  repeat split. exists []. by rewrite app_nil_r.
Qed.

Lemma sched_step_trans s1 s2 s3 : sched_step s1 s2 → sched_step s2 s3 → sched_step s1 s3.
Proof.
  intros (?&?&?&?&?&evs&?&?) (?&?&?&?&?&evs'&?&?).
  repeat split; try congruence.
  exists (evs ++ evs'). split; [|by apply Forall_app].
  rewrite app_assoc. congruence.
Qed.

Lemma sched_step_emit e s : is_sched_event e = true → sched_step s (emit e s).
Proof. intros He. repeat split. exists [e]. split; [done|]. by constructor. Qed.

(** A step that changes only scheduler variables or a component. *)
Lemma sched_step_same s s' :
  callbacks s' = callbacks s → pending s' = pending s → counter s' = counter s →
  resolve_cells s' = resolve_cells s → promises s' = promises s → log s' = log s →
  sched_step s s'.
Proof.
  intros ????? Hl. repeat split; try done. exists []. by rewrite app_nil_r.
Qed.

Lemma evolves_emit e s : is_sched_event e = true → evolves E s (emit e s).
Proof. intros. by apply evolves_step; [apply sched_step_emit|]. Qed.

Lemma evolves_same s s' :
  callbacks s' = callbacks s → pending s' = pending s → counter s' = counter s →
  resolve_cells s' = resolve_cells s → promises s' = promises s → log s' = log s →
  (production E = true → circular s' = circular s) →
  evolves E s s'.
Proof. intros. by apply evolves_step; [apply sched_step_same|]. Qed.

Lemma res_rel_bind s r k :
  res_rel (evolves E) s r →
  (∀ s', evolves E s s' → res_rel (evolves E) s' (k s')) →
  res_rel (evolves E) s (bind r k).
Proof.
  destruct r as [s1|e s1|]; simpl; intros H Hk; try done.
  specialize (Hk s1 H). destruct (k s1); simpl in *; eauto using evolves_trans.
Qed.

Lemma res_rel_pre s0 s r :
  evolves E s0 s → res_rel (evolves E) s r → res_rel (evolves E) s0 r.
Proof. destruct r; simpl; eauto using evolves_trans. Qed.

Lemma exec_calls_evolves f cs s :
  (∀ c s, res_rel (evolves E) s (f c s)) → res_rel (evolves E) s (exec_calls f cs s).
Proof.
  intros Hf. revert s. induction cs as [|c cs IH]; intros s; simpl.
  - apply evolves_refl.
  - apply res_rel_bind; [apply Hf|]. intros s' _. apply IH.
Qed.

Lemma exec_body_evolves f b s :
  (∀ c s, res_rel (evolves E) s (f c s)) → res_rel (evolves E) s (exec_body f b s).
Proof.
  intros Hf. unfold exec_body. apply res_rel_bind; [by apply exec_calls_evolves|].
  intros s' _. destruct (snd b); simpl; apply evolves_refl.
Qed.

Lemma flush_iteration_evolves ex k w s :
  (∀ b s, res_rel (evolves E) s (ex b s)) →
  (∀ s, res_rel (evolves E) s (k s)) →
  res_rel (evolves E) s (flush_iteration E ex k w s).
Proof.
  intros Hex Hk. unfold flush_iteration.
  apply res_rel_bind.
  { destruct (Watcher.before w); [|apply evolves_refl].
    eapply res_rel_pre; [|apply Hex]. by apply evolves_emit. }
  intros s1 _. apply res_rel_bind.
  { eapply res_rel_pre; [|apply Hex].
    eapply evolves_trans; [|by apply evolves_emit]. by apply evolves_same. }
  intros s2 _.
  destruct (production E) eqn:Hprod; cbn [negb andb].
  - eapply res_rel_pre; [|apply Hk]. by apply evolves_same.
  - repeat case_match; simpl.
    + eapply evolves_trans; [|by apply evolves_emit].
      apply evolves_same; try done. intros; congruence.
    + eapply res_rel_pre; [|apply Hk].
      apply evolves_same; try done. intros; congruence.
    + eapply res_rel_pre; [|apply Hk]. by apply evolves_same.
Qed.

Lemma callActivatedHooks_evolves ex q s :
  (∀ b s, res_rel (evolves E) s (ex b s)) →
  res_rel (evolves E) s (callActivatedHooks E ex q s).
Proof.
  intros Hex. revert s. induction q as [|vm q IH]; intros s; simpl.
  - apply evolves_refl.
  - apply res_rel_bind; [|intros; apply IH].
    eapply res_rel_pre; [|apply Hex].
    eapply evolves_trans; [|by apply evolves_emit]. by apply evolves_same.
Qed.

Lemma callUpdatedHooks_from_evolves ex q i s :
  (∀ b s, res_rel (evolves E) s (ex b s)) →
  res_rel (evolves E) s (callUpdatedHooks_from E ex q i s).
Proof.
  intros Hex. revert s. induction i as [|i IH]; intros s; simpl.
  - apply evolves_refl.
  - destruct (q !! i); [|apply evolves_refl].
    apply res_rel_bind; [|intros; apply IH].
    case_match; [|apply evolves_refl].
    eapply res_rel_pre; [|apply Hex]. by apply evolves_emit.
Qed.

Lemma resetSchedulerState_step s : evolves E s (resetSchedulerState E s).
Proof.
  unfold resetSchedulerState. destruct (production E) eqn:Hprod;
    apply evolves_same; try done. intros; congruence.
Qed.

Lemma flush_end_evolves ex s :
  (∀ b s, res_rel (evolves E) s (ex b s)) →
  res_rel (evolves E) s (flush_end E ex s).
Proof.
  intros Hex. unfold flush_end.
  apply res_rel_bind.
  { eapply res_rel_pre; [|by apply callActivatedHooks_evolves].
    apply resetSchedulerState_step. }
  intros s1 _. apply res_rel_bind; [by apply callUpdatedHooks_from_evolves|].
  intros s2 _. destruct (devtools E); simpl; [|apply evolves_refl].
  by apply evolves_emit.
Qed.

Lemma queueWatcher_evolves fl w s :
  (∀ s, res_rel (evolves E) s (fl s)) →
  res_rel (evolves E) s (queueWatcher E fl w s).
Proof.
  intros Hfl. unfold queueWatcher, queue_the_flush.
  destruct (has_is_null s (Watcher.id w)); [|apply evolves_refl].
  set (s1 := if negb (flushing _) then _ else _).
  assert (evolves E s s1) as Hs1.
  { subst s1. simpl. destruct (flushing s); by apply evolves_same. }
  destruct (negb (waiting s1)); [|done].
  destruct (negb (production E) && negb (async E)).
  - eapply res_rel_pre; [|apply Hfl].
    eapply evolves_trans; [exact Hs1|]. by apply evolves_same.
  - cbn [res_rel]. eapply evolves_trans; [exact Hs1|].
    apply (evolves_trans _ (set_waiting true s1)); [|apply evolves_tick].
    by apply evolves_same.
Qed.

Lemma interp_evolves n :
  (∀ c s, res_rel (evolves E) s (call E n c s)) ∧
  (∀ s, res_rel (evolves E) s (flushSchedulerQueue E n s)) ∧
  (∀ s, res_rel (evolves E) s (flush_loop E n s)).
Proof.
  induction n as [|n (IHc & IHf & IHl)]; [done|].
  repeat split.
  - intros c s. destruct c; cbn [call res_rel].
    + by apply queueWatcher_evolves.
    + by apply evolves_same.
    + apply evolves_tick.
    + by apply evolves_same.
  - intros s. cbn [flushSchedulerQueue]. apply res_rel_bind.
    + eapply res_rel_pre; [|apply IHl]. by apply evolves_same.
    + intros s1 _. apply flush_end_evolves. intros. by apply exec_body_evolves.
  - intros s. cbn [flush_loop]. destruct (queue s !! index s); [|apply evolves_refl].
    apply flush_iteration_evolves; [|done]. intros. by apply exec_body_evolves.
Qed.

Lemma callFn_evolves n f ctx s : res_rel (evolves E) s (callFn E n f ctx s).
Proof.
  destruct (interp_evolves n) as (Hc & Hf & _).
  destruct f; simpl; [apply Hf|]. by apply exec_body_evolves.
Qed.

End Evolution.

(** ** [nextTick] and the invariants of the deferred-callback queue *)


Section NextTick.
Context (E : Env).

Lemma timerFunc_log s : log (timerFunc E s) = log s ++ timer_events E s.
Proof.
  unfold timerFunc, timer_events. destruct (timerKind (host E)); try done.
  destruct (Host.isIOS (host E)); simpl; [|done]. by rewrite <- app_assoc.
Qed.

Lemma timerFunc_fields s :
  callbacks (timerFunc E s) = callbacks s ∧ pending (timerFunc E s) = pending s ∧
  resolve_cells (timerFunc E s) = resolve_cells s ∧
  promises (timerFunc E s) = promises s ∧
  queue (timerFunc E s) = queue s ∧
  activatedChildren (timerFunc E s) = activatedChildren s ∧
  has (timerFunc E s) = has s ∧ circular (timerFunc E s) = circular s ∧
  waiting (timerFunc E s) = waiting s ∧ flushing (timerFunc E s) = flushing s ∧
  index (timerFunc E s) = index s ∧ components (timerFunc E s) = components s.
Proof.
  unfold timerFunc. destruct (timerKind (host E)); try done.
  by destruct (Host.isIOS (host E)).
Qed.

(** Exactly one of the host calls of [timerFunc] asks for [flushCallbacks]. *)
Lemma timer_events_one_flush s :
  length (filter (λ e, schedules_flush e = true) (timer_events E s)) = 1%nat.
Proof.
  unfold timer_events. destruct (timerKind (host E)); try done.
  by destruct (Host.isIOS (host E)).
Qed.

Lemma timer_events_platform s :
  Forall (λ e, is_platform_call e = true) (timer_events E s).
Proof.
  unfold timer_events. destruct (timerKind (host E)); repeat constructor.
  destruct (Host.isIOS (host E)); repeat constructor.
Qed.


Lemma nextTick_spec cb ctx s :
  let s' := fst (nextTick E cb ctx s) in
  let r := nextTick_result E cb s in
  snd (nextTick E cb ctx s) = r ∧
  callbacks s' = callbacks s ++ [mkClosure cb ctx (length (resolve_cells s))] ∧
  pending s' = true ∧
  resolve_cells s' = resolve_cells s ++ [r] ∧
  promises s' = promises s ++ (if r is Some _ then [None] else []) ∧
  log s' = log s ++ (if pending s then [] else timer_events E s) ∧
  queue s' = queue s ∧ activatedChildren s' = activatedChildren s ∧
  has s' = has s ∧ circular s' = circular s ∧ waiting s' = waiting s ∧
  flushing s' = flushing s ∧ index s' = index s ∧ components s' = components s.
Proof.
  unfold nextTick, nextTick_result.
  set (s1 := set_callbacks _ _).
  assert (∃ s2, (if pending s1 then s1 else timerFunc E (set_pending true s1)) = s2
    ∧ callbacks s2 = callbacks s1 ∧ pending s2 = true
    ∧ resolve_cells s2 = resolve_cells s1 ∧ promises s2 = promises s1
    ∧ log s2 = log s ++ (if pending s then [] else timer_events E s)
    ∧ queue s2 = queue s ∧ activatedChildren s2 = activatedChildren s
    ∧ has s2 = has s ∧ circular s2 = circular s ∧ waiting s2 = waiting s
    ∧ flushing s2 = flushing s ∧ index s2 = index s ∧ components s2 = components s)
    as (s2 & -> & Hc & Hp & Hr & Hpr & Hl & ? & ? & ? & ? & ? & ? & ? & ?).
  { eexists; split; [done|]. subst s1; simpl. destruct (pending s) eqn:Hp.
    - simpl. rewrite Hp, app_nil_r. done.
    - destruct (timerFunc_fields (set_pending true (set_callbacks
        (callbacks s ++ [mkClosure cb ctx (length (resolve_cells s))])
        (set_resolve_cells (resolve_cells s ++ [None]) s))))
        as (->& -> & -> & -> & -> & -> & -> & -> & -> & -> & -> & ->).
      rewrite timerFunc_log. done. }
  subst s1. simpl in *.
  destruct cb as [f|]; [|destruct (Host.promiseDefined (host E))]; simpl;
    rewrite ?Hc, ?Hp, ?Hr, ?Hpr, ?Hl, ?app_nil_r; repeat split; try done.
  rewrite insert_app_r_alt, Nat.sub_diag by lia. done.
Qed.

End NextTick.


Section TickInvariants.
Context (E : Env).

Lemma wf_nextTick cb ctx s : wf s → wf (fst (nextTick E cb ctx s)).
Proof.
  intros [Hc Hr].
  destruct (nextTick_spec E cb ctx s) as (_ & Hcb & _ & Hcells & Hprom & _).
  split.
  - rewrite Hcb, Hcells, Forall_app, length_app. split.
    + eapply Forall_impl; [exact Hc|]. simpl. lia.
    + repeat constructor. simpl. lia.
  - intros i p. rewrite Hcells, Hprom, length_app.
    intros [Hi|[Hi Hp]]%lookup_app_Some.
    + apply Hr in Hi. lia.
    + destruct (i - length (resolve_cells s))%nat; [|done].
      simpl in Hp. injection Hp as Hp. rewrite Hp.
      unfold nextTick_result in Hp. destruct cb; [done|].
      destruct (Host.promiseDefined (host E)); [|done].
      injection Hp as <-. simpl. lia.
Qed.

Lemma wf_sched_step s s' : sched_step s s' → wf s → wf s'.
Proof.
  intros (Hc & _ & _ & Hr & Hp & _). unfold wf. by rewrite Hc, Hr, Hp.
Qed.

Lemma wf_evolves s s' : evolves E s s' → wf s → wf s'.
Proof.
  induction 1; eauto using wf_sched_step, wf_nextTick.
Qed.

Lemma awaiting_nextTick cell p cb ctx s :
  awaiting cell p s → awaiting cell p (fst (nextTick E cb ctx s)).
Proof.
  intros (Hwf & Hp & Hc & Huniq).
  pose proof (wf_nextTick cb ctx s Hwf) as Hwf'.
  destruct (nextTick_spec E cb ctx s) as (_ & _ & _ & Hcells & Hprom & _).
  split; [done|]. rewrite Hcells, Hprom. repeat split.
  - by apply lookup_app_l_Some.
  - by apply lookup_app_l_Some.
  - intros i [Hi|[Hi Hr]]%lookup_app_Some; [by apply Huniq|].
    destruct (i - length (resolve_cells s))%nat; [|done].
    simpl in Hr. injection Hr as Hr.
    unfold nextTick_result in Hr. destruct cb; [done|].
    destruct (Host.promiseDefined (host E)); [|done].
    injection Hr as <-. apply lookup_lt_Some in Hp. lia.
Qed.

Lemma awaiting_evolves cell p s s' :
  evolves E s s' → awaiting cell p s → awaiting cell p s'.
Proof.
  induction 1 as [|s s' s'' Hstep _ _ IH|]; eauto using awaiting_nextTick.
  intros (Hwf & Hp & Hc & Hu). apply IH.
  pose proof (wf_sched_step _ _ Hstep Hwf).
  destruct Hstep as (_ & _ & _ & Hr & Hpr & _).
  unfold awaiting. by rewrite Hr, Hpr.
Qed.

(** Scheduler steps and [nextTick] calls only extend the trace, the pending
    list and the allocated variables, and never by an invocation of a
    deferred callback. *)
Lemma evolves_extends s s' :
  evolves E s s' →
  (∃ evs, log s' = log s ++ evs ∧ Forall (λ e, is_tick_event e = false) evs) ∧
  callbacks s `prefix_of` callbacks s' ∧
  resolve_cells s `prefix_of` resolve_cells s' ∧
  promises s `prefix_of` promises s'.
Proof.
  induction 1 as [s|s s' s'' Hstep _ _ IH|s cb ctx s'' _ IH].
  - split; [|done]. exists []. by rewrite app_nil_r.
  - destruct Hstep as (Hc & _ & _ & Hr & Hp & evs & Hl & Hevs).
    destruct IH as ((evs' & Hl' & Hevs') & IHc & IHr & IHp).
    rewrite Hc in IHc. rewrite Hr in IHr. rewrite Hp in IHp.
    split; [|done]. exists (evs ++ evs'). rewrite Hl', Hl, app_assoc.
    split; [done|]. apply Forall_app. split; [|done].
    eapply Forall_impl; [exact Hevs|]. by intros [].
  - destruct (nextTick_spec E cb ctx s) as (_ & Hc & _ & Hr & Hp & Hl & _).
    destruct IH as ((evs' & Hl' & Hevs') & IHc & IHr & IHp).
    rewrite Hc in IHc. rewrite Hr in IHr. rewrite Hp in IHp.
    repeat split.
    + eexists. rewrite Hl', Hl, <- app_assoc. split; [done|].
      apply Forall_app. split; [|done].
      destruct (pending s); [constructor|].
      eapply Forall_impl; [apply timer_events_platform|]. by intros [].
    + etrans; [|exact IHc]. by apply prefix_app_r.
    + etrans; [|exact IHr]. by apply prefix_app_r.
    + etrans; [|exact IHp]. by apply prefix_app_r.
Qed.

Lemma invocations_app l1 l2 : invocations (l1 ++ l2) = invocations l1 ++ invocations l2.
Proof. apply omap_app. Qed.

Lemma invocations_quiet evs :
  Forall (λ e, is_tick_event e = false) evs → invocations evs = [].
Proof.
  induction 1 as [|e evs He _ IH]; [done|].
  destruct e; try done; exact IH.
Qed.

(** The closure pushed by [nextTick] catches what its callback throws. *)
Lemma invoke_catches callFn c s e s' : invoke callFn c s ≠ Throw e s'.
Proof.
  unfold invoke. destruct (cl_cb c); [destruct (callFn _ _ _)|]; try done.
  by repeat case_match.
Qed.

Lemma run_copies_catches callFn cs s e s' :
  run_copies (invoke callFn) cs s ≠ Throw e s'.
Proof.
  revert s. induction cs as [|c cs IH]; intros s; simpl; [done|].
  destruct (invoke callFn c s) eqn:Hi; simpl; [apply IH| |done].
  by apply invoke_catches in Hi.
Qed.

(** One closure, run to its end, adds the invocation of its callback to the
    trace and nothing else of the deferred-callback loop, apart from the
    report of what the callback threw. *)
Lemma invoke_trace n c s s' :
  invoke (callFn E n) c s = Done s' →
  ∃ evs, log s' = log s ++ evs ∧
    invocations evs = option_list (closure_request c).
Proof.
  unfold invoke, closure_request. destruct (cl_cb c) as [f|]; simpl.
  - pose proof (callFn_evolves E n f (cl_ctx c) (emit (Invoke f (cl_ctx c)) s)) as Hev.
    destruct (callFn E n f _ _) as [s1|e s1|]; simpl in Hev; [| |done];
      intros [= <-];
      apply evolves_extends in Hev as ((evs & Hl & Hevs) & _);
      simpl in Hl.
    + exists (Invoke f (cl_ctx c) :: evs). rewrite Hl, <- app_assoc.
      split; [done|].
      change (invocations (Invoke f (cl_ctx c) :: evs))
        with ((f, cl_ctx c) :: invocations evs).
      by rewrite (invocations_quiet evs).
    + exists (Invoke f (cl_ctx c) :: evs ++ [HandleError e (cl_ctx c) "nextTick"]).
      simpl. rewrite Hl, <- !app_assoc. split; [done|].
      change (invocations (Invoke f (cl_ctx c) :: evs ++ [HandleError e (cl_ctx c) "nextTick"]))
        with ((f, cl_ctx c) :: invocations (evs ++ [HandleError e (cl_ctx c) "nextTick"])).
      rewrite invocations_app, (invocations_quiet evs) by done. done.
  - intros Hs. exists []. rewrite app_nil_r. split; [|done].
    unfold resolve in Hs. repeat case_match; by injection Hs as <-.
Qed.

Lemma run_copies_trace n cs s s' :
  run_copies (invoke (callFn E n)) cs s = Done s' →
  ∃ evs, log s' = log s ++ evs ∧ invocations evs = omap closure_request cs.
Proof.
  revert s. induction cs as [|c cs IH]; intros s; simpl.
  - intros [= <-]. exists []. by rewrite app_nil_r.
  - destruct (invoke (callFn E n) c s) as [s1| |] eqn:Hi; simpl; [|done..].
    intros Hrun. apply invoke_trace in Hi as (evs1 & Hl1 & Hi1).
    apply IH in Hrun as (evs2 & Hl2 & Hi2).
    exists (evs1 ++ evs2). rewrite Hl2, Hl1, app_assoc. split; [done|].
    rewrite invocations_app, Hi1, Hi2. by destruct (closure_request c).
Qed.

(** Without the synchronous mode every call of outside code returns, with
    any positive fuel. *)
Lemma call_deferred n c s :
  deferred_flush E → ∃ s', call E (S n) c s = Done s' ∧ evolves E s s'.
Proof.
  intros Hd. destruct (interp_evolves E (S n)) as (Hc & _). specialize (Hc c s).
  destruct c; cbn [call] in *; try (eexists; split; [done|exact Hc]).
  unfold queueWatcher, queue_the_flush in *. rewrite Hd in *.
  repeat case_match; eexists; split; try done; exact Hc.
Qed.

Lemma exec_calls_deferred n cs s :
  deferred_flush E → ∃ s', exec_calls (call E (S n)) cs s = Done s' ∧ evolves E s s'.
Proof.
  intros Hd. revert s. induction cs as [|c cs IH]; intros s; cbn [exec_calls].
  - eexists; split; [done|apply evolves_refl].
  - destruct (call_deferred n c s Hd) as (s1 & -> & Hev1). cbn [bind].
    destruct (IH s1) as (s2 & -> & Hev2). eauto using evolves_trans.
Qed.

End TickInvariants.

(** * The deferred-callback queue *)

Section Batching.
Context (E : Env).

Lemma enqueue_all_pending reqs s :
  pending s = true →
  log (enqueue_all E reqs s) = log s ∧
  omap closure_request (callbacks (enqueue_all E reqs s)) =
    omap closure_request (callbacks s) ++ reqs.
Proof.
  revert s. induction reqs as [|r reqs IH]; intros s Hp.
  - simpl. by rewrite app_nil_r.
  - change (enqueue_all E (r :: reqs) s)
      with (enqueue_all E reqs (fst (nextTick E (Some r.1) r.2 s))).
    destruct (nextTick_spec E (Some r.1) r.2 s) as (_ & Hc & Hp' & _ & _ & Hl & _).
    destruct (IH _ Hp') as [-> ->]. rewrite Hl, Hp, app_nil_r, Hc.
    split; [done|]. rewrite omap_app, <- app_assoc. by destruct r.
Qed.

Lemma invoke_user_deferred n k ctx cell s :
  deferred_flush E →
  ∃ s1, evolves E (emit (Invoke (UserFn k) ctx) s) s1 ∧
    invoke (callFn E (S n)) (mkClosure (Some (UserFn k)) ctx cell) s =
    Done match snd (fn_body E k ctx (emit (Invoke (UserFn k) ctx) s)) with
         | Some e => handleError e ctx "nextTick" s1
         | None => s1
         end.
Proof.
  intros Hd. unfold invoke, callFn, exec_body. cbn [cl_cb cl_ctx].
  destruct (exec_calls_deferred E n
    (fst (fn_body E k ctx (emit (Invoke (UserFn k) ctx) s)))
    (emit (Invoke (UserFn k) ctx) s) Hd) as (s1 & -> & Hev).
  exists s1. split; [done|]. cbn [bind].
  by destruct (snd (fn_body E k ctx (emit (Invoke (UserFn k) ctx) s))).
Qed.

(** Without the synchronous mode, a batch that does not contain the
    scheduler's own flush runs to its end with any positive fuel. *)
Lemma run_copies_deferred n cs s :
  deferred_flush E →
  Forall (λ c, cl_cb c ≠ Some FlushSchedulerQueue) cs →
  ∃ s', run_copies (invoke (callFn E (S n))) cs s = Done s'.
Proof.
  intros Hd Hcs. revert s. induction Hcs as [|c cs Hc _ IH]; intros s.
  - by eexists.
  - cbn [run_copies]. destruct c as [[[|k]|] ctx cell]; [done| |].
    + destruct (invoke_user_deferred n k ctx cell s Hd) as (s1 & _ & ->).
      cbn [bind]. apply IH.
    + unfold invoke at 1. cbn [cl_cb]. repeat case_match; cbn [bind]; apply IH.
Qed.

Lemma requests_not_flush cs l :
  omap closure_request cs = l →
  Forall (λ q : Fn * Ctx, q.1 ≠ FlushSchedulerQueue) l →
  Forall (λ c, cl_cb c ≠ Some FlushSchedulerQueue) cs.
Proof.
  revert l. induction cs as [|c cs IH]; intros l Hcn Hl; [constructor|].
  cbn in Hcn. unfold closure_request at 1 in Hcn.
  destruct (cl_cb c) as [f|] eqn:Hf; cbn in Hcn.
  - destruct l as [|q l]; [done|]. injection Hcn as <- Hcn.
    apply Forall_cons in Hl as [Hq Hl]. constructor; [|by eapply IH].
    rewrite Hf. cbn in Hq. congruence.
  - constructor; [by rewrite Hf|by eapply IH].
Qed.

(** C5: of [n >= 1] calls of [nextTick] made in a row after the pending list
    was emptied, only the first one calls the host (once asking for
    [flushCallbacks]); the others add nothing to the trace.  A run of
    [flushCallbacks] then invokes exactly the [n] callbacks, in the order
    they were registered, and it does run to its end when no callback is the
    scheduler's flush and the synchronous mode is off. *)
Theorem nextTick_batches_into_one_flush (r : Fn * Ctx) (reqs : list (Fn * Ctx))
    (s0 : State) :
  pending s0 = false → callbacks s0 = [] →
  let s1 := fst (nextTick E (Some r.1) r.2 s0) in
  let sN := enqueue_all E (r :: reqs) s0 in
  log s1 = log s0 ++ timer_events E s0 ∧
  length (filter (λ e, schedules_flush e = true) (timer_events E s0)) = 1%nat ∧
  log sN = log s1 ∧
  omap closure_request (callbacks sN) = r :: reqs ∧
  (∀ n s', flushCallbacks E n sN = Done s' →
     ∃ evs, log s' = log sN ++ evs ∧ invocations evs = r :: reqs) ∧
  (∀ n e s', flushCallbacks E n sN ≠ Throw e s') ∧
  (deferred_flush E → Forall (λ q, q.1 ≠ FlushSchedulerQueue) (r :: reqs) →
   ∀ n, ∃ s', flushCallbacks E (S n) sN = Done s').
Proof.
  intros Hp Hc s1 sN.
  destruct (nextTick_spec E (Some r.1) r.2 s0) as (_ & Hc1 & Hp1 & _ & _ & Hl1 & _).
  fold s1 in Hc1, Hp1, Hl1. rewrite Hp in Hl1. rewrite Hc in Hc1.
  destruct (enqueue_all_pending reqs s1 Hp1) as [Hln Hcn].
  change (enqueue_all E reqs s1) with sN in Hln, Hcn.
  rewrite Hc1 in Hcn. cbn in Hcn.
  assert ((r.1, r.2) = r) as Hr by (by destruct r). rewrite Hr in Hcn. clear Hr.
  split; [done|]. split; [apply timer_events_one_flush|]. split; [done|].
  split; [done|]. split; [|split].
  - intros n s' Hrun. unfold flushCallbacks, flushCallbacks_with in Hrun.
    apply run_copies_trace in Hrun as (evs & Hl & Hi).
    exists evs. cbn in Hl, Hi. by rewrite <- Hcn.
  - intros n e s'. apply run_copies_catches.
  - intros Hd Hreqs n. unfold flushCallbacks, flushCallbacks_with.
    apply run_copies_deferred; [done|].
    exact (requests_not_flush _ _ Hcn Hreqs).
Qed.

End Batching.

Lemma nextTick_batches_into_one_flush_witness :
  let sN := enqueue_all throwing_env five_requests initial in
  log sN = [PromiseThen] ∧
  ∃ s', flushCallbacks throwing_env 1 sN = Done s' ∧
    invocations (drop 1 (log s')) = five_requests.
Proof.
  destruct (nextTick_batches_into_one_flush throwing_env
    (UserFn 0, Str "a") (tail five_requests) initial eq_refl eq_refl)
    as (Hl1 & _ & Hln & _ & Hrun & _ & Hdone).
  split; [exact (eq_trans Hln Hl1)|].
  destruct (Hdone eq_refl ltac:(repeat constructor; done) 0%nat) as [s' Hs'].
  exists s'. split; [exact Hs'|].
  destruct (Hrun _ _ Hs') as (evs & Hl & Hi).
  assert (log s' = [PromiseThen] ++ evs) as ->
    by exact (eq_trans Hl (f_equal (λ l, l ++ evs) (eq_trans Hln Hl1))).
  exact Hi.
Defined.

Section ErrorIsolation.
Context (E : Env).

Lemma tick_trace_app l1 l2 : tick_trace (l1 ++ l2) = tick_trace l1 ++ tick_trace l2.
Proof. apply filter_app. Qed.

Lemma tick_trace_quiet evs :
  Forall (λ e, is_tick_event e = false) evs → tick_trace evs = [].
Proof.
  induction 1 as [|e evs He _ IH]; [done|].
  unfold tick_trace. rewrite filter_cons_False; [done|]. by rewrite He.
Qed.

Lemma run_copies_deferred_trace (throws : nat → Ctx → option Err) n cs s :
  deferred_flush E →
  (∀ k ctx s, snd (fn_body E k ctx s) = throws k ctx) →
  Forall (λ c, cl_cb c ≠ Some FlushSchedulerQueue) cs →
  ∃ s' evs, run_copies (invoke (callFn E (S n))) cs s = Done s' ∧
    log s' = log s ++ evs ∧
    tick_trace evs = flat_map (closure_trace throws) cs.
Proof.
  intros Hd Hthrows Hcs. revert s. induction Hcs as [|c cs Hc _ IH]; intros s.
  - exists s, []. by rewrite app_nil_r.
  - cbn [run_copies flat_map]. destruct c as [[[|k]|] ctx cell]; [done| |].
    + destruct (invoke_user_deferred E n k ctx cell s Hd) as (s1 & Hev & ->).
      rewrite Hthrows. cbn [bind].
      apply evolves_extends in Hev as ((evs1 & Hl1 & Hq1) & _). cbn in Hl1.
      unfold closure_trace. cbn [cl_cb cl_ctx].
      destruct (throws k ctx) as [e|].
      * destruct (IH (handleError e ctx "nextTick" s1)) as (s' & evs & -> & Hl & Ht).
        exists s', (Invoke (UserFn k) ctx :: evs1 ++ HandleError e ctx "nextTick" :: evs).
        split; [done|]. split.
        { rewrite Hl. cbn. rewrite Hl1, <- !app_assoc. done. }
        change (Invoke (UserFn k) ctx :: evs1 ++ HandleError e ctx "nextTick" :: evs)
          with ([Invoke (UserFn k) ctx] ++ evs1 ++ [HandleError e ctx "nextTick"] ++ evs).
        rewrite !tick_trace_app, (tick_trace_quiet evs1), Ht by done. done.
      * destruct (IH s1) as (s' & evs & -> & Hl & Ht).
        exists s', (Invoke (UserFn k) ctx :: evs1 ++ evs).
        split; [done|]. split.
        { rewrite Hl, Hl1, <- !app_assoc. done. }
        change (Invoke (UserFn k) ctx :: evs1 ++ evs)
          with ([Invoke (UserFn k) ctx] ++ evs1 ++ evs).
        rewrite !tick_trace_app, (tick_trace_quiet evs1), Ht by done. done.
    + assert (∃ s1, invoke (callFn E (S n)) (mkClosure None ctx cell) s = Done s1
                ∧ log s1 = log s) as (s1 & -> & Hl1).
      { unfold invoke, resolve. cbn [cl_cb cl_resolve cl_ctx].
        repeat case_match; eexists; split; done. }
      cbn [bind]. destruct (IH s1) as (s' & evs & -> & Hl & Ht).
      exists s', evs. rewrite Hl, Hl1. done.
Qed.

(** C7: the closure that [nextTick] queues catches what its callback throws
    and hands it to [handleError] with the label ['nextTick']; no run of a
    batch ends by throwing; and a batch of user callbacks is run to its end,
    every callback invoked in order, each one that throws followed by its
    report. *)
Theorem flushCallbacks_isolates_errors (throws : nat → Ctx → option Err) (s : State) :
  deferred_flush E →
  (∀ k ctx s, snd (fn_body E k ctx s) = throws k ctx) →
  Forall (λ c, cl_cb c ≠ Some FlushSchedulerQueue) (callbacks s) →
  (∀ callFn c f e s0 s1,
     cl_cb c = Some f →
     callFn f (cl_ctx c) (emit (Invoke f (cl_ctx c)) s0) = Throw e s1 →
     invoke callFn c s0 = Done (emit (HandleError e (cl_ctx c) "nextTick") s1)) ∧
  (∀ callFn cs s0 e s1, run_copies (invoke callFn) cs s0 ≠ Throw e s1) ∧
  (∀ n, ∃ s' evs, flushCallbacks E (S n) s = Done s' ∧
     log s' = log s ++ evs ∧
     tick_trace evs = flat_map (closure_trace throws) (callbacks s)).
Proof.
  intros Hd Hthrows Hcs. split; [|split].
  - intros callFn c f e s0 s1 Hf Hthrow. unfold invoke. by rewrite Hf, Hthrow.
  - intros. apply run_copies_catches.
  - intros n. unfold flushCallbacks, flushCallbacks_with.
    destruct (run_copies_deferred_trace throws n (callbacks s)
      (set_callbacks [] (set_pending false s)) Hd Hthrows Hcs)
      as (s' & evs & Hrun & Hl & Ht).
    by exists s', evs.
Qed.

End ErrorIsolation.

Lemma flushCallbacks_isolates_errors_witness :
  ∃ s', flushCallbacks throwing_env 1
          (enqueue_all throwing_env five_requests initial) = Done s' ∧
    tick_trace (log s') =
      [Invoke (UserFn 0) (Str "a"); Invoke (UserFn 1) (Str "b");
       HandleError "boom" (Str "b") "nextTick"; Invoke (UserFn 2) (Str "c");
       Invoke (UserFn 3) (Str "d"); Invoke (UserFn 4) (Str "e")].
Proof.
  destruct (flushCallbacks_isolates_errors throwing_env throwing_env_throws
    (enqueue_all throwing_env five_requests initial) eq_refl) as (_ & _ & Hrun).
  - by intros [|[|k]] ctx s.
  - vm_compute. repeat constructor; done.
  - destruct (Hrun 0%nat) as (s' & evs & Hs' & Hl & Ht).
    exists s'. split; [exact Hs'|]. rewrite Hl, tick_trace_app, Ht.
    vm_compute. reflexivity.
Defined.

Section Awaitable.
Context (E : Env).

Lemma run_copies_app inv cs1 cs2 s :
  run_copies inv (cs1 ++ cs2) s = bind (run_copies inv cs1 s) (run_copies inv cs2).
Proof.
  revert s. induction cs1 as [|c cs1 IH]; intros s; cbn [run_copies app bind]; [done|].
  destruct (inv c s); cbn [bind]; auto.
Qed.

Lemma awaiting_same cell p s s' :
  callbacks s' = callbacks s → resolve_cells s' = resolve_cells s →
  promises s' = promises s → awaiting cell p s → awaiting cell p s'.
Proof. unfold awaiting, wf. by intros -> -> ->. Qed.

(** A closure of another [nextTick] call leaves the promise alone. *)
Lemma invoke_keeps_awaiting cell p n c s s' :
  cl_resolve c ≠ cell → awaiting cell p s →
  invoke (callFn E n) c s = Done s' → awaiting cell p s'.
Proof.
  intros Hne Haw. unfold invoke. destruct (cl_cb c) as [f|].
  - pose proof (callFn_evolves E n f (cl_ctx c) (emit (Invoke f (cl_ctx c)) s)) as Hev.
    assert (awaiting cell p (emit (Invoke f (cl_ctx c)) s)) as Haw1
      by (by eapply awaiting_same; [..|exact Haw]).
    destruct (callFn E n f _ _) as [s1|e s1|]; simpl in Hev; [| |done]; intros [= <-].
    + by eapply awaiting_evolves.
    + eapply awaiting_same; [..|by eapply awaiting_evolves]; done.
  - destruct (resolve_cells s !! cl_resolve c) as [[p'|]|] eqn:Hc;
      intros [= <-]; try done.
    destruct Haw as ((Hwf1 & Hwf2) & Hp & Hcell & Huniq).
    assert (p' ≠ p) as Hpp by (intros ->; by apply Hne, Huniq).
    unfold resolve. destruct (promises s !! p') as [[v|]|]; try done.
    unfold awaiting, wf. cbn. rewrite length_insert, list_lookup_insert_ne by done.
    done.
Qed.

Lemma run_copies_keeps_awaiting cell p n cs s s' :
  Forall (λ c, cl_resolve c ≠ cell) cs → awaiting cell p s →
  run_copies (invoke (callFn E n)) cs s = Done s' → awaiting cell p s'.
Proof.
  intros Hcs. revert s. induction Hcs as [|c cs Hc _ IH]; intros s Haw; cbn [run_copies].
  - by intros [= <-].
  - destruct (invoke (callFn E n) c s) as [s1| |] eqn:Hi; cbn [bind]; [|done..].
    eauto using invoke_keeps_awaiting.
Qed.

(** A settled promise stays as it is. *)
Lemma evolves_keeps_settled p v s s' :
  evolves E s s' → promises s !! p = Some (Some v) → promises s' !! p = Some (Some v).
Proof.
  intros (_ & _ & _ & [k ->])%evolves_extends Hp. by apply lookup_app_l_Some.
Qed.

Lemma invoke_keeps_settled p v n c s s' :
  promises s !! p = Some (Some v) →
  invoke (callFn E n) c s = Done s' → promises s' !! p = Some (Some v).
Proof.
  intros Hp. unfold invoke. destruct (cl_cb c) as [f|].
  - pose proof (callFn_evolves E n f (cl_ctx c) (emit (Invoke f (cl_ctx c)) s)) as Hev.
    destruct (callFn E n f _ _) as [s1|e s1|]; simpl in Hev; [| |done]; intros [= <-].
    + by eapply evolves_keeps_settled.
    + cbn. by eapply evolves_keeps_settled.
  - destruct (resolve_cells s !! cl_resolve c) as [[p'|]|]; intros [= <-]; try done.
    unfold resolve. destruct (promises s !! p') as [[w|]|] eqn:Hp'; try done.
    cbn. rewrite list_lookup_insert_ne; [done|]. congruence.
Qed.

Lemma run_copies_keeps_settled p v n cs s s' :
  promises s !! p = Some (Some v) →
  run_copies (invoke (callFn E n)) cs s = Done s' → promises s' !! p = Some (Some v).
Proof.
  revert s. induction cs as [|c cs IH]; intros s Hp; cbn [run_copies].
  - by intros [= <-].
  - destruct (invoke (callFn E n) c s) as [s1| |] eqn:Hi; cbn [bind]; [|done..].
    eauto using invoke_keeps_settled.
Qed.

(** Running the closure of the call itself settles the promise with [ctx]. *)
Lemma invoke_settles cell p callFn ctx s :
  awaiting cell p s →
  invoke callFn (mkClosure None ctx cell) s = Done (resolve p ctx s) ∧
  promises (resolve p ctx s) !! p = Some (Some ctx).
Proof.
  intros (_ & Hp & Hcell & _). unfold invoke, resolve. cbn [cl_cb cl_resolve cl_ctx].
  rewrite Hcell, Hp. split; [done|]. cbn.
  apply list_lookup_insert_eq. by eapply lookup_lt_Some.
Qed.

Lemma nextTick_awaiting ctx s :
  Host.promiseDefined (host E) = true → wf s →
  awaiting (length (resolve_cells s)) (length (promises s))
    (fst (nextTick E None ctx s)).
Proof.
  intros HP Hwf. pose proof (wf_nextTick E None ctx s Hwf) as Hwf'.
  destruct (nextTick_spec E None ctx s) as (_ & _ & _ & Hcells & Hprom & _).
  unfold nextTick_result in *. rewrite HP in *.
  split; [done|]. rewrite Hcells, Hprom. repeat split.
  - by apply list_lookup_middle.
  - by apply list_lookup_middle.
  - intros i [Hi|[Hi Hr]]%lookup_app_Some.
    + destruct Hwf as [_ Hwf]. apply Hwf in Hi. lia.
    + apply lookup_lt_Some in Hr. simpl in Hr. lia.
Qed.

Lemma wf_invoke n c s s' :
  wf s → invoke (callFn E n) c s = Done s' → wf s'.
Proof.
  intros Hwf. unfold invoke. destruct (cl_cb c) as [f|].
  - pose proof (callFn_evolves E n f (cl_ctx c) (emit (Invoke f (cl_ctx c)) s)) as Hev.
    assert (wf (emit (Invoke f (cl_ctx c)) s)) as Hwf1 by done.
    destruct (callFn E n f _ _) as [s1|e s1|]; simpl in Hev; [| |done]; intros [= <-].
    + by eapply wf_evolves.
    + by eapply (wf_evolves E _ s1).
  - destruct (resolve_cells s !! cl_resolve c) as [[p'|]|]; intros [= <-]; try done.
    unfold resolve. destruct (promises s !! p') as [[v|]|]; try done.
    destruct Hwf as [Hwf1 Hwf2]. split; cbn; [done|]. by rewrite length_insert.
Qed.

(** [wf] holds in the loaded modules and is kept by every run of
    [flushCallbacks], as it is by scheduler steps and [nextTick] calls. *)
Lemma wf_flushCallbacks n s s' : wf s → flushCallbacks E n s = Done s' → wf s'.
Proof.
  intros [Hwf1 Hwf2]. unfold flushCallbacks, flushCallbacks_with.
  assert (wf (set_callbacks [] (set_pending false s))) as Hwf0
    by (split; [constructor|done]).
  revert Hwf0. generalize (set_callbacks [] (set_pending false s)).
  cbn [callbacks set_pending]. clear Hwf1 Hwf2.
  induction (callbacks s) as [|c cs IH]; intros s0 Hwf0; cbn [run_copies].
  - by intros [= <-].
  - destruct (invoke (callFn E n) c s0) as [s1| |] eqn:Hi; cbn [bind]; [|done..].
    apply IH. by eapply wf_invoke.
Qed.

(** C8: where promises exist, [nextTick] called without a callback returns a
    promise that is not settled when the call returns.  It stays unsettled,
    and its resolve function stays in the [_resolve] of this call only,
    through scheduler steps, further [nextTick] calls and the runs of all
    other queued entries; the entry of this call settles it with exactly
    [ctx].  So a flush leaves it unsettled until it reaches the entry, and
    settled with [ctx] when it is over. *)
Theorem nextTick_promise_resolves_at_its_entry (ctx : Ctx) (s : State) :
  Host.promiseDefined (host E) = true → wf s →
  let s' := fst (nextTick E None ctx s) in
  let p := length (promises s) in
  let cell := length (resolve_cells s) in
  let c := mkClosure None ctx cell in
  snd (nextTick E None ctx s) = Some p ∧
  callbacks s' = callbacks s ++ [c] ∧
  awaiting cell p s' ∧
  (∀ s1, awaiting cell p s1 → promises s1 !! p = Some None) ∧
  (∀ s1 s2, awaiting cell p s1 → evolves E s1 s2 → awaiting cell p s2) ∧
  (∀ s1, awaiting cell p s1 → awaiting cell p (set_callbacks [] (set_pending false s1))) ∧
  (∀ n c0 s1 s2, cl_resolve c0 ≠ cell → awaiting cell p s1 →
     invoke (callFn E n) c0 s1 = Done s2 → awaiting cell p s2) ∧
  (∀ callFn s1, awaiting cell p s1 →
     invoke callFn c s1 = Done (resolve p ctx s1) ∧
     promises (resolve p ctx s1) !! p = Some (Some ctx)) ∧
  ∀ s1, evolves E s' s1 →
    ∃ later, callbacks s1 = callbacks s ++ c :: later ∧
    (∀ n s2,
       run_copies (invoke (callFn E n)) (callbacks s)
         (set_callbacks [] (set_pending false s1)) = Done s2 →
       promises s2 !! p = Some None) ∧
    (∀ n s4, flushCallbacks E n s1 = Done s4 → promises s4 !! p = Some (Some ctx)).
Proof.
  intros HP Hwf s' p cell c.
  pose proof (nextTick_awaiting ctx s HP Hwf) as Haw. fold s' p cell in Haw.
  destruct (nextTick_spec E None ctx s) as (Hr & Hcb & _).
  unfold nextTick_result in Hr. rewrite HP in Hr. fold s' c in Hcb.
  assert (∀ s1, awaiting cell p s1 →
    awaiting cell p (set_callbacks [] (set_pending false s1))) as Hhead.
  { intros s1 ((_ & Hwf2) & Hp1 & Hc1 & Hu1).
    split; [split; [constructor|exact Hwf2]|]. split; [exact Hp1|]. by split. }
  split; [done|]. split; [done|]. split; [done|].
  split; [by intros s1 (_ & Hp1 & _)|].
  split; [intros s1 s2 Haw1 Hev; by eapply awaiting_evolves|].
  split; [done|].
  split; [intros n c0 s1 s2 Hne Haw1 Hi; by eapply invoke_keeps_awaiting|].
  split; [intros callFn s1 Haw1; by apply invoke_settles|].
  intros s1 Hev. pose proof (awaiting_evolves E _ _ _ _ Hev Haw) as Haw1.
  destruct (evolves_extends E _ _ Hev) as (_ & [later Hcb1] & _).
  rewrite Hcb, <- app_assoc in Hcb1. exists later. split; [done|].
  assert (Forall (λ c0, cl_resolve c0 ≠ cell) (callbacks s)) as Hold.
  { destruct Hwf as [Hwf _]. eapply Forall_impl; [exact Hwf|]. subst cell. simpl. lia. }
  assert (∀ n s2,
    run_copies (invoke (callFn E n)) (callbacks s)
      (set_callbacks [] (set_pending false s1)) = Done s2 →
    awaiting cell p s2) as Hpre.
  { intros n s2. apply run_copies_keeps_awaiting; [done|]. by apply Hhead. }
  split.
  - intros n s2 Hrun. apply Hpre in Hrun as Haw2. apply Haw2.
  - intros n s4. unfold flushCallbacks, flushCallbacks_with.
    cbn [callbacks set_callbacks set_pending]. rewrite Hcb1, run_copies_app.
    destruct (run_copies _ (callbacks s) _) as [s2| |] eqn:Hrun; cbn [bind]; [|done..].
    apply Hpre in Hrun.
    destruct (invoke_settles _ _ (callFn E n) ctx s2 Hrun) as [Hi Hs].
    cbn [run_copies app]. unfold cell in Hi. rewrite Hi. cbn [bind].
    by apply run_copies_keeps_settled.
Qed.

End Awaitable.

Lemma wf_initial : wf initial.
Proof. split; [constructor|]. intros i p Hi. by destruct i. Qed.

Lemma nextTick_promise_resolves_at_its_entry_witness :
  let s' := fst (nextTick (quiet_env modern_host) None (Str "x") initial) in
  snd (nextTick (quiet_env modern_host) None (Str "x") initial) = Some 0%nat ∧
  promises s' !! 0%nat = Some None ∧
  ∃ s4, flushCallbacks (quiet_env modern_host) 1 s' = Done s4 ∧
    promises s4 !! 0%nat = Some (Some (Str "x")).
Proof.
  destruct (nextTick_promise_resolves_at_its_entry (quiet_env modern_host)
    (Str "x") initial eq_refl wf_initial) as (Hr & _ & Haw & Hp & _ & _ & _ & _ & Hflush).
  split; [exact Hr|]. split; [exact (Hp _ Haw)|].
  destruct (Hflush _ (evolves_refl _ _)) as (later & _ & _ & Hend).
  eexists. split; [vm_compute; reflexivity|].
  apply (Hend 1%nat). vm_compute. reflexivity.
Defined.

Section NoPromise.
Context (E : Env).

(** An allocated [_resolve] variable is never written again. *)
Lemma invoke_keeps_cells n c s s' :
  invoke (callFn E n) c s = Done s' → resolve_cells s `prefix_of` resolve_cells s'.
Proof.
  unfold invoke. destruct (cl_cb c) as [f|].
  - pose proof (callFn_evolves E n f (cl_ctx c) (emit (Invoke f (cl_ctx c)) s)) as Hev.
    destruct (callFn E n f _ _) as [s1|e s1|]; simpl in Hev; [| |done]; intros [= <-];
      by apply evolves_extends in Hev as (_ & _ & Hc & _).
  - unfold resolve. repeat case_match; by intros [= <-].
Qed.

Lemma run_copies_keeps_cells n cs s s' :
  run_copies (invoke (callFn E n)) cs s = Done s' →
  resolve_cells s `prefix_of` resolve_cells s'.
Proof.
  revert s. induction cs as [|c cs IH]; intros s; cbn [run_copies].
  - by intros [= <-].
  - destruct (invoke (callFn E n) c s) as [s1| |] eqn:Hi; cbn [bind]; [|done..].
    intros Hrun. etrans; [by eapply invoke_keeps_cells|by apply IH].
Qed.

(** C10: on a host without a [Promise] global, [nextTick] never returns a
    promise; called without a callback it returns nothing and queues an
    entry whose [_resolve] is never assigned, so that the entry changes
    nothing when a flush runs it, whatever happened before. *)
Theorem nextTick_without_promise_support (ctx : Ctx) (s : State) :
  Host.promiseDefined (host E) = false →
  let s' := fst (nextTick E None ctx s) in
  let c := mkClosure None ctx (length (resolve_cells s)) in
  (∀ cb ctx0 s0, snd (nextTick E cb ctx0 s0) = None) ∧
  callbacks s' = callbacks s ++ [c] ∧
  promises s' = promises s ∧
  resolve_cells s' !! cl_resolve c = Some None ∧
  ∀ s1, evolves E s' s1 →
    ∃ later, callbacks s1 = callbacks s ++ c :: later ∧
    ∀ n s2,
      run_copies (invoke (callFn E n)) (callbacks s)
        (set_callbacks [] (set_pending false s1)) = Done s2 →
      invoke (callFn E n) c s2 = Done s2.
Proof.
  intros HP s' c.
  destruct (nextTick_spec E None ctx s) as (_ & Hcb & _ & Hcells & Hprom & _).
  fold s' c in Hcb, Hcells, Hprom.
  unfold nextTick_result in Hcells, Hprom. rewrite HP in Hcells, Hprom.
  rewrite app_nil_r in Hprom.
  assert (resolve_cells s' !! cl_resolve c = Some None) as Hcell
    by (rewrite Hcells; apply list_lookup_middle; done).
  split; [|split; [done|split; [done|split; [done|]]]].
  { intros cb ctx0 s0. destruct (nextTick_spec E cb ctx0 s0) as (-> & _).
    unfold nextTick_result. rewrite HP. by destruct cb. }
  intros s1 Hev.
  destruct (evolves_extends E _ _ Hev) as (_ & [later Hcb1] & Hpre1 & _).
  rewrite Hcb, <- app_assoc in Hcb1. exists later. split; [done|].
  intros n s2 Hrun. apply run_copies_keeps_cells in Hrun. cbn in Hrun.
  assert (resolve_cells s2 !! length (resolve_cells s) = Some None) as Hc2.
  { eapply prefix_lookup_Some; [|etrans; [exact Hpre1|exact Hrun]]. exact Hcell. }
  unfold invoke. cbn [c cl_cb cl_resolve]. by rewrite Hc2.
Qed.

End NoPromise.

Lemma nextTick_without_promise_support_witness :
  let s' := fst (nextTick (quiet_env bare_host) None (Str "x") initial) in
  snd (nextTick (quiet_env bare_host) None (Str "x") initial) = None ∧
  log s' = [SetTimeout0] ∧
  flushCallbacks (quiet_env bare_host) 1 s' =
    Done (set_callbacks [] (set_pending false s')).
Proof.
  destruct (nextTick_without_promise_support (quiet_env bare_host)
    (Str "x") initial eq_refl) as (Hr & _ & _ & _ & Hflush).
  split; [apply Hr|]. split; [vm_compute; reflexivity|].
  destruct (Hflush _ (evolves_refl _ _)) as (later & _ & Hinv).
  exact (Hinv 1%nat _ eq_refl).
Defined.

(** * The scheduler *)

Section Insertion.
Context (E : Env).

Lemma scan_spec q idx id fuel i :
  -1 ≤ i < Z.of_nat (length q) → i - Z.of_nat idx ≤ Z.of_nat fuel →
  let r := scan fuel q idx id i in
  r ≤ i ∧ (Z.of_nat idx ≤ r ∨ r = i) ∧
  (∀ j w', r < j ≤ i → q !! Z.to_nat j = Some w' → id < Watcher.id w') ∧
  (r ≤ Z.of_nat idx ∨ ∃ w', q !! Z.to_nat r = Some w' ∧ Watcher.id w' ≤ id).
Proof.
  revert i. induction fuel as [|fuel IH]; intros i Hi Hfuel; cbn [scan].
  - repeat split; [lia|by right|intros; lia|left; lia].
  - destruct (Z.of_nat idx <? i) eqn:Hlt; cbn [andb].
    + apply Z.ltb_lt in Hlt.
      destruct (q !! Z.to_nat i) as [w|] eqn:Hw.
      * destruct (id <? Watcher.id w) eqn:Hid.
        -- apply Z.ltb_lt in Hid.
           destruct (IH (i - 1) ltac:(lia) ltac:(lia)) as (H1 & H2 & H3 & H4).
           repeat split; [lia|lia| |done].
           intros j w' Hj Hw'. destruct (decide (j = i)) as [->|].
           ++ congruence.
           ++ apply (H3 j); [lia|done].
        -- apply Z.ltb_ge in Hid.
           repeat split; [lia|by right|intros; lia|right; eauto].
      * apply lookup_ge_None in Hw. lia.
    + apply Z.ltb_ge in Hlt. repeat split; [lia|by right|intros; lia|left; lia].
Qed.

(** Where the scan stops: after the cursor, after every pending entry with a
    smaller or equal id that it met, before all entries with a greater id. *)
Lemma insert_position_spec q idx id :
  (idx < length q)%nat →
  let p := insert_position q idx id in
  (idx < p ≤ length q)%nat ∧
  (∀ j w', (p ≤ j)%nat → q !! j = Some w' → id < Watcher.id w') ∧
  (p = S idx ∨ ∃ w', q !! (p - 1)%nat = Some w' ∧ Watcher.id w' ≤ id).
Proof.
  intros Hidx p. unfold insert_position in p.
  destruct (scan_spec q idx id (length q) (Z.of_nat (length q) - 1))
    as (H1 & H2 & H3 & H4); [lia..|].
  set (r := scan _ _ _ _ _) in *.
  assert (Z.of_nat idx ≤ r) as Hr by lia.
  assert (p = Z.to_nat (r + 1)) as Hp by done. clearbody p r.
  repeat split; [lia|lia| |].
  - intros j w' Hj Hw'. apply lookup_lt_Some in Hw' as Hlen.
    apply (H3 (Z.of_nat j)); [lia|]. by rewrite Nat2Z.id.
  - destruct H4 as [H4|(w' & Hw' & Hle)]; [left; lia|].
    right. exists w'. split; [|done].
    replace (p - 1)%nat with (Z.to_nat r) by lia. done.
Qed.

Lemma StronglySorted_lookup (l : list Watcher.t) :
  StronglySorted id_le l ↔
  ∀ i j x y, (i < j)%nat → l !! i = Some x → l !! j = Some y → id_le x y.
Proof.
  induction l as [|a l IH].
  - split; [intros _ i j x y _ Hx; by destruct i|constructor].
  - rewrite StronglySorted_cons, IH, Forall_forall. split.
    + intros [Ha Hl] i j x y Hij Hx Hy. destruct j as [|j]; [lia|].
      destruct i as [|i]; simplify_eq/=.
      * apply Ha. by eapply list_elem_of_lookup_2.
      * eapply Hl; [|done..]. lia.
    + intros H. split.
      * intros y [j Hy]%list_elem_of_lookup. by apply (H 0%nat (S j) a y); [lia|..].
      * intros i j x y Hij Hx Hy. apply (H (S i) (S j)); [lia|done..].
Qed.

Lemma splice_lookup (q : list Watcher.t) (p : nat) w k :
  (p ≤ length q)%nat →
  splice (Z.of_nat p) w q !! k =
    if decide (k < p)%nat then q !! k
    else if decide (k = p) then Some w else q !! (k - 1)%nat.
Proof.
  intros Hp. unfold splice. rewrite Nat2Z.id.
  destruct (decide (k < p)%nat) as [Hlt|Hge].
  - rewrite lookup_app_l by (rewrite length_take; lia). by apply lookup_take_lt.
  - rewrite lookup_app_r by (rewrite length_take; lia).
    rewrite length_take, Nat.min_l by lia.
    destruct (decide (k = p)) as [->|Hne]; [by rewrite Nat.sub_diag|].
    destruct (k - p)%nat as [|m] eqn:Hm; [lia|].
    change ((w :: drop p q) !! S m) with (drop p q !! m).
    rewrite lookup_drop. f_equal. lia.
Qed.

(** In a sorted pending part, the entries before the insertion point have ids
    not greater than the new one. *)
Lemma insert_position_low q idx id :
  (idx < length q)%nat →
  StronglySorted id_le (drop (S idx) q) →
  ∀ i x, (idx < i < insert_position q idx id)%nat → q !! i = Some x →
    Watcher.id x ≤ id.
Proof.
  intros Hidx Hsorted.
  destruct (insert_position_spec q idx id Hidx) as (Hp & Hgt & Hle).
  set (p := insert_position q idx id) in *. clearbody p.
  rewrite StronglySorted_lookup in Hsorted.
  intros i x Hi Hx. destruct Hle as [->|(w' & Hw' & Hw'le)]; [lia|].
  destruct (decide (i = p - 1)%nat) as [->|Hne]; [congruence|].
  etrans; [|exact Hw'le].
  apply (Hsorted (i - S idx) (p - 1 - S idx))%nat; [lia|rewrite lookup_drop..].
  - by replace (S idx + (i - S idx))%nat with i by lia.
  - by replace (S idx + (p - 1 - S idx))%nat with (p - 1)%nat by lia.
Qed.

(** The pending part of the queue stays sorted. *)
Lemma splice_sorted q idx w :
  (idx < length q)%nat →
  StronglySorted id_le (drop (S idx) q) →
  StronglySorted id_le
    (drop (S idx) (splice (Z.of_nat (insert_position q idx (Watcher.id w))) w q)).
Proof.
  intros Hidx Hsorted.
  pose proof (insert_position_low q idx (Watcher.id w) Hidx Hsorted) as Hlow.
  destruct (insert_position_spec q idx (Watcher.id w) Hidx) as (Hp & Hgt & Hle).
  set (p := insert_position q idx (Watcher.id w)) in *. clearbody p.
  rewrite StronglySorted_lookup in Hsorted. rewrite StronglySorted_lookup.
  assert (∀ i j x y, (idx < i < j)%nat → q !! i = Some x → q !! j = Some y →
    id_le x y) as Hq.
  { intros i j x y Hij Hx Hy.
    apply (Hsorted (i - S idx) (j - S idx))%nat; [lia|rewrite lookup_drop..].
    - by replace (S idx + (i - S idx))%nat with i by lia.
    - by replace (S idx + (j - S idx))%nat with j by lia. }
  intros i j x y Hij. rewrite !lookup_drop, !splice_lookup by lia.
  repeat case_decide; intros Hx Hy; simplify_eq; try lia.
  - apply (Hq (S idx + i) (S idx + j))%nat; [lia|done..].
  - apply (Hlow (S idx + i)%nat); [lia|done].
  - apply (Hq (S idx + i) (S idx + j - 1))%nat; [lia|done..].
  - unfold id_le. specialize (Hgt (S idx + j - 1)%nat y ltac:(lia) Hy). lia.
  - apply (Hq (S idx + i - 1) (S idx + j - 1))%nat; [lia|done..].
Qed.

End Insertion.

Section Scheduler.
Context (E : Env).

Lemma queueWatcher_known fl w s :
  has_is_null s (Watcher.id w) = false → queueWatcher E fl w s = Done s.
Proof. intros H. unfold queueWatcher, queue_the_flush. by rewrite H. Qed.

Lemma queueWatcher_flushing fl w s :
  has_is_null s (Watcher.id w) = true → flushing s = true → waiting s = true →
  queueWatcher E fl w s =
  Done (set_queue
          (splice (Z.of_nat (insert_position (queue s) (index s) (Watcher.id w)))
             w (queue s))
          (set_has (<[Watcher.id w := HTrue]> (has s)) s)).
Proof.
  intros Hnull Hfl Hw. unfold queueWatcher, queue_the_flush. rewrite Hnull. cbn.
  rewrite Hfl. cbn. rewrite Hw. cbn.
  unfold splice, insert_position. by rewrite !Nat2Z.id.
Qed.

Lemma queueWatcher_idle fl w s :
  has_is_null s (Watcher.id w) = true → flushing s = false → waiting s = true →
  queueWatcher E fl w s =
  Done (set_queue (queue s ++ [w]) (set_has (<[Watcher.id w := HTrue]> (has s)) s)).
Proof.
  intros Hnull Hfl Hw. unfold queueWatcher, queue_the_flush. rewrite Hnull. cbn.
  rewrite Hfl. cbn. by rewrite Hw.
Qed.

Lemma queueWatcher_first fl w s :
  has_is_null s (Watcher.id w) = true → flushing s = false → waiting s = false →
  deferred_flush E →
  queueWatcher E fl w s =
  Done (fst (nextTick E (Some FlushSchedulerQueue) Undefined
    (set_waiting true
      (set_queue (queue s ++ [w]) (set_has (<[Watcher.id w := HTrue]> (has s)) s))))).
Proof.
  intros Hnull Hfl Hw Hd. unfold queueWatcher, queue_the_flush. rewrite Hnull. cbn [negb].
  cbn [flushing set_has]. rewrite Hfl. cbn [negb waiting set_queue set_has].
  rewrite Hw. cbn [negb]. by rewrite Hd.
Qed.

Lemma exec_body_inert f s : exec_body f inert s = Done s.
Proof. done. Qed.

Lemma has_is_null_insert_true s id h :
  has s = <[id := HTrue]> h → has_is_null s id = false.
Proof. intros Hh. unfold has_is_null. by rewrite Hh, lookup_insert_eq. Qed.

Lemma has_is_null_insert_null s id h :
  has s = <[id := HNull]> h → has_is_null s id = true.
Proof. intros Hh. unfold has_is_null. by rewrite Hh, lookup_insert_eq. Qed.

Lemma flush_iteration_inert ex k w s :
  inert_watcher E w → (∀ s, ex inert s = Done s) →
  flush_iteration E ex k w s = k (inert_turn w s).
Proof.
  intros [Hrun Hbefore] Hex. unfold flush_iteration, inert_turn.
  rewrite Hbefore, Hex.
  replace (s0 <- (if Watcher.before w then Done (emit (Before w) s) else Done s);; _)
    with (bind (Done (if Watcher.before w then emit (Before w) s else s))
       (λ s0, s1 <- ex (run_body E w (set_has (<[Watcher.id w:=HNull]> (has s0)) s0))
                     (emit (Run w) (set_has (<[Watcher.id w:=HNull]> (has s0)) s0));;
              if negb (production E) && negb (has_is_null s1 (Watcher.id w))
              then
                let n := default 0 (circular s1 !! Watcher.id w) + 1 in
                let s2 := set_circular (<[Watcher.id w:=n]> (circular s1)) s1 in
                if MAX_UPDATE_COUNT <? n
                then Done (warn (loop_warning w) (Watcher.vm w) s2)
                else k (set_index (S (index s2)) s2)
              else k (set_index (S (index s1)) s1)))
    by (by destruct (Watcher.before w)).
  cbn [bind]. rewrite Hrun, Hex. cbn [bind].
  rewrite (has_is_null_insert_null _ _ (has (if Watcher.before w then emit (Before w) s else s)))
    by done.
  by rewrite andb_false_r.
Qed.

Lemma inert_turn_fields w s :
  let s' := inert_turn w s in
  queue s' = queue s ∧ index s' = S (index s) ∧
  log s' = log s ++ (if Watcher.before w then [Before w] else []) ++ [Run w] ∧
  has s' = <[Watcher.id w := HNull]> (has s) ∧
  callbacks s' = callbacks s ∧ pending s' = pending s ∧ counter s' = counter s ∧
  resolve_cells s' = resolve_cells s ∧ promises s' = promises s ∧
  activatedChildren s' = activatedChildren s ∧ circular s' = circular s ∧
  waiting s' = waiting s ∧ flushing s' = flushing s ∧ components s' = components s.
Proof.
  unfold inert_turn. destruct (Watcher.before w); cbn; repeat split; try done.
  by rewrite <- app_assoc.
Qed.

Lemma inert_turns_fields ws s :
  let s' := inert_turns ws s in
  queue s' = queue s ∧ index s' = (index s + length ws)%nat ∧
  log s' = log s ++ inert_events ws ∧
  has s' = nulled ws (has s) ∧
  callbacks s' = callbacks s ∧ pending s' = pending s ∧ counter s' = counter s ∧
  resolve_cells s' = resolve_cells s ∧ promises s' = promises s ∧
  activatedChildren s' = activatedChildren s ∧ circular s' = circular s ∧
  waiting s' = waiting s ∧ flushing s' = flushing s ∧ components s' = components s.
Proof.
  revert s. induction ws as [|w ws IH]; intros s.
  - cbn. rewrite app_nil_r, Nat.add_0_r. done.
  - specialize (IH (inert_turn w s)).
    destruct (inert_turn_fields w s)
      as (Hq & Hi & Hl & Hh & Hcb & Hp & Hcn & Hrc & Hpr & Hac & Hci & Hwa & Hfl & Hco).
    cbn beta zeta in *. change (inert_turns (w :: ws) s) with (inert_turns ws (inert_turn w s)).
    destruct IH as (-> & -> & -> & -> & -> & -> & -> & -> & -> & -> & -> & -> & -> & ->).
    rewrite Hq, Hi, Hl, Hh, Hcb, Hp, Hcn, Hrc, Hpr, Hac, Hci, Hwa, Hfl, Hco.
    repeat split; try done.
    + cbn [length]. lia.
    + cbn [inert_events flat_map]. by rewrite <- !app_assoc.
Qed.

(** The loop, started at a run of inert watchers, takes one turn for each. *)
Lemma flush_loop_inert ws n s pre rest :
  queue s = pre ++ ws ++ rest → index s = length pre →
  Forall (inert_watcher E) ws →
  flush_loop E (length ws + n) s = flush_loop E n (inert_turns ws s).
Proof.
  intros Hq Hi Hws. revert s pre Hq Hi.
  induction Hws as [|w ws Hw _ IH]; intros s pre Hq Hi; [done|].
  cbn [length Nat.add flush_loop].
  rewrite Hq, Hi, <- app_comm_cons, list_lookup_middle by done.
  rewrite flush_iteration_inert by done.
  destruct (inert_turn_fields w s) as (Hq' & Hi' & _).
  apply (IH _ (pre ++ [w])).
  - by rewrite Hq', Hq, <- app_assoc.
  - rewrite Hi', Hi, length_app. cbn. lia.
Qed.

Lemma flush_loop_S n s :
  flush_loop E (S n) s =
  match queue s !! index s with
  | None => Done s
  | Some watcher =>
      flush_iteration E (exec_body (call E n)) (flush_loop E n) watcher s
  end.
Proof. done. Qed.

Lemma flush_loop_exit n s :
  (length (queue s) ≤ index s)%nat → flush_loop E (S n) s = Done s.
Proof.
  intros H. cbn [flush_loop]. by rewrite lookup_ge_None_2.
Qed.

Lemma runs_app l1 l2 : runs (l1 ++ l2) = runs l1 ++ runs l2.
Proof. apply omap_app. Qed.

Lemma runs_inert_events ws : runs (inert_events ws) = ws.
Proof.
  induction ws as [|w ws IH]; [done|].
  cbn [inert_events flat_map]. rewrite !runs_app. fold (inert_events ws).
  rewrite IH. by destruct (Watcher.before w).
Qed.

End Scheduler.

Lemma bind_ext r k k' : (∀ s, k s = k' s) → bind r k = bind r k'.
Proof. intros H. destruct r; cbn; auto. Qed.

Section Hooks.
Context (E : Env).

Lemma fires_updated_ext s s' w :
  components s' = components s → fires_updated s' w = fires_updated s w.
Proof. intros H. unfold fires_updated, component. by rewrite H. Qed.

(** [callUpdatedHooks] handles the last watcher of the queue first, testing
    its component in the current state, then the watchers before it. *)
Lemma callUpdatedHooks_snoc ex q w s :
  callUpdatedHooks E ex (q ++ [w]) s =
  bind (if fires_updated s w
        then ex (updated_body E (Watcher.vm w) s)
               (emit (CallHook (Watcher.vm w) "updated") s)
        else Done s)
       (callUpdatedHooks E ex q).
Proof.
  unfold callUpdatedHooks. rewrite length_app, Nat.add_1_r.
  cbn [callUpdatedHooks_from]. rewrite list_lookup_middle by done.
  change (bool_decide _ && _ && _) with (fires_updated s w).
  apply bind_ext. clear s.
  assert (∀ i s, (i ≤ length q)%nat →
    callUpdatedHooks_from E ex (q ++ [w]) i s = callUpdatedHooks_from E ex q i s) as H.
  { intros i. induction i as [|i IH]; intros s Hi; [done|].
    cbn [callUpdatedHooks_from]. rewrite lookup_app_l by lia.
    destruct (q !! i); [|done]. apply bind_ext. intros s'. apply IH. lia. }
  intros s. by apply H.
Qed.

Lemma set_log_id s : set_log (log s) s = s.
Proof. by destruct s. Qed.

Lemma hooks_called_app l1 l2 :
  hooks_called (l1 ++ l2) = hooks_called l1 ++ hooks_called l2.
Proof. apply omap_app. Qed.

Lemma warnings_app l1 l2 : warnings (l1 ++ l2) = warnings l1 ++ warnings l2.
Proof. apply omap_app. Qed.

Lemma updated_events_snoc s q w :
  updated_events s (q ++ [w]) =
  (if fires_updated s w then [CallHook (Watcher.vm w) "updated"] else [])
  ++ updated_events s q.
Proof.
  unfold updated_events. rewrite reverse_snoc, filter_cons.
  destruct (fires_updated s w); by case_decide.
Qed.

Lemma updated_events_ext s s' q :
  components s' = components s → updated_events s' q = updated_events s q.
Proof.
  intros H. unfold updated_events. f_equal. apply list_filter_iff.
  intros w. by rewrite (fires_updated_ext s s').
Qed.

(** The closed form when the hooks call nothing back. *)
Lemma callUpdatedHooks_inert ex q s :
  (∀ vm s, updated_body E vm s = inert) → (∀ s, ex inert s = Done s) →
  callUpdatedHooks E ex q s = Done (set_log (log s ++ updated_events s q) s).
Proof.
  intros Hup Hex. revert s. induction q as [|w q IH] using rev_ind; intros s.
  - cbn. by rewrite app_nil_r, set_log_id.
  - rewrite callUpdatedHooks_snoc, updated_events_snoc.
    destruct (fires_updated s w).
    + rewrite Hup, Hex. cbn [bind]. rewrite IH.
      rewrite (updated_events_ext s) by done. cbn. by rewrite <- app_assoc.
    + cbn [bind]. by rewrite IH.
Qed.

Lemma updated_events_hooks s q :
  hooks_called (updated_events s q) =
  map (λ w, (Watcher.vm w, "updated"))
    (filter (λ w, fires_updated s w = true) (reverse q)).
Proof.
  unfold updated_events. induction (filter _ _) as [|w l IH]; [done|].
  cbn. by rewrite <- IH.
Qed.

Lemma updated_events_only_hooks s q :
  runs (updated_events s q) = [] ∧ warnings (updated_events s q) = [].
Proof.
  unfold updated_events. induction (filter _ _) as [|w l [IH1 IH2]]; [done|].
  cbn. by rewrite <- IH1, <- IH2.
Qed.

Lemma callActivatedHooks_inert ex q s :
  (∀ vm s, activate_body E vm s = inert) → (∀ s, ex inert s = Done s) →
  callActivatedHooks E ex q s = Done (activate_all q s).
Proof.
  intros Hact Hex. revert s. induction q as [|vm q IH]; intros s; [done|].
  cbn [callActivatedHooks]. rewrite Hact, Hex. cbn [bind]. by rewrite IH.
Qed.

Lemma activate_all_fields q s :
  let s' := activate_all q s in
  log s' = log s ++ map ActivateChildComponent q ∧
  (∀ w, fires_updated s' w = fires_updated s w) ∧
  queue s' = queue s ∧ index s' = index s ∧ has s' = has s ∧
  callbacks s' = callbacks s ∧ pending s' = pending s ∧ counter s' = counter s ∧
  resolve_cells s' = resolve_cells s ∧ promises s' = promises s ∧
  activatedChildren s' = activatedChildren s ∧ circular s' = circular s ∧
  waiting s' = waiting s ∧ flushing s' = flushing s.
Proof.
  revert s. induction q as [|vm q IH]; intros s; cbv zeta.
  - cbn. by rewrite app_nil_r.
  - set (s1 := emit (ActivateChildComponent vm)
      (set_components (<[vm:=Component.set_inactive true (component s vm)]>
        (components s)) s)).
    change (activate_all (vm :: q) s) with (activate_all q s1).
    destruct (IH s1)
      as (-> & Hf & -> & -> & -> & -> & -> & -> & -> & -> & -> & -> & -> & ->).
    subst s1. cbn. rewrite <- app_assoc. repeat split; try done.
    intros w. rewrite Hf. unfold fires_updated, component. cbn.
    destruct (decide (vm = Watcher.vm w)) as [->|Hne].
    + by rewrite lookup_insert_eq.
    + by rewrite lookup_insert_ne.
Qed.

Lemma resetSchedulerState_fields s :
  let s' := resetSchedulerState E s in
  queue s' = [] ∧ activatedChildren s' = [] ∧ has s' = ∅ ∧ index s' = 0%nat ∧
  waiting s' = false ∧ flushing s' = false ∧
  circular s' = (if production E then circular s else ∅) ∧
  log s' = log s ∧ components s' = components s ∧
  callbacks s' = callbacks s ∧ pending s' = pending s ∧ counter s' = counter s ∧
  resolve_cells s' = resolve_cells s ∧ promises s' = promises s.
Proof. unfold resetSchedulerState. by destruct (production E). Qed.

(** The end of a flush when the hooks call nothing back. *)
Lemma flush_end_inert ex s :
  inert_hooks E → (∀ s, ex inert s = Done s) →
  ∃ s' evs, flush_end E ex s = Done s' ∧
    log s' = log s ++ evs ∧
    runs evs = [] ∧ warnings evs = [] ∧
    hooks_called evs =
      map (λ w, (Watcher.vm w, "updated"))
        (filter (λ w, fires_updated s w = true) (reverse (queue s))) ∧
    queue s' = [] ∧ activatedChildren s' = [] ∧ has s' = ∅ ∧ index s' = 0%nat ∧
    waiting s' = false ∧ flushing s' = false ∧
    callbacks s' = callbacks s ∧ pending s' = pending s.
Proof.
  intros [Hup Hact] Hex. unfold flush_end.
  rewrite callActivatedHooks_inert by done. cbn [bind].
  rewrite callUpdatedHooks_inert by done. cbn [bind].
  set (s0 := resetSchedulerState E s).
  destruct (resetSchedulerState_fields s)
    as (Hq0 & Ha0 & Hh0 & Hi0 & Hw0 & Hf0 & _ & Hl0 & Hc0 & Hcb0 & Hp0 & _).
  fold s0 in Hq0, Ha0, Hh0, Hi0, Hw0, Hf0, Hl0, Hc0, Hcb0, Hp0.
  destruct (activate_all_fields (activatedChildren s) s0)
    as (Hl1 & Hfires & Hq1 & Hi1 & Hh1 & Hcb1 & Hp1 & _ & _ & _ & Ha1 & _ & Hw1 & Hf1).
  set (s1 := activate_all (activatedChildren s) s0) in *.
  assert (updated_events s1 (queue s) = updated_events s (queue s)) as Hue.
  { unfold updated_events. f_equal. apply list_filter_iff. intros w.
    rewrite Hfires. by rewrite (fires_updated_ext s s0). }
  eexists _, (map ActivateChildComponent (activatedChildren s)
    ++ updated_events s (queue s)
    ++ (if devtools E then [DevtoolsFlush] else [])).
  split; [done|]. split.
  { destruct (devtools E); cbn; rewrite Hl1, Hl0, Hue, <- ?app_assoc; [done|].
    by rewrite app_nil_r. }
  rewrite !runs_app, !warnings_app, !hooks_called_app.
  destruct (updated_events_only_hooks s (queue s)) as [-> ->].
  rewrite updated_events_hooks.
  assert (∀ l, runs (map ActivateChildComponent l) = []
    ∧ warnings (map ActivateChildComponent l) = []
    ∧ hooks_called (map ActivateChildComponent l) = []) as Hact_ev.
  { intros l. induction l as [|x l (?&?&?)]; done. }
  destruct (Hact_ev (activatedChildren s)) as (-> & -> & ->).
  destruct (devtools E); cbn; rewrite ?app_nil_r;
    rewrite ?Hq1, ?Hq0, ?Ha1, ?Ha0, ?Hh1, ?Hh0, ?Hi1, ?Hi0, ?Hw1, ?Hw0,
      ?Hf1, ?Hf0, ?Hcb1, ?Hcb0, ?Hp1, ?Hp0; done.
Qed.

End Hooks.

Section Ordering.
Context (E : Env).

(** A flush whose watchers and hooks call nothing back: the watchers run in
    the order of the sorted queue, and the scheduler is reset. *)
Lemma flushSchedulerQueue_inert s :
  Forall (inert_watcher E) (queue s) → inert_hooks E →
  ∃ s' evs, flushSchedulerQueue E (length (queue s) + 2) s = Done s' ∧
    log s' = log s ++ evs ∧
    runs evs = merge_sort id_le (queue s) ∧ warnings evs = [] ∧
    hooks_called evs =
      map (λ w, (Watcher.vm w, "updated"))
        (filter (λ w, fires_updated s w = true) (reverse (merge_sort id_le (queue s)))) ∧
    queue s' = [] ∧ has s' = ∅ ∧ waiting s' = false ∧ flushing s' = false ∧
    callbacks s' = callbacks s ∧ pending s' = pending s.
Proof.
  intros Hws Hhooks.
  set (q := merge_sort id_le (queue s)).
  assert (length q = length (queue s)) as Hlen
    by (apply Permutation_length, merge_sort_Permutation).
  assert (Forall (inert_watcher E) q) as Hq
    by (unfold q; by rewrite (merge_sort_Permutation id_le (queue s))).
  replace (length (queue s) + 2)%nat with (S (length q + 1)) by lia.
  cbn [flushSchedulerQueue].
  rewrite (flush_loop_inert E q 1 (flush_begin s) [] []); [| |done..].
  2:{ cbn. by rewrite app_nil_r. }
  destruct (inert_turns_fields q (flush_begin s))
    as (Hq1 & Hi1 & Hl1 & _ & Hcb1 & Hp1 & _ & _ & _ & _ & _ & _ & _ & Hco1).
  set (s1 := inert_turns q (flush_begin s)) in *.
  rewrite flush_loop_exit by (rewrite Hq1, Hi1; cbn; fold q; lia).
  cbn [bind].
  destruct (flush_end_inert E (exec_body (call E (length q + 1))) s1 Hhooks)
    as (s' & evs & Hend & Hl & Hruns & Hwarn & Hhk & Hq' & _ & Hh' & _ & Hw' & Hf' & Hcb' & Hp');
    [done|].
  exists s', (inert_events q ++ evs). split; [done|].
  rewrite Hl, Hl1, runs_app, warnings_app, hooks_called_app, runs_inert_events,
    Hruns, Hwarn, Hhk, Hq1, Hcb', Hp', Hcb1, Hp1, app_nil_r.
  change (queue (flush_begin s)) with q. change (log (flush_begin s)) with (log s).
  change (callbacks (flush_begin s)) with (callbacks s).
  change (pending (flush_begin s)) with (pending s).
  assert (warnings (inert_events q) = [] ∧ hooks_called (inert_events q) = [])
    as [-> ->].
  { clear. induction q as [|w q [IH1 IH2]]; [done|].
    cbn [inert_events flat_map]. rewrite !warnings_app, !hooks_called_app.
    fold (inert_events q). rewrite IH1, IH2. by destruct (Watcher.before w). }
  rewrite <- app_assoc, !app_nil_l. repeat split; try done.
  f_equal. apply list_filter_iff. intros w.
  by rewrite (fires_updated_ext (flush_begin s) s1), (fires_updated_ext s (flush_begin s)).
Qed.

(** C3: [flushSchedulerQueue] sorts the queue by id before its loop starts and
    before anything has run; watchers that call nothing back are then run in
    that order, which is ascending in the ids and has the watchers queued. *)
Theorem flush_sorts_then_runs_in_id_order (s : State) :
  (queue (flush_begin s) = merge_sort id_le (queue s) ∧
   Sorted id_le (queue (flush_begin s)) ∧
   queue (flush_begin s) ≡ₚ queue s ∧
   index (flush_begin s) = 0%nat ∧ log (flush_begin s) = log s ∧
   ∀ n, flushSchedulerQueue E (S n) s =
        bind (flush_loop E n (flush_begin s)) (flush_end E (exec_body (call E n)))) ∧
  (Forall (inert_watcher E) (queue s) → inert_hooks E →
   ∃ s' evs, flushSchedulerQueue E (length (queue s) + 2) s = Done s' ∧
     log s' = log s ++ evs ∧
     runs evs = merge_sort id_le (queue s) ∧
     Sorted id_le (runs evs) ∧ runs evs ≡ₚ queue s).
Proof.
  split.
  - repeat split; try done.
    + apply Sorted_merge_sort, _.
    + apply merge_sort_Permutation.
  - intros Hws Hhooks.
    destruct (flushSchedulerQueue_inert s Hws Hhooks) as (s' & evs & Hrun & Hl & Hr & _).
    exists s', evs. rewrite Hr. repeat split; try done.
    + apply Sorted_merge_sort, _.
    + apply merge_sort_Permutation.
Qed.

End Ordering.

Lemma flush_sorts_then_runs_in_id_order_witness :
  queue queued_312 = [job 3; job 1; job 2] ∧
  ∃ s' evs, flushSchedulerQueue (quiet_env modern_host) 5 queued_312 = Done s' ∧
    log s' = log queued_312 ++ evs ∧ runs evs = [job 1; job 2; job 3].
Proof.
  split; [vm_compute; reflexivity|].
  destruct (flush_sorts_then_runs_in_id_order (quiet_env modern_host) queued_312)
    as [_ Hrun].
  destruct Hrun as (s' & evs & Hs' & Hl & Hr & _).
  - vm_compute. repeat constructor; done.
  - by split.
  - exists s', evs. split; [exact Hs'|]. split; [exact Hl|].
    rewrite Hr. vm_compute. reflexivity.
Defined.

Section UpdatedHooks.
Context (E : Env).

(** C9: [callUpdatedHooks] walks the copied queue from its end to its start:
    the last watcher is tested first, in the state of that moment, and its
    component's hook is called only when the watcher is the component's
    [_watcher] and the component is mounted and not destroyed; then come the
    watchers before it.  When the hooks call nothing back, the hooks called
    after a flush are those of the watchers of the queue that pass the test,
    in reverse order. *)
Theorem updated_hooks_in_reverse_order (q : list Watcher.t) :
  (∀ ex s, callUpdatedHooks E ex [] s = Done s) ∧
  (∀ ex w s,
     callUpdatedHooks E ex (q ++ [w]) s =
     bind (if bool_decide (Component._watcher (component s (Watcher.vm w)) = Some w)
              && Component._isMounted (component s (Watcher.vm w))
              && negb (Component._isDestroyed (component s (Watcher.vm w)))
           then exec_hook E ex w s else Done s)
          (callUpdatedHooks E ex q)) ∧
  (inert_hooks E → ∀ n s, queue s = q →
   ∃ s' evs, flush_end E (exec_body (call E n)) s = Done s' ∧
     log s' = log s ++ evs ∧
     hooks_called evs =
       map (λ w, (Watcher.vm w, "updated"))
         (filter (λ w, fires_updated s w = true) (reverse q))).
Proof.
  split; [done|]. split.
  - intros ex w s. apply callUpdatedHooks_snoc.
  - intros Hhooks n s <-.
    destruct (flush_end_inert E (exec_body (call E n)) s Hhooks)
      as (s' & evs & Hend & Hl & _ & _ & Hhk & _); [done|].
    by exists s', evs.
Qed.

End UpdatedHooks.

Lemma updated_hooks_in_reverse_order_witness :
  queue after_loop_312 = [job 1; job 2; job 3] ∧
  ∃ s' evs, flushSchedulerQueue (quiet_env modern_host) 5 queued_312 = Done s' ∧
    log s' = log after_loop_312 ++ evs ∧
    hooks_called evs = [(3%nat, "updated"); (2%nat, "updated"); (1%nat, "updated")].
Proof.
  split; [vm_compute; reflexivity|].
  destruct (updated_hooks_in_reverse_order (quiet_env modern_host)
    [job 1; job 2; job 3]) as (_ & _ & Hend).
  destruct (Hend ltac:(by split) 4%nat after_loop_312 ltac:(vm_compute; reflexivity))
    as (s' & evs & Hs' & Hl & Hhk).
  exists s', evs. split; [|split; [exact Hl|]].
  - cbn [flushSchedulerQueue].
    assert (flush_loop (quiet_env modern_host) 4 (flush_begin queued_312)
            = Done after_loop_312) as -> by (vm_compute; reflexivity).
    exact Hs'.
  - rewrite Hhk. vm_compute. reflexivity.
Defined.

Section Dedup.
Context (E : Env).

Lemma idle_consistent_push w s s1 :
  idle_consistent s → has_is_null s (Watcher.id w) = true →
  flushing s1 = false → queue s1 = queue s ++ [w] →
  has s1 = <[Watcher.id w := HTrue]> (has s) →
  idle_consistent s1.
Proof.
  intros (Hfl & Hnd & Hhas) Hnull Hfl1 Hq1 Hh1. split; [done|]. split.
  - rewrite Hq1, map_app. apply NoDup_app. split; [done|]. split; [|apply NoDup_singleton].
    intros i Hi ->%list_elem_of_singleton. apply Hhas in Hi. congruence.
  - intros i. unfold has_is_null. rewrite Hh1, Hq1, map_app, elem_of_app.
    change (map Watcher.id [w]) with [Watcher.id w].
    destruct (decide (i = Watcher.id w)) as [->|Hne].
    + rewrite lookup_insert_eq. split; [right; by apply list_elem_of_singleton|done].
    + rewrite lookup_insert_ne by done. fold (has_is_null s i). rewrite Hhas.
      rewrite list_elem_of_singleton. split; [auto|by intros [?|?]].
Qed.

(** Registering watchers one after the other while no flush runs. *)
Lemma queue_all_idle n ws s :
  deferred_flush E → idle_consistent s →
  ∃ s1, exec_calls (call E (S n)) (map CQueueWatcher ws) s = Done s1 ∧
    idle_consistent s1 ∧
    (∀ w, w ∈ queue s1 → w ∈ queue s ∨ w ∈ ws) ∧
    (∀ w, w ∈ ws → Watcher.id w ∈ map Watcher.id (queue s1)) ∧
    (∀ i, i ∈ map Watcher.id (queue s) → i ∈ map Watcher.id (queue s1)).
Proof.
  intros Hd. revert s. induction ws as [|w ws IH]; intros s Hs.
  - exists s. split; [done|]. split; [done|]. split; [auto|]. split; [|done].
    intros w Hw. by apply elem_of_nil in Hw.
  - cbn [map exec_calls call].
    assert (∃ s0, queueWatcher E (flushSchedulerQueue E n) w s = Done s0 ∧
      idle_consistent s0 ∧
      (∀ w', w' ∈ queue s0 → w' ∈ queue s ∨ w' = w) ∧
      Watcher.id w ∈ map Watcher.id (queue s0) ∧
      (∀ i, i ∈ map Watcher.id (queue s) → i ∈ map Watcher.id (queue s0)))
      as (s0 & -> & Hs0 & Hsub0 & Hin0 & Hmono0).
    { destruct (has_is_null s (Watcher.id w)) eqn:Hnull.
      - pose proof Hs as (Hfl & Hnd & Hhas).
        destruct (waiting s) eqn:Hw.
        + rewrite queueWatcher_idle by done. eexists. split; [done|].
          split; [by eapply (idle_consistent_push w s)|]. cbn.
          split; [|split].
          * intros w'. rewrite elem_of_app, list_elem_of_singleton. tauto.
          * rewrite map_app, elem_of_app. right. by apply list_elem_of_singleton.
          * intros i. rewrite map_app, elem_of_app. tauto.
        + rewrite queueWatcher_first by done. eexists. split; [done|].
          destruct (nextTick_spec E (Some FlushSchedulerQueue) Undefined
            (set_waiting true (set_queue (queue s ++ [w])
              (set_has (<[Watcher.id w:=HTrue]> (has s)) s))))
            as (_ & _ & _ & _ & _ & _ & Hq & _ & Hh & _ & _ & Hf & _).
          cbn in Hq, Hh, Hf. rewrite Hq.
          split; [eapply (idle_consistent_push w s); [done..|congruence|done|done]|].
          split; [|split].
          * intros w'. rewrite elem_of_app, list_elem_of_singleton. tauto.
          * rewrite map_app, elem_of_app. right. by apply list_elem_of_singleton.
          * intros i. rewrite map_app, elem_of_app. tauto.
      - rewrite queueWatcher_known by done. exists s. split; [done|].
        split; [done|]. split; [auto|]. split; [|done].
        by apply Hs. }
    cbn [bind]. destruct (IH s0 Hs0) as (s1 & Hrun & Hs1 & Hsub1 & Hin1 & Hmono1).
    exists s1. split; [done|]. split; [done|]. split; [|split].
    + intros w' Hw'. destruct (Hsub1 _ Hw') as [Hw0|Hws]; [|right; by right].
      destruct (Hsub0 _ Hw0) as [?| ->]; [by left|right; by left].
    + intros w' [->|Hw']%elem_of_cons; [by apply Hmono1|by apply Hin1].
    + auto.
Qed.

Lemma one_occurrence (l : list Watcher.t) w :
  NoDup (map Watcher.id l) → Watcher.id w ∈ map Watcher.id l →
  length (filter (λ r, Watcher.id r = Watcher.id w) l) = 1%nat.
Proof.
  induction l as [|a l IH]; cbn [map]; intros Hnd Hin.
  - by apply elem_of_nil in Hin.
  - apply NoDup_cons in Hnd as [Ha Hnd].
    destruct (decide (Watcher.id a = Watcher.id w)) as [Heq|Hne].
    + rewrite filter_cons_True by done. cbn. f_equal. rewrite Heq in Ha.
      assert (filter (λ r, Watcher.id r = Watcher.id w) l = []) as ->; [|done].
      clear -Ha. induction l as [|r l IH]; [done|].
      cbn [map] in Ha. apply not_elem_of_cons in Ha as [Hr Ha].
      rewrite filter_cons_False by congruence. by apply IH.
    + rewrite filter_cons_False by done.
      apply elem_of_cons in Hin as [?|Hin]; [congruence|]. by apply IH.
Qed.

(** C4: [queueWatcher] does nothing for an id that [has] marks as queued; so
    a second registration before the flush starts changes nothing, and a
    flush runs every registered id exactly once, however often it was
    registered. *)
Theorem duplicate_registration_is_dropped :
  (∀ fl w s, has s !! Watcher.id w = Some HTrue → queueWatcher E fl w s = Done s) ∧
  (∀ fl w s, flushing s = false → deferred_flush E ∨ waiting s = true →
     ∃ s1, queueWatcher E fl w s = Done s1 ∧
       has s1 !! Watcher.id w = Some HTrue ∧
       queueWatcher E fl w s1 = Done s1) ∧
  (deferred_flush E → inert_hooks E →
   ∀ ws s, Forall (inert_watcher E) ws →
     queue s = [] → has s = ∅ → flushing s = false →
     ∃ s1, exec_calls (call E 1) (map CQueueWatcher ws) s = Done s1 ∧
     ∃ s' evs, flushSchedulerQueue E (length (queue s1) + 2) s1 = Done s' ∧
       log s' = log s1 ++ evs ∧
       (∀ w, w ∈ ws →
          length (filter (λ r, Watcher.id r = Watcher.id w) (runs evs)) = 1%nat) ∧
       (∀ r, r ∈ runs evs → r ∈ ws)).
Proof.
  assert (∀ fl w s, has s !! Watcher.id w = Some HTrue →
    queueWatcher E fl w s = Done s) as Hnoop.
  { intros fl w s Hh. apply queueWatcher_known. unfold has_is_null. by rewrite Hh. }
  split; [done|]. split.
  - intros fl w s Hfl Hmode.
    destruct (has s !! Watcher.id w) as [[]|] eqn:Hh.
    2:{ exists s. rewrite Hnoop by done. done. }
    all: assert (has_is_null s (Watcher.id w) = true) as Hnull
      by (unfold has_is_null; by rewrite Hh).
    all: destruct (waiting s) eqn:Hw;
      [rewrite queueWatcher_idle by done
      |destruct Hmode as [Hd|?]; [|done]; rewrite queueWatcher_first by done].
    all: eexists; split; [done|].
    all: try (destruct (nextTick_spec E (Some FlushSchedulerQueue) Undefined
            (set_waiting true (set_queue (queue s ++ [w])
              (set_has (<[Watcher.id w:=HTrue]> (has s)) s))))
            as (_ & _ & _ & _ & _ & _ & _ & _ & Hh' & _); cbn in Hh').
    all: assert (∀ s1, has s1 = <[Watcher.id w:=HTrue]> (has s) →
           has s1 !! Watcher.id w = Some HTrue) as Hgo
           by (intros s1 ->; apply lookup_insert_eq).
    all: split; [by apply Hgo|apply Hnoop; by apply Hgo].
  - intros Hd Hhooks ws s Hws Hq Hh Hfl.
    destruct (queue_all_idle 0 ws s Hd) as (s1 & Hrun & Hs1 & Hsub & Hin & _).
    { split; [done|]. rewrite Hq. split; [constructor|]. intros i.
      unfold has_is_null. rewrite Hh, lookup_empty. cbn.
      split; [done|]. intros Hi. by apply elem_of_nil in Hi. }
    exists s1. split; [done|].
    assert (Forall (inert_watcher E) (queue s1)) as Hq1.
    { apply Forall_forall. intros w Hw. destruct (Hsub w Hw) as [Hw'|Hw'].
      - rewrite Hq in Hw'. by apply elem_of_nil in Hw'.
      - by eapply Forall_forall in Hws. }
    destruct (flushSchedulerQueue_inert E s1 Hq1 Hhooks)
      as (s' & evs & Hflush & Hl & Hr & _).
    exists s', evs. split; [done|]. split; [done|].
    destruct Hs1 as (_ & Hnd & _).
    assert (runs evs ≡ₚ queue s1) as Hperm
      by (rewrite Hr; apply merge_sort_Permutation).
    split.
    + intros w Hw. apply one_occurrence.
      * by rewrite Hperm.
      * rewrite Hperm. by apply Hin.
    + intros r Hr'. rewrite Hperm in Hr'. destruct (Hsub r Hr') as [Hr0|?]; [|done].
      rewrite Hq in Hr0. by apply elem_of_nil in Hr0.
Qed.

End Dedup.

Lemma duplicate_registration_is_dropped_witness :
  ∃ s1, exec_calls (call (quiet_env modern_host) 1)
          [CQueueWatcher (job 1); CQueueWatcher (job 1)] initial = Done s1 ∧
    queue s1 = [job 1] ∧
    ∃ s' evs, flushSchedulerQueue (quiet_env modern_host) 3 s1 = Done s' ∧
      log s' = log s1 ++ evs ∧
      length (filter (λ r, Watcher.id r = 1) (runs evs)) = 1%nat.
Proof.
  destruct (duplicate_registration_is_dropped (quiet_env modern_host))
    as (_ & _ & Hflush).
  destruct (Hflush eq_refl ltac:(by split) [job 1; job 1] initial
    ltac:(repeat constructor; done) eq_refl eq_refl eq_refl)
    as (s1 & Hs1 & s' & evs & Hs' & Hl & Hone & _).
  exists s1. split; [exact Hs1|].
  assert (state_of (exec_calls (call (quiet_env modern_host) 1)
    (map CQueueWatcher [job 1; job 1]) initial) = s1) as Heq
    by (rewrite Hs1; reflexivity).
  assert (queue s1 = [job 1]) as Hq by (rewrite <- Heq; vm_compute; reflexivity).
  split; [exact Hq|]. rewrite Hq in Hs'.
  exists s', evs. split; [exact Hs'|]. split; [exact Hl|].
  apply (Hone (job 1)). by left.
Defined.

Section ResetBeforeHooks.
Context (E : Env).

(** A production build never writes [circular]: it is empty in the loaded
    modules and stays so through scheduler steps, [nextTick] calls and runs of
    [flushCallbacks]. *)
Lemma evolves_circular_production s s' :
  production E = true → evolves E s s' → circular s' = circular s.
Proof.
  intros Hprod. induction 1 as [|s s' s'' _ Hcirc _ IH|s cb ctx s'' _ IH]; [done|..].
  - rewrite IH. by apply Hcirc.
  - rewrite IH. by destruct (nextTick_spec E cb ctx s)
      as (_ & _ & _ & _ & _ & _ & _ & _ & _ & -> & _).
Qed.

Lemma flushCallbacks_circular_production n s s' :
  production E = true → flushCallbacks E n s = Done s' → circular s' = circular s.
Proof.
  intros Hprod. unfold flushCallbacks, flushCallbacks_with.
  change (circular s) with (circular (set_callbacks [] (set_pending false s))).
  generalize (set_callbacks [] (set_pending false s)).
  cbn [callbacks set_pending].
  induction (callbacks s) as [|c cs IH]; intros s0; cbn [run_copies].
  - by intros [= <-].
  - destruct (invoke (callFn E n) c s0) as [s1| |] eqn:Hi; cbn [bind]; [|done..].
    intros Hrun. rewrite (IH _ Hrun). clear Hrun IH.
    unfold invoke in Hi. destruct (cl_cb c) as [f|].
    + pose proof (callFn_evolves E n f (cl_ctx c) (emit (Invoke f (cl_ctx c)) s0)) as Hev.
      destruct (callFn E n f _ _) as [s2|e s2|]; simpl in Hev; [| |done];
        injection Hi as <-;
        by apply (evolves_circular_production _ _ Hprod) in Hev.
    + unfold resolve in Hi. repeat case_match; by injection Hi as <-.
Qed.

(** C6: after its loop, [flushSchedulerQueue] copies the two queues, resets
    the whole scheduler state and only then runs the hooks, from the reset
    state.  A watcher registered from there is accepted whatever [has] held
    during the flush, becomes the only entry of a new queue, and makes the
    scheduler ask for a new flush (or flush at once in the synchronous mode). *)
Theorem hooks_start_from_reset_state (s : State) :
  (production E = true → circular s = ∅) →
  let s0 := resetSchedulerState E s in
  (∀ ex, flush_end E ex s =
     (s1 <- callActivatedHooks E ex (activatedChildren s) s0 ;;
      s2 <- callUpdatedHooks E ex (queue s) s1 ;;
      Done (if devtools E then emit DevtoolsFlush s2 else s2))) ∧
  (queue s0 = [] ∧ activatedChildren s0 = [] ∧ has s0 = ∅ ∧ index s0 = 0%nat ∧
   circular s0 = ∅ ∧ waiting s0 = false ∧ flushing s0 = false) ∧
  ∀ w fl,
    has_is_null s0 (Watcher.id w) = true ∧
    (deferred_flush E →
     ∃ s1, queueWatcher E fl w s0 = Done s1 ∧
       queue s1 = [w] ∧ has s1 = {[Watcher.id w := HTrue]} ∧
       waiting s1 = true ∧ flushing s1 = false ∧ index s1 = 0%nat ∧
       callbacks s1 = callbacks s ++
         [mkClosure (Some FlushSchedulerQueue) Undefined (length (resolve_cells s))]) ∧
    (negb (production E) && negb (async E) = true →
     queueWatcher E fl w s0 =
     fl (set_waiting true (set_queue [w] (set_has {[Watcher.id w := HTrue]} s0)))).
Proof.
  intros Hcirc s0.
  destruct (resetSchedulerState_fields E s)
    as (Hq & Ha & Hh & Hi & Hw & Hf & Hc & _ & _ & Hcb & _ & _ & Hrc & _).
  fold s0 in Hq, Ha, Hh, Hi, Hw, Hf, Hc, Hcb, Hrc.
  split; [done|]. split.
  { repeat split; try done. rewrite Hc. destruct (production E); auto. }
  intros w fl.
  assert (has_is_null s0 (Watcher.id w) = true) as Hnull
    by (unfold has_is_null; by rewrite Hh, lookup_empty).
  split; [done|]. split.
  - intros Hd. rewrite queueWatcher_first by done. eexists. split; [done|].
    destruct (nextTick_spec E (Some FlushSchedulerQueue) Undefined
      (set_waiting true (set_queue (queue s0 ++ [w])
        (set_has (<[Watcher.id w:=HTrue]> (has s0)) s0))))
      as (_ & Hcb1 & _ & _ & _ & _ & Hq1 & _ & Hh1 & _ & Hw1 & Hf1 & Hi1 & _).
    cbn in Hcb1, Hq1, Hh1, Hw1, Hf1, Hi1.
    rewrite Hq1, Hh1, Hw1, Hf1, Hi1, Hcb1, Hq, Hh, Hf, Hi, Hcb, Hrc.
    repeat split; try done.
  - intros Hsync. unfold queueWatcher, queue_the_flush. rewrite Hnull. cbn.
    rewrite Hf. cbn. rewrite Hw. cbn. rewrite Hsync, Hq, Hh. done.
Qed.

End ResetBeforeHooks.

Lemma hooks_start_from_reset_state_witness :
  has after_loop_1 !! 1 = Some HNull ∧ flushing after_loop_1 = true ∧
  (∃ s1, queueWatcher requeueing_hook_env (λ s, Done s) (job 1)
           (resetSchedulerState requeueing_hook_env after_loop_1) = Done s1 ∧
     queue s1 = [job 1] ∧ waiting s1 = true ∧ flushing s1 = false) ∧
  let s' := state_of (flushCallbacks requeueing_hook_env 4 queued_1) in
  runs (log s') = [job 1] ∧ hooks_called (log s') = [(1%nat, "updated")] ∧
  queue s' = [job 1] ∧ has s' !! 1 = Some HTrue ∧
  waiting s' = true ∧ flushing s' = false ∧
  map cl_cb (callbacks s') = [Some FlushSchedulerQueue] ∧
  runs (log (state_of (flushCallbacks requeueing_hook_env 4 s'))) = [job 1; job 1].
Proof.
  split; [vm_compute; reflexivity|]. split; [vm_compute; reflexivity|].
  split.
  - destruct (hooks_start_from_reset_state requeueing_hook_env after_loop_1
      ltac:(discriminate)) as (_ & _ & Haccept).
    destruct (Haccept (job 1) (λ s, Done s)) as (_ & Hdef & _).
    destruct (Hdef eq_refl) as (s1 & Hs1 & Hq & _ & Hw & Hf & _).
    exists s1. by repeat split.
  - vm_compute. repeat split; reflexivity.
Defined.

Section Reentrancy.
Context (E : Env).

Lemma exec_body_single f c s s' :
  f c s = Done s' → exec_body f ([c], None) s = Done s'.
Proof. intros H. unfold exec_body. cbn. by rewrite H. Qed.

Lemma splice_middle (pre rest : list Watcher.t) j w p :
  (length pre < p ≤ length (pre ++ j :: rest))%nat →
  splice (Z.of_nat p) w (pre ++ j :: rest) =
  (pre ++ [j]) ++ (take (p - S (length pre)) rest ++ w :: drop (p - S (length pre)) rest) ++ [].
Proof.
  intros Hp. unfold splice. rewrite Nat2Z.id, app_nil_r.
  replace p with (length (pre ++ [j]) + (p - S (length pre)))%nat at 1 2
    by (rewrite length_app; cbn; lia).
  rewrite (cons_middle j pre rest), app_assoc.
  rewrite take_app_add, drop_app_add. by rewrite <- !app_assoc.
Qed.

(** A watcher registered by the running job is run later in the same loop:
    after the pending watchers with ids up to its own, before the others. *)
Lemma flush_loop_reentrant w s pre j rest :
  queue s = pre ++ j :: rest → index s = length pre →
  flushing s = true → waiting s = true →
  has_is_null s (Watcher.id w) = true → Watcher.id w ≠ Watcher.id j →
  (∀ s, run_body E j s = ([CQueueWatcher w], None)) →
  (∀ s, before_body E j s = inert) →
  Forall (inert_watcher E) rest → inert_watcher E w →
  StronglySorted id_le rest →
  ∃ lo hi s' evs, rest = lo ++ hi ∧
    Forall (λ x, Watcher.id x ≤ Watcher.id w) lo ∧
    Forall (λ x, Watcher.id w < Watcher.id x) hi ∧
    flush_loop E (length rest + 3) s = Done s' ∧
    log s' = log s ++ evs ∧ runs evs = j :: lo ++ w :: hi ∧
    queue s' = pre ++ j :: lo ++ w :: hi.
Proof.
  intros Hq Hi Hfl Hwt Hnull Hne Hrun Hbefore Hrest Hw Hsorted.
  assert (index s < length (queue s))%nat as Hidx
    by (rewrite Hq, Hi, length_app; cbn; lia).
  assert (StronglySorted id_le (drop (S (index s)) (queue s))) as Hsorted'.
  { rewrite Hq, Hi, (cons_middle j pre rest), app_assoc.
    replace (S (length pre)) with (length (pre ++ [j])) by (rewrite length_app; cbn; lia).
    by rewrite drop_app_length. }
  pose proof (insert_position_low _ _ (Watcher.id w) Hidx Hsorted') as Hlow.
  destruct (insert_position_spec (queue s) (index s) (Watcher.id w) Hidx)
    as (Hp & Hgt & _).
  set (p := insert_position (queue s) (index s) (Watcher.id w)) in *.
  set (k := (p - S (length pre))%nat).
  exists (take k rest), (drop k rest).
  (* the turn of [j] *)
  set (sb := if Watcher.before j then emit (Before j) s else s).
  set (sr := emit (Run j) (set_has (<[Watcher.id j := HNull]> (has sb)) sb)).
  set (sq := set_queue (splice (Z.of_nat p) w (queue s))
               (set_has (<[Watcher.id w := HTrue]> (has sr)) sr)).
  assert (queue sb = queue s ∧ index sb = index s ∧ has sb = has s ∧
          flushing sb = flushing s ∧ waiting sb = waiting s ∧
          log sb = log s ++ (if Watcher.before j then [Before j] else []))
    as (Hqb & Hib & Hhb & Hfb & Hwb & Hlb).
  { subst sb. destruct (Watcher.before j); cbn; by rewrite ?app_nil_r. }
  assert (flush_loop E (length rest + 3) s =
          flush_loop E (length rest + 2) (set_index (S (length pre)) sq)) as Hturn.
  { replace (length rest + 3)%nat with (S (length rest + 2)) by lia.
    cbn [flush_loop]. rewrite Hq, Hi, list_lookup_middle by done.
    unfold flush_iteration. rewrite Hbefore.
    assert ((if Watcher.before j
             then exec_body (call E (length rest + 2)) inert (emit (Before j) s)
             else Done s) = Done sb) as -> by (subst sb; by destruct (Watcher.before j)).
    cbn [bind]. fold sr. rewrite Hrun.
    rewrite (exec_body_single _ _ _ sq).
    2:{ replace (length rest + 2)%nat with (S (length rest + 1)) by lia.
        cbn [call]. rewrite queueWatcher_flushing.
        - subst sq sr. cbn. by rewrite Hqb, Hib.
        - subst sr. unfold has_is_null in *. cbn.
          rewrite lookup_insert_ne by done. by rewrite Hhb.
        - subst sr. cbn. by rewrite Hfb.
        - subst sr. cbn. by rewrite Hwb. }
    cbn [bind].
    assert (has_is_null sq (Watcher.id j) = true) as ->.
    { subst sq sr. unfold has_is_null. cbn.
      rewrite lookup_insert_ne by done. by rewrite lookup_insert_eq. }
    rewrite andb_false_r. f_equal. subst sq sr. cbn. by rewrite Hib, Hi. }
  assert (queue sq = (pre ++ [j]) ++ (take k rest ++ w :: drop k rest) ++ []) as Hqq.
  { subst sq. cbn. rewrite Hq. apply splice_middle. rewrite <- Hq, <- Hi. lia. }
  assert (Forall (inert_watcher E) (take k rest ++ w :: drop k rest)) as Hws.
  { apply Forall_app. split; [by apply Forall_take|].
    constructor; [done|by apply Forall_drop]. }
  assert (length (take k rest ++ w :: drop k rest) = S (length rest)) as Hlen.
  { rewrite length_app. cbn. rewrite length_take, length_drop.
    assert (k ≤ length rest)%nat; [|lia].
    subst k. rewrite Hq, length_app in Hp. cbn in Hp. lia. }
  rewrite Hturn.
  replace (length rest + 2)%nat
    with (length (take k rest ++ w :: drop k rest) + 1)%nat by lia.
  rewrite (flush_loop_inert E _ 1 _ (pre ++ [j]) []); [|done| |done].
  2:{ cbn. rewrite length_app. cbn. lia. }
  destruct (inert_turns_fields (take k rest ++ w :: drop k rest)
    (set_index (S (length pre)) sq)) as (Hq1 & Hi1 & Hl1 & _).
  set (s1 := inert_turns _ _) in *.
  rewrite flush_loop_exit.
  2:{ rewrite Hq1, Hi1. cbn [queue set_index index].
      rewrite Hqq, !(length_app (pre ++ [j])), !(length_app _ []), Hlen.
      rewrite length_app. cbn. lia. }
  exists s1, ((if Watcher.before j then [Before j] else []) ++ [Run j]
              ++ inert_events (take k rest ++ w :: drop k rest)).
  split; [by rewrite take_drop|]. split; [|split; [|split; [done|split; [|split]]]].
  - apply Forall_forall. intros x [i Hx]%list_elem_of_lookup.
    apply lookup_take_Some in Hx as [Hx Hik].
    apply (Hlow (S (length pre) + i)%nat); [rewrite Hi; lia|].
    rewrite Hq, (cons_middle j pre rest), app_assoc, lookup_app_r
      by (rewrite length_app; cbn; lia).
    rewrite length_app. cbn. rewrite <- Hx. f_equal. lia.
  - apply Forall_forall. intros x [i Hx]%list_elem_of_lookup.
    rewrite lookup_drop in Hx.
    apply (Hgt (S (length pre) + (k + i))%nat); [lia|].
    rewrite Hq, (cons_middle j pre rest), app_assoc, lookup_app_r
      by (rewrite length_app; cbn; lia).
    rewrite length_app. cbn. rewrite <- Hx. f_equal. lia.
  - rewrite Hl1. subst sq sr. cbn. rewrite Hlb, <- !app_assoc. done.
  - rewrite !runs_app, runs_inert_events. by destruct (Watcher.before j).
  - rewrite Hq1. cbn [queue set_index]. rewrite Hqq, app_nil_r, <- app_assoc. done.
Qed.

(** C1: during a flush, [queueWatcher] called for an id that [has] does not
    mark splices the watcher in after the cursor, behind the last pending
    entry whose id is not greater (found by scanning back from the end), and
    before all entries with a greater id; a sorted pending part stays sorted.
    The watcher is then run by the same loop, at its place in the id order. *)
Theorem reentrant_registration_keeps_id_order (w : Watcher.t) :
  (∀ s, flushing s = true →
     has_is_null s (Watcher.id w) = true → (index s < length (queue s))%nat →
     let p := insert_position (queue s) (index s) (Watcher.id w) in
     let q' := take p (queue s) ++ w :: drop p (queue s) in
     let s' := set_queue q' (set_has (<[Watcher.id w := HTrue]> (has s)) s) in
     (∀ fl, queueWatcher E fl w s = queue_the_flush E fl s') ∧
     (waiting s = true → ∀ fl, queueWatcher E fl w s = Done s') ∧
     (index s < p ≤ length (queue s))%nat ∧
     q' !! p = Some w ∧
     (∀ j w', (p ≤ j)%nat → queue s !! j = Some w' → Watcher.id w < Watcher.id w') ∧
     (p = S (index s) ∨
      ∃ w', queue s !! (p - 1)%nat = Some w' ∧ Watcher.id w' ≤ Watcher.id w) ∧
     (StronglySorted id_le (drop (S (index s)) (queue s)) →
      StronglySorted id_le (drop (S (index s)) q'))) ∧
  (∀ s pre j rest,
     queue s = pre ++ j :: rest → index s = length pre →
     flushing s = true → waiting s = true →
     has_is_null s (Watcher.id w) = true → Watcher.id w ≠ Watcher.id j →
     (∀ s, run_body E j s = ([CQueueWatcher w], None)) →
     (∀ s, before_body E j s = inert) →
     Forall (inert_watcher E) rest → inert_watcher E w →
     StronglySorted id_le rest →
     ∃ lo hi s' evs, rest = lo ++ hi ∧
       Forall (λ x, Watcher.id x ≤ Watcher.id w) lo ∧
       Forall (λ x, Watcher.id w < Watcher.id x) hi ∧
       flush_loop E (length rest + 3) s = Done s' ∧
       log s' = log s ++ evs ∧ runs evs = j :: lo ++ w :: hi).
Proof.
  split.
  - intros s Hfl Hnull Hidx p q' s'.
    destruct (insert_position_spec (queue s) (index s) (Watcher.id w) Hidx)
      as (Hp & Hgt & Hle). fold p in Hp, Hgt, Hle.
    assert (q' = splice (Z.of_nat p) w (queue s)) as Hq'
      by (unfold splice; by rewrite Nat2Z.id).
    assert (∀ fl, queueWatcher E fl w s = queue_the_flush E fl s') as Hqw.
    { intros fl. unfold queueWatcher. rewrite Hnull. cbn [flushing set_has].
      rewrite Hfl. cbn [negb]. done. }
    split; [done|]. split.
    { intros Hwt fl. rewrite Hqw. unfold queue_the_flush.
      cbn [waiting s' set_queue set_has]. by rewrite Hwt. }
    split; [done|split; [|split; [done|split; [done|]]]].
    + rewrite Hq', splice_lookup by lia.
      rewrite decide_False by lia. by rewrite decide_True.
    + intros Hsorted. rewrite Hq'. by apply splice_sorted.
  - intros s pre j rest Hq Hi Hfl Hwt Hnull Hne Hrun Hbefore Hrest Hw Hsorted.
    destruct (flush_loop_reentrant w s pre j rest)
      as (lo & hi & s' & evs & ? & ? & ? & ? & ? & ? & _); try done.
    by exists lo, hi, s', evs.
Qed.

End Reentrancy.

Lemma reentrant_registration_keeps_id_order_witness :
  (queue running_2 = [job 1; job 2; job 5; job 8] ∧ index running_2 = 1%nat) ∧
  (∃ s', queueWatcher reentrant_env (λ s, Done s) (job 4) running_2 = Done s' ∧
     queue s' = [job 1; job 2; job 4; job 5; job 8]) ∧
  (∃ s' evs, flush_loop reentrant_env 5 cursor_at_2 = Done s' ∧
     log s' = log cursor_at_2 ++ evs ∧ runs evs = [job 2; job 4; job 5; job 8]) ∧
  runs (log (state_of (flushSchedulerQueue reentrant_env 7 queued_1258)))
    = [job 1; job 2; job 4; job 5; job 8].
Proof.
  destruct (reentrant_registration_keeps_id_order reentrant_env (job 4)) as [HA HB].
  split; [by vm_compute|]. split; [|split].
  - destruct (HA running_2 eq_refl eq_refl ltac:(vm_compute; lia))
      as (_ & Hqw & _).
    eexists. split; [by apply Hqw|]. vm_compute. reflexivity.
  - destruct (HB cursor_at_2 [job 1] (job 2) [job 5; job 8])
      as (lo & hi & s' & evs & Hrest & Hlo & Hhi & Hrun & Hl & Hr);
      [by vm_compute|done|done|done|done|done|done|done| | | |].
    + repeat constructor; done.
    + by split.
    + repeat constructor; unfold id_le; cbn; lia.
    + exists s', evs. split; [exact Hrun|]. split; [exact Hl|]. rewrite Hr.
      destruct lo as [|a lo]; simplify_eq/=; [done|].
      apply Forall_cons in Hlo as [Hlo _]. cbn in Hlo. lia.
  - vm_compute. reflexivity.
Defined.

Section Runaway.
Context (E : Env).

Lemma insert_position_after_cursor l w hi :
  Forall (λ x, Watcher.id w < Watcher.id x) hi →
  insert_position (l ++ w :: hi) (length l) (Watcher.id w) = S (length l).
Proof.
  intros Hhi.
  destruct (insert_position_spec (l ++ w :: hi) (length l) (Watcher.id w))
    as (Hp & _ & Hle); [rewrite length_app; cbn; lia|].
  set (p := insert_position _ _ _) in *. clearbody p.
  destruct Hle as [->|(w' & Hw' & Hw'le)]; [done|].
  destruct (decide (p = S (length l))) as [->|Hne]; [done|].
  rewrite (cons_middle w l hi), app_assoc, lookup_app_r in Hw'
    by (rewrite length_app; cbn; lia).
  apply list_elem_of_lookup_2 in Hw'.
  rewrite Forall_forall in Hhi. apply Hhi in Hw'. lia.
Qed.

(** One turn for a self-registering watcher: the counter is raised and
    tested. *)
Lemma flush_loop_requeue_turn n w s l hi :
  production E = false → self_requeueing E w →
  queue s = l ++ w :: hi → index s = length l →
  flushing s = true → waiting s = true →
  Forall (λ x, Watcher.id w < Watcher.id x) hi →
  flush_loop E (S (S n)) s =
  if MAX_UPDATE_COUNT <? default 0 (circular s !! Watcher.id w) + 1
  then Done (warn (loop_warning w) (Watcher.vm w) (requeue_turn w s))
  else flush_loop E (S n) (set_index (S (index s)) (requeue_turn w s)).
Proof.
  intros Hprod [Hrun Hbefore] Hq Hi Hfl Hwt Hhi.
  rewrite (flush_loop_S E (S n) s), Hq, Hi, list_lookup_middle by done.
  unfold flush_iteration. rewrite Hbefore, Hprod.
  set (sb := if Watcher.before w then emit (Before w) s else s).
  assert ((if Watcher.before w
           then exec_body (call E (S n)) inert (emit (Before w) s)
           else Done s) = Done sb) as -> by (subst sb; by destruct (Watcher.before w)).
  assert (queue sb = queue s ∧ index sb = index s ∧ flushing sb = flushing s ∧
          waiting sb = waiting s ∧ circular sb = circular s)
    as (Hqb & Hib & Hfb & Hwb & Hcb)
    by (subst sb; by destruct (Watcher.before w)).
  cbn [bind]. rewrite Hrun.
  set (sr := emit (Run w) (set_has (<[Watcher.id w := HNull]> (has sb)) sb)).
  rewrite (exec_body_single _ _ _
    (set_queue (splice (Z.of_nat (S (index sr))) w (queue sr))
       (set_has (<[Watcher.id w := HTrue]> (has sr)) sr))).
  2:{ cbn [call]. rewrite queueWatcher_flushing.
      - do 3 f_equal. subst sr. cbn. rewrite Hqb, Hib, Hq, Hi.
        by rewrite insert_position_after_cursor.
      - subst sr. unfold has_is_null. cbn. by rewrite lookup_insert_eq.
      - subst sr. cbn. by rewrite Hfb.
      - subst sr. cbn. by rewrite Hwb. }
  cbn [bind negb andb].
  rewrite (has_is_null_insert_true _ _ (has sr)) by done. cbn [negb].
  subst sr sb. unfold requeue_turn.
  destruct (Watcher.before w);
    cbn [circular set_queue set_has emit set_log index queue set_circular];
    rewrite ?Hi; reflexivity.
Qed.

Lemma requeue_turn_fields w s :
  let s' := requeue_turn w s in
  queue s' = splice (Z.of_nat (S (index s))) w (queue s) ∧ index s' = index s ∧
  log s' = log s ++ (if Watcher.before w then [Before w] else []) ++ [Run w] ∧
  circular s' = <[Watcher.id w := default 0 (circular s !! Watcher.id w) + 1]> (circular s) ∧
  flushing s' = flushing s ∧ waiting s' = waiting s.
Proof.
  unfold requeue_turn. destruct (Watcher.before w); cbn; repeat split; try done.
  by rewrite <- app_assoc.
Qed.

Lemma splice_after_cursor (l hi : list Watcher.t) w :
  splice (Z.of_nat (S (length l))) w (l ++ w :: hi) = (l ++ [w]) ++ w :: hi.
Proof.
  unfold splice. rewrite Nat2Z.id.
  replace (S (length l)) with (length (l ++ [w])) by (rewrite length_app; cbn; lia).
  rewrite (cons_middle w l hi), app_assoc.
  by rewrite take_app_length, drop_app_length.
Qed.

(** The loop at a self-registering watcher whose counter stands at [c]: it
    takes [100 - c] turns that go on and one more that breaks. *)
Lemma flush_loop_runaway k : ∀ w s l hi c,
  production E = false → self_requeueing E w →
  queue s = l ++ w :: hi → index s = length l →
  flushing s = true → waiting s = true →
  Forall (λ x, Watcher.id w < Watcher.id x) hi →
  default 0 (circular s !! Watcher.id w) = c → c + Z.of_nat k = MAX_UPDATE_COUNT →
  ∃ s' evs, flush_loop E (k + 2) s = Done s' ∧
    log s' = log s ++ evs ∧
    runs evs = repeat w (k + 1) ∧
    warnings evs = [(loop_warning w, Watcher.vm w)] ∧
    last evs = Some (Warn (loop_warning w) (Watcher.vm w)) ∧
    circular s' !! Watcher.id w = Some (MAX_UPDATE_COUNT + 1) ∧
    queue s' = l ++ repeat w (k + 2) ++ hi ∧
    index s' = (length l + k)%nat ∧
    flushing s' = true ∧
    callbacks s' = callbacks s ∧ pending s' = pending s.
Proof.
  induction k as [|k IH]; intros w s l hi c Hprod Hw Hq Hi Hfl Hwt Hhi Hc Hck.
  - cbn [Nat.add]. rewrite (flush_loop_requeue_turn 0 w s l hi) by done.
    rewrite Hc. replace c with MAX_UPDATE_COUNT by lia. cbn [Z.ltb Z.compare].
    change (MAX_UPDATE_COUNT <? MAX_UPDATE_COUNT + 1) with true. cbn iota.
    destruct (requeue_turn_fields w s) as (Hq' & Hi' & Hl' & Hc' & Hf' & _).
    cbv zeta in *.
    eexists _, ((if Watcher.before w then [Before w] else []) ++ [Run w]
                ++ [Warn (loop_warning w) (Watcher.vm w)]).
    split; [done|]. cbn [log warn emit set_log queue circular index flushing
      callbacks pending].
    rewrite Hl', Hq', Hi', Hc', Hf', Hq, Hi, splice_after_cursor, Hc.
    rewrite lookup_insert_eq, Nat.add_0_r.
    replace c with MAX_UPDATE_COUNT by lia.
    repeat split; try done.
    + by rewrite <- !app_assoc.
    + by destruct (Watcher.before w).
    + by destruct (Watcher.before w).
    + by destruct (Watcher.before w).
    + by rewrite <- app_assoc.
    + unfold requeue_turn. by destruct (Watcher.before w).
    + unfold requeue_turn. by destruct (Watcher.before w).
  - replace (S k + 2)%nat with (S (S (S k))) by lia.
    rewrite (flush_loop_requeue_turn (S k) w s l hi) by done.
    rewrite Hc. replace (MAX_UPDATE_COUNT <? c + 1) with false
      by (symmetry; apply Z.ltb_ge; lia).
    destruct (requeue_turn_fields w s) as (Hq' & Hi' & Hl' & Hc' & Hf' & Hw').
    cbv zeta in *.
    set (s1 := set_index (S (index s)) (requeue_turn w s)).
    destruct (IH w s1 (l ++ [w]) hi (c + 1)) as
      (s' & evs & Hrun & Hl & Hr & Hwarn & Hlast & Hcirc & Hqe & Hie & Hfe & Hcbe & Hpe);
      try done.
    + subst s1. cbn. by rewrite Hq', Hq, Hi, splice_after_cursor.
    + subst s1. cbn. rewrite Hi, length_app. cbn. lia.
    + subst s1. cbn. by rewrite Hf'.
    + subst s1. cbn. by rewrite Hw'.
    + subst s1. cbn. by rewrite Hc', lookup_insert_eq, Hc.
    + lia.
    + replace (S (S k)) with (k + 2)%nat by lia.
      exists s', ((if Watcher.before w then [Before w] else []) ++ [Run w] ++ evs).
      split; [done|]. rewrite Hl, Hqe, Hie, Hcbe, Hpe. subst s1. cbn.
      rewrite Hl'. rewrite <- !app_assoc, length_app. cbn [length].
      replace (S k + 1)%nat with (S (k + 1)) by lia.
      replace (S k + 2)%nat with (S (k + 2)) by lia. cbn [repeat].
      assert (runs (Run w :: evs) = w :: runs evs) as Hr1 by done.
      assert (warnings (Run w :: evs) = warnings evs) as Hw1 by done.
      rewrite !runs_app, !warnings_app, Hr1, Hw1, Hr, Hwarn, last_app, last_cons, Hlast.
      repeat split; try done.
      * by destruct (Watcher.before w).
      * by destruct (Watcher.before w).
      * lia.
      * unfold requeue_turn. by destruct (Watcher.before w).
      * unfold requeue_turn. by destruct (Watcher.before w).
Qed.

(** In a production build the counter is not kept: the loop at a
    self-registering watcher takes turn after turn and never ends. *)
Lemma flush_loop_runaway_production w n : ∀ s l hi,
  production E = true → self_requeueing E w →
  queue s = l ++ w :: hi → index s = length l →
  flushing s = true → waiting s = true →
  Forall (λ x, Watcher.id w < Watcher.id x) hi →
  flush_loop E n s = OutOfFuel.
Proof.
  induction n as [|n IH]; intros s l hi Hprod [Hrun Hbefore] Hq Hi Hfl Hwt Hhi; [done|].
  rewrite flush_loop_S, Hq, Hi, list_lookup_middle by done.
  unfold flush_iteration. rewrite Hbefore, Hprod.
  set (sb := if Watcher.before w then emit (Before w) s else s).
  assert ((if Watcher.before w
           then exec_body (call E n) inert (emit (Before w) s)
           else Done s) = Done sb) as -> by (subst sb; by destruct (Watcher.before w)).
  assert (queue sb = queue s ∧ index sb = index s ∧ flushing sb = flushing s ∧
          waiting sb = waiting s)
    as (Hqb & Hib & Hfb & Hwb)
    by (subst sb; by destruct (Watcher.before w)).
  cbn [bind]. rewrite Hrun.
  destruct n as [|n]; [done|].
  set (sr := emit (Run w) (set_has (<[Watcher.id w := HNull]> (has sb)) sb)).
  rewrite (exec_body_single _ _ _
    (set_queue (splice (Z.of_nat (S (index sr))) w (queue sr))
       (set_has (<[Watcher.id w := HTrue]> (has sr)) sr))).
  2:{ cbn [call]. rewrite queueWatcher_flushing.
      - do 3 f_equal. subst sr. cbn. rewrite Hqb, Hib, Hq, Hi.
        by rewrite insert_position_after_cursor.
      - subst sr. unfold has_is_null. cbn. by rewrite lookup_insert_eq.
      - subst sr. cbn. by rewrite Hfb.
      - subst sr. cbn. by rewrite Hwb. }
  cbn [bind negb andb].
  apply (IH _ (l ++ [w]) hi); try done.
  - subst sr. cbn. by rewrite Hqb, Hib, Hq, Hi, splice_after_cursor.
  - subst sr. cbn. rewrite Hib, Hi, length_app. cbn. lia.
  - subst sr. cbn. by rewrite Hfb.
  - subst sr. cbn. by rewrite Hwb.
Qed.

(** C2, as the code has it: in a development build, a flush whose sorted
    queue holds a watcher that registers itself in every run first runs the
    watchers before it, then runs this watcher 101 times; the 101st
    registration raises its counter above [MAX_UPDATE_COUNT = 100], the loop
    warns (naming the expression of a user watcher, or else a component
    render function) and breaks.  The watchers behind it, all with greater
    ids, are not run, and the reset leaves them out of the next queue. *)
Theorem runaway_watcher_stops_the_flush (w : Watcher.t) (s : State)
    (lo hi : list Watcher.t) :
  production E = false → inert_hooks E → self_requeueing E w →
  merge_sort id_le (queue s) = lo ++ w :: hi →
  Forall (inert_watcher E) lo → Forall (λ x, Watcher.id w < Watcher.id x) hi →
  waiting s = true → circular s !! Watcher.id w = None →
  ∃ sl s' evs,
    flush_loop E (length lo + 102) (flush_begin s) = Done sl ∧
    circular sl !! Watcher.id w = Some (MAX_UPDATE_COUNT + 1) ∧
    queue sl = lo ++ repeat w 102 ++ hi ∧ index sl = (length lo + 100)%nat ∧
    flushSchedulerQueue E (length lo + 103) s = Done s' ∧
    log s' = log s ++ evs ∧
    runs evs = lo ++ repeat w 101 ∧
    warnings evs = [(loop_warning w, Watcher.vm w)] ∧
    loop_warning w =
      (if Watcher.user w
       then ("You may have an infinite update loop in watcher with expression "
             ++ dquote ++ Watcher.expression w ++ dquote)%string
       else "You may have an infinite update loop in a component render function.") ∧
    Forall (λ x, x ∉ runs evs) hi ∧
    queue s' = [] ∧ has s' = ∅ ∧ waiting s' = false ∧ flushing s' = false.
Proof.
  intros Hprod Hhooks Hw Hsort Hlo Hhi Hwt Hcirc.
  set (sb := flush_begin s).
  assert (queue sb = [] ++ lo ++ w :: hi) as Hqb by (subst sb; cbn; by rewrite Hsort).
  pose proof (flush_loop_inert E lo 102 sb [] (w :: hi) Hqb eq_refl Hlo) as Hloop1.
  destruct (inert_turns_fields lo sb)
    as (Hq1 & Hi1 & Hl1 & _ & Hcb1 & Hp1 & _ & _ & _ & _ & Hc1 & Hw1 & Hf1 & Hco1).
  set (s1 := inert_turns lo sb) in *.
  assert (queue s1 = lo ++ w :: hi) as Hq1' by (by rewrite Hq1, Hqb).
  assert (index s1 = length lo) as Hi1' by (by rewrite Hi1).
  assert (flushing s1 = true) as Hf1' by (by rewrite Hf1).
  assert (waiting s1 = true) as Hw1' by (by rewrite Hw1).
  assert (default 0 (circular s1 !! Watcher.id w) = 0) as Hc1'
    by (rewrite Hc1; subst sb; cbn; by rewrite Hcirc).
  destruct (flush_loop_runaway 100 w s1 lo hi 0 Hprod Hw Hq1' Hi1' Hf1' Hw1' Hhi Hc1'
    eq_refl) as
    (sl & evs2 & Hloop2 & Hl2 & Hr2 & Hwarn2 & _ & Hcirc2 & Hq2 & Hi2 & Hf2 & Hcb2 & Hp2).
  change (100 + 2)%nat with 102%nat in Hloop2, Hq2.
  change (100 + 1)%nat with 101%nat in Hr2.
  destruct (flush_end_inert E (exec_body (call E (length lo + 102))) sl Hhooks)
    as (s' & evs3 & Hend & Hl3 & Hr3 & Hwarn3 & _ & Hq' & _ & Hh' & _ & Hw' & Hf' & _);
    [done|].
  exists sl, s', (inert_events lo ++ evs2 ++ evs3).
  split; [by rewrite Hloop1|]. split; [done|]. split; [done|]. split; [done|].
  split.
  { replace (length lo + 103)%nat with (S (length lo + 102)) by lia.
    cbn [flushSchedulerQueue]. fold sb. by rewrite Hloop1, Hloop2. }
  split; [by rewrite Hl3, Hl2, Hl1, <- !app_assoc|].
  assert (warnings (inert_events lo) = []) as Hwarn1.
  { clear. induction lo as [|x lo IH]; [done|].
    cbn [inert_events flat_map]. rewrite !warnings_app. fold (inert_events lo).
    rewrite IH. by destruct (Watcher.before x). }
  rewrite !runs_app, !warnings_app, runs_inert_events, Hr2, Hr3, Hwarn1, Hwarn2, Hwarn3.
  rewrite !app_nil_r. split; [done|]. split; [done|]. split.
  { unfold loop_warning. by destruct (Watcher.user w). }
  split; [|done].
  assert (StronglySorted id_le (lo ++ w :: hi)) as Hsorted.
  { rewrite <- Hsort. apply Sorted_StronglySorted; [apply _|]. apply Sorted_merge_sort, _. }
  apply Forall_forall. intros x Hx [Hxlo|Hxw]%elem_of_app.
  - rewrite Forall_forall in Hhi. apply Hhi in Hx.
    eapply StronglySorted_app_1_elem_of in Hsorted; [|exact Hxlo|by left].
    unfold id_le in Hsorted. lia.
  - apply list_elem_of_In, repeat_spec in Hxw. subst x.
    rewrite Forall_forall in Hhi. apply Hhi in Hx. lia.
Qed.

End Runaway.

Lemma runaway_watcher_stops_the_flush_witness :
  queue queued_501 = [job 5; job 0; job 1] ∧
  ∃ s' evs, flushSchedulerQueue looping_env 104 queued_501 = Done s' ∧
    log s' = log queued_501 ++ evs ∧
    runs evs = job 0 :: repeat (job 1) 101 ∧
    warnings evs =
      [("You may have an infinite update loop in a component render function.", 1%nat)] ∧
    (job 5 ∉ runs evs) ∧ queue s' = [].
Proof.
  split; [vm_compute; reflexivity|].
  destruct (runaway_watcher_stops_the_flush looping_env (job 1) queued_501
    [job 0] [job 5]) as (sl & s' & evs & _ & _ & _ & _ & Hrun & Hl & Hr & Hwarn & _ & Hhi & Hq & _).
  - reflexivity.
  - by split.
  - by split.
  - vm_compute. reflexivity.
  - repeat constructor; done.
  - by repeat constructor.
  - vm_compute. reflexivity.
  - vm_compute. reflexivity.
  - exists s', evs. split; [exact Hrun|]. split; [exact Hl|]. split; [exact Hr|].
    split; [exact Hwarn|]. split; [|exact Hq].
    by apply Forall_cons in Hhi as [Hhi _].
Defined.

(** C2 as it is stated fails: when the loop stops, the watcher has registered
    itself 101 times, not 100: its counter stands at 101, the queue holds its
    first entry and 101 further ones, and it has been run 101 times.  With
    whatever fuel the loop is run to its end, this is its outcome. *)
Lemma runaway_flush_stops_after_101_registrations :
  ∃ sl, flush_loop looping_env 103 (flush_begin queued_501) = Done sl ∧
    circular sl !! 1 = Some 101 ∧
    length (filter (λ x, x = job 1) (queue sl)) = 102%nat ∧
    length (filter (λ x, x = job 1) (runs (log sl))) = 101%nat ∧
    circular sl !! 1 ≠ Some 100 ∧
    ∀ n sl', flush_loop looping_env n (flush_begin queued_501) = Done sl' → sl' = sl.
Proof.
  eexists. split; [vm_compute; reflexivity|].
  split; [vm_compute; reflexivity|]. split; [vm_compute; reflexivity|].
  split; [vm_compute; reflexivity|]. split; [vm_compute; discriminate|].
  intros n sl' Hn.
  destruct (Nat.le_ge_cases n 103) as [Hle|Hge].
  - pose proof (flush_loop_fuel looping_env n 103 _ _ Hle Hn ltac:(done)) as H103.
    assert (∀ a b, Done a = Done b → a = b) as Hinj by (by intros ?? [= ->]).
    apply Hinj. rewrite <- H103. vm_compute. reflexivity.
  - assert (flush_loop looping_env 103 (flush_begin queued_501) =
            flush_loop looping_env 103 (flush_begin queued_501)) as H0 by done.
    pose proof (flush_loop_fuel looping_env 103 n _ _ Hge H0) as Hn'.
    rewrite Hn in Hn'.
    assert (∀ a b, Done a = Done b → a = b) as Hinj by (by intros ?? [= ->]).
    apply Hinj. rewrite Hn'; [vm_compute; reflexivity|].
    vm_compute. discriminate.
Qed.
(** * Further results on the deferred-callback queue and the scheduler *)

Section Accounting.
Context (E : Env).

Lemma flush_requests_app l1 l2 :
  flush_requests (l1 ++ l2) = (flush_requests l1 + flush_requests l2)%nat.
Proof. unfold flush_requests. by rewrite filter_app, length_app. Qed.

Lemma flush_requests_sched evs :
  Forall (λ e, is_sched_event e = true) evs → flush_requests evs = 0%nat.
Proof.
  induction 1 as [|e evs He _ IH]; [done|].
  unfold flush_requests in *. rewrite filter_cons_False; [done|].
  by destruct e.
Qed.

Lemma tick_consistent_evolves s s' : tick_consistent s → evolves E s s' → tick_consistent s'.
Proof.
  intros Hs Hev. induction Hev as [s|s s' s'' (Hc & Hp & _) _ _ IH|s cb ctx s'' _ IH].
  - done.
  - apply IH. unfold tick_consistent. by rewrite Hc, Hp.
  - apply IH. destruct (nextTick_spec E cb ctx s) as (_ & Hc & Hp & _).
    unfold tick_consistent. rewrite Hc, Hp. split; [|done].
    intros _. by destruct (callbacks s).
Qed.

Lemma owed_evolves s s' :
  evolves E s s' →
  (flush_requests (log s') + owed s = flush_requests (log s) + owed s')%nat.
Proof.
  induction 1 as [s|s s' s'' (_ & Hp & _ & _ & _ & evs & Hl & Hevs) _ _ IH
                 |s cb ctx s'' _ IH].
  - done.
  - rewrite Hl, flush_requests_app, (flush_requests_sched evs) in IH by done.
    unfold owed in *. rewrite Hp in IH. lia.
  - destruct (nextTick_spec E cb ctx s) as (_ & _ & Hp & _ & _ & Hl & _).
    rewrite Hl, flush_requests_app in IH. unfold owed in *. rewrite Hp in IH.
    destruct (pending s).
    + change (flush_requests []) with 0%nat in IH. lia.
    + change (flush_requests (timer_events E s))
        with (length (filter (λ e, schedules_flush e = true) (timer_events E s))) in IH.
      rewrite timer_events_one_flush in IH. lia.
Qed.

(** What one queued closure, run to its end, does to the two. *)
Lemma invoke_accounting n c s s' :
  invoke (callFn E n) c s = Done s' →
  (tick_consistent s → tick_consistent s') ∧
  (flush_requests (log s') + owed s = flush_requests (log s) + owed s')%nat.
Proof.
  unfold invoke. destruct (cl_cb c) as [f|].
  - pose proof (callFn_evolves E n f (cl_ctx c) (emit (Invoke f (cl_ctx c)) s)) as Hev.
    assert (∀ e s0, flush_requests (log (emit e s0)) =
      (flush_requests (log s0) + flush_requests [e])%nat) as Hemit
      by (intros e0 s0; change (log (emit e0 s0)) with (log s0 ++ [e0]); by rewrite flush_requests_app).
    destruct (callFn E n f _ _) as [s1|e s1|]; simpl in Hev; [| |done]; intros [= <-].
    + split; [intros Hs; exact (tick_consistent_evolves (emit (Invoke f (cl_ctx c)) s) s1 Hs Hev)|].
      apply owed_evolves in Hev. rewrite Hemit in Hev.
      change (flush_requests [Invoke f (cl_ctx c)]) with 0%nat in Hev.
      change (owed (emit (Invoke f (cl_ctx c)) s)) with (owed s) in Hev. lia.
    + split.
      * intros Hs. exact (tick_consistent_evolves (emit (Invoke f (cl_ctx c)) s) s1 Hs Hev).
      * apply owed_evolves in Hev. rewrite Hemit in Hev.
        unfold handleError. rewrite Hemit.
        change (flush_requests [Invoke f (cl_ctx c)]) with 0%nat in Hev.
        change (flush_requests [HandleError e (cl_ctx c) "nextTick"]) with 0%nat.
        change (owed (emit (Invoke f (cl_ctx c)) s)) with (owed s) in Hev.
        change (owed (emit (HandleError e (cl_ctx c) "nextTick") s1)) with (owed s1). lia.
  - destruct (resolve_cells s !! cl_resolve c) as [[p|]|]; intros [= <-]; try done.
    unfold resolve. by destruct (promises s !! p) as [[v|]|].
Qed.

Lemma run_copies_accounting n cs s s' :
  run_copies (invoke (callFn E n)) cs s = Done s' →
  (tick_consistent s → tick_consistent s') ∧
  (flush_requests (log s') + owed s = flush_requests (log s) + owed s')%nat.
Proof.
  revert s. induction cs as [|c cs IH]; intros s; cbn [run_copies].
  - by intros [= <-].
  - destruct (invoke (callFn E n) c s) as [s1| |] eqn:Hi; cbn [bind]; [|done..].
    intros Hrun. apply invoke_accounting in Hi as [Hi1 Hi2].
    apply IH in Hrun as [Hr1 Hr2]. split; [auto|lia].
Qed.

(** X1: [pending] is true exactly while [callbacks] holds entries.  This holds
    when the module is loaded and after every call of [nextTick]; scheduler
    steps and [nextTick] calls keep it, and so does every run of
    [flushCallbacks], whatever the callbacks do. *)
Theorem pending_marks_waiting_callbacks :
  tick_consistent initial ∧
  (∀ cb ctx s, tick_consistent (fst (nextTick E cb ctx s))) ∧
  (∀ s s', tick_consistent s → evolves E s s' → tick_consistent s') ∧
  (∀ n s s', flushCallbacks E n s = Done s' → tick_consistent s').
Proof.
  split; [done|]. split; [|split].
  - intros cb ctx s. destruct (nextTick_spec E cb ctx s) as (_ & Hc & Hp & _).
    unfold tick_consistent. rewrite Hc, Hp. split; [|done]. intros _. by destruct (callbacks s).
  - apply tick_consistent_evolves.
  - intros n s s' Hrun. apply run_copies_accounting in Hrun as [H _]. by apply H.
Qed.

(** X2: the host is asked for a run of [flushCallbacks] once for each batch.
    While the scheduler and [nextTick] work, a request is added to the trace
    exactly when [pending] goes from false to true; and a run of
    [flushCallbacks] adds exactly one request when it leaves entries queued
    for the next run, and none otherwise. *)
Theorem one_flush_request_per_batch :
  (∀ s s', evolves E s s' →
     (flush_requests (log s') + owed s = flush_requests (log s) + owed s')%nat) ∧
  (∀ n s s', flushCallbacks E n s = Done s' →
     flush_requests (log s') = (flush_requests (log s) + owed s')%nat).
Proof.
  split; [apply owed_evolves|].
  intros n s s' Hrun. apply run_copies_accounting in Hrun as [_ H].
  change (owed (set_callbacks [] (set_pending false s))) with 0%nat in H.
  change (log (set_callbacks [] (set_pending false s))) with (log s) in H. lia.
Qed.

End Accounting.

Lemma pending_marks_waiting_callbacks_witness :
  ∃ s', flushCallbacks throwing_env 2
          (enqueue_all throwing_env five_requests initial) = Done s' ∧
    omap closure_request (callbacks s') = [(UserFn 3, Undefined)] ∧
    pending s' = true.
Proof.
  set (s' := state_of (flushCallbacks throwing_env 2
    (enqueue_all throwing_env five_requests initial))).
  assert (flushCallbacks throwing_env 2
    (enqueue_all throwing_env five_requests initial) = Done s') as Heq
    by (vm_compute; reflexivity).
  exists s'. split; [exact Heq|]. split; [vm_compute; reflexivity|].
  destruct (pending_marks_waiting_callbacks throwing_env) as (_ & _ & _ & Hflush).
  apply (Hflush _ _ _ Heq). vm_compute. discriminate.
Defined.

Lemma one_flush_request_per_batch_witness :
  ∃ s', flushCallbacks throwing_env 2
          (enqueue_all throwing_env five_requests initial) = Done s' ∧
    flush_requests (log (enqueue_all throwing_env five_requests initial)) = 1%nat ∧
    flush_requests (log s') = 2%nat.
Proof.
  set (s' := state_of (flushCallbacks throwing_env 2
    (enqueue_all throwing_env five_requests initial))).
  assert (flushCallbacks throwing_env 2
    (enqueue_all throwing_env five_requests initial) = Done s') as Heq
    by (vm_compute; reflexivity).
  exists s'. split; [exact Heq|]. split; [vm_compute; reflexivity|].
  destruct (one_flush_request_per_batch throwing_env) as (_ & Hflush).
  exact (eq_trans (Hflush _ _ _ Heq) eq_refl).
Defined.

Section Timer.
Context (E : Env).

Lemma timerFunc_counter s :
  (counter s = 0 ∨ counter s = 1) →
  counter (timerFunc E s) = 0 ∨ counter (timerFunc E s) = 1.
Proof.
  intros Hs. unfold timerFunc. destruct (timerKind (host E)); try done.
  - by destruct (Host.isIOS (host E)).
  - change (counter (emit _ (set_counter ?c _))) with c.
    destruct Hs as [-> | ->]; [by right|by left].
Qed.

Lemma nextTick_counter cb ctx s :
  (counter s = 0 ∨ counter s = 1) →
  counter (fst (nextTick E cb ctx s)) = 0 ∨ counter (fst (nextTick E cb ctx s)) = 1.
Proof.
  intros Hs. unfold nextTick.
  set (s1 := set_callbacks _ _).
  assert (counter s1 = 0 ∨ counter s1 = 1) as Hs1 by done.
  set (s2 := if pending s1 then s1 else timerFunc E (set_pending true s1)).
  assert (counter s2 = 0 ∨ counter s2 = 1) as Hs2.
  { subst s2. destruct (pending s1); [done|]. by apply timerFunc_counter. }
  destruct cb; [done|]. by destruct (Host.promiseDefined (host E)).
Qed.

Lemma counter_evolves s s' :
  evolves E s s' → (counter s = 0 ∨ counter s = 1) → (counter s' = 0 ∨ counter s' = 1).
Proof.
  induction 1 as [s|s s' s'' (_ & _ & Hc & _) _ _ IH|s cb ctx s'' _ IH]; [done|..].
  - by rewrite Hc in IH.
  - intros Hs. by apply IH, nextTick_counter.
Qed.

(** X4: in the [MutationObserver] branch every call of [timerFunc] writes to
    the text node a value that differs from the one it holds, so that the
    observer fires: the counter starts at 1 and alternates between 0 and 1,
    two calls bring it back, and nothing else changes it. *)
Theorem observer_text_changes_on_every_request (s : State) :
  timerKind (host E) = ViaObserver →
  let s' := timerFunc E s in
  log s' = log s ++ [ObserverData (counter s')] ∧
  counter s' ≠ counter s ∧
  (counter s' = 0 ∨ counter s' = 1) ∧
  ((counter s = 0 ∨ counter s = 1) →
   counter s' = 1 - counter s ∧ counter (timerFunc E s') = counter s) ∧
  counter initial = 1 ∧
  (∀ s1 s2, evolves E s1 s2 → (counter s1 = 0 ∨ counter s1 = 1) →
     (counter s2 = 0 ∨ counter s2 = 1)).
Proof.
  intros Hk.
  assert (timerFunc E s =
    emit (ObserverData ((counter s + 1) `mod` 2)) (set_counter ((counter s + 1) `mod` 2) s))
    as Hs' by (unfold timerFunc; by rewrite Hk).
  assert (∀ s0, counter (timerFunc E s0) = (counter s0 + 1) `mod` 2) as Hc
    by (intros s0; unfold timerFunc; by rewrite Hk).
  cbv zeta. rewrite !Hc.
  assert (0 ≤ (counter s + 1) `mod` 2 < 2) as Hb by (apply Z.mod_pos_bound; lia).
  split; [by rewrite Hs'|]. split.
  { intros Heq. rewrite Heq in Hb.
    assert (counter s = 0 ∨ counter s = 1) as [H0|H0] by lia;
      rewrite H0 in Heq; done. }
  split; [lia|]. split.
  { intros [-> | ->]; done. }
  split; [done|]. apply counter_evolves.
Qed.

(** X5: [timerFunc] asks the host for [flushCallbacks] through one primitive,
    and [isUsingMicroTask] is true exactly when that is a promise reaction or
    a write observed by a [MutationObserver].  The only other host call is
    the empty [setTimeout] that goes with the promise on iOS.  Internet
    Explorer never gets the observer, and a [Promise] that is not native is
    never used. *)
Theorem timerFunc_uses_the_advertised_primitive (s : State) :
  ∃ e rest,
    log (timerFunc E s) = log s ++ e :: rest ∧
    schedules_flush e = true ∧
    is_microtask_request e = isUsingMicroTask (host E) ∧
    (rest = [SetTimeoutNoop] ↔ e = PromiseThen ∧ Host.isIOS (host E) = true) ∧
    (rest = [] ∨ rest = [SetTimeoutNoop]) ∧
    (Host.isIE (host E) = true → ∀ c, e ≠ ObserverData c) ∧
    (Host.promiseNative (host E) = false → e ≠ PromiseThen) ∧
    (Host.promiseDefined (host E) && Host.promiseNative (host E) = true → e = PromiseThen).
Proof.
  rewrite timerFunc_log. unfold timer_events, isUsingMicroTask, timerKind.
  destruct (host E) as [pd pn ie ios od on sd sn]. cbn.
  destruct pd, pn, ie, ios, od, on, sd, sn; cbn;
    eexists _, _; (split; [reflexivity|]); cbn; repeat split; try done;
    try (by left); try (by right); try (by intros []).
Qed.

End Timer.

Lemma observer_text_changes_on_every_request_witness :
  let s' := timerFunc (quiet_env observer_host) initial in
  log s' = [ObserverData 0] ∧ counter s' = 0 ∧
  log (timerFunc (quiet_env observer_host) s') = [ObserverData 0; ObserverData 1].
Proof.
  pose proof (observer_text_changes_on_every_request (quiet_env observer_host) initial
    eq_refl) as (H1 & _).
  cbv zeta. split; [exact H1|]. by split.
Defined.

Lemma timerFunc_uses_the_advertised_primitive_witness :
  ∃ e, log (timerFunc (quiet_env ie_host) initial) = [e] ∧
    is_microtask_request e = false ∧ ∀ c, e ≠ ObserverData c.
Proof.
  destruct (timerFunc_uses_the_advertised_primitive (quiet_env ie_host) initial)
    as (e & rest & Hl & _ & Hm & Hrest & _ & Hie & _).
  exists e. split; [|split; [exact Hm|exact (Hie eq_refl)]].
  rewrite Hl. cbn [log initial app]. f_equal.
  assert (log (timerFunc (quiet_env ie_host) initial) = [SetImmediate]) as Hc by reflexivity.
  rewrite Hl in Hc. by injection Hc.
Defined.

Section HookPhase.
Context (E : Env).

Lemma activate_all_components q s :
  (∀ vm, vm ∈ q → Component._inactive (component (activate_all q s) vm) = true) ∧
  (∀ vm, vm ∉ q → component (activate_all q s) vm = component s vm) ∧
  (∀ vm,
     Component._watcher (component (activate_all q s) vm) = Component._watcher (component s vm) ∧
     Component._isMounted (component (activate_all q s) vm) = Component._isMounted (component s vm) ∧
     Component._isDestroyed (component (activate_all q s) vm)
       = Component._isDestroyed (component s vm)).
Proof.
  revert s. induction q as [|v q IH]; intros s.
  - split; [by intros vm ?%elem_of_nil|done].
  - set (s1 := emit (ActivateChildComponent v)
      (set_components (<[v:=Component.set_inactive true (component s v)]>
        (components s)) s)).
    change (activate_all (v :: q) s) with (activate_all q s1).
    destruct (IH s1) as (IH1 & IH2 & IH3).
    assert (∀ vm, component s1 vm =
      if decide (v = vm) then Component.set_inactive true (component s v)
      else component s vm) as Hs1.
    { intros vm. unfold component, s1. cbn. case_decide as Hv.
      - subst. by rewrite lookup_insert_eq.
      - by rewrite lookup_insert_ne. }
    split; [|split].
    + intros vm Hvm. destruct (decide (vm ∈ q)) as [Hq|Hq]; [by apply IH1|].
      rewrite IH2 by done. apply elem_of_cons in Hvm as [->|?]; [|done].
      rewrite Hs1. by rewrite decide_True.
    + intros vm Hvm. rewrite not_elem_of_cons in Hvm. destruct Hvm as [Hne Hq].
      rewrite IH2, Hs1 by done. by rewrite decide_False.
    + intros vm. destruct (IH3 vm) as (-> & -> & ->). rewrite Hs1.
      case_decide; [subst|]; done.
Qed.

Lemma activate_all_ext q sa sb :
  components sa = components sb →
  components (activate_all q sa) = components (activate_all q sb).
Proof.
  revert sa sb. induction q as [|v q IH]; intros sa sb Hab; [done|].
  cbn [activate_all foldl]. apply IH.
  change (<[v:=Component.set_inactive true (component sa v)]> (components sa) =
          <[v:=Component.set_inactive true (component sb v)]> (components sb)).
  unfold component. by rewrite Hab.
Qed.

(** The end of a flush when the hooks call nothing back, in closed form. *)
Lemma flush_end_inert_trace ex s :
  inert_hooks E → (∀ s, ex inert s = Done s) →
  ∃ s', flush_end E ex s = Done s' ∧
    log s' = log s ++ hook_events E s (queue s) ∧
    components s' = components (activate_all (activatedChildren s) s) ∧
    queue s' = [] ∧ activatedChildren s' = [] ∧ has s' = ∅ ∧ index s' = 0%nat ∧
    waiting s' = false ∧ flushing s' = false ∧
    callbacks s' = callbacks s ∧ pending s' = pending s ∧
    resolve_cells s' = resolve_cells s ∧ promises s' = promises s.
Proof.
  intros [Hup Hact] Hex. unfold flush_end.
  rewrite callActivatedHooks_inert by done. cbn [bind].
  rewrite callUpdatedHooks_inert by done. cbn [bind].
  set (s0 := resetSchedulerState E s).
  destruct (resetSchedulerState_fields E s)
    as (Hq0 & Ha0 & Hh0 & Hi0 & Hw0 & Hf0 & _ & Hl0 & Hc0 & Hcb0 & Hp0 & _ & Hrc0 & Hpr0).
  fold s0 in Hq0, Ha0, Hh0, Hi0, Hw0, Hf0, Hl0, Hc0, Hcb0, Hp0, Hrc0, Hpr0.
  destruct (activate_all_fields (activatedChildren s) s0)
    as (Hl1 & Hfires & Hq1 & Hi1 & Hh1 & Hcb1 & Hp1 & _ & Hrc1 & Hpr1 & Ha1 & _ & Hw1 & Hf1).
  set (s1 := activate_all (activatedChildren s) s0) in *.
  assert (updated_events s1 (queue s) = updated_events s (queue s)) as Hue.
  { unfold updated_events. f_equal. apply list_filter_iff. intros w.
    rewrite Hfires. by rewrite (fires_updated_ext s s0). }
  assert (components s1 = components (activate_all (activatedChildren s) s)) as Hcomp
    by (by apply activate_all_ext).
  eexists. split; [done|]. unfold hook_events.
  destruct (devtools E); cbn; rewrite ?Hl1, ?Hl0, ?Hue, <- ?app_assoc, ?app_nil_r;
    rewrite ?Hq1, ?Hq0, ?Ha1, ?Ha0, ?Hh1, ?Hh0, ?Hi1, ?Hi0, ?Hw1, ?Hw0,
      ?Hf1, ?Hf0, ?Hcb1, ?Hcb0, ?Hp1, ?Hp0, ?Hrc1, ?Hrc0, ?Hpr1, ?Hpr0; done.
Qed.

(** X10: after the reset, [callActivatedHooks] handles the activated
    components in the order in which they were queued, one call for each
    entry, each after setting [_inactive] of the component to true, and
    before the first [updated] hook; components not queued are left alone. *)
Theorem activated_hooks_run_in_queue_order (s : State) :
  inert_hooks E →
  ∀ n, ∃ s',
    flush_end E (exec_body (call E n)) s = Done s' ∧
    log s' = log s
      ++ map ActivateChildComponent (activatedChildren s)
      ++ updated_events s (queue s)
      ++ (if devtools E then [DevtoolsFlush] else []) ∧
    (∀ vm, vm ∈ activatedChildren s → Component._inactive (component s' vm) = true) ∧
    (∀ vm, vm ∉ activatedChildren s → component s' vm = component s vm) ∧
    activatedChildren s' = [].
Proof.
  intros Hhooks n.
  destruct (flush_end_inert_trace (exec_body (call E n)) s Hhooks)
    as (s' & Hend & Hl & Hc & _ & Ha & _); [done|].
  destruct (activate_all_components (activatedChildren s) s) as (H1 & H2 & _).
  exists s'. split; [done|]. split; [done|]. split; [|split; [|done]].
  - intros vm Hvm. unfold component. rewrite Hc. by apply H1.
  - intros vm Hvm. unfold component. rewrite Hc. by apply H2.
Qed.

(** X11: [queueActivatedComponent] sets [_inactive] of the component to false
    at once and appends the component to [activatedChildren], also when it is
    queued already; it touches neither the watcher queue nor [waiting] and
    asks for no flush. *)
Theorem queueActivatedComponent_asks_for_no_flush (vms : list VmId) (s : State) :
  ∃ s1, exec_calls (call E 1) (map CQueueActivatedComponent vms) s = Done s1 ∧
    activatedChildren s1 = activatedChildren s ++ vms ∧
    (∀ vm, vm ∈ vms → Component._inactive (component s1 vm) = false) ∧
    (∀ vm, vm ∉ vms → component s1 vm = component s vm) ∧
    log s1 = log s ∧ callbacks s1 = callbacks s ∧ pending s1 = pending s ∧
    queue s1 = queue s ∧ has s1 = has s ∧
    waiting s1 = waiting s ∧ flushing s1 = flushing s.
Proof.
  revert s. induction vms as [|v vms IH]; intros s.
  - exists s. rewrite app_nil_r. repeat split; try done. by intros vm ?%elem_of_nil.
  - change (exec_calls (call E 1) (map CQueueActivatedComponent (v :: vms)) s)
      with (exec_calls (call E 1) (map CQueueActivatedComponent vms)
              (queueActivatedComponent v s)).
    destruct (IH (queueActivatedComponent v s))
      as (s1 & -> & Ha & Hin & Hout & Hl & Hcb & Hp & Hqu & Hh & Hw & Hf).
    exists s1. split; [done|]. rewrite Hl, Hcb, Hp, Hqu, Hh, Hw, Hf.
    assert (∀ vm, component (queueActivatedComponent v s) vm =
      if decide (v = vm) then Component.set_inactive false (component s v)
      else component s vm) as Hs1.
    { intros vm. unfold component, queueActivatedComponent. cbn. case_decide as Hv.
      - subst. by rewrite lookup_insert_eq.
      - by rewrite lookup_insert_ne. }
    repeat split; try done.
    + rewrite Ha. cbn. by rewrite <- app_assoc.
    + intros vm Hvm. destruct (decide (vm ∈ vms)) as [Hq|Hq]; [by apply Hin|].
      rewrite Hout by done. apply elem_of_cons in Hvm as [->|?]; [|done].
      rewrite Hs1. by rewrite decide_True.
    + intros vm Hvm. rewrite not_elem_of_cons in Hvm. destruct Hvm as [Hne Hq].
      rewrite Hout, Hs1 by done. by rewrite decide_False.
Qed.

End HookPhase.

Lemma activated_hooks_run_in_queue_order_witness :
  ∃ s', flush_end (quiet_env modern_host) (exec_body (call (quiet_env modern_host) 0))
          activated_212 = Done s' ∧
    log s' = log activated_212 ++
      [ActivateChildComponent 2%nat; ActivateChildComponent 1%nat;
       ActivateChildComponent 2%nat;
       CallHook 3%nat "updated"; CallHook 1%nat "updated"] ∧
    Component._inactive (component s' 2%nat) = true.
Proof.
  destruct (activated_hooks_run_in_queue_order (quiet_env modern_host) activated_212
    ltac:(by split) 0%nat) as (s' & Hend & Hl & Hin & _).
  exists s'. split; [exact Hend|]. split; [exact Hl|].
  apply Hin. vm_compute. left.
Defined.

Lemma queueActivatedComponent_asks_for_no_flush_witness :
  ∃ s1, exec_calls (call (quiet_env modern_host) 1)
          (map CQueueActivatedComponent [2; 1; 2]%nat) three_mounted = Done s1 ∧
    activatedChildren s1 = [2; 1; 2]%nat ∧ log s1 = [] ∧ pending s1 = false ∧
    Component._inactive (component s1 2%nat) = false.
Proof.
  destruct (queueActivatedComponent_asks_for_no_flush (quiet_env modern_host)
    [2; 1; 2]%nat three_mounted) as (s1 & Hrun & Ha & Hin & _ & Hl & _ & Hp & _).
  exists s1. split; [exact Hrun|]. split; [exact Ha|]. split; [exact Hl|].
  split; [exact Hp|]. apply Hin. by left.
Defined.

Section FlushTrace.
Context (E : Env).

(** A flush whose watchers and hooks call nothing back, in closed form. *)
Lemma flushSchedulerQueue_inert_trace s :
  Forall (inert_watcher E) (queue s) → inert_hooks E →
  ∃ s', flushSchedulerQueue E (length (queue s) + 2) s = Done s' ∧
    log s' = log s ++ inert_events (merge_sort id_le (queue s))
               ++ hook_events E s (merge_sort id_le (queue s)) ∧
    components s' = components (activate_all (activatedChildren s) s) ∧
    queue s' = [] ∧ activatedChildren s' = [] ∧ has s' = ∅ ∧ index s' = 0%nat ∧
    waiting s' = false ∧ flushing s' = false ∧
    callbacks s' = callbacks s ∧ pending s' = pending s ∧
    resolve_cells s' = resolve_cells s ∧ promises s' = promises s.
Proof.
  intros Hws Hhooks.
  set (q := merge_sort id_le (queue s)).
  assert (length q = length (queue s)) as Hlen
    by (apply Permutation_length, merge_sort_Permutation).
  assert (Forall (inert_watcher E) q) as Hq
    by (unfold q; by rewrite (merge_sort_Permutation id_le (queue s))).
  replace (length (queue s) + 2)%nat with (S (length q + 1)) by lia.
  cbn [flushSchedulerQueue].
  rewrite (flush_loop_inert E q 1 (flush_begin s) [] []); [| |done..].
  2:{ cbn. by rewrite app_nil_r. }
  destruct (inert_turns_fields q (flush_begin s))
    as (Hq1 & Hi1 & Hl1 & _ & Hcb1 & Hp1 & _ & Hrc1 & Hpr1 & Hac1 & _ & _ & _ & Hco1).
  set (s1 := inert_turns q (flush_begin s)) in *.
  rewrite flush_loop_exit by (rewrite Hq1, Hi1; cbn; fold q; lia).
  cbn [bind].
  destruct (flush_end_inert_trace E (exec_body (call E (length q + 1))) s1 Hhooks)
    as (s' & Hend & Hl & Hc & Hq' & Ha' & Hh' & Hi' & Hw' & Hf' & Hcb' & Hp' & Hrc' & Hpr');
    [done|].
  exists s'. split; [done|].
  rewrite Hl, Hl1, Hq1, Hcb', Hp', Hcb1, Hp1, Hrc', Hpr', Hrc1, Hpr1.
  change (queue (flush_begin s)) with q. change (log (flush_begin s)) with (log s).
  assert (hook_events E s1 q = hook_events E s q) as ->.
  { unfold hook_events. rewrite Hac1. f_equal. f_equal.
    rewrite (updated_events_ext (flush_begin s) s1) by done.
    by rewrite (updated_events_ext s (flush_begin s)). }
  rewrite <- app_assoc. repeat split; try done.
  rewrite Hc, Hac1. by apply activate_all_ext.
Qed.

(** X9: a flush whose watchers and hooks call nothing back does this, and
    nothing else, in this order: for each watcher in the order of the ids its
    [before] hook, if it has one, and then its [run]; then
    [activateChildComponent] for the activated components; then the
    [updated] hooks; then the devtools event, if devtools are on. *)
Theorem flush_calls_before_then_run_then_hooks (s : State) :
  Forall (inert_watcher E) (queue s) → inert_hooks E →
  ∃ s', flushSchedulerQueue E (length (queue s) + 2) s = Done s' ∧
    log s' = log s
      ++ flat_map (λ w, (if Watcher.before w then [Before w] else []) ++ [Run w])
           (merge_sort id_le (queue s))
      ++ map ActivateChildComponent (activatedChildren s)
      ++ updated_events s (merge_sort id_le (queue s))
      ++ (if devtools E then [DevtoolsFlush] else []).
Proof.
  intros Hws Hhooks.
  destruct (flushSchedulerQueue_inert_trace s Hws Hhooks) as (s' & Hrun & Hl & _).
  by exists s'.
Qed.

Lemma inert_events_app ws1 ws2 :
  inert_events (ws1 ++ ws2) = inert_events ws1 ++ inert_events ws2.
Proof. unfold inert_events. by rewrite flat_map_app. Qed.

(** The flush when the [run] of a watcher throws. *)
Lemma flushSchedulerQueue_throws s pre w rest e :
  merge_sort id_le (queue s) = pre ++ w :: rest →
  Forall (inert_watcher E) pre →
  (∀ s, before_body E w s = inert) → (∀ s, run_body E w s = ([], Some e)) →
  ∃ s',
    flushSchedulerQueue E (length pre + 2) s = Throw e s' ∧
    log s' = log s ++ inert_events (pre ++ [w]) ∧
    flushing s' = true ∧ waiting s' = waiting s ∧
    queue s' = pre ++ w :: rest ∧ index s' = length pre ∧
    callbacks s' = callbacks s ∧ pending s' = pending s.
Proof.
  intros Hq Hpre Hbefore Hrun.
  replace (length pre + 2)%nat with (S (length pre + 1)) by lia.
  cbn [flushSchedulerQueue].
  rewrite (flush_loop_inert E pre 1 (flush_begin s) [] (w :: rest)); [| |done..].
  2:{ cbn. by rewrite Hq. }
  destruct (inert_turns_fields pre (flush_begin s))
    as (Hq1 & Hi1 & Hl1 & _ & Hcb1 & Hp1 & _ & _ & _ & _ & _ & Hw1 & Hf1 & _).
  set (s1 := inert_turns pre (flush_begin s)) in *.
  change (queue (flush_begin s)) with (merge_sort id_le (queue s)) in Hq1.
  rewrite Hq in Hq1. cbn in Hi1.
  rewrite flush_loop_S, Hq1, Hi1, list_lookup_middle by done.
  unfold flush_iteration. rewrite Hbefore.
  set (sb := if Watcher.before w then emit (Before w) s1 else s1).
  assert ((if Watcher.before w
           then exec_body (call E 0) inert (emit (Before w) s1) else Done s1) = Done sb)
    as -> by (unfold sb; by destruct (Watcher.before w)).
  cbn [bind]. rewrite Hrun. cbn [exec_body exec_calls bind fst snd].
  eexists. split; [done|].
  assert (log sb = log s1 ++ (if Watcher.before w then [Before w] else [])
    ∧ flushing sb = flushing s1 ∧ waiting sb = waiting s1 ∧ queue sb = queue s1
    ∧ index sb = index s1 ∧ callbacks sb = callbacks s1 ∧ pending sb = pending s1)
    as (Hlb & Hfb & Hwb & Hqb & Hib & Hcbb & Hpb).
  { unfold sb. destruct (Watcher.before w); cbn; by rewrite ?app_nil_r. }
  cbn. rewrite Hlb, Hl1, Hfb, Hf1, Hwb, Hw1, Hqb, Hq1, Hib, Hi1, Hcbb, Hcb1, Hpb, Hp1.
  rewrite inert_events_app. cbn [inert_events flat_map]. rewrite app_nil_r, <- !app_assoc.
  done.
Qed.

Lemma exec_calls_queueWatcher_cons n w ws s :
  exec_calls (call E (S n)) (map CQueueWatcher (w :: ws)) s =
  bind (queueWatcher E (flushSchedulerQueue E n) w s)
    (exec_calls (call E (S n)) (map CQueueWatcher ws)).
Proof. done. Qed.

(** While a flush is awaited, [queueWatcher] asks for none. *)
Lemma queueWatcher_waiting fl w s :
  waiting s = true →
  ∃ s', queueWatcher E fl w s = Done s' ∧
    log s' = log s ∧ callbacks s' = callbacks s ∧ pending s' = pending s ∧
    waiting s' = true ∧ flushing s' = flushing s.
Proof.
  intros Hw. unfold queueWatcher, queue_the_flush.
  destruct (has_is_null s (Watcher.id w)); [|by exists s].
  match goal with |- context [negb (waiting ?x)] => set (s1 := x) end.
  assert (waiting s1 = true ∧ log s1 = log s ∧ callbacks s1 = callbacks s
    ∧ pending s1 = pending s ∧ flushing s1 = flushing s) as (Hw1 & ? & ? & ? & ?)
    by (unfold s1; change (flushing (set_has _ s)) with (flushing s);
        destruct (flushing s) eqn:Hfl; repeat split; first [exact Hw|exact Hfl]).
  rewrite Hw1. by exists s1.
Qed.

(** X13: when the [run] of a watcher throws, [flushSchedulerQueue] throws
    with it: the watchers behind it are not run, no hook is called and the
    state is not reset, so [flushing] and [waiting] stay true and the queue
    stays as it is.  The entry of [callbacks] through which the flush was
    called reports the error to [handleError].  From then on [queueWatcher]
    asks for no flush, whatever is registered. *)
Theorem throwing_watcher_leaves_the_scheduler_flushing (s : State)
    (pre rest : list Watcher.t) (w : Watcher.t) (e : Err) :
  merge_sort id_le (queue s) = pre ++ w :: rest →
  Forall (inert_watcher E) pre →
  (∀ s, before_body E w s = inert) → (∀ s, run_body E w s = ([], Some e)) →
  waiting s = true →
  ∃ s',
    flushSchedulerQueue E (length pre + 2) s = Throw e s' ∧
    log s' = log s ++ inert_events (pre ++ [w]) ∧
    flushing s' = true ∧ waiting s' = true ∧
    queue s' = pre ++ w :: rest ∧ index s' = length pre ∧
    (∀ cell, ∃ s2,
       invoke (callFn E (length pre + 2))
         (mkClosure (Some FlushSchedulerQueue) Undefined cell) s = Done s2 ∧
       log s2 = log s ++ Invoke FlushSchedulerQueue Undefined
                  :: inert_events (pre ++ [w])
                  ++ [HandleError e Undefined "nextTick"] ∧
       flushing s2 = true ∧ waiting s2 = true) ∧
    (∀ ws n, ∃ s3,
       exec_calls (call E (S n)) (map CQueueWatcher ws) s' = Done s3 ∧
       log s3 = log s' ∧ callbacks s3 = callbacks s' ∧ pending s3 = pending s' ∧
       waiting s3 = true ∧ flushing s3 = true).
Proof.
  intros Hq Hpre Hbefore Hrun Hwait.
  destruct (flushSchedulerQueue_throws s pre w rest e Hq Hpre Hbefore Hrun)
    as (s' & Hthrow & Hl & Hfl & Hw & Hq' & Hi & Hcb & Hp).
  exists s'. rewrite Hw. repeat split; try done.
  - intros cell. unfold invoke. cbn [cl_cb cl_ctx callFn].
    destruct (flushSchedulerQueue_throws (emit (Invoke FlushSchedulerQueue Undefined) s)
      pre w rest e Hq Hpre Hbefore Hrun) as (s1 & -> & Hl1 & Hfl1 & Hw1 & _).
    eexists. split; [done|]. cbn. rewrite Hl1, Hfl1, Hw1. cbn.
    by rewrite <- !app_assoc.
  - intros ws n.
    assert (waiting s' = true) as Hw' by congruence. clear -Hw' Hfl.
    revert s' Hw' Hfl. induction ws as [|w ws IH]; intros s Hw Hfl.
    + by exists s.
    + rewrite exec_calls_queueWatcher_cons.
      destruct (queueWatcher_waiting (flushSchedulerQueue E n) w s Hw)
        as (s1 & -> & Hl1 & Hcb1 & Hp1 & Hw1 & Hf1).
      cbn [bind]. destruct (IH s1) as (s3 & -> & Hl3 & Hcb3 & Hp3 & Hw3 & Hf3);
        [done|congruence|].
      exists s3. repeat split; congruence.
Qed.

End FlushTrace.

Lemma flush_calls_before_then_run_then_hooks_witness :
  ∃ s', flushSchedulerQueue (quiet_env modern_host) 4 mixed_queue = Done s' ∧
    log s' = log mixed_queue ++
      [Run (job 1); Before (watch_job 2); Run (watch_job 2);
       ActivateChildComponent 3%nat; CallHook 1%nat "updated"].
Proof.
  destruct (flush_calls_before_then_run_then_hooks (quiet_env modern_host) mixed_queue)
    as (s' & Hrun & Hl).
  - vm_compute. repeat constructor; done.
  - by split.
  - exists s'. split; [exact Hrun|]. rewrite Hl. f_equal.
Defined.

Lemma throwing_watcher_leaves_the_scheduler_flushing_witness :
  ∃ s', flushSchedulerQueue failing_env 3 queued_321 = Throw "boom" s' ∧
    log s' = log queued_321 ++ [Run (job 1); Run (job 2)] ∧
    flushing s' = true ∧ waiting s' = true ∧
    ∃ s3, call failing_env 1 (CQueueWatcher (job 7)) s' = Done s3 ∧
      log s3 = log s' ∧ callbacks s3 = callbacks s'.
Proof.
  destruct (throwing_watcher_leaves_the_scheduler_flushing failing_env queued_321
    [job 1] [job 3] (job 2) "boom")
    as (s' & Hrun & Hl & Hf & Hw & _ & _ & _ & Hstuck).
  - vm_compute. reflexivity.
  - repeat constructor; done.
  - done.
  - done.
  - vm_compute. reflexivity.
  - exists s'. split; [exact Hrun|]. split; [exact Hl|]. split; [exact Hf|].
    split; [exact Hw|].
    destruct (Hstuck [job 7] 0%nat) as (s3 & Hs3 & Hl3 & Hcb3 & _).
    exists s3. split; [|by split].
    change (exec_calls (call failing_env 1) (map CQueueWatcher [job 7]) s')
      with (bind (call failing_env 1 (CQueueWatcher (job 7)) s') Done) in Hs3.
    by destruct (call failing_env 1 (CQueueWatcher (job 7)) s').
Defined.

Section Sync.
Context (E : Env).

Lemma queueWatcher_sync w s :
  production E = false → async E = false → inert_hooks E → inert_watcher E w →
  queue s = [] → has s = ∅ → waiting s = false → flushing s = false →
  activatedChildren s = [] →
  ∃ s', queueWatcher E (flushSchedulerQueue E 3) w s = Done s' ∧
    log s' = log s ++ sync_events E s w ∧
    components s' = components s ∧
    queue s' = [] ∧ has s' = ∅ ∧ waiting s' = false ∧ flushing s' = false ∧
    activatedChildren s' = [] ∧
    callbacks s' = callbacks s ∧ pending s' = pending s.
Proof.
  intros Hprod Hasync Hhooks Hw Hq Hh Hwt Hfl Hact.
  unfold queueWatcher, queue_the_flush, has_is_null.
  rewrite Hh, lookup_empty. cbn [flushing set_has]. rewrite Hfl. cbn [negb].
  cbn [waiting set_queue set_has]. rewrite Hwt, Hprod, Hasync. cbn [negb andb].
  set (s1 := set_waiting true _).
  assert (queue s1 = [w]) as Hq1 by (unfold s1; cbn; by rewrite Hq).
  destruct (flushSchedulerQueue_inert_trace E s1) as
    (s' & Hrun & Hl & Hc & Hq' & Ha' & Hh' & Hi' & Hw' & Hf' & Hcb' & Hp' & _).
  { rewrite Hq1. by constructor. }
  { done. }
  rewrite Hq1 in Hrun, Hl. cbn [length Nat.add] in Hrun.
  exists s'. split; [done|]. change (merge_sort id_le [w]) with [w] in Hl. rewrite Hl.
  unfold hook_events, sync_events.
  change (activatedChildren s1) with (activatedChildren s) in *. rewrite Hact in *.
  rewrite (updated_events_ext s s1) by done.
  repeat split; try done.
Qed.

(** X12: in a development build with [config.async] off, [queueWatcher]
    called on an idle scheduler runs the watcher and the hooks before it
    returns and leaves the scheduler idle again; nothing is handed to
    [nextTick] and the host is not called.  A row of registrations is
    therefore run in the order of registration, not of the ids, and a
    watcher registered twice runs twice. *)
Theorem synchronous_mode_flushes_every_registration (ws : list Watcher.t) (s : State) :
  production E = false → async E = false →
  inert_hooks E → Forall (inert_watcher E) ws →
  queue s = [] → has s = ∅ → waiting s = false → flushing s = false →
  activatedChildren s = [] →
  ∃ s',
    exec_calls (call E 4) (map CQueueWatcher ws) s = Done s' ∧
    log s' = log s ++ flat_map (sync_events E s) ws ∧
    runs (flat_map (sync_events E s) ws) = ws ∧
    Forall (λ e, is_platform_call e = false) (flat_map (sync_events E s) ws) ∧
    callbacks s' = callbacks s ∧ pending s' = pending s ∧
    queue s' = [] ∧ has s' = ∅ ∧ waiting s' = false ∧ flushing s' = false.
Proof.
  intros Hprod Hasync Hhooks Hws Hq Hh Hwt Hfl Hact.
  assert (∃ s', exec_calls (call E 4) (map CQueueWatcher ws) s = Done s' ∧
    log s' = log s ++ flat_map (sync_events E s) ws ∧
    components s' = components s ∧
    callbacks s' = callbacks s ∧ pending s' = pending s ∧
    queue s' = [] ∧ has s' = ∅ ∧ waiting s' = false ∧ flushing s' = false ∧
    activatedChildren s' = []) as (s' & Hrun & Hl & _ & Hcb & Hp & Hq' & Hh' & Hw' & Hf' & _).
  { revert s Hq Hh Hwt Hfl Hact. induction Hws as [|w ws Hw _ IH]; intros s Hq Hh Hwt Hfl Hact.
    - exists s. cbn. by rewrite app_nil_r.
    - rewrite exec_calls_queueWatcher_cons.
      destruct (queueWatcher_sync w s) as
        (s1 & -> & Hl1 & Hc1 & Hq1 & Hh1 & Hw1 & Hf1 & Ha1 & Hcb1 & Hp1); [done..|].
      cbn [bind]. destruct (IH s1) as
        (s' & -> & Hl' & Hc' & Hcb' & Hp' & Hq' & Hh' & Hw' & Hf' & Ha'); [done..|].
      exists s'. split; [done|]. rewrite Hl', Hl1, Hc', Hcb', Hp', Hc1, Hcb1, Hp1.
      cbn [flat_map]. rewrite <- app_assoc.
      assert (flat_map (sync_events E s1) ws = flat_map (sync_events E s) ws) as ->.
      { clear -Hc1. induction ws as [|x ws IH]; [done|]. cbn [flat_map]. rewrite IH.
        unfold sync_events. by rewrite (updated_events_ext s s1). }
      done. }
  exists s'. repeat split; try done.
  - clear. induction ws as [|w ws IH]; [done|]. cbn [flat_map].
    rewrite runs_app, IH. unfold sync_events. rewrite !runs_app, runs_inert_events.
    destruct (updated_events_only_hooks s [w]) as [-> _].
    by destruct (devtools E).
  - clear. induction ws as [|w ws IH]; [done|]. cbn [flat_map].
    apply Forall_app. split; [|done]. unfold sync_events, inert_events, updated_events.
    cbn [flat_map]. rewrite app_nil_r, !Forall_app. repeat split.
    + destruct (Watcher.before w); by repeat constructor.
    + by repeat constructor.
    + apply Forall_forall. intros e (x & -> & _)%list_elem_of_fmap. done.
    + destruct (devtools E); by repeat constructor.
Qed.

End Sync.

Lemma synchronous_mode_flushes_every_registration_witness :
  ∃ s', exec_calls (call sync_env 4)
          (map CQueueWatcher [job 3; job 1; job 3]) three_mounted = Done s' ∧
    log s' =
      [Run (job 3); CallHook 3%nat "updated"; Run (job 1); CallHook 1%nat "updated";
       Run (job 3); CallHook 3%nat "updated"] ∧
    callbacks s' = [] ∧ pending s' = false ∧ queue s' = [].
Proof.
  destruct (synchronous_mode_flushes_every_registration sync_env
    [job 3; job 1; job 3] three_mounted)
    as (s' & Hrun & Hl & _ & _ & Hcb & Hp & Hq & _); try done.
  - repeat constructor; done.
  - exists s'. split; [exact Hrun|]. split; [exact Hl|]. by split.
Defined.

Lemma Done_inj s s' : Done s = Done s' → s = s'.
Proof. by intros [= ->]. Qed.

Section Rest.
Context (E : Env).

Lemma exec_calls_at_rest f cs s s' :
  (∀ c s s', at_rest s → f c s = Done s' → at_rest s') →
  at_rest s → exec_calls f cs s = Done s' → at_rest s'.
Proof.
  intros Hf. revert s. induction cs as [|c cs IH]; intros s Hs; cbn [exec_calls].
  - by intros [= <-].
  - destruct (f c s) as [s1| |] eqn:Hc; cbn [bind]; [|done..]. eauto.
Qed.

Lemma exec_body_at_rest f b s s' :
  (∀ c s s', at_rest s → f c s = Done s' → at_rest s') →
  at_rest s → exec_body f b s = Done s' → at_rest s'.
Proof.
  intros Hf Hs. unfold exec_body.
  destruct (exec_calls f b.1 s) as [s1| |] eqn:Hc; cbn [bind]; [|done..].
  destruct b.2; [done|]. intros [= <-]. by eapply exec_calls_at_rest.
Qed.

Lemma callActivatedHooks_at_rest ex q s s' :
  (∀ b s s', at_rest s → ex b s = Done s' → at_rest s') →
  at_rest s → callActivatedHooks E ex q s = Done s' → at_rest s'.
Proof.
  intros Hex. revert s. induction q as [|vm q IH]; intros s Hs; cbn [callActivatedHooks].
  - by intros [= <-].
  - match goal with |- bind ?r _ = _ → _ => destruct r as [s1| |] eqn:Hc end;
      cbn [bind]; [|done..].
    apply IH. by eapply Hex; [|exact Hc].
Qed.

Lemma callUpdatedHooks_from_at_rest ex q i s s' :
  (∀ b s s', at_rest s → ex b s = Done s' → at_rest s') →
  at_rest s → callUpdatedHooks_from E ex q i s = Done s' → at_rest s'.
Proof.
  intros Hex. revert s. induction i as [|i IH]; intros s Hs; cbn [callUpdatedHooks_from].
  - by intros [= <-].
  - destruct (q !! i) as [w|]; [|by intros [= <-]].
    match goal with |- bind ?r _ = _ → _ => destruct r as [s1| |] eqn:Hc end;
      cbn [bind]; [|done..].
    apply IH. case_match; [by eapply Hex; [|exact Hc]|by injection Hc as <-].
Qed.

Lemma flush_end_at_rest ex s s' :
  (∀ b s s', at_rest s → ex b s = Done s' → at_rest s') →
  flush_end E ex s = Done s' → at_rest s'.
Proof.
  intros Hex. unfold flush_end.
  destruct (callActivatedHooks E ex _ _) as [s1| |] eqn:H1; cbn [bind]; [|done..].
  destruct (callUpdatedHooks E ex _ _) as [s2| |] eqn:H2; cbn [bind]; [|done..].
  intros [= <-].
  assert (at_rest s2) as Hs2.
  { eapply callUpdatedHooks_from_at_rest; [exact Hex| |exact H2].
    eapply callActivatedHooks_at_rest; [exact Hex| |exact H1].
    destruct (resetSchedulerState_fields E s) as (_ & _ & _ & ? & _ & ? & _). by split. }
  by destruct (devtools E).
Qed.

Lemma queueWatcher_at_rest fl w s s' :
  (∀ s s', fl s = Done s' → at_rest s') →
  at_rest s → queueWatcher E fl w s = Done s' → at_rest s'.
Proof.
  intros Hfl [Hf Hi]. unfold queueWatcher, queue_the_flush.
  destruct (has_is_null s (Watcher.id w)); [|by intros [= <-]].
  cbn [flushing set_has]. rewrite Hf. cbn [negb].
  set (s1 := set_queue _ _).
  assert (at_rest s1) as Hs1 by done.
  destruct (negb (waiting s1)); [|by intros [= <-]].
  destruct (negb (production E) && negb (async E)); [apply Hfl|].
  intros <-%Done_inj.
  destruct (nextTick_spec E (Some FlushSchedulerQueue) Undefined (set_waiting true s1))
    as (_ & _ & _ & _ & _ & _ & _ & _ & _ & _ & _ & Hf' & Hi' & _).
  unfold at_rest. by rewrite Hf', Hi'.
Qed.

Lemma interp_at_rest n :
  (∀ s s', flushSchedulerQueue E n s = Done s' → at_rest s') ∧
  (∀ c s s', at_rest s → call E n c s = Done s' → at_rest s').
Proof.
  induction n as [|n [IHf IHc]]; [done|]. split.
  - intros s s'. cbn [flushSchedulerQueue].
    destruct (flush_loop E n (flush_begin s)) as [s1| |]; cbn [bind]; [|done..].
    apply flush_end_at_rest. intros b s0 s0'. by apply exec_body_at_rest.
  - intros c s s' Hs. destruct c; cbn [call].
    + by apply queueWatcher_at_rest.
    + by intros [= <-].
    + intros <-%Done_inj.
      destruct (nextTick_spec E cb ctx s)
        as (_ & _ & _ & _ & _ & _ & _ & _ & _ & _ & _ & Hf' & Hi' & _).
      unfold at_rest in *. by rewrite Hf', Hi'.
    + by intros [= <-].
Qed.

Lemma error_reports_app l1 l2 :
  error_reports (l1 ++ l2) = error_reports l1 ++ error_reports l2.
Proof. apply omap_app. Qed.

Lemma invoke_at_rest n c s s' :
  at_rest s → invoke (callFn E n) c s = Done s' →
  ∃ evs, log s' = log s ++ evs ∧ (error_reports evs = [] → at_rest s').
Proof.
  intros Hs. unfold invoke. destruct (cl_cb c) as [f|].
  - pose proof (callFn_evolves E n f (cl_ctx c) (emit (Invoke f (cl_ctx c)) s)) as Hev.
    destruct (callFn E n f _ _) as [s1|e s1|] eqn:Hcall; simpl in Hev; [| |done];
      intros [= <-]; apply evolves_extends in Hev as ((evs & Hl & _) & _).
    + exists (Invoke f (cl_ctx c) :: evs). split.
      { rewrite Hl. cbn. by rewrite <- app_assoc. }
      intros _. destruct (interp_at_rest n) as [Hf Hc].
      destruct f; cbn [callFn] in Hcall; [by eapply Hf|].
      eapply exec_body_at_rest; [exact Hc| |exact Hcall]. done.
    + exists (Invoke f (cl_ctx c) :: evs ++ [HandleError e (cl_ctx c) "nextTick"]). split.
      { cbn. rewrite Hl. cbn. by rewrite <- !app_assoc. }
      change (error_reports (Invoke f (cl_ctx c) :: ?l)) with (error_reports l).
      rewrite error_reports_app. intros H. by destruct (error_reports evs).
  - intros Hs'. exists []. rewrite app_nil_r.
    unfold resolve in Hs'. repeat case_match; injection Hs' as <-; done.
Qed.


End Rest.

Section ProductionRunaway.
Context (E : Env).

(** X15: a production build has no guard against a watcher that registers
    itself in every run: the counter is not kept, and the loop of the flush
    does not end, however much fuel it is given. *)
Theorem production_build_never_stops_a_runaway_watcher (w : Watcher.t) (s : State)
    (lo hi : list Watcher.t) :
  production E = true → self_requeueing E w →
  merge_sort id_le (queue s) = lo ++ w :: hi →
  Forall (inert_watcher E) lo → Forall (λ x, Watcher.id w < Watcher.id x) hi →
  waiting s = true →
  ∀ n, flush_loop E n (flush_begin s) = OutOfFuel ∧ flushSchedulerQueue E n s = OutOfFuel.
Proof.
  intros Hprod Hself Hq Hlo Hhi Hw.
  assert (∀ n, flush_loop E n (flush_begin s) = OutOfFuel) as Hloop.
  { intros n.
    assert (flush_loop E (length lo + n) (flush_begin s) = OutOfFuel) as Hbig.
    { rewrite (flush_loop_inert E lo n (flush_begin s) [] (w :: hi)); [| |done..].
      2:{ cbn. by rewrite Hq. }
      destruct (inert_turns_fields lo (flush_begin s))
        as (Hq1 & Hi1 & _ & _ & _ & _ & _ & _ & _ & _ & _ & Hw1 & Hf1 & _).
      eapply (flush_loop_runaway_production E w n _ lo hi); try done.
      - rewrite Hq1. cbn. by rewrite Hq.
      - by rewrite Hw1. }
    destruct (flush_loop E n (flush_begin s)) as [s1|e s1|] eqn:Hn; [| |done].
    - eapply (flush_loop_fuel E n (length lo + n)) in Hn; [congruence|lia|done].
    - eapply (flush_loop_fuel E n (length lo + n)) in Hn; [congruence|lia|done]. }
  intros n. split; [done|]. destruct n as [|n]; [done|].
  cbn [flushSchedulerQueue]. by rewrite Hloop.
Qed.

End ProductionRunaway.


Lemma production_build_never_stops_a_runaway_watcher_witness :
  flushSchedulerQueue production_looping_env 1000 production_queued_501 = OutOfFuel.
Proof.
  refine (proj2 (production_build_never_stops_a_runaway_watcher production_looping_env
    (job 1) production_queued_501 [job 0] [job 5] eq_refl _ _ _ _ _ 1000%nat)).
  - by split.
  - vm_compute. reflexivity.
  - repeat constructor; done.
  - by repeat constructor.
  - vm_compute. reflexivity.
Defined.

Section Pipeline.
Context (E : Env).

Lemma enqueue_new_subset ws : ∀ q w, w ∈ foldl enqueue_new q ws → w ∈ q ∨ w ∈ ws.
Proof.
  induction ws as [|x ws IH]; intros q w; cbn [foldl]; [auto|].
  intros [Hq|Hws]%IH; [|right; by right].
  unfold enqueue_new in Hq. case_decide; [by left|].
  apply elem_of_app in Hq as [? | ->%list_elem_of_singleton]; [by left|right; by left].
Qed.

(** Registrations made while a flush is awaited and none runs. *)
Lemma register_waiting n ws : ∀ s,
  waiting s = true → idle_consistent s →
  ∃ s1, exec_calls (call E (S n)) (map CQueueWatcher ws) s = Done s1 ∧
    queue s1 = foldl enqueue_new (queue s) ws ∧
    idle_consistent s1 ∧ waiting s1 = true ∧
    callbacks s1 = callbacks s ∧ pending s1 = pending s ∧ log s1 = log s ∧
    resolve_cells s1 = resolve_cells s ∧ promises s1 = promises s ∧
    activatedChildren s1 = activatedChildren s ∧ components s1 = components s.
Proof.
  induction ws as [|w ws IH]; intros s Hw Hs.
  - by exists s.
  - rewrite exec_calls_queueWatcher_cons. cbn [foldl].
    pose proof Hs as (Hfl & Hnd & Hhas).
    destruct (has_is_null s (Watcher.id w)) eqn:Hnull.
    + rewrite queueWatcher_idle by done. cbn [bind].
      set (s0 := set_queue _ _).
      destruct (IH s0) as (s1 & -> & Hq1 & Hs1 & Hw1 & Hrest); [done| |].
      { by eapply (idle_consistent_push w s). }
      exists s1. split; [done|]. split; [|done].
      rewrite Hq1. unfold enqueue_new. rewrite decide_False; [done|].
      intros Hin%Hhas. congruence.
    + rewrite queueWatcher_known by done. cbn [bind].
      destruct (IH s) as (s1 & -> & Hq1 & Hrest); [done..|].
      exists s1. split; [done|]. split; [|done].
      rewrite Hq1. unfold enqueue_new. rewrite decide_True; [done|]. by apply Hhas.
Qed.

Lemma merge_sort_singleton_id (w : Watcher.t) : merge_sort id_le [w] = [w].
Proof. done. Qed.

Lemma invoke_flush_closure n cell s :
  invoke (callFn E n) (flush_closure cell) s =
  match flushSchedulerQueue E n (emit (Invoke FlushSchedulerQueue Undefined) s) with
  | Done s => Done s
  | Throw e s => Done (handleError e Undefined "nextTick" s)
  | OutOfFuel => OutOfFuel
  end.
Proof. done. Qed.

Lemma invoke_user_closure n k ctx cell s :
  invoke (callFn E n) (mkClosure (Some (UserFn k)) ctx cell) s =
  match exec_body (call E n) (fn_body E k ctx (emit (Invoke (UserFn k) ctx) s))
          (emit (Invoke (UserFn k) ctx) s) with
  | Done s => Done s
  | Throw e s => Done (handleError e ctx "nextTick" s)
  | OutOfFuel => OutOfFuel
  end.
Proof. done. Qed.

Lemma run_copies_cons inv c cs s :
  run_copies inv (c :: cs) s = bind (inv c s) (run_copies inv cs).
Proof. done. Qed.

(** X6: registrations made in a row while the scheduler is idle share one
    flush.  [queueWatcher] keeps the first registration of each id, in the
    order of registration, and hands [flushSchedulerQueue] to [nextTick]
    once; the run of [flushCallbacks] that follows invokes it once, and it
    runs each registered watcher once, in the order of the ids, calls the
    hooks and leaves the scheduler empty and idle. *)
Theorem registrations_share_one_deferred_flush (w : Watcher.t) (ws : list Watcher.t)
    (s : State) :
  deferred_flush E → inert_hooks E → Forall (inert_watcher E) (w :: ws) →
  queue s = [] → has s = ∅ → waiting s = false → flushing s = false →
  callbacks s = [] →
  let q := foldl enqueue_new [] (w :: ws) in
  ∃ s1,
    exec_calls (call E 1) (map CQueueWatcher (w :: ws)) s = Done s1 ∧
    queue s1 = q ∧
    callbacks s1 = [flush_closure (length (resolve_cells s))] ∧
    log s1 = log s ++ (if pending s then [] else timer_events E s) ∧
    ∃ s2,
      flushCallbacks E (length q + 2) s1 = Done s2 ∧
      log s2 = log s1 ++ Invoke FlushSchedulerQueue Undefined
                 :: inert_events (merge_sort id_le q)
                 ++ hook_events E s (merge_sort id_le q) ∧
      callbacks s2 = [] ∧ pending s2 = false ∧
      queue s2 = [] ∧ has s2 = ∅ ∧ waiting s2 = false ∧ flushing s2 = false.
Proof.
  intros Hd Hhooks Hws Hq Hh Hwt Hfl Hcb q.
  rewrite exec_calls_queueWatcher_cons.
  rewrite queueWatcher_first; [|by unfold has_is_null; rewrite Hh, lookup_empty|done..].
  cbn [bind]. set (s0 := set_waiting true _).
  destruct (nextTick_spec E (Some FlushSchedulerQueue) Undefined s0)
    as (_ & Hcb1 & Hp1 & Hrc1 & Hpr1 & Hl1 & Hq1 & Ha1 & Hh1 & _ & Hw1 & Hf1 & _ & Hco1).
  set (sa := fst (nextTick E (Some FlushSchedulerQueue) Undefined s0)) in *.
  cbn in Hcb1, Hl1, Hq1, Ha1, Hh1, Hw1, Hf1, Hco1.
  rewrite Hq in Hq1. rewrite Hcb, app_nil_l in Hcb1. rewrite Hfl in Hf1. rewrite Hh in Hh1.
  change (mkClosure (Some FlushSchedulerQueue) Undefined ?c) with (flush_closure c) in Hcb1.
  assert (idle_consistent sa) as Hsa.
  { split; [done|]. rewrite Hq1. cbn. split; [apply NoDup_singleton|].
    intros i. unfold has_is_null. rewrite Hh1, list_elem_of_singleton.
    destruct (decide (i = Watcher.id w)) as [->|Hne].
    - by rewrite lookup_insert_eq.
    - rewrite lookup_insert_ne, lookup_empty by done. done. }
  destruct (register_waiting 0 ws sa Hw1 Hsa)
    as (s1 & -> & Hq2 & Hs1 & Hw2 & Hcb2 & Hp2 & Hl2 & Hrc2 & Hpr2 & Ha2 & Hco2).
  rewrite Hq1 in Hq2.
  assert (queue s1 = q) as Hqq by (rewrite Hq2; unfold q; cbn [foldl]; done).
  exists s1. split; [done|]. split; [done|].
  split; [by rewrite Hcb2, Hcb1|]. split; [by rewrite Hl2, Hl1|].
  unfold flushCallbacks, flushCallbacks_with.
  change (callbacks (set_pending false s1)) with (callbacks s1). rewrite Hcb2, Hcb1.
  rewrite run_copies_cons, invoke_flush_closure.
  set (s1' := emit _ _).
  destruct (flushSchedulerQueue_inert_trace E s1') as
    (s2 & Hrun & Hl & Hc & Hq' & Ha' & Hh' & Hi' & Hw' & Hf' & Hcb' & Hp' & _).
  { change (queue s1') with (queue s1). rewrite Hqq.
    apply Forall_forall. intros x Hx. unfold q in Hx.
    apply enqueue_new_subset in Hx as [Hx|Hx]; [by apply elem_of_nil in Hx|].
    by eapply Forall_forall in Hws. }
  { done. }
  change (queue s1') with (queue s1) in Hrun, Hl. rewrite Hqq in Hrun, Hl.
  rewrite Hrun. cbn [bind]. exists s2. split; [done|].
  rewrite Hl, Hq', Hh', Hw', Hf', Hcb', Hp'.
  assert (hook_events E s1' (merge_sort id_le q) = hook_events E s (merge_sort id_le q)) as ->.
  { unfold hook_events. change (activatedChildren s1') with (activatedChildren s1).
    rewrite Ha2, Ha1. f_equal. f_equal. apply updated_events_ext.
    change (components s1') with (components s1). by rewrite Hco2, Hco1. }
  cbn. rewrite <- app_assoc. done.
Qed.

Lemma flushCallbacks_unfold n s :
  flushCallbacks E n s =
  run_copies (invoke (callFn E n)) (callbacks s) (set_callbacks [] (set_pending false s)).
Proof. done. Qed.

(** X7: a callback given to [nextTick] after a watcher was registered is
    invoked after the flush, hooks included; given before the registration,
    it is invoked before the flush.  The flush is one entry of [callbacks],
    queued at the first registration. *)
Theorem nextTick_callback_and_flush_run_in_registration_order (w : Watcher.t) (k : nat)
    (ctx : Ctx) (s : State) :
  deferred_flush E → inert_hooks E → inert_watcher E w →
  (∀ c s, fn_body E k c s = inert) →
  queue s = [] → has s = ∅ → waiting s = false → flushing s = false →
  activatedChildren s = [] → callbacks s = [] →
  (∃ s1 s3,
     call E 1 (CQueueWatcher w) s = Done s1 ∧
     let s2 := fst (nextTick E (Some (UserFn k)) ctx s1) in
     flushCallbacks E 3 s2 = Done s3 ∧
     log s3 = log s2
       ++ [Invoke FlushSchedulerQueue Undefined]
       ++ inert_events [w] ++ hook_events E s [w]
       ++ [Invoke (UserFn k) ctx]) ∧
  (let s1 := fst (nextTick E (Some (UserFn k)) ctx s) in
   ∃ s2 s3,
     call E 1 (CQueueWatcher w) s1 = Done s2 ∧
     flushCallbacks E 3 s2 = Done s3 ∧
     log s3 = log s2
       ++ [Invoke (UserFn k) ctx]
       ++ [Invoke FlushSchedulerQueue Undefined]
       ++ inert_events [w] ++ hook_events E s [w]).
Proof.
  intros Hd Hhooks Hw Hk Hq Hh Hwt Hfl Hact Hcb.
  assert (∀ s0 : State, has s0 = ∅ → has_is_null s0 (Watcher.id w) = true) as Hnull
    by (intros s0 H0; unfold has_is_null; by rewrite H0, lookup_empty).
  split.
  - cbn [call]. rewrite queueWatcher_first by auto.
    set (s0 := set_waiting true _).
    destruct (nextTick_spec E (Some FlushSchedulerQueue) Undefined s0)
      as (_ & Hcb1 & _ & _ & _ & _ & Hq1 & Ha1 & _ & _ & _ & _ & _ & Hco1).
    set (s1 := fst (nextTick E (Some FlushSchedulerQueue) Undefined s0)) in *.
    cbn in Hcb1, Hq1, Ha1, Hco1. rewrite Hq in Hq1. cbn [app] in Hq1.
    rewrite Hcb, app_nil_l in Hcb1.
    change (mkClosure (Some FlushSchedulerQueue) Undefined ?c) with (flush_closure c) in Hcb1.
    destruct (nextTick_spec E (Some (UserFn k)) ctx s1)
      as (_ & Hcb2 & _ & _ & _ & _ & Hq2 & Ha2 & _ & _ & _ & _ & _ & Hco2).
    set (s2 := fst (nextTick E (Some (UserFn k)) ctx s1)) in *.
    rewrite Hcb1 in Hcb2. rewrite Hq1 in Hq2. rewrite Ha1, Hact in Ha2. rewrite Hco1 in Hco2.
    set (s2' := emit (Invoke FlushSchedulerQueue Undefined)
      (set_callbacks [] (set_pending false s2))).
    destruct (flushSchedulerQueue_inert_trace E s2') as
      (s3 & Hrun & Hl & Hc & _); [change (queue s2') with (queue s2); rewrite Hq2; by constructor|done|].
    change (queue s2') with (queue s2) in Hrun, Hl. rewrite Hq2 in Hrun, Hl.
    cbn [length Nat.add] in Hrun.
    exists s1, (emit (Invoke (UserFn k) ctx) s3). split; [done|]. cbv zeta. fold s2.
    rewrite flushCallbacks_unfold, Hcb2. cbn [app].
    rewrite run_copies_cons, invoke_flush_closure. fold s2'.
    rewrite Hrun. cbn [bind].
    rewrite run_copies_cons, invoke_user_closure, Hk, exec_body_inert.
    cbn [bind run_copies]. split; [reflexivity|].
    change (log (emit ?e ?x)) with (log x ++ [e]). rewrite Hl.
    assert (hook_events E s2' [w] = hook_events E s [w]) as Hhe.
    { unfold hook_events. change (activatedChildren s2') with (activatedChildren s2).
      rewrite Ha2, Hact. f_equal. f_equal. apply updated_events_ext.
      by change (components s2') with (components s2). }
    rewrite merge_sort_singleton_id, Hhe.
    change (log s2') with (log s2 ++ [Invoke FlushSchedulerQueue Undefined]).
    by rewrite <- !app_assoc.
  - cbv zeta.
    destruct (nextTick_spec E (Some (UserFn k)) ctx s)
      as (_ & Hcb1 & _ & _ & _ & _ & Hq1 & Ha1 & Hh1 & _ & Hw1 & Hf1 & _ & Hco1).
    set (s1 := fst (nextTick E (Some (UserFn k)) ctx s)) in *.
    rewrite Hcb, app_nil_l in Hcb1.
    cbn [call]. rewrite queueWatcher_first; [|apply Hnull|..]; try congruence.
    set (s0 := set_waiting true _).
    destruct (nextTick_spec E (Some FlushSchedulerQueue) Undefined s0)
      as (_ & Hcb2 & _ & _ & _ & _ & Hq2 & Ha2 & _ & _ & _ & _ & _ & Hco2).
    set (s2 := fst (nextTick E (Some FlushSchedulerQueue) Undefined s0)) in *.
    cbn in Hcb2, Hq2, Ha2, Hco2.
    rewrite Hcb1 in Hcb2. rewrite Hq1, Hq in Hq2. cbn [app] in Hq2.
    rewrite Ha1, Hact in Ha2.
    rewrite Hco1 in Hco2.
    change (mkClosure (Some FlushSchedulerQueue) Undefined ?c) with (flush_closure c) in Hcb2.
    set (s2' := emit (Invoke FlushSchedulerQueue Undefined)
      (emit (Invoke (UserFn k) ctx) (set_callbacks [] (set_pending false s2)))).
    destruct (flushSchedulerQueue_inert_trace E s2') as
      (s3 & Hrun & Hl & Hc & _); [change (queue s2') with (queue s2); rewrite Hq2; by constructor|done|].
    change (queue s2') with (queue s2) in Hrun, Hl. rewrite Hq2 in Hrun, Hl.
    cbn [length Nat.add] in Hrun.
    exists s2, s3. split; [done|].
    rewrite flushCallbacks_unfold, Hcb2. cbn [app].
    rewrite run_copies_cons, invoke_user_closure, Hk, exec_body_inert. cbn [bind].
    rewrite run_copies_cons, invoke_flush_closure. fold s2'.
    rewrite Hrun. cbn [bind run_copies].
    split; [reflexivity|]. rewrite Hl.
    assert (hook_events E s2' [w] = hook_events E s [w]) as Hhe.
    { unfold hook_events. change (activatedChildren s2') with (activatedChildren s2).
      rewrite Ha2, Hact. f_equal. f_equal. apply updated_events_ext.
      by change (components s2') with (components s2). }
    rewrite merge_sort_singleton_id, Hhe.
    change (log s2') with
      ((log s2 ++ [Invoke (UserFn k) ctx]) ++ [Invoke FlushSchedulerQueue Undefined]).
    by rewrite <- !app_assoc.
Qed.

End Pipeline.

Lemma registrations_share_one_deferred_flush_witness :
  ∃ s1, exec_calls (call (quiet_env modern_host) 1)
          (map CQueueWatcher [job 3; job 1; job 3; job 2]) three_mounted = Done s1 ∧
    queue s1 = [job 3; job 1; job 2] ∧
    callbacks s1 = [flush_closure 0] ∧ log s1 = [PromiseThen] ∧
    ∃ s2, flushCallbacks (quiet_env modern_host) 5 s1 = Done s2 ∧
      log s2 =
        [PromiseThen; Invoke FlushSchedulerQueue Undefined;
         Run (job 1); Run (job 2); Run (job 3);
         CallHook 3%nat "updated"; CallHook 2%nat "updated"; CallHook 1%nat "updated"] ∧
      callbacks s2 = [] ∧ pending s2 = false ∧ waiting s2 = false.
Proof.
  destruct (registrations_share_one_deferred_flush (quiet_env modern_host)
    (job 3) [job 1; job 3; job 2] three_mounted)
    as (s1 & Hreg & Hq & Hcb & Hl & s2 & Hrun & Hl2 & Hcb2 & Hp2 & _ & _ & Hw2 & _);
    try done.
  - repeat constructor; done.
  - exists s1. split; [exact Hreg|]. split; [exact Hq|]. split; [exact Hcb|].
    split; [exact Hl|]. exists s2. split; [exact Hrun|].
    split; [|by repeat split]. rewrite Hl2, Hl. reflexivity.
Defined.

Lemma nextTick_callback_and_flush_run_in_registration_order_witness :
  (∃ s1 s3, call (quiet_env modern_host) 1 (CQueueWatcher (job 1)) three_mounted = Done s1 ∧
     flushCallbacks (quiet_env modern_host) 3
       (fst (nextTick (quiet_env modern_host) (Some (UserFn 0)) (Str "a") s1)) = Done s3 ∧
     log s3 =
       [PromiseThen; Invoke FlushSchedulerQueue Undefined; Run (job 1);
        CallHook 1%nat "updated"; Invoke (UserFn 0) (Str "a")]) ∧
  (∃ s2 s3,
     call (quiet_env modern_host) 1 (CQueueWatcher (job 1))
       (fst (nextTick (quiet_env modern_host) (Some (UserFn 0)) (Str "a") three_mounted))
       = Done s2 ∧
     flushCallbacks (quiet_env modern_host) 3 s2 = Done s3 ∧
     log s3 =
       [PromiseThen; Invoke (UserFn 0) (Str "a"); Invoke FlushSchedulerQueue Undefined;
        Run (job 1); CallHook 1%nat "updated"]).
Proof.
  destruct (nextTick_callback_and_flush_run_in_registration_order (quiet_env modern_host)
    (job 1) 0%nat (Str "a") three_mounted)
    as [(s1 & s3 & Hreg & Hrun & Hl) (s2 & s3' & Hreg' & Hrun' & Hl')]; try done.
  split.
    + exists s1, s3. split; [exact Hreg|]. split; [exact Hrun|].
      rewrite Hl.
      assert (state_of (call (quiet_env modern_host) 1 (CQueueWatcher (job 1)) three_mounted)
        = s1) as <- by (by rewrite Hreg).
      vm_compute. reflexivity.
    + exists s2, s3'. split; [exact Hreg'|]. split; [exact Hrun'|].
      rewrite Hl'.
      assert (state_of (call (quiet_env modern_host) 1 (CQueueWatcher (job 1))
        (fst (nextTick (quiet_env modern_host) (Some (UserFn 0)) (Str "a") three_mounted)))
        = s2) as <- by (by rewrite Hreg').
      vm_compute. reflexivity.
Defined.

Section Snapshot.
Context (E : Env).

Lemma queued_since_evolves l s s' : evolves E s s' → queued_since l s → queued_since l s'.
Proof.
  induction 1 as [s|s s' s'' (Hc & _ & _ & Hr & _) _ _ IH|s cb ctx s'' _ IH]; [done|..].
  - intros Hs. apply IH. unfold queued_since. by rewrite Hc, Hr.
  - intros [Hl Hs]. apply IH.
    destruct (nextTick_spec E cb ctx s) as (_ & Hc & _ & Hr & _).
    unfold queued_since. rewrite Hc, Hr, length_app, Forall_app. split; [lia|].
    split; [done|]. by repeat constructor.
Qed.

Lemma invoke_queued_since l n c s s' :
  invoke (callFn E n) c s = Done s' → queued_since l s → queued_since l s'.
Proof.
  unfold invoke. destruct (cl_cb c) as [f|].
  - pose proof (callFn_evolves E n f (cl_ctx c) (emit (Invoke f (cl_ctx c)) s)) as Hev.
    destruct (callFn E n f _ _) as [s1|e s1|]; simpl in Hev; [| |done]; intros <-%Done_inj Hs.
    + exact (queued_since_evolves l _ _ Hev Hs).
    + exact (queued_since_evolves l _ _ Hev Hs).
  - destruct (resolve_cells s !! cl_resolve c) as [[p|]|]; intros <-%Done_inj; try done.
    unfold resolve. by destruct (promises s !! p) as [[v|]|].
Qed.

Lemma run_copies_queued_since l n cs : ∀ s s',
  run_copies (invoke (callFn E n)) cs s = Done s' → queued_since l s → queued_since l s'.
Proof.
  induction cs as [|c cs IH]; intros s s'; cbn [run_copies].
  - by intros <-%Done_inj.
  - destruct (invoke (callFn E n) c s) as [s1| |] eqn:Hi; cbn [bind]; [|done..].
    intros Hrun Hs. eapply IH; [exact Hrun|]. by eapply invoke_queued_since.
Qed.

(** X3: [flushCallbacks] runs the entries that were queued when it started
    and no others: it invokes their callbacks, in order, and every entry that
    [callbacks] holds when it returns was queued by a [nextTick] call made
    during the run (its [_resolve] variable did not exist before), so none of
    the entries it ran is queued again and none queued meanwhile has run. *)
Theorem callbacks_queued_during_a_flush_wait_for_the_next (n : nat) (s s' : State) :
  wf s → flushCallbacks E n s = Done s' →
  Forall (λ c, (cl_resolve c < length (resolve_cells s))%nat) (callbacks s) ∧
  Forall (λ c, (length (resolve_cells s) ≤ cl_resolve c)%nat) (callbacks s') ∧
  (∀ c, c ∈ callbacks s → c ∉ callbacks s') ∧
  ∃ evs, log s' = log s ++ evs ∧ invocations evs = omap closure_request (callbacks s).
Proof.
  intros [Hwf _] Hrun. split; [done|].
  assert (Forall (λ c, (length (resolve_cells s) ≤ cl_resolve c)%nat) (callbacks s')) as Hnew.
  { assert (queued_since (length (resolve_cells s)) s') as [_ H]; [|done].
    apply (run_copies_queued_since _ n (callbacks s)
      (set_callbacks [] (set_pending false s)) s' Hrun).
    split; [apply Nat.le_refl|apply Forall_nil_2]. }
  split; [done|]. split.
  - intros c Hc Hc'. eapply Forall_forall in Hwf; [|exact Hc].
    eapply Forall_forall in Hnew; [|exact Hc']. cbn in *. lia.
  - exact (run_copies_trace E n (callbacks s)
      (set_callbacks [] (set_pending false s)) s' Hrun).
Qed.

End Snapshot.

Section Wakeup.
Context (E : Env).
Hypothesis Hd : deferred_flush E.

Lemma call_flush_is_queued n c s s' :
  call E n c s = Done s' →
  flushing s' = flushing s ∧
  ∀ rem, flush_is_queued (callbacks s ++ rem) s → flush_is_queued (callbacks s' ++ rem) s'.
Proof.
  destruct n as [|n]; [done|]. destruct c as [w|vm|cb ctx|vm c]; cbn [call].
  - unfold queueWatcher, queue_the_flush.
    destruct (has_is_null s (Watcher.id w)); [|by intros <-%Done_inj].
    match goal with |- context [negb (waiting ?x)] => set (s1 := x) end.
    assert (waiting s1 = waiting s ∧ callbacks s1 = callbacks s ∧ flushing s1 = flushing s)
      as (Hw1 & Hc1 & Hf1).
    { unfold s1. change (flushing (set_has _ s)) with (flushing s).
      destruct (flushing s) eqn:Hfl; repeat split; exact Hfl. }
    destruct (waiting s1) eqn:Hw; cbn [negb].
    + intros <-%Done_inj. split; [done|]. intros rem. unfold flush_is_queued.
      by rewrite Hf1, Hw, Hc1, <- Hw1.
    + rewrite Hd. intros <-%Done_inj.
      destruct (nextTick_spec E (Some FlushSchedulerQueue) Undefined (set_waiting true s1))
        as (_ & Hc & _ & _ & _ & _ & _ & _ & _ & _ & _ & Hf' & _).
      split; [by rewrite Hf'|]. intros rem _ _ _. rewrite Hc.
      apply Exists_app. left. apply Exists_app. right. by constructor.
  - by intros <-%Done_inj.
  - intros <-%Done_inj.
    destruct (nextTick_spec E cb ctx s)
      as (_ & Hc & _ & _ & _ & _ & _ & _ & _ & _ & Hw' & Hf' & _).
    split; [done|]. intros rem. unfold flush_is_queued. rewrite Hc, Hw', Hf'.
    intros H ? ?. rewrite <- app_assoc. apply Exists_app.
    pose proof (H ltac:(done) ltac:(done)) as [?|?]%Exists_app; [by left|].
    right. by apply Exists_app; right.
  - by intros <-%Done_inj.
Qed.

(** Outside code, run to its end or to the point where it throws. *)
Lemma exec_calls_flush_is_queued n cs : ∀ s,
  match exec_calls (call E n) cs s with
  | Done s' | Throw _ s' =>
      flushing s' = flushing s ∧
      ∀ rem, flush_is_queued (callbacks s ++ rem) s → flush_is_queued (callbacks s' ++ rem) s'
  | OutOfFuel => True
  end.
Proof.
  induction cs as [|c cs IH]; intros s; cbn [exec_calls]; [done|].
  destruct (call E n c s) as [s1|e s1|] eqn:Hc; cbn [bind]; [| |done].
  - apply call_flush_is_queued in Hc as [Hf1 H1].
    specialize (IH s1). destruct (exec_calls (call E n) cs s1) as [s2|e s2|]; [| |done].
    + destruct IH as [Hf2 H2]. split; [congruence|auto].
    + destruct IH as [Hf2 H2]. split; [congruence|auto].
  - destruct n; [done|]. destruct c; cbn [call] in Hc; try done.
    unfold queueWatcher, queue_the_flush in Hc. rewrite Hd in Hc.
    by repeat case_match.
Qed.

Lemma exec_body_flush_is_queued n b s :
  match exec_body (call E n) b s with
  | Done s' | Throw _ s' =>
      flushing s' = flushing s ∧
      ∀ rem, flush_is_queued (callbacks s ++ rem) s → flush_is_queued (callbacks s' ++ rem) s'
  | OutOfFuel => True
  end.
Proof.
  unfold exec_body. pose proof (exec_calls_flush_is_queued n b.1 s) as H.
  destruct (exec_calls (call E n) b.1 s) as [s1|e s1|]; cbn [bind]; [|done..].
  by destruct b.2.
Qed.

Lemma exec_body_keeps_queued n b s :
  flush_is_queued (callbacks s) s →
  outcome_has (λ s', flush_is_queued (callbacks s') s') (exec_body (call E n) b s).
Proof.
  unfold outcome_has in *.
  intros Hs. pose proof (exec_body_flush_is_queued n b s) as H.
  destruct (exec_body (call E n) b s) as [s1|e s1|]; [| |done];
    destruct H as [_ H]; specialize (H []); rewrite !app_nil_r in H; auto.
Qed.

Lemma flush_iteration_flushing n k w s :
  flushing s = true →
  (∀ s, flushing s = true → outcome_has (λ s', flushing s' = true) (k s)) →
  outcome_has (λ s', flushing s' = true) (flush_iteration E (exec_body (call E n)) k w s).
Proof.
  unfold outcome_has in *.
  intros Hs Hk. unfold outcome_has in *. unfold flush_iteration.
  set (r1 := if Watcher.before w then _ else _).
  assert (outcome_has (λ s', flushing s' = true) r1) as Hr1.
  { unfold r1. destruct (Watcher.before w); [|done].
    pose proof (exec_body_flush_is_queued n (before_body E w s) (emit (Before w) s)) as H.
    destruct (exec_body _ _ _) as [sx|e sx|]; [| |done]; destruct H as [H _];
      change (flushing sx = true); by rewrite H. }
  destruct r1 as [s1|e s1|]; cbn [bind]; [|done..].
  set (s1' := emit _ _).
  pose proof (exec_body_flush_is_queued n (run_body E w (set_has (<[Watcher.id w:=HNull]> (has s1)) s1)) s1')
    as H.
  destruct (exec_body _ _ s1') as [s2|e s2|]; cbn [bind]; [| |done];
    destruct H as [Hf2 _]; [|by rewrite Hf2].
  assert (flushing s2 = true) as Hs2 by (by rewrite Hf2).
  destruct (negb (production E) && negb (has_is_null s2 (Watcher.id w))); [|by apply Hk].
  destruct (MAX_UPDATE_COUNT <? _); [done|by apply Hk].
Qed.

Lemma flush_loop_flushing n : ∀ s,
  flushing s = true → outcome_has (λ s', flushing s' = true) (flush_loop E n s).
Proof.
  unfold outcome_has in *.
  induction n as [|n IH]; intros s Hs; [done|]. rewrite flush_loop_S.
  unfold outcome_has in *.
  destruct (queue s !! index s); [|done]. by apply flush_iteration_flushing.
Qed.

Lemma callActivatedHooks_keeps_queued n q : ∀ s,
  flush_is_queued (callbacks s) s →
  outcome_has (λ s', flush_is_queued (callbacks s') s')
    (callActivatedHooks E (exec_body (call E n)) q s).
Proof.
  unfold outcome_has in *.
  induction q as [|vm q IH]; intros s Hs; cbn [callActivatedHooks]; [done|].
  set (s1 := emit _ _).
  pose proof (exec_body_keeps_queued n (activate_body E vm
    (set_components (<[vm:=Component.set_inactive true (component s vm)]> (components s)) s))
    s1 Hs) as H.
  destruct (exec_body _ _ s1) as [s2|e s2|]; cbn [bind]; [|done..]. by apply IH.
Qed.

Lemma callUpdatedHooks_from_keeps_queued n q i : ∀ s,
  flush_is_queued (callbacks s) s →
  outcome_has (λ s', flush_is_queued (callbacks s') s')
    (callUpdatedHooks_from E (exec_body (call E n)) q i s).
Proof.
  unfold outcome_has in *.
  induction i as [|i IH]; intros s Hs; cbn [callUpdatedHooks_from]; [done|].
  destruct (q !! i) as [w|]; [|done].
  destruct (bool_decide _ && _ && _); cbn [bind]; [|by apply IH].
  pose proof (exec_body_keeps_queued n (updated_body E (Watcher.vm w) s)
    (emit (CallHook (Watcher.vm w) "updated") s) Hs) as H.
  destruct (exec_body _ _ _) as [s2|e s2|]; cbn [bind]; [|done..]. by apply IH.
Qed.

Lemma flush_end_keeps_queued n s :
  outcome_has (λ s', flush_is_queued (callbacks s') s')
    (flush_end E (exec_body (call E n)) s).
Proof.
  unfold outcome_has in *.
  unfold flush_end.
  assert (flush_is_queued (callbacks (resetSchedulerState E s)) (resetSchedulerState E s))
    as H0.
  { destruct (resetSchedulerState_fields E s) as (_ & _ & _ & _ & Hw & _).
    intros _ Hw'. congruence. }
  pose proof (callActivatedHooks_keeps_queued n (activatedChildren s) _ H0) as H1.
  destruct (callActivatedHooks _ _ _ _) as [s1|e s1|]; cbn [bind]; [|done..].
  pose proof (callUpdatedHooks_from_keeps_queued n (queue s) (length (queue s)) _ H1) as H2.
  unfold callUpdatedHooks.
  destruct (callUpdatedHooks_from _ _ _ _ _) as [s2|e s2|]; cbn [bind]; [|done..].
  by destruct (devtools E).
Qed.

Lemma flushSchedulerQueue_keeps_queued n s :
  outcome_has (λ s', flush_is_queued (callbacks s') s') (flushSchedulerQueue E n s).
Proof.
  unfold outcome_has in *.
  destruct n as [|n]; [done|]. cbn [flushSchedulerQueue].
  pose proof (flush_loop_flushing n (flush_begin s) eq_refl) as Hl.
  destruct (flush_loop E n (flush_begin s)) as [s1|e s1|]; cbn [bind]; [| |done].
  - apply flush_end_keeps_queued.
  - intros Hf. congruence.
Qed.

Lemma Exists_flush_entry_drop l c rem :
  ¬ is_flush_entry c →
  Exists is_flush_entry (l ++ c :: rem) → Exists is_flush_entry (l ++ rem).
Proof.
  intros Hc [?|[?|?]%Exists_cons]%Exists_app; apply Exists_app; auto. done.
Qed.

Lemma invoke_keeps_queued n c rem s s' :
  flush_is_queued (callbacks s ++ c :: rem) s →
  invoke (callFn E n) c s = Done s' →
  flush_is_queued (callbacks s' ++ rem) s'.
Proof.
  intros Hs. unfold invoke. destruct (cl_cb c) as [[|k]|] eqn:Hcb.
  - cbn [callFn].
    pose proof (flushSchedulerQueue_keeps_queued n (emit (Invoke FlushSchedulerQueue (cl_ctx c)) s))
      as H.
    destruct (flushSchedulerQueue _ _ _) as [s1|e s1|]; [| |done]; intros <-%Done_inj;
      intros Hf Hw; apply Exists_app; left; by apply H.
  - cbn [callFn].
    pose proof (exec_body_flush_is_queued n
      (fn_body E k (cl_ctx c) (emit (Invoke (UserFn k) (cl_ctx c)) s))
      (emit (Invoke (UserFn k) (cl_ctx c)) s)) as H.
    assert (¬ is_flush_entry c) as Hc by (unfold is_flush_entry; congruence).
    destruct (exec_body _ _ _) as [s1|e s1|]; [| |done]; intros <-%Done_inj;
      destruct H as [_ H]; specialize (H (c :: rem) Hs);
      intros Hf Hw; eapply Exists_flush_entry_drop; [exact Hc|by apply H|exact Hc|by apply H].
  - assert (¬ is_flush_entry c) as Hc by (unfold is_flush_entry; congruence).
    assert (∀ s1, flushing s1 = flushing s → waiting s1 = waiting s →
      callbacks s1 = callbacks s → flush_is_queued (callbacks s1 ++ rem) s1) as Hsame.
    { intros s1 Hf Hw Hcs. unfold flush_is_queued. rewrite Hf, Hw, Hcs.
      intros ??. eapply Exists_flush_entry_drop; [exact Hc|by apply Hs]. }
    destruct (resolve_cells s !! cl_resolve c) as [[p|]|]; intros <-%Done_inj;
      try (by apply Hsame).
    unfold resolve. destruct (promises s !! p) as [[v|]|]; by apply Hsame.
Qed.

Lemma run_copies_keeps_queued n cs : ∀ s s',
  flush_is_queued (callbacks s ++ cs) s →
  run_copies (invoke (callFn E n)) cs s = Done s' →
  flush_is_queued (callbacks s') s'.
Proof.
  induction cs as [|c cs IH]; intros s s' Hs; cbn [run_copies].
  - intros <-%Done_inj. by rewrite app_nil_r in Hs.
  - destruct (invoke (callFn E n) c s) as [s1| |] eqn:Hi; cbn [bind]; [|done..].
    apply IH. by eapply invoke_keeps_queued.
Qed.

(** X8: without the synchronous mode, a scheduler that waits and is not in
    its flush has [flushSchedulerQueue] among the entries of [callbacks].
    This holds when the modules are loaded and is kept by every call that
    outside code makes and by every run of [flushCallbacks], also when
    callbacks, watchers or hooks throw. *)
Theorem waiting_scheduler_has_its_flush_queued :
  flush_is_queued (callbacks initial) initial ∧
  (∀ n c s s', flush_is_queued (callbacks s) s → call E n c s = Done s' →
     flush_is_queued (callbacks s') s') ∧
  (∀ n s s', flush_is_queued (callbacks s) s → flushCallbacks E n s = Done s' →
     flush_is_queued (callbacks s') s').
Proof.
  split; [done|]. split.
  - intros n c s s' Hs Hc. apply call_flush_is_queued in Hc as [_ H].
    specialize (H []). rewrite !app_nil_r in H. auto.
  - intros n s s' Hs. apply run_copies_keeps_queued. exact Hs.
Qed.

End Wakeup.

Lemma callbacks_queued_during_a_flush_wait_for_the_next_witness :
  ∃ s', flushCallbacks throwing_env 2
          (enqueue_all throwing_env five_requests initial) = Done s' ∧
    invocations (log s') = five_requests ∧
    callbacks s' = [mkClosure (Some (UserFn 3)) Undefined 5].
Proof.
  set (s := enqueue_all throwing_env five_requests initial).
  set (s' := state_of (flushCallbacks throwing_env 2 s)).
  assert (flushCallbacks throwing_env 2 s = Done s') as Heq by (vm_compute; reflexivity).
  assert (wf s) as Hwf.
  { split; [vm_compute; repeat constructor|]. intros i p Hi. exfalso.
    vm_compute in Hi. by repeat (destruct i as [|i]; try done). }
  destruct (callbacks_queued_during_a_flush_wait_for_the_next throwing_env 2 s s' Hwf Heq)
    as (_ & _ & _ & evs & Hl & Hi).
  exists s'. split; [exact Heq|]. split; [|vm_compute; reflexivity].
  rewrite Hl, invocations_app, Hi. vm_compute. reflexivity.
Defined.

Lemma waiting_scheduler_has_its_flush_queued_witness :
  ∃ s', flushCallbacks requeueing_hook_env 3 queued_1 = Done s' ∧
    waiting s' = true ∧ flushing s' = false ∧
    Exists is_flush_entry (callbacks s').
Proof.
  set (s' := state_of (flushCallbacks requeueing_hook_env 3 queued_1)).
  assert (flushCallbacks requeueing_hook_env 3 queued_1 = Done s') as Heq
    by (vm_compute; reflexivity).
  exists s'. split; [exact Heq|]. split; [vm_compute; reflexivity|].
  split; [vm_compute; reflexivity|].
  destruct (waiting_scheduler_has_its_flush_queued requeueing_hook_env eq_refl)
    as (_ & _ & Hflush).
  apply (Hflush 3%nat queued_1 s'); [|exact Heq|vm_compute; reflexivity..].
  intros _ _. vm_compute. by left.
Defined.

(** * Results on the instance state *)

Section ObjectLemmas.
Import StateJs.

Lemma lookup_update_key k p ps : lookup_key k (update_key k p ps) = Some p.
Proof.
  induction ps as [|[k' p'] ps IH]; cbn.
  - by rewrite decide_True.
  - destruct (decide (k' = k)) as [->|Hne]; cbn.
    + by rewrite decide_True.
    + by rewrite decide_False.
Qed.

Lemma lookup_update_key_ne k k' p ps :
  k' ≠ k → lookup_key k' (update_key k p ps) = lookup_key k' ps.
Proof.
  intros Hne. induction ps as [|[k0 p0] ps IH]; cbn.
  - by rewrite decide_False.
  - destruct (decide (k0 = k)) as [->|Hne0]; cbn.
    + by rewrite !decide_False.
    + by rewrite IH.
Qed.

Lemma keys_update_key k p ps :
  map fst (update_key k p ps) =
  if decide (k ∈ map fst ps) then map fst ps else map fst ps ++ [k].
Proof.
  induction ps as [|[k0 p0] ps IH]; cbn; [done|].
  destruct (decide (k0 = k)) as [->|Hne]; cbn.
  - rewrite decide_True; [done|by left].
  - rewrite IH. destruct (decide (k ∈ map fst ps)) as [Hin|Hin].
    + rewrite decide_True; [done|by right].
    + rewrite decide_False; [done|]. intros [?|?]%elem_of_cons; congruence.
Qed.

Lemma lookup_key_Some k ps : is_Some (lookup_key k ps) ↔ k ∈ map fst ps.
Proof.
  induction ps as [|[k0 p0] ps IH]; cbn.
  - split; [by intros [? ?]|by intros ?%elem_of_nil].
  - destruct (decide (k0 = k)) as [->|Hne].
    + split; [left|eauto].
    + rewrite IH. split; [by right|]. intros [?|?]%elem_of_cons; congruence.
Qed.

Lemma props_of_write_own r k p w :
  is_object w r → props_of (write_own r k p w) r = update_key k p (props_of w r).
Proof.
  intros [ps Hr]. unfold props_of, write_own. cbn.
  rewrite list_lookup_insert_eq; [done|]. by eapply lookup_lt_Some.
Qed.

Lemma heap_write_own_ne r r' k p w :
  r' ≠ r → heap (write_own r k p w) !! r' = heap w !! r'.
Proof. intros Hne. unfold write_own. cbn. by rewrite list_lookup_insert_ne. Qed.

Lemma props_of_write_own_ne r r' k p w :
  r' ≠ r → props_of (write_own r k p w) r' = props_of w r'.
Proof. intros Hne. unfold props_of. by rewrite heap_write_own_ne. Qed.

Lemma own_write_own r k p w : is_object w r → own (write_own r k p w) r k = Some p.
Proof. intros Hr. unfold own. by rewrite props_of_write_own, lookup_update_key. Qed.

Lemma own_write_own_ne r r' k k' p w :
  r' ≠ r ∨ k' ≠ k → own (write_own r k p w) r' k' = own w r' k'.
Proof.
  intros H. unfold own. destruct (decide (r' = r)) as [->|Hne].
  - destruct H as [?|Hk]; [done|].
    destruct (decide (r < length (heap w))%nat) as [Hlt|Hge].
    + assert (props_of (write_own r k p w) r = update_key k p (props_of w r)) as ->.
      { unfold props_of at 1. unfold write_own. cbn.
        by rewrite list_lookup_insert_eq. }
      by rewrite lookup_update_key_ne.
    + unfold props_of, write_own. cbn. by rewrite list_insert_ge by lia.
  - by rewrite props_of_write_own_ne.
Qed.

Lemma is_object_write_own r r' k p w : is_object w r' → is_object (write_own r k p w) r'.
Proof.
  intros [ps Hr]. destruct (decide (r' = r)) as [->|Hne].
  - eexists. unfold write_own. cbn. apply list_lookup_insert_eq. by eapply lookup_lt_Some.
  - exists ps. by rewrite heap_write_own_ne.
Qed.

End ObjectLemmas.

Section Proxy.
Import StateJs.
Context (E : Env) (vm : Ref).

Lemma proxy_unfold target sourceKey key w :
  proxy target sourceKey key w =
  write_own target key (proxy_property (sharedPropertyDefinition w) sourceKey key)
    (set_shared (mkDescriptor (enumerable (sharedPropertyDefinition w))
                   (configurable (sharedPropertyDefinition w))
                   (ProxyGetter sourceKey key) (ProxySetter sourceKey key)) w).
Proof. done. Qed.

Lemma proxy_spec target sourceKey key w :
  let w' := proxy target sourceKey key w in
  (is_object w target →
   own w' target key = Some (proxy_property (sharedPropertyDefinition w) sourceKey key)) ∧
  (∀ r k, r ≠ target ∨ k ≠ key → own w' r k = own w r k) ∧
  (∀ r, r ≠ target → heap w' !! r = heap w !! r) ∧
  (∀ r, is_object w r → is_object w' r) ∧
  trace w' = trace w ∧ nwatchers w' = nwatchers w ∧
  enumerable (sharedPropertyDefinition w') = enumerable (sharedPropertyDefinition w) ∧
  configurable (sharedPropertyDefinition w') = configurable (sharedPropertyDefinition w).
Proof.
  cbv zeta. rewrite proxy_unfold.
  set (w0 := set_shared _ w).
  split; [intros Hobj; by apply (own_write_own target key _ w0)|].
  split; [intros r k H; by rewrite own_write_own_ne|].
  split; [intros r Hne; by rewrite heap_write_own_ne|].
  split; [intros r Hr; by apply (is_object_write_own _ _ _ _ w0)|].
  done.
Qed.

(** X16: after [proxy(target, sourceKey, key)] the property [key] of [target]
    stands for the property [key] of the object [target[sourceKey]]: reading
    it gives the value the source holds, assigning to it writes the value on
    the source, where the next read finds it, and neither changes another
    property of the source or anything on [target]. *)
Theorem proxy_reads_and_writes_the_source (w : World) (target r : Ref)
    (sourceKey key : string) (v : Value) :
  is_object w target → is_object w r → r ≠ target → key ≠ sourceKey →
  own w target sourceKey = Some (Data (VObject r)) →
  (∀ d, own w r key ≠ Some (Accessor d)) →
  let w1 := proxy target sourceKey key w in
  let w2 := assign E vm target key v w1 in
  own w1 target key = Some (proxy_property (sharedPropertyDefinition w) sourceKey key) ∧
  (∀ k, k ≠ key → own w1 target k = own w target k) ∧
  Get E vm w1 target key = read w (VObject r) key ∧
  Get E vm w2 target key = v ∧
  read w2 (VObject r) key = v ∧
  (∀ k, k ≠ key → read w2 (VObject r) k = read w (VObject r) k) ∧
  props_of w2 target = props_of w1 target ∧
  trace w2 = trace w.
Proof.
  intros Htarget Hr Hne Hkey Hsrc Hdata.
  destruct (proxy_spec target sourceKey key w) as (Hown & Hother & Hheap & Hobj & Htr & _).
  cbv zeta. set (w1 := proxy target sourceKey key w) in *.
  specialize (Hown Htarget).
  assert (read w1 (VObject target) sourceKey = VObject r) as Hread1.
  { unfold read. rewrite Hother by (right; congruence). by rewrite Hsrc. }
  assert (∀ k, read w1 (VObject r) k = read w (VObject r) k) as Hreadr.
  { intros k. unfold read. by rewrite Hother by (by left). }
  assert (assign E vm target key v w1 = write_own r key (Data v) w1) as Hassign.
  { unfold assign, find. rewrite Hown. cbn -[read write_own]. by rewrite Hread1. }
  rewrite Hassign.
  split; [done|]. split; [intros k Hk; apply Hother; by right|].
  split.
  { unfold Get, find. rewrite Hown. cbn -[read]. by rewrite Hread1, Hreadr. }
  assert (own (write_own r key (Data v) w1) target key = own w1 target key) as Hown2
    by (apply own_write_own_ne; left; congruence).
  assert (read (write_own r key (Data v) w1) (VObject r) key = v) as Hv.
  { unfold read. by rewrite own_write_own by (by apply Hobj). }
  split.
  { unfold Get, find. rewrite Hown2, Hown. cbn -[read write_own].
    assert (read (write_own r key (Data v) w1) (VObject target) sourceKey = VObject r) as ->.
    { unfold read. rewrite own_write_own_ne by (left; congruence).
      rewrite Hother by (right; congruence). by rewrite Hsrc. }
    exact Hv. }
  split; [exact Hv|]. split.
  { intros k Hk. unfold read. rewrite own_write_own_ne by (by right).
    by rewrite Hother by (by left). }
  split; [apply props_of_write_own_ne; congruence|done].
Qed.

End Proxy.

Section InitData.
Import StateJs.
Context (E : Env) (vm : Ref).

(** The loop of [initData] takes the keys from the last to the first. *)
Lemma initData_from_reverse props methods ks w :
  initData_from E vm ks props methods (length ks) w =
  foldl (λ w k, initData_key E vm props methods k w) w (reverse ks).
Proof.
  revert w. induction ks as [|k ks IH] using rev_ind; intros w; [done|].
  rewrite length_app, Nat.add_1_r, reverse_snoc. cbn [initData_from foldl].
  rewrite list_lookup_middle by done. rewrite <- IH.
  generalize (initData_key E vm props methods k w). clear.
  assert (∀ i w, (i ≤ length ks)%nat →
    initData_from E vm (ks ++ [k]) props methods i w
    = initData_from E vm ks props methods i w) as H.
  { intros i. induction i as [|i IH]; intros w Hi; [done|].
    cbn [initData_from]. rewrite lookup_app_l by lia.
    destruct (ks !! i); [|done]. apply IH. lia. }
  intros w. by apply H.
Qed.

Lemma maybe_warn_fields (b : bool) msg w :
  let w' := if b then warn msg w else w in
  heap w' = heap w ∧ sharedPropertyDefinition w' = sharedPropertyDefinition w ∧
  nwatchers w' = nwatchers w ∧ trace w' = trace w ++ (if b then [Warn msg] else []).
Proof. destruct b; cbn; by rewrite ?app_nil_r. Qed.

Lemma same_heap w w' :
  heap w' = heap w →
  (∀ r k, own w' r k = own w r k) ∧
  (∀ obj k, hasOwn w' obj k = hasOwn w obj k) ∧
  (∀ obj k, read w' obj k = read w obj k) ∧
  (∀ r, is_object w r → is_object w' r).
Proof.
  intros Hh.
  assert (∀ r k, own w' r k = own w r k) as Hown
    by (intros; unfold own, props_of; by rewrite Hh).
  split; [done|]. split; [|split].
  - intros [] k; cbn; try done. by rewrite Hown.
  - intros [] k; cbn; try done. by rewrite Hown.
  - intros r. unfold is_object. by rewrite Hh.
Qed.

(** What one turn of the loop does, for declarations that are not made on
    [vm] itself. *)
Lemma initData_key_spec props methods key w :
  is_object w vm →
  let w' := initData_key E vm props methods key w in
  let free := negb (declared_in w props key) && negb (isReserved E key) in
  own w' vm key =
    (if free then Some (proxy_property (sharedPropertyDefinition w) "_data" key)
     else own w vm key) ∧
  (∀ r k, r ≠ vm ∨ k ≠ key → own w' r k = own w r k) ∧
  (∀ r, r ≠ vm → heap w' !! r = heap w !! r) ∧
  (∀ r, is_object w r → is_object w' r) ∧
  trace w' = trace w ++ initData_warnings E w props methods [key] ∧
  nwatchers w' = nwatchers w ∧
  enumerable (sharedPropertyDefinition w') = enumerable (sharedPropertyDefinition w) ∧
  configurable (sharedPropertyDefinition w') = configurable (sharedPropertyDefinition w).
Proof.
  intros Hvm. cbv zeta.
  unfold initData_key, initData_warnings, declared_in.
  change (reverse [key]) with [key]. cbn [flat_map]. rewrite app_nil_r.
  assert (∀ (b : bool) (l : list Ev),
    (if production E then [] else if b then l else []) =
    (if negb (production E) && b then l else [])) as Hif
    by (intros b l; by destruct (production E), b).
  set (w1 := if negb (production E) then _ else w).
  assert (w1 = if negb (production E) && (truthy methods && hasOwn w methods key)
               then warn (method_data_warning key) w else w) as Hw1
    by (unfold w1; by destruct (production E), (truthy methods && hasOwn w methods key)).
  destruct (maybe_warn_fields (negb (production E) && (truthy methods && hasOwn w methods key))
    (method_data_warning key) w) as (Hh1 & Hs1 & Hn1 & Ht1).
  rewrite <- Hw1 in Hh1, Hs1, Hn1, Ht1. clearbody w1.
  destruct (same_heap w w1 Hh1) as (Hown1 & Hhas1 & _ & Hobj1).
  rewrite Hhas1.
  destruct (truthy props && hasOwn w props key) eqn:Hdecl; cbn [negb andb].
  - set (w2 := if negb (production E) then _ else w1).
    destruct (maybe_warn_fields (negb (production E)) (data_prop_warning key) w1)
      as (Hh2 & Hs2 & Hn2 & Ht2).
    fold w2 in Hh2, Hs2, Hn2, Ht2. clearbody w2.
    destruct (same_heap w1 w2 Hh2) as (Hown2 & _ & _ & Hobj2).
    split; [by rewrite Hown2, Hown1|]. split; [by intros; rewrite Hown2, Hown1|].
    split; [by intros; rewrite Hh2, Hh1|]. split; [auto|].
    rewrite Ht2, Ht1, Hs2, Hs1, Hn2, Hn1, <- app_assoc.
    by destruct (production E), (truthy methods && hasOwn w methods key).
  - destruct (isReserved E key); cbn [negb].
    + split; [by rewrite Hown1|]. split; [by intros; rewrite Hown1|].
      split; [by intros; rewrite Hh1|]. split; [auto|].
      rewrite Ht1, Hs1, Hn1.
      by destruct (production E), (truthy methods && hasOwn w methods key).
    + destruct (proxy_spec vm "_data" key w1)
        as (Hown & Hother & Hheap & Hobj & Htr & Hnw & Hen & Hco).
      rewrite Hown by auto. rewrite Htr, Hnw, Hen, Hco, Ht1, Hs1, Hn1.
      split; [done|]. split; [by intros; rewrite Hother, Hown1|].
      split; [by intros; rewrite Hheap, Hh1|]. split; [auto|].
      by destruct (production E), (truthy methods && hasOwn w methods key).
Qed.

Lemma proxy_property_flags sh sh' sourceKey key :
  enumerable sh' = enumerable sh → configurable sh' = configurable sh →
  proxy_property sh' sourceKey key = proxy_property sh sourceKey key.
Proof. intros He Hc. unfold proxy_property. by rewrite He, Hc. Qed.

Lemma same_elsewhere_own w w' r k : same_elsewhere vm w w' → r ≠ vm → own w' r k = own w r k.
Proof. intros H Hr. unfold own, props_of. by rewrite H. Qed.

Lemma same_elsewhere_declared w w' obj k :
  same_elsewhere vm w w' → obj ≠ VObject vm → declared_in w' obj k = declared_in w obj k.
Proof.
  intros H Hobj. unfold declared_in. f_equal. destruct obj as [| | | | | | | |r]; try done.
  cbn. rewrite (same_elsewhere_own w w'); [done..|]. by intros ->.
Qed.

Lemma same_elsewhere_read w w' obj k :
  same_elsewhere vm w w' → obj ≠ VObject vm → read w' obj k = read w obj k.
Proof.
  intros H Hobj. destruct obj as [| | | | | | | |r]; try done.
  cbn. rewrite (same_elsewhere_own w w'); [done..|]. by intros ->.
Qed.

Lemma initData_warnings_app w props methods ks1 ks2 :
  initData_warnings E w props methods (ks1 ++ ks2) =
  initData_warnings E w props methods ks2 ++ initData_warnings E w props methods ks1.
Proof.
  unfold initData_warnings. destruct (production E); [done|].
  by rewrite reverse_app, flat_map_app.
Qed.

Lemma initData_warnings_ext w w' props methods ks :
  same_elsewhere vm w w' → props ≠ VObject vm → methods ≠ VObject vm →
  initData_warnings E w' props methods ks = initData_warnings E w props methods ks.
Proof.
  intros H Hp Hm. unfold initData_warnings. destruct (production E); [done|].
  induction (reverse ks) as [|k l IH]; [done|]. cbn [flat_map].
  by rewrite IH, !(same_elsewhere_declared w w').
Qed.

(** The turns of the loop for the keys [l], in this order. *)
Lemma initData_fold props methods l : ∀ w,
  is_object w vm → props ≠ VObject vm → methods ≠ VObject vm →
  let w' := foldl (λ w k, initData_key E vm props methods k w) w l in
  (∀ k, own w' vm k =
     if bool_decide (k ∈ l) && negb (declared_in w props k) && negb (isReserved E k)
     then Some (proxy_property (sharedPropertyDefinition w) "_data" k)
     else own w vm k) ∧
  same_elsewhere vm w w' ∧
  (∀ r, is_object w r → is_object w' r) ∧
  trace w' = trace w ++ initData_warnings E w props methods (reverse l) ∧
  nwatchers w' = nwatchers w ∧
  enumerable (sharedPropertyDefinition w') = enumerable (sharedPropertyDefinition w) ∧
  configurable (sharedPropertyDefinition w') = configurable (sharedPropertyDefinition w).
Proof.
  induction l as [|k0 l IH]; intros w Hvm Hp Hm; cbv zeta.
  - cbn [foldl]. repeat split; try done.
    unfold initData_warnings. change (reverse []) with (@nil string).
    destruct (production E); by rewrite app_nil_r.
  - cbn [foldl].
    destruct (initData_key_spec props methods k0 w Hvm)
      as (Hown0 & Hother0 & Hheap0 & Hobj0 & Htr0 & Hnw0 & Hen0 & Hco0).
    set (w1 := initData_key E vm props methods k0 w) in *.
    destruct (IH w1 (Hobj0 _ Hvm) Hp Hm) as (Hown & Hheap & Hobj & Htr & Hnw & Hen & Hco).
    set (w' := foldl _ w1 l) in *.
    assert (same_elsewhere vm w w1) as Hse by exact Hheap0.
    split; [|split; [|split; [auto|split; [|split; [congruence|split; congruence]]]]].
    + intros k. rewrite Hown.
      rewrite (same_elsewhere_declared w w1) by done.
      rewrite (proxy_property_flags (sharedPropertyDefinition w)) by done.
      destruct (decide (k = k0)) as [->|Hne].
      * rewrite Hown0. rewrite (bool_decide_true (k0 ∈ k0 :: l)) by left.
        cbn [andb].
        destruct (bool_decide (k0 ∈ l)); cbn [andb]; [|done].
        by destruct (negb (declared_in w props k0) && negb (isReserved E k0)).
      * rewrite Hother0 by (by right).
        assert (bool_decide (k ∈ k0 :: l) = bool_decide (k ∈ l)) as ->; [|done].
        apply bool_decide_ext. rewrite elem_of_cons. split; [by intros [?|?]|by right].
    + intros r Hr. by rewrite Hheap, Hheap0.
    + rewrite Htr, Htr0, reverse_cons, initData_warnings_app, <- app_assoc.
      by rewrite (initData_warnings_ext w w1).
Qed.

Lemma take_data_spec w :
  let option_ := read w (read w (VObject vm) "$options") "data" in
  let '(data, w') := take_data E vm w in
  trace w' = trace w ++ data_events E option_ ∧
  sharedPropertyDefinition w' = sharedPropertyDefinition w ∧
  nwatchers w' = nwatchers w ∧
  match data_source E option_ with
  | Some v => data = v ∧ heap w' = heap w
  | None => data = VObject (length (heap w)) ∧ heap w' = heap w ++ [Plain []]
  end.
Proof.
  cbv zeta. unfold take_data, data_source, data_events.
  destruct (read w (read w (VObject vm) "$options") "data") as [| |[]|[]|[]|f| | |] eqn:Hd;
    cbn; rewrite ?app_nil_r; try done.
  unfold getData. destruct (call_data E f) as [v|e]; cbn; by rewrite <- ?app_assoc.
Qed.

Lemma initData_unfold w :
  initData E vm w =
  let '(data, w) := take_data E vm w in
  let w := assign E vm vm "_data" data w in
  let '(data, w) :=
    if negb (isPlainObject data) then
      let '(o, w) := alloc (Plain []) w in
      (VObject o, if negb (production E) then warn data_not_object_warning w else w)
    else (data, w) in
  let keys := keys w data in
  let props := read w (read w (VObject vm) "$options") "props" in
  let methods := read w (read w (VObject vm) "$options") "methods" in
  let w := initData_from E vm keys props methods (length keys) w in
  observe data w.
Proof. done. Qed.

Lemma assign_data_property this key v w :
  (∀ d, find E vm w this key ≠ Some (Accessor d)) →
  assign E vm this key v w = write_own this key (Data v) w.
Proof.
  intros H. unfold assign. destruct (find E vm w this key) as [[|d]|] eqn:Hf; try done.
  by destruct (H d).
Qed.

Lemma find_same_heap w w' this key :
  heap w' = heap w → find E vm w' this key = find E vm w this key.
Proof. intros Hh. unfold find, own, props_of. by rewrite Hh. Qed.

Lemma initData_on_a_data_object (w : World) (o d : Ref) :
  is_object w vm → o ≠ vm → d ≠ vm →
  own w vm "$options" = Some (Data (VObject o)) →
  data_source E (read w (VObject o) "data") = Some (VObject d) →
  (∀ p, find E vm w vm "_data" ≠ Some (Accessor p)) →
  isReserved E "_data" = true →
  read w (VObject o) "props" ≠ VObject vm →
  read w (VObject o) "methods" ≠ VObject vm →
  let props := read w (VObject o) "props" in
  let methods := read w (VObject o) "methods" in
  let w' := initData E vm w in
  own w' vm "_data" = Some (Data (VObject d)) ∧
  (∀ k, k ≠ "_data" →
     own w' vm k =
       if bool_decide (k ∈ keys w (VObject d))
          && negb (declared_in w props k) && negb (isReserved E k)
       then Some (proxy_property (sharedPropertyDefinition w) "_data" k)
       else own w vm k) ∧
  (∀ k, k ∈ keys w (VObject d) → declared_in w props k = false → isReserved E k = false →
     Get E vm w' vm k = read w (VObject d) k) ∧
  same_elsewhere vm w w' ∧
  trace w' = trace w ++ data_events E (read w (VObject o) "data")
             ++ initData_warnings E w props methods (keys w (VObject d))
             ++ [Observe (VObject d)].
Proof.
  intros Hvm Ho Hd Hopts Hsrc Hacc Hres Hp Hm. cbv zeta.
  assert (read w (VObject vm) "$options" = VObject o) as Hro
    by (unfold read; by rewrite Hopts).
  rewrite initData_unfold.
  pose proof (take_data_spec w) as Htake. cbv zeta in Htake.
  rewrite Hro, Hsrc in Htake.
  destruct (take_data E vm w) as [data w0].
  destruct Htake as (Ht0 & Hs0 & Hn0 & -> & Hh0).
  destruct (same_heap w w0 Hh0) as (Hown0 & _ & Hread0 & Hobj0).
  rewrite assign_data_property
    by (intros p; rewrite (find_same_heap w w0) by done; apply Hacc).
  set (w1 := write_own vm "_data" (Data (VObject d)) w0).
  assert (same_elsewhere vm w w1) as Hse1.
  { intros r Hr. unfold w1. by rewrite heap_write_own_ne, Hh0. }
  assert (is_object w1 vm) as Hvm1 by (apply is_object_write_own; auto).
  assert (own w1 vm "_data" = Some (Data (VObject d))) as Hdata1
    by (apply own_write_own; auto).
  assert (∀ k, k ≠ "_data" → own w1 vm k = own w vm k) as Hown1.
  { intros k Hk. unfold w1. rewrite own_write_own_ne by (by right). apply Hown0. }
  assert (read w1 (VObject vm) "$options" = VObject o) as Hro1.
  { unfold read. rewrite Hown1 by done. by rewrite Hopts. }
  cbn [isPlainObject negb]. cbv zeta.
  rewrite Hro1, !(same_elsewhere_read w w1) by (done || congruence).
  assert (keys w1 (VObject d) = keys w (VObject d)) as ->.
  { unfold keys, props_of. by rewrite Hse1. }
  rewrite initData_from_reverse.
  destruct (initData_fold (read w (VObject o) "props") (read w (VObject o) "methods")
              (reverse (keys w (VObject d))) w1 Hvm1 Hp Hm)
    as (Hown & Hse & _ & Htr & _).
  set (w2 := foldl _ w1 _) in *.
  assert (∀ k, own (observe (VObject d) w2) vm k = own w2 vm k) as Hobs by done.
  assert (own w2 vm "_data" = Some (Data (VObject d))) as Hdata2.
  { rewrite Hown, Hdata1, Hres. cbn [negb]. by rewrite andb_false_r. }
  assert (∀ k, k ≠ "_data" →
     own w2 vm k =
       if bool_decide (k ∈ keys w (VObject d))
          && negb (declared_in w (read w (VObject o) "props") k) && negb (isReserved E k)
       then Some (proxy_property (sharedPropertyDefinition w) "_data" k)
       else own w vm k) as Hkeys.
  { intros k Hk. rewrite Hown, Hown1 by done.
    rewrite (same_elsewhere_declared w w1) by done.
    assert (bool_decide (k ∈ reverse (keys w (VObject d)))
            = bool_decide (k ∈ keys w (VObject d))) as ->
      by (apply bool_decide_ext, elem_of_reverse).
    change (sharedPropertyDefinition w1) with (sharedPropertyDefinition w0).
    by rewrite Hs0. }
  split; [by rewrite Hobs|]. split; [by intros k Hk; rewrite Hobs, Hkeys|].
  split; [|split].
  - intros k Hin Hdecl Hrk.
    assert (k ≠ "_data") as Hk by (intros ->; congruence).
    unfold Get, find. rewrite Hobs, Hkeys by done.
    rewrite bool_decide_true, Hdecl, Hrk by done.
    cbn [negb andb proxy_property get run_getter].
    assert (read (observe (VObject d) w2) (VObject vm) "_data" = VObject d) as ->
      by (unfold read; by rewrite Hobs, Hdata2).
    unfold read, own, props_of.
    change (heap (observe (VObject d) w2)) with (heap w2).
    by rewrite Hse, Hse1.
  - intros r Hr. change (heap (observe (VObject d) w2)) with (heap w2).
    by rewrite Hse, Hse1.
  - change (trace (observe (VObject d) w2)) with (trace w2 ++ [Observe (VObject d)]).
    rewrite Htr, reverse_involutive, (initData_warnings_ext w w1) by done.
    change (trace w1) with (trace w0). rewrite Ht0. by rewrite <- !app_assoc.
Qed.

(** X17: when the [data] option gives an object, [initData] stores it as
    [vm._data] and defines on [vm] a proxy to it for exactly the keys of the
    object that are neither declared in [props] nor reserved, whatever [vm]
    had under such a key before (a method, for one); reading such a key from
    [vm] gives the value of the data object.  No other property of [vm] and
    no other object changes, and the trace is the call of the data function,
    the warnings for the keys from the last to the first, and one [observe]
    of the data object. *)
Theorem initData_proxies_the_free_keys (w : World) (o d : Ref) :
  is_object w vm → o ≠ vm → d ≠ vm →
  own w vm "$options" = Some (Data (VObject o)) →
  data_source E (read w (VObject o) "data") = Some (VObject d) →
  (∀ p, find E vm w vm "_data" ≠ Some (Accessor p)) →
  isReserved E "_data" = true →
  read w (VObject o) "props" ≠ VObject vm →
  read w (VObject o) "methods" ≠ VObject vm →
  let props := read w (VObject o) "props" in
  let methods := read w (VObject o) "methods" in
  let w' := initData E vm w in
  own w' vm "_data" = Some (Data (VObject d)) ∧
  (∀ k, k ≠ "_data" →
     own w' vm k =
       if bool_decide (k ∈ keys w (VObject d))
          && negb (declared_in w props k) && negb (isReserved E k)
       then Some (proxy_property (sharedPropertyDefinition w) "_data" k)
       else own w vm k) ∧
  (∀ k, k ∈ keys w (VObject d) → declared_in w props k = false → isReserved E k = false →
     Get E vm w' vm k = read w (VObject d) k) ∧
  same_elsewhere vm w w' ∧
  trace w' = trace w ++ data_events E (read w (VObject o) "data")
             ++ initData_warnings E w props methods (keys w (VObject d))
             ++ [Observe (VObject d)].
Proof. apply initData_on_a_data_object. Qed.

Lemma heap_length_write_own r k p w : length (heap (write_own r k p w)) = length (heap w).
Proof. unfold write_own. cbn. by rewrite length_insert. Qed.

(** X18: when the [data] option does not give a plain object, [initData]
    proxies nothing and observes a new empty object.  If the option gave a
    value (a data function that returns a number, say) [vm._data] keeps that
    value, not the object that is observed, and development warns; if the
    data function threw, the error goes to [handleError] with the info
    [data()] and [vm._data] is the new object. *)
Theorem initData_without_a_data_object (w : World) (o : Ref) :
  is_object w vm → o ≠ vm →
  own w vm "$options" = Some (Data (VObject o)) →
  (∀ p, find E vm w vm "_data" ≠ Some (Accessor p)) →
  (∀ r, data_source E (read w (VObject o) "data") ≠ Some (VObject r)) →
  let source := data_source E (read w (VObject o) "data") in
  let fresh := length (heap w) in
  let w' := initData E vm w in
  own w' vm "_data" = Some (Data (default (VObject fresh) source)) ∧
  (∀ k, k ≠ "_data" → own w' vm k = own w vm k) ∧
  heap w' !! fresh = Some (Plain []) ∧
  length (heap w') = S fresh ∧
  (∀ r, r ≠ vm → r ≠ fresh → heap w' !! r = heap w !! r) ∧
  trace w' = trace w ++ data_events E (read w (VObject o) "data")
             ++ match source with
                | Some _ => if production E then [] else [Warn data_not_object_warning]
                | None => []
                end
             ++ [Observe (VObject fresh)].
Proof.
  intros Hvm Ho Hopts Hacc Hsrc. cbv zeta.
  assert (read w (VObject vm) "$options" = VObject o) as Hro
    by (unfold read; by rewrite Hopts).
  assert (vm < length (heap w))%nat as Hlt
    by (destruct Hvm as [ps Hps]; by eapply lookup_lt_Some).
  rewrite initData_unfold.
  pose proof (take_data_spec w) as Htake. cbv zeta in Htake.
  rewrite Hro in Htake.
  destruct (take_data E vm w) as [data w0].
  destruct Htake as (Ht0 & Hs0 & Hn0 & Hcase).
  assert (∀ p, find E vm w0 vm "_data" ≠ Some (Accessor p)) as Hacc0.
  { intros p. unfold find, own, props_of.
    assert (heap w0 !! vm = heap w !! vm) as ->; [|apply Hacc].
    destruct (data_source E (read w (VObject o) "data")); destruct Hcase as [_ ->]; [done|].
    by rewrite lookup_app_l. }
  rewrite assign_data_property by done.
  destruct (data_source E (read w (VObject o) "data")) as [v|] eqn:Hds;
    destruct Hcase as [-> Hh0]; cbn [default].
  - assert (isPlainObject v = false) as ->
      by (destruct v; try done; by destruct (Hsrc r)).
    cbn [negb]. unfold alloc. rewrite heap_length_write_own, Hh0.
    set (w1 := set_heap _ _).
    set (w2 := if negb (production E) then _ else w1).
    destruct (maybe_warn_fields (negb (production E)) data_not_object_warning w1)
      as (Hh2 & Hs2 & Hn2 & Ht2).
    fold w2 in Hh2, Hs2, Hn2, Ht2. clearbody w2.
    assert (heap w2 = heap (write_own vm "_data" (Data v) w0) ++ [Plain []]) as Hheap
      by (by rewrite Hh2).
    assert (keys w2 (VObject (length (heap w))) = []) as ->.
    { unfold keys, props_of. rewrite Hheap.
      rewrite lookup_app_r by (rewrite heap_length_write_own, Hh0; lia).
      by rewrite heap_length_write_own, Hh0, Nat.sub_diag. }
    cbn [length initData_from].
    assert (∀ k, own (observe (VObject (length (heap w))) w2) vm k
                 = own (write_own vm "_data" (Data v) w0) vm k) as Hown.
    { intros k. unfold own, props_of.
      change (heap (observe (VObject (length (heap w))) w2)) with (heap w2).
      rewrite Hheap, lookup_app_l; [done|]. by rewrite heap_length_write_own, Hh0. }
    change (heap (observe (VObject (length (heap w))) w2)) with (heap w2).
    split; [|split; [|split; [|split; [|split]]]].
    + rewrite Hown. apply own_write_own. destruct Hvm as [ps Hps]. exists ps. by rewrite Hh0.
    + intros k Hk. rewrite Hown, own_write_own_ne by (by right).
      unfold own, props_of. by rewrite Hh0.
    + rewrite Hheap, lookup_app_r by (rewrite heap_length_write_own, Hh0; lia).
      by rewrite heap_length_write_own, Hh0, Nat.sub_diag.
    + rewrite Hheap, length_app, heap_length_write_own, Hh0. cbn. lia.
    + intros r Hr Hfresh. rewrite Hheap.
      destruct (decide (r < length (heap w))%nat) as [Hr'|Hr'].
      * rewrite lookup_app_l by (by rewrite heap_length_write_own, Hh0).
        by rewrite heap_write_own_ne, Hh0.
      * rewrite lookup_ge_None_2; [|rewrite length_app, heap_length_write_own, Hh0; cbn; lia].
        symmetry. apply lookup_ge_None_2. lia.
    + change (trace (observe (VObject (length (heap w))) w2))
        with (trace w2 ++ [Observe (VObject (length (heap w)))]).
      rewrite Ht2. change (trace w1) with (trace w0). rewrite Ht0.
      rewrite <- !app_assoc. by destruct (production E).
  - cbn [isPlainObject negb].
    set (fresh := length (heap w)) in *.
    set (w1 := write_own vm "_data" (Data (VObject fresh)) w0).
    assert (heap w1 = <[vm := Plain (update_key "_data" (Data (VObject fresh)) (props_of w0 vm))]>
                        (heap w) ++ [Plain []]) as Hheap.
    { unfold w1, write_own. cbn. rewrite Hh0. by rewrite insert_app_l. }
    assert (keys w1 (VObject fresh) = []) as ->.
    { unfold keys, props_of. rewrite Hheap.
      rewrite lookup_app_r by (rewrite length_insert; unfold fresh; lia).
      by rewrite length_insert, Nat.sub_diag. }
    cbn [length initData_from].
    change (heap (observe (VObject fresh) w1)) with (heap w1).
    assert (∀ k, own (observe (VObject fresh) w1) vm k = own w1 vm k) as Hown by done.
    assert (is_object w0 vm) as Hvm0.
    { destruct Hvm as [ps Hps]. exists ps. by rewrite Hh0, lookup_app_l. }
    split; [|split; [|split; [|split; [|split]]]].
    + rewrite Hown. by apply own_write_own.
    + intros k Hk. rewrite Hown. unfold w1. rewrite own_write_own_ne by (by right).
      unfold own, props_of. by rewrite Hh0, lookup_app_l.
    + rewrite Hheap, lookup_app_r by (rewrite length_insert; unfold fresh; lia).
      by rewrite length_insert, Nat.sub_diag.
    + rewrite Hheap, length_app, length_insert. cbn. unfold fresh. lia.
    + intros r Hr Hfresh. rewrite Hheap.
      destruct (decide (r < length (heap w))%nat) as [Hr'|Hr'].
      * rewrite lookup_app_l by (by rewrite length_insert).
        by rewrite list_lookup_insert_ne.
      * rewrite lookup_ge_None_2; [|rewrite length_app, length_insert; cbn; unfold fresh in *; lia].
        symmetry. apply lookup_ge_None_2. lia.
    + change (trace (observe (VObject fresh) w1)) with (trace w0 ++ [Observe (VObject fresh)]).
      rewrite Ht0. cbn [app]. by rewrite <- !app_assoc.
Qed.

End InitData.

Section InitMethods.
Import StateJs.
Context (E : Env) (vm : Ref).

Lemma initMethods_key_spec props methods key w :
  is_object w vm →
  (∀ p, find E vm w vm key ≠ Some (Accessor p)) →
  let w' := initMethods_key E vm props methods key w in
  own w' vm key = Some (Data (method_value (read w methods key))) ∧
  (∀ r k, r ≠ vm ∨ k ≠ key → own w' r k = own w r k) ∧
  same_elsewhere vm w w' ∧
  is_object w' vm ∧
  trace w' = trace w ++ initMethods_warnings E vm w props methods [key].
Proof.
  intros Hvm Hacc. cbv zeta. unfold initMethods_key.
  set (w1 := if negb (production E) then _ else w).
  assert (heap w1 = heap w ∧
          trace w1 = trace w ++ initMethods_warnings E vm w props methods [key])
    as [Hh1 Ht1].
  { unfold w1, initMethods_warnings, declared_in. cbn [flat_map]. rewrite app_nil_r.
    destruct (production E); cbn [negb]; [by rewrite app_nil_r|].
    set (wa := if negb (is_function (read w methods key)) then _ else w).
    destruct (maybe_warn_fields (negb (is_function (read w methods key)))
                (method_type_warning key (read w methods key)) w) as (Hha & _ & _ & Hta).
    fold wa in Hha, Hta. clearbody wa.
    destruct (same_heap w wa Hha) as (_ & Hhasa & _ & _).
    set (wb := if truthy props && hasOwn wa props key then _ else wa).
    destruct (maybe_warn_fields (truthy props && hasOwn wa props key)
                (method_prop_warning key) wa) as (Hhb & _ & _ & Htb).
    fold wb in Hhb, Htb. clearbody wb.
    assert (in_vm E vm wb key = in_vm E vm w key) as Hin.
    { unfold in_vm. rewrite (find_same_heap E vm w wb); [done|congruence]. }
    destruct (maybe_warn_fields (in_vm E vm wb key && isReserved E key)
                (method_reserved_warning key) wb) as (Hhc & _ & _ & Htc).
    split; [congruence|].
    rewrite Htc, Htb, Hta, Hin, Hhasa, <- !app_assoc.
    by destruct (is_function (read w methods key)). }
  clearbody w1.
  destruct (same_heap w w1 Hh1) as (Hown1 & _ & Hread1 & Hobj1).
  rewrite assign_data_property
    by (intros p; rewrite (find_same_heap E vm w w1) by done; apply Hacc).
  rewrite Hread1.
  assert ((if negb (is_function (read w methods key)) then VFunction Noop
           else bind_vm (read w methods key)) = method_value (read w methods key)) as ->
    by (unfold method_value; by destruct (is_function _)).
  split; [apply own_write_own; auto|].
  split; [intros r k H; by rewrite own_write_own_ne, Hown1|].
  split; [intros r Hr; by rewrite heap_write_own_ne, Hh1|].
  split; [apply is_object_write_own; auto|done].
Qed.

Lemma initMethods_warnings_cons w props methods k ks :
  initMethods_warnings E vm w props methods (k :: ks) =
  initMethods_warnings E vm w props methods [k]
  ++ initMethods_warnings E vm w props methods ks.
Proof.
  unfold initMethods_warnings. destruct (production E); [done|].
  cbn [flat_map]. by rewrite app_nil_r.
Qed.

Lemma initMethods_fold props methods l : ∀ w,
  is_object w vm → NoDup l →
  (∀ k p, k ∈ l → find E vm w vm k ≠ Some (Accessor p)) →
  let w' := foldl (λ w key, initMethods_key E vm props methods key w) w l in
  (∀ k, own w' vm k =
     if bool_decide (k ∈ l) then Some (Data (method_value (read w methods k)))
     else own w vm k) ∧
  same_elsewhere vm w w' ∧
  trace w' = trace w ++ initMethods_warnings E vm w props methods l ∧
  is_object w' vm.
Proof.
  induction l as [|k0 l IH]; intros w Hvm Hnd Hacc; cbv zeta.
  - cbn [foldl]. split; [done|]. split; [done|]. split; [|done].
    unfold initMethods_warnings. destruct (production E); by rewrite app_nil_r.
  - cbn [foldl]. apply NoDup_cons in Hnd as [Hk0 Hnd].
    destruct (initMethods_key_spec props methods k0 w Hvm)
      as (Hown0 & Hother0 & Hse0 & Hvm0 & Htr0).
    { intros p. apply Hacc. by left. }
    set (w1 := initMethods_key E vm props methods k0 w) in *.
    assert (∀ r k, k ∈ l → own w1 r k = own w r k) as Hsame.
    { intros r k Hk. apply Hother0. right. by intros ->. }
    assert (∀ obj k, k ∈ l → read w1 obj k = read w obj k) as Hread.
    { intros [] k Hk; cbn; try done. by rewrite Hsame. }
    destruct (IH w1 Hvm0 Hnd) as (Hown & Hse & Htr & Hobj).
    { intros k p Hk. unfold find. rewrite Hsame by done. apply (Hacc k p). by right. }
    set (w' := foldl _ w1 l) in *.
    split; [|split; [|split; [|done]]].
    + intros k. rewrite Hown. destruct (decide (k = k0)) as [->|Hne].
      * rewrite (bool_decide_false (k0 ∈ l)), (bool_decide_true (k0 ∈ k0 :: l))
          by (done || left).
        done.
      * rewrite Hother0 by (by right).
        assert (bool_decide (k ∈ k0 :: l) = bool_decide (k ∈ l)) as ->.
        { apply bool_decide_ext. rewrite elem_of_cons. split; [by intros [?|?]|by right]. }
        destruct (bool_decide (k ∈ l)) eqn:Hk; [|done].
        apply bool_decide_eq_true in Hk. by rewrite Hread.
    + intros r Hr. by rewrite Hse, Hse0.
    + rewrite Htr, Htr0, (initMethods_warnings_cons w props methods k0 l), <- app_assoc.
      f_equal. f_equal.
      unfold initMethods_warnings. destruct (production E); [done|].
      clear -Hsame Hread. induction l as [|k l IH]; [done|]. cbn [flat_map].
      rewrite IH.
      2:{ intros r k' Hk'. apply Hsame. by right. }
      2:{ intros obj k' Hk'. apply Hread. by right. }
      rewrite Hread by left.
      assert (declared_in w1 props k = declared_in w props k) as ->.
      { unfold declared_in. f_equal. destruct props; cbn; try done.
        by rewrite Hsame by left. }
      assert (in_vm E vm w1 k = in_vm E vm w k) as ->; [|done].
      unfold in_vm, find. by rewrite Hsame by left.
Qed.


End InitMethods.

Section Builds.
Import StateJs.
Context (E : Env) (vm : Ref).

Lemma same_but_warnings_refl w : same_but_warnings w w.
Proof. by repeat split. Qed.

Lemma same_but_warnings_emit e w w' :
  same_but_warnings w w' → same_but_warnings (emit e w) (emit e w').
Proof.
  intros (Hh & Hs & Hn & Ht). repeat split; try done. cbn.
  unfold without_warnings in *. by rewrite !List.filter_app, Ht.
Qed.

Lemma same_but_warnings_warn_r msg w w' :
  same_but_warnings w w' → same_but_warnings w (warn msg w').
Proof.
  intros (Hh & Hs & Hn & Ht). repeat split; try done. cbn.
  unfold without_warnings in *. rewrite List.filter_app, <- Ht. cbn. by rewrite app_nil_r.
Qed.

Lemma same_but_warnings_warn_if (b : bool) msg w w' :
  same_but_warnings w w' → same_but_warnings w (if b then warn msg w' else w').
Proof. destruct b; [apply same_but_warnings_warn_r|done]. Qed.

Lemma same_but_warnings_set_heap h w w' :
  same_but_warnings w w' → same_but_warnings (set_heap h w) (set_heap h w').
Proof. intros (Hh & Hs & Hn & Ht). by repeat split. Qed.

Lemma same_but_warnings_set_shared d w w' :
  same_but_warnings w w' → same_but_warnings (set_shared d w) (set_shared d w').
Proof. intros (Hh & Hs & Hn & Ht). by repeat split. Qed.

Lemma same_but_warnings_write_own r k p w w' :
  same_but_warnings w w' → same_but_warnings (write_own r k p w) (write_own r k p w').
Proof.
  intros H. unfold write_own, props_of. destruct H as (Hh & Hs & Hn & Ht).
  rewrite Hh. by repeat split.
Qed.

Lemma same_but_warnings_proxy target sourceKey key w w' :
  same_but_warnings w w' →
  same_but_warnings (proxy target sourceKey key w) (proxy target sourceKey key w').
Proof.
  intros H. rewrite !proxy_unfold.
  assert (sharedPropertyDefinition w = sharedPropertyDefinition w') as -> by apply H.
  by apply same_but_warnings_write_own, same_but_warnings_set_shared.
Qed.

Lemma same_but_warnings_reads w w' :
  same_but_warnings w w' →
  (∀ obj k, read w obj k = read w' obj k) ∧
  (∀ obj k, hasOwn w obj k = hasOwn w' obj k) ∧
  (∀ obj, keys w obj = keys w' obj) ∧
  (∀ this k, find (production_build E) vm w this k = find (development_build E) vm w' this k).
Proof.
  intros (Hh & _). symmetry in Hh.
  destruct (same_heap w w' Hh) as (Hown & Hhas & Hread & _).
  split; [done|]. split; [done|]. split.
  - intros []; cbn; try done. unfold props_of. by rewrite Hh.
  - intros this k. unfold find. by rewrite Hown.
Qed.

Lemma same_but_warnings_assign this key v w w' :
  same_but_warnings w w' →
  same_but_warnings (assign (production_build E) vm this key v w)
                    (assign (development_build E) vm this key v w').
Proof.
  intros H. destruct (same_but_warnings_reads w w' H) as (Hread & _ & _ & Hfind).
  unfold assign. rewrite Hfind.
  destruct (find (development_build E) vm w' this key) as [[|d]|];
    try by apply same_but_warnings_write_own.
  destruct (set d) as [|sk k|fn|k]; cbn [run_setter]; try done.
  - rewrite Hread. destruct (read w' (VObject this) sk); try done.
    by apply same_but_warnings_write_own.
  - by apply same_but_warnings_emit.
  - by apply same_but_warnings_emit.
Qed.

Lemma same_but_warnings_initMethods_key props methods key w w' :
  same_but_warnings w w' →
  same_but_warnings (initMethods_key (production_build E) vm props methods key w)
                    (initMethods_key (development_build E) vm props methods key w').
Proof.
  intros H. unfold initMethods_key.
  cbn [production production_build development_build with_production negb].
  set (w1 := if in_vm (development_build E) vm _ key && isReserved (development_build E) key
             then _ else _).
  assert (same_but_warnings w w1) as H1.
  { unfold w1. by do 3 apply same_but_warnings_warn_if. }
  clearbody w1.
  destruct (same_but_warnings_reads w w1 H1) as (Hread & _).
  rewrite Hread. by apply same_but_warnings_assign.
Qed.

Lemma same_but_warnings_initData_key props methods key w w' :
  same_but_warnings w w' →
  same_but_warnings (initData_key (production_build E) vm props methods key w)
                    (initData_key (development_build E) vm props methods key w').
Proof.
  intros H. unfold initData_key.
  cbn [production production_build development_build with_production negb isReserved].
  set (w1 := if truthy methods && hasOwn w' methods key then _ else _).
  assert (same_but_warnings w w1) as H1 by (by apply same_but_warnings_warn_if).
  clearbody w1.
  destruct (same_but_warnings_reads w w1 H1) as (_ & Hhas & _).
  rewrite Hhas.
  destruct (truthy props && hasOwn w1 props key); [by apply same_but_warnings_warn_r|].
  destruct (isReserved E key); cbn [negb]; [done|].
  by apply same_but_warnings_proxy.
Qed.

Lemma same_but_warnings_initData_from ks props methods i : ∀ w w',
  same_but_warnings w w' →
  same_but_warnings (initData_from (production_build E) vm ks props methods i w)
                    (initData_from (development_build E) vm ks props methods i w').
Proof.
  induction i as [|i IH]; intros w w' H; [done|]. cbn [initData_from].
  destruct (ks !! i); [|done]. by apply IH, same_but_warnings_initData_key.
Qed.

(** X20: from the same state, the production build and the development build
    of [initMethods] and of [initData] end with the same objects, the same
    shared descriptor and the same calls of outside code, but for the
    warnings. *)
Theorem data_and_methods_differ_between_builds_only_in_warnings (w : World)
    (methods : Value) :
  same_but_warnings (initMethods (production_build E) vm methods w)
                    (initMethods (development_build E) vm methods w) ∧
  same_but_warnings (initData (production_build E) vm w) (initData (development_build E) vm w).
Proof.
  split.
  - unfold initMethods.
    generalize (read w (read w (VObject vm) "$options") "props"). intros props.
    generalize (keys w methods). intros l.
    assert (∀ w w', same_but_warnings w w' →
      same_but_warnings
        (foldl (λ w key, initMethods_key (production_build E) vm props methods key w) w l)
        (foldl (λ w key, initMethods_key (development_build E) vm props methods key w) w' l))
      as Hfold.
    { induction l as [|k l IH]; intros w1 w2 H; [done|]. cbn [foldl].
      by apply IH, same_but_warnings_initMethods_key. }
    apply Hfold, same_but_warnings_refl.
  - unfold initData.
    set (data := read w (read w (VObject vm) "$options") "data").
    set (first_d := match data with VFunction f => getData (development_build E) f w | _ => _ end).
    set (first_p := match data with VFunction f => getData (production_build E) f w | _ => _ end).
    assert (first_p = first_d) as -> by (unfold first_p, first_d; by destruct data).
    destruct first_d as [d w0].
    pose proof (same_but_warnings_assign vm "_data" d w0 w0 (same_but_warnings_refl w0)) as H1.
    set (w1p := assign (production_build E) vm vm "_data" d w0) in *.
    set (w1d := assign (development_build E) vm vm "_data" d w0) in *.
    clearbody w1p w1d.
    cbn [production production_build development_build with_production negb].
    destruct (isPlainObject d); cbn [negb].
    + destruct (same_but_warnings_reads w1p w1d H1) as (Hread & _ & Hkeys & _).
      rewrite !Hread, Hkeys.
      by apply same_but_warnings_emit, same_but_warnings_initData_from.
    + unfold alloc.
      assert (length (heap w1p) = length (heap w1d)) as Hlen by (by destruct H1 as [-> _]).
      assert (heap w1p = heap w1d) as Hh by apply H1.
      rewrite Hlen, Hh.
      set (w2p := set_heap _ w1p). set (w2d := warn _ (set_heap _ w1d)).
      assert (same_but_warnings w2p w2d) as H2
        by (by apply same_but_warnings_warn_r, same_but_warnings_set_heap).
      clearbody w2p w2d.
      destruct (same_but_warnings_reads w2p w2d H2) as (Hread & _ & Hkeys & _).
      rewrite !Hread, Hkeys.
      by apply same_but_warnings_emit, same_but_warnings_initData_from.
Qed.

End Builds.

Section Computed.
Import StateJs.
Context (E : Env) (vm : Ref).

Lemma defineComputed_spec target key userDef w :
  match defineComputed E target key userDef w with
  | Ok _ w' =>
      (userDef ≠ VUndefined ∧ userDef ≠ VNull) ∧
      ∃ d, w' = write_own target key (Accessor d) (set_shared d w) ∧
           enumerable d = enumerable (sharedPropertyDefinition w) ∧
           configurable d = configurable (sharedPropertyDefinition w) ∧
           set d = (if bool_decide (declared_setter w userDef = VFunction Noop)
                    then if production E then SetNoop else NoSetterWarning key
                    else UserSetter (declared_setter w userDef))
  | Throws e w' => e = "TypeError" ∧ w' = w ∧ (userDef = VUndefined ∨ userDef = VNull)
  | OutOfFuel => False
  end.
Proof.
  unfold defineComputed, declared_setter.
  destruct (is_function userDef) eqn:Hf.
  - cbn [bind]. split; [by destruct userDef|].
    rewrite bool_decide_true by done.
    destruct (production E); cbn; eexists; (split; [reflexivity|done]).
  - destruct (member w userDef "get") as [g|] eqn:Hg.
    2:{ cbn [bind]. destruct userDef; try done; auto. }
    cbn [bind]. split; [by destruct userDef|].
    set (st := or_else _ _).
    set (gt := if truthy g then _ else GetNoop).
    assert (setter_of st = SetNoop ↔ st = VFunction Noop) as Hs
      by (destruct st as [| | | | |[]| | |]; cbn; split; congruence).
    destruct (decide (st = VFunction Noop)) as [Heq|Hne].
    + rewrite (bool_decide_true (st = VFunction Noop)) by done.
      assert (setter_of st = SetNoop) as Hs' by (by apply Hs).
      destruct (production E); cbn; rewrite Hs'; cbn;
        eexists; (split; [reflexivity|done]).
    + rewrite (bool_decide_false (st = VFunction Noop)) by done.
      assert (setter_of st ≠ SetNoop) as Hs' by (by rewrite Hs).
      assert (setter_of st = UserSetter st) as Hu
        by (destruct st as [| | | | |[]| | |]; cbn in *; congruence).
      cbn. rewrite (bool_decide_false (setter_of st = SetNoop)) by done.
      rewrite andb_false_r. eexists. by (split; [reflexivity|]).
Qed.


(** One turn of the loop of [initComputed], in either outcome. *)
Lemma initComputed_key_spec watchers computed key w :
  watchers ≠ vm →
  match initComputed_key E vm watchers computed key w with
  | OutOfFuel => False
  | Throws e w' =>
      e = "TypeError" ∧ (∀ k, own w' vm k = own w vm k)
  | Ok _ w' =>
      (∀ k, k ≠ key ∨ in_vm E vm w key = true → own w' vm k = own w vm k) ∧
      (∀ k, k ≠ key → own w' watchers k = own w watchers k) ∧
      (is_object w watchers →
       own w' watchers key =
         if isServerRendering E then own w watchers key
         else Some (Data (VWatcher (nwatchers w)))) ∧
      (is_object w watchers → is_object w' watchers) ∧
      nwatchers w' = (nwatchers w + if isServerRendering E then 0 else 1)%nat ∧
      watchers_in (trace w') =
        watchers_in (trace w)
        ++ (if isServerRendering E then [] else [(nwatchers w, computedWatcherOptions)])
  end.
Proof.
  intros Hne. unfold initComputed_key.
  set (userDef := read w computed key).
  destruct (if is_function userDef then Some userDef else member w userDef "get")
    as [getter|] eqn:Hgetter; [|done].
  set (w1 := if negb (production E) && _ then _ else w).
  destruct (maybe_warn_fields
              (negb (production E)
               && negb (bool_decide (getter ≠ VUndefined ∧ getter ≠ VNull)))
              (getter_missing_warning key) w) as (Hh1 & Hs1 & Hn1 & Ht1).
  fold w1 in Hh1, Hs1, Hn1, Ht1. clearbody w1.
  assert (watchers_in (trace w1) = watchers_in (trace w)) as Hw1.
  { rewrite Ht1. unfold watchers_in. rewrite omap_app.
    destruct (_ && _); cbn; by rewrite app_nil_r. }
  destruct (same_heap w w1 Hh1) as (Hown1 & _ & _ & Hobj1).
  set (w2 := if negb (isServerRendering E) then _ else w1).
  assert ((∀ k, own w2 vm k = own w vm k) ∧
          (∀ k, k ≠ key → own w2 watchers k = own w watchers k) ∧
          (is_object w watchers →
           own w2 watchers key =
             if isServerRendering E then own w watchers key
             else Some (Data (VWatcher (nwatchers w)))) ∧
          (is_object w watchers → is_object w2 watchers) ∧
          nwatchers w2 = (nwatchers w + if isServerRendering E then 0 else 1)%nat ∧
          watchers_in (trace w2) =
            watchers_in (trace w)
            ++ (if isServerRendering E then [] else [(nwatchers w, computedWatcherOptions)]))
    as (Hvm2 & Hoth2 & Hkey2 & Hobj2 & Hn2 & Ht2).
  { unfold w2. destruct (isServerRendering E); cbn [negb].
    - rewrite app_nil_r, Nat.add_0_r. repeat split; auto.
    - unfold newWatcher.
      set (w1' := emit _ _).
      assert (heap w1' = heap w1) as Hh' by done.
      destruct (same_heap w1 w1' Hh') as (Hown' & _ & _ & Hobj').
      split; [intros k; by rewrite own_write_own_ne, Hown', Hown1 by (by left)|].
      split; [intros k Hk; by rewrite own_write_own_ne, Hown', Hown1 by (by right)|].
      split; [intros Hw; rewrite own_write_own by auto; by rewrite Hn1|].
      split; [intros Hw; apply is_object_write_own; auto|].
      split; [cbn; lia|].
      change (trace (write_own watchers key (Data (VWatcher (nwatchers w1))) w1'))
        with (trace w1 ++ [NewWatcher (nwatchers w1) (or_else getter (VFunction Noop))
                             (VFunction Noop) computedWatcherOptions]).
      unfold watchers_in in *. by rewrite omap_app, Hw1, Hn1. }
  clearbody w2.
  assert (in_vm E vm w2 key = in_vm E vm w key) as Hin
    by (unfold in_vm, find; by rewrite Hvm2).
  rewrite Hin. destruct (in_vm E vm w key) eqn:Hinvm; cbn [negb].
  - assert (match (if negb (production E) then computed_clash E vm key w2 else Ok tt w2) with
            | Ok _ w' | Throws _ w' => heap w' = heap w2 ∧ nwatchers w' = nwatchers w2 ∧
                                       watchers_in (trace w') = watchers_in (trace w2)
            | OutOfFuel => False
            end ∧
            ∀ e w', (if negb (production E) then computed_clash E vm key w2 else Ok tt w2)
                    = Throws e w' → e = "TypeError") as [Hclash Herr].
    { destruct (production E); cbn [negb]; [done|]. unfold computed_clash.
      assert (∀ msg, watchers_in (trace (warn msg w2)) = watchers_in (trace w2)) as Hwarn.
      { intros msg. cbn. unfold watchers_in. rewrite omap_app. cbn. by rewrite app_nil_r. }
      destruct (in_object E w2 (read w2 (VObject vm) "_data") key) as [[]|];
        [by split| |split; [done|congruence]].
      destruct (and_in E w2 _ key) as [[]|]; [by split| |split; [done|congruence]].
      destruct (and_in E w2 _ key) as [[]|]; [by split|by split|split; [done|congruence]]. }
    destruct (if negb (production E) then computed_clash E vm key w2 else Ok tt w2)
      as [[] w3|e w3|]; [| |done].
    + destruct Hclash as (Hh3 & Hn3 & Ht3).
      destruct (same_heap w2 w3 Hh3) as (Hown3 & _ & _ & Hobj3).
      split; [intros k _; by rewrite Hown3|].
      split; [intros k Hk; rewrite Hown3; auto|].
      split; [intros Hw; rewrite Hown3; auto|].
      split; [auto|]. split; congruence.
    + destruct Hclash as (Hh3 & _).
      destruct (same_heap w2 w3 Hh3) as (Hown3 & _).
      split; [by eapply Herr|]. intros k. by rewrite Hown3.
  - pose proof (defineComputed_spec vm key userDef w2) as Hdef.
    destruct (defineComputed E vm key userDef w2) as [[] w3|e w3|]; [| |done].
    + destruct Hdef as (_ & d & -> & _).
      split; [intros k [Hk|?]; [|done]; rewrite own_write_own_ne by (by right); apply Hvm2|].
      split; [intros k Hk; rewrite own_write_own_ne by (by left); by apply Hoth2|].
      split; [intros Hw; rewrite own_write_own_ne by (by left); by apply Hkey2|].
      split; [intros Hw; apply is_object_write_own; by apply Hobj2|].
      split; [done|done].
    + destruct Hdef as (-> & -> & _). by split.
Qed.

(** The turn for a key that [vm] does not have, declared with a function or
    an object. *)
Lemma initComputed_key_defines watchers computed key w :
  watchers ≠ vm → is_object w vm →
  read w computed key ≠ VUndefined → read w computed key ≠ VNull →
  in_vm E vm w key = false →
  ∃ w', initComputed_key E vm watchers computed key w = Ok tt w' ∧
        (∃ d, own w' vm key = Some (Accessor d)) ∧
        is_object w' vm ∧
        (∀ r, r ≠ vm → r ≠ watchers → heap w' !! r = heap w !! r).
Proof.
  intros Hne Hvm Hu Hn Hin. unfold initComputed_key.
  set (userDef := read w computed key) in *.
  destruct (if is_function userDef then Some userDef else member w userDef "get")
    as [getter|] eqn:Hgetter.
  2:{ destruct userDef; done. }
  set (w1 := if negb (production E) && _ then _ else w).
  destruct (maybe_warn_fields
              (negb (production E)
               && negb (bool_decide (getter ≠ VUndefined ∧ getter ≠ VNull)))
              (getter_missing_warning key) w) as (Hh1 & _).
  fold w1 in Hh1. clearbody w1.
  set (w2 := if negb (isServerRendering E) then _ else w1).
  assert ((∀ k, own w2 vm k = own w vm k) ∧ is_object w2 vm ∧
          (∀ r, r ≠ watchers → heap w2 !! r = heap w !! r)) as (Hvm2 & Hobj2 & Hh2).
  { destruct (same_heap w w1 Hh1) as (Hown1 & _ & _ & Hobj1).
    unfold w2. destruct (isServerRendering E); cbn [negb].
    - split; [done|]. split; [auto|]. intros r _. by rewrite Hh1.
    - unfold newWatcher. set (w1' := emit _ _).
      assert (heap w1' = heap w1) as Hh' by done.
      destruct (same_heap w1 w1' Hh') as (Hown' & _ & _ & Hobj').
      split; [intros k; by rewrite own_write_own_ne, Hown', Hown1 by (by left)|].
      split; [apply is_object_write_own; auto|].
      intros r Hr. by rewrite heap_write_own_ne, Hh', Hh1. }
  clearbody w2.
  assert (in_vm E vm w2 key = false) as ->
    by (unfold in_vm, find in *; by rewrite Hvm2).
  cbn [negb].
  pose proof (defineComputed_spec vm key userDef w2) as Hdef.
  destruct (defineComputed E vm key userDef w2) as [[] w3|e w3|]; [| |done].
  - destruct Hdef as (_ & d & -> & _). eexists. split; [reflexivity|].
    split; [exists d; by apply own_write_own|].
    split; [by apply is_object_write_own|].
    intros r Hr Hw. rewrite heap_write_own_ne by done. by apply Hh2.
  - by destruct Hdef as (_ & _ & [?|?]).
Qed.

Lemma in_vm_own w w' key :
  own w' vm key = own w vm key → in_vm E vm w' key = in_vm E vm w key.
Proof. intros H. unfold in_vm, find. by rewrite H. Qed.

(** A key that [vm] has stays as it is through the loop. *)
Lemma initComputed_loop_keeps watchers computed key l : ∀ w,
  watchers ≠ vm → in_vm E vm w key = true →
  match for_each (initComputed_key E vm watchers computed) l w with
  | Ok _ w' => own w' vm key = own w vm key
  | Throws e w' => e = "TypeError" ∧ own w' vm key = own w vm key
  | OutOfFuel => False
  end.
Proof.
  induction l as [|k0 l IH]; intros w Hne Hin; [done|]. cbn [for_each].
  pose proof (initComputed_key_spec watchers computed k0 w Hne) as Hstep.
  destruct (initComputed_key E vm watchers computed k0 w) as [[] w1|e w1|]; [| |done].
  - destruct Hstep as (Hown & _). cbn [bind].
    assert (own w1 vm key = own w vm key) as Hkey.
    { apply Hown. destruct (decide (key = k0)) as [->|?]; auto. }
    specialize (IH w1 Hne). rewrite (in_vm_own w w1) in IH by done.
    specialize (IH Hin).
    destruct (for_each _ l w1) as [[] w2|e w2|]; [congruence| |done].
    destruct IH as [-> IH]. split; [done|congruence].
  - cbn [bind]. destruct Hstep as [-> Hown]. by split.
Qed.


(** The loop over keys that [vm] does not have. *)
Lemma initComputed_loop_defines watchers c l : ∀ w,
  watchers ≠ vm → c ≠ vm → c ≠ watchers →
  is_object w vm → is_object w watchers → NoDup l →
  (∀ k, k ∈ l → read w (VObject c) k ≠ VUndefined ∧ read w (VObject c) k ≠ VNull) →
  (∀ k, k ∈ l → in_vm E vm w k = false) →
  ∃ w', for_each (initComputed_key E vm watchers (VObject c)) l w = Ok tt w' ∧
    nwatchers w' = (nwatchers w + if isServerRendering E then 0 else length l)%nat ∧
    (∀ i k, l !! i = Some k →
       own w' watchers k =
         if isServerRendering E then own w watchers k
         else Some (Data (VWatcher (nwatchers w + i)))) ∧
    (∀ k, k ∉ l → own w' watchers k = own w watchers k) ∧
    watchers_in (trace w') =
      watchers_in (trace w)
      ++ (if isServerRendering E then []
          else imap (λ i _, ((nwatchers w + i)%nat, computedWatcherOptions)) l) ∧
    (∀ k, k ∈ l → ∃ d, own w' vm k = Some (Accessor d)) ∧
    (∀ k, k ∉ l → own w' vm k = own w vm k).
Proof.
  induction l as [|k0 l IH]; intros w Hne Hc Hcw Hvm Hw Hnd Hent Hfree.
  - exists w. cbn [for_each]. split; [done|].
    split; [destruct (isServerRendering E); cbn; lia|].
    split; [intros i k Hk; by rewrite lookup_nil in Hk|]. split; [done|].
    split; [destruct (isServerRendering E); cbn; by rewrite app_nil_r|].
    split; [intros k Hk; by apply elem_of_nil in Hk|done].
  - apply NoDup_cons in Hnd as [Hk0 Hnd]. cbn [for_each].
    destruct (Hent k0) as [Hu Hn]; [by left|].
    destruct (initComputed_key_defines watchers (VObject c) k0 w Hne Hvm Hu Hn)
      as (w1 & Hstep & [d0 Hd0] & Hvm1 & Hheap1); [apply Hfree; by left|].
    pose proof (initComputed_key_spec watchers (VObject c) k0 w Hne) as Hspec.
    rewrite Hstep in Hspec. rewrite Hstep. cbn [bind].
    destruct Hspec as (Hown1 & Hoth1 & Hkey1 & Hobj1 & Hn1 & Ht1).
    assert (∀ k, read w1 (VObject c) k = read w (VObject c) k) as Hread1.
    { intros k. unfold read, own, props_of. by rewrite Hheap1. }
    destruct (IH w1 Hne Hc Hcw Hvm1 (Hobj1 Hw) Hnd)
      as (w' & Hloop & Hn' & Hmap' & Hrest' & Ht' & Hacc' & Hvm').
    { intros k Hk. rewrite Hread1. apply Hent. by right. }
    { intros k Hk. rewrite (in_vm_own w w1); [apply Hfree; by right|].
      apply Hown1. left. by intros ->. }
    exists w'. split; [done|].
    split; [rewrite Hn', Hn1; destruct (isServerRendering E); cbn; lia|].
    split; [|split; [|split; [|split]]].
    + intros [|i] k Hk; cbn in Hk.
      * injection Hk as <-. rewrite Hrest' by done. rewrite Hkey1 by done.
        destruct (isServerRendering E); [done|]. by rewrite Nat.add_0_r.
      * rewrite (Hmap' i k Hk). apply list_elem_of_lookup_2 in Hk.
        rewrite Hoth1 by (by intros ->). rewrite Hn1.
        destruct (isServerRendering E); [done|]. do 3 f_equal. lia.
    + intros k Hk. apply not_elem_of_cons in Hk as [Hk Hkl].
      rewrite Hrest' by done. by apply Hoth1.
    + rewrite Ht', Ht1, Hn1. destruct (isServerRendering E); [by rewrite !app_nil_r|].
      rewrite <- app_assoc. f_equal. cbn [app imap]. rewrite Nat.add_0_r. f_equal.
      apply imap_ext. intros i k _. cbn. f_equal. lia.
    + intros k [->|Hk]%elem_of_cons.
      * exists d0. rewrite Hvm' by done. exact Hd0.
      * by apply Hacc'.
    + intros k Hk. apply not_elem_of_cons in Hk as [Hk Hkl].
      rewrite Hvm' by done. apply Hown1. by left.
Qed.


(** The turn for a key that [vm] has, when [vm._data] is not an object. *)
Lemma initComputed_key_on_a_key_of_vm watchers computed key v w :
  watchers ≠ vm → is_object w vm →
  read w computed key ≠ VUndefined → read w computed key ≠ VNull →
  in_vm E vm w key = true →
  own w vm "_data" = Some (Data v) → not_an_object v = true →
  if production E then
    ∃ w', initComputed_key E vm watchers computed key w = Ok tt w' ∧
          (∀ k, own w' vm k = own w vm k) ∧ is_object w' vm ∧
          (∀ r, r ≠ watchers → heap w' !! r = heap w !! r)
  else ∃ w', initComputed_key E vm watchers computed key w = Throws "TypeError" w'.
Proof.
  intros Hne Hvm Hu Hn Hin Hdata Hv. unfold initComputed_key.
  set (userDef := read w computed key) in *.
  destruct (if is_function userDef then Some userDef else member w userDef "get")
    as [getter|] eqn:Hgetter.
  2:{ destruct userDef; done. }
  set (w1 := if negb (production E) && _ then _ else w).
  destruct (maybe_warn_fields
              (negb (production E)
               && negb (bool_decide (getter ≠ VUndefined ∧ getter ≠ VNull)))
              (getter_missing_warning key) w) as (Hh1 & _).
  fold w1 in Hh1. clearbody w1.
  set (w2 := if negb (isServerRendering E) then _ else w1).
  assert ((∀ k, own w2 vm k = own w vm k) ∧ is_object w2 vm ∧
          (∀ r, r ≠ watchers → heap w2 !! r = heap w !! r)) as (Hvm2 & Hobj2 & Hh2).
  { destruct (same_heap w w1 Hh1) as (Hown1 & _ & _ & Hobj1).
    unfold w2. destruct (isServerRendering E); cbn [negb].
    - split; [done|]. split; [auto|]. intros r _. by rewrite Hh1.
    - unfold newWatcher. set (w1' := emit _ _).
      assert (heap w1' = heap w1) as Hh' by done.
      destruct (same_heap w1 w1' Hh') as (Hown' & _ & _ & Hobj').
      split; [intros k; by rewrite own_write_own_ne, Hown', Hown1 by (by left)|].
      split; [apply is_object_write_own; auto|].
      intros r Hr. by rewrite heap_write_own_ne, Hh', Hh1. }
  clearbody w2.
  assert (in_vm E vm w2 key = true) as ->
    by (rewrite (in_vm_own w w2); [done|apply Hvm2]).
  cbn [negb].
  destruct (production E); cbn [negb]; [by exists w2|].
  unfold computed_clash.
  assert (read w2 (VObject vm) "_data" = v) as ->
    by (unfold read; by rewrite Hvm2, Hdata).
  destruct v; try done; cbn [in_object]; by eexists.
Qed.

(** Whether the loop of [initComputed] throws, when [vm._data] is not an
    object. *)
Lemma initComputed_loop_outcome watchers c v l : ∀ w,
  watchers ≠ vm → c ≠ vm → c ≠ watchers → is_object w vm → NoDup l →
  (∀ k, k ∈ l → read w (VObject c) k ≠ VUndefined ∧ read w (VObject c) k ≠ VNull) →
  own w vm "_data" = Some (Data v) → not_an_object v = true →
  match for_each (initComputed_key E vm watchers (VObject c)) l w with
  | Ok _ _ => production E = true ∨ ∀ k, k ∈ l → in_vm E vm w k = false
  | Throws e _ =>
      e = "TypeError" ∧ production E = false ∧ ∃ k, k ∈ l ∧ in_vm E vm w k = true
  | OutOfFuel => False
  end.
Proof.
  induction l as [|k0 l IH]; intros w Hne Hc Hcw Hvm Hnd Hent Hdata Hv.
  - cbn [for_each]. right. intros k Hk. by apply elem_of_nil in Hk.
  - apply NoDup_cons in Hnd as [Hk0 Hnd]. cbn [for_each].
    destruct (Hent k0) as [Hu Hn]; [by left|].
    destruct (in_vm E vm w k0) eqn:Hin0.
    + pose proof (initComputed_key_on_a_key_of_vm watchers (VObject c) k0 v w
                    Hne Hvm Hu Hn Hin0 Hdata Hv) as Hstep.
      destruct (production E) eqn:Hprod.
      * destruct Hstep as (w1 & -> & Hown1 & Hvm1 & Hh1). cbn [bind].
        assert (∀ k, k ∈ l →
                  read w1 (VObject c) k ≠ VUndefined ∧ read w1 (VObject c) k ≠ VNull)
          as Hent1.
        { intros k Hk. unfold read, own, props_of. rewrite Hh1 by done.
          apply Hent. by right. }
        assert (own w1 vm "_data" = Some (Data v)) as Hdata1 by (by rewrite Hown1).
        specialize (IH w1 Hne Hc Hcw Hvm1 Hnd Hent1 Hdata1 Hv).
        destruct (for_each _ l w1) as [[] w2|e w2|]; [by left| |done].
        by destruct IH as (_ & [=] & _).
      * destruct Hstep as (w1 & ->). cbn [bind].
        split; [done|]. split; [done|]. exists k0. split; [by left|done].
    + destruct (initComputed_key_defines watchers (VObject c) k0 w Hne Hvm Hu Hn Hin0)
        as (w1 & Hstep & _ & Hvm1 & Hh1).
      pose proof (initComputed_key_spec watchers (VObject c) k0 w Hne) as Hspec.
      rewrite Hstep in Hspec. rewrite Hstep. cbn [bind].
      destruct Hspec as (Hown1 & _).
      assert (k0 ≠ "_data") as Hk0d.
      { intros ->. unfold in_vm, find in Hin0. rewrite Hdata in Hin0.
        by apply bool_decide_eq_false in Hin0 as []. }
      assert (∀ k, k ∈ l → in_vm E vm w1 k = in_vm E vm w k) as Hin1.
      { intros k Hk. apply in_vm_own, Hown1. left. by intros ->. }
      assert (∀ k, k ∈ l →
                read w1 (VObject c) k ≠ VUndefined ∧ read w1 (VObject c) k ≠ VNull)
        as Hent1.
      { intros k Hk. unfold read, own, props_of. rewrite Hh1 by done.
        apply Hent. by right. }
      assert (own w1 vm "_data" = Some (Data v)) as Hdata1
        by (by rewrite Hown1 by (by left)).
      specialize (IH w1 Hne Hc Hcw Hvm1 Hnd Hent1 Hdata1 Hv).
      destruct (for_each _ l w1) as [[] w2|e w2|]; [| |done].
      * destruct IH as [?|Hfree]; [by left|].
        right. intros k [->|Hk]%elem_of_cons; [done|]. rewrite <- Hin1 by done. by apply Hfree.
      * destruct IH as (-> & Hprod & k & Hk & Hink).
        split; [done|]. split; [done|]. exists k. split; [by right|].
        by rewrite <- Hin1.
Qed.


End Computed.

Section Watch.
Import StateJs.
Context (E : Env) (vm : Ref).

Lemma createWatcher_S n expOrFn handler options w :
  createWatcher E vm (S n) expOrFn handler options w =
  let '(handler, options) :=
    match handler with
    | VObject r => (read w handler "handler", Some r)
    | _ => (handler, options)
    end in
  let handler :=
    match handler with
    | VString name => Get E vm w vm name
    | _ => handler
    end in
  dollar_watch E vm n expOrFn handler options w.
Proof. done. Qed.

Lemma dollar_watch_S n expOrFn cb options w :
  dollar_watch E vm (S n) expOrFn cb options w =
  if isPlainObject cb then createWatcher E vm n expOrFn cb options w
  else
    let '(options, w) :=
      match options with
      | Some r => (r, w)
      | None => alloc (Plain []) w
      end in
    let w := write_own options "user" (Data (VBool true)) w in
    let '(watcher, w) := newWatcher expOrFn cb (props_of w options) w in
    let w :=
      if truthy (read w (VObject options) "immediate") then
        let info := immediate_info (watcher_expression E watcher) in
        let w := emit PushTarget w in
        let w := emit (InvokeWithErrorHandling cb (watcher_value E watcher) info) w in
        emit PopTarget w
      else w in
    Ok (VFunction (Unwatch watcher)) w.
Proof. done. Qed.

(** [$watch] with a callback that is not an object and options that are an
    object of the heap. *)
Lemma dollar_watch_with_options n expOrFn cb r w :
  isPlainObject cb = false → is_object w r →
  let options := update_key "user" (Data (VBool true)) (props_of w r) in
  ∃ w', dollar_watch E vm (S n) expOrFn cb (Some r) w
          = Ok (VFunction (Unwatch (nwatchers w))) w' ∧
    heap w' = <[r := Plain options]> (heap w) ∧
    sharedPropertyDefinition w' = sharedPropertyDefinition w ∧
    nwatchers w' = S (nwatchers w) ∧
    trace w' = trace w ++ NewWatcher (nwatchers w) expOrFn cb options
               :: (if truthy (read w (VObject r) "immediate")
                   then immediate_call E cb (nwatchers w) else []).
Proof.
  intros Hcb Hr. cbv zeta. rewrite dollar_watch_S, Hcb.
  set (w1 := write_own r "user" (Data (VBool true)) w).
  assert (props_of w1 r = update_key "user" (Data (VBool true)) (props_of w r)) as Hprops
    by (by apply props_of_write_own).
  unfold newWatcher. rewrite Hprops.
  set (w2 := emit _ _).
  assert (read w2 (VObject r) "immediate" = read w (VObject r) "immediate") as ->.
  { unfold read. change (own w2 r "immediate") with (own w1 r "immediate").
    unfold w1. by rewrite own_write_own_ne by (by right). }
  eexists. split; [reflexivity|].
  destruct (truthy (read w (VObject r) "immediate")); cbn; by rewrite <- ?app_assoc.
Qed.



(** [$watch] without options and with a callback that is not an object: the
    options are a new object. *)
Lemma dollar_watch_without_options n expOrFn cb w :
  isPlainObject cb = false →
  dollar_watch E vm (S n) expOrFn cb None w =
  Ok (VFunction (Unwatch (nwatchers w)))
     (mkWorld (heap w ++ [Plain user_options]) (sharedPropertyDefinition w)
        (S (nwatchers w))
        (trace w ++ [NewWatcher (nwatchers w) expOrFn cb user_options])).
Proof.
  intros Hcb. rewrite dollar_watch_S, Hcb. unfold alloc.
  set (w0 := set_heap _ w).
  assert (heap (write_own (length (heap w)) "user" (Data (VBool true)) w0)
          = heap w ++ [Plain user_options]) as Hheap.
  { unfold write_own, props_of, w0. cbn [heap set_heap].
    rewrite lookup_app_r, Nat.sub_diag by lia. cbn.
    rewrite insert_app_r_alt, Nat.sub_diag by lia. done. }
  assert (props_of (write_own (length (heap w)) "user" (Data (VBool true)) w0)
            (length (heap w)) = user_options) as Hprops.
  { unfold props_of at 1. rewrite Hheap, lookup_app_r, Nat.sub_diag by lia. done. }
  unfold newWatcher. rewrite Hprops.
  set (w2 := emit _ _).
  assert (read w2 (VObject (length (heap w))) "immediate" = VUndefined) as ->.
  { unfold read, own.
    change (props_of w2 (length (heap w)))
      with (props_of (write_own (length (heap w)) "user" (Data (VBool true)) w0)
              (length (heap w))).
    by rewrite Hprops. }
  cbn [truthy]. f_equal. unfold w2, emit, set_nwatchers. cbn. f_equal.
  exact Hheap.
Qed.

Lemma createWatcher_function n expOrFn f w :
  createWatcher E vm (S (S n)) expOrFn (VFunction f) None w =
  Ok (VFunction (Unwatch (nwatchers w)))
     (mkWorld (heap w ++ [Plain user_options]) (sharedPropertyDefinition w)
        (S (nwatchers w))
        (trace w ++ [NewWatcher (nwatchers w) expOrFn (VFunction f) user_options])).
Proof.
  rewrite createWatcher_S. cbv zeta beta iota. by apply dollar_watch_without_options.
Qed.

Lemma watch_handlers_loop n expOrFn hs : ∀ w,
  Forall (λ h, is_function h = true) hs →
  for_each (λ h w, bind (createWatcher E vm (S (S n)) expOrFn h None w) (λ _ w, Ok tt w))
    hs w =
  Ok tt (mkWorld (heap w ++ replicate (length hs) (Plain user_options))
           (sharedPropertyDefinition w) (nwatchers w + length hs)
           (trace w ++ imap (λ i h, NewWatcher (nwatchers w + i) expOrFn h user_options) hs)).
Proof.
  induction hs as [|h hs IH]; intros w Hfun.
  - cbn. rewrite !app_nil_r, Nat.add_0_r. by destruct w.
  - apply Forall_cons in Hfun as [Hh Hfun]. cbn [for_each].
    destruct h as [| | | | |f| | |]; try done.
    rewrite createWatcher_function. cbn [bind]. rewrite IH by done.
    cbn [heap sharedPropertyDefinition nwatchers trace length replicate imap].
    f_equal. rewrite <- !app_assoc. cbn [app].
    rewrite Nat.add_0_r. f_equal; [lia|]. do 2 f_equal.
    apply imap_ext. intros i x _. cbn. f_equal. lia.
Qed.

(** Creating watchers for function handlers leaves the declarations as they
    are. *)
Lemma handlers_of_extended w w' wo k m :
  is_object w wo → heap w' = heap w ++ replicate m (Plain user_options) →
  handlers_of w' (VObject wo) k = handlers_of w (VObject wo) k.
Proof.
  intros [ps Hps] Hh. unfold handlers_of.
  assert (read w' (VObject wo) k = read w (VObject wo) k) as ->.
  { unfold read, own, props_of. rewrite Hh, lookup_app_l; [done|].
    by eapply lookup_lt_Some. }
  destruct (read w (VObject wo) k) as [| | | | | | |a|]; try done.
  unfold elements. rewrite Hh.
  destruct (decide (a < length (heap w))%nat) as [Hlt|Hge].
  - by rewrite lookup_app_l.
  - rewrite lookup_app_r by lia. rewrite (lookup_ge_None_2 (heap w)) by lia.
    destruct (replicate m (Plain user_options) !! (a - length (heap w))%nat) as [c|] eqn:Hc;
      [|done].
    by apply lookup_replicate in Hc as [-> _].
Qed.

Lemma initWatch_key_handlers n watch key w :
  initWatch_key E vm n watch key w =
  for_each (λ h w, bind (createWatcher E vm n (VString key) h None w) (λ _ w, Ok tt w))
    (handlers_of w watch key) w.
Proof.
  unfold initWatch_key, handlers_of.
  destruct (read w watch key); try done; cbn [for_each];
    by destruct (createWatcher E vm n (VString key) _ None w).
Qed.

Lemma initWatch_loop n wo w0 ks : ∀ w m,
  is_object w0 wo → heap w = heap w0 ++ replicate m (Plain user_options) →
  (∀ k h, k ∈ ks → h ∈ handlers_of w0 (VObject wo) k → is_function h = true) →
  let declared := flat_map (λ k, (λ h, (k, h)) <$> handlers_of w0 (VObject wo) k) ks in
  for_each (initWatch_key E vm (S (S n)) (VObject wo)) ks w =
  Ok tt (mkWorld (heap w ++ replicate (length declared) (Plain user_options))
           (sharedPropertyDefinition w) (nwatchers w + length declared)
           (trace w ++ imap (λ i kh, NewWatcher (nwatchers w + i) (VString kh.1) kh.2
                                       user_options) declared)).
Proof.
  induction ks as [|k ks IH]; intros w m Hwo Hh Hfun; cbv zeta.
  - cbn. rewrite !app_nil_r, Nat.add_0_r. by destruct w.
  - cbn [for_each flat_map].
    rewrite initWatch_key_handlers, (handlers_of_extended w0 w wo k m) by done.
    set (hs := handlers_of w0 (VObject wo) k).
    rewrite watch_handlers_loop.
    2:{ apply Forall_forall. intros h Hin. apply (Hfun k h); [by left|done]. }
    cbn [bind].
    rewrite (IH _ (m + length hs)%nat); [|done| |].
    2:{ cbn [heap]. rewrite Hh, <- app_assoc. f_equal. by rewrite replicate_add. }
    2:{ intros k' h Hk' Hin. apply (Hfun k' h); [by right|done]. }
    cbn [heap sharedPropertyDefinition nwatchers trace].
    rewrite length_app, length_fmap. fold hs.
    f_equal. f_equal.
    + by rewrite <- app_assoc, replicate_add.
    + lia.
    + rewrite <- app_assoc. f_equal. rewrite imap_app, imap_fmap. f_equal.
      apply imap_ext. intros i x _. cbn. rewrite length_fmap. f_equal. lia.
Qed.



End Watch.

Section InitProps.
Import StateJs.
Context (E : Env) (vm : Ref).

Lemma initProps_key_spec props karr key vs w :
  props ≠ vm → karr ≠ vm → karr ≠ props →
  is_object w vm → is_object w props → heap w !! karr = Some (Elements vs) →
  let w' := initProps_key E vm props karr key w in
  heap w' !! karr = Some (Elements (vs ++ [VString key])) ∧
  own w' props key = Some (Data (validateProp E key)) ∧
  (∀ k, k ≠ key → own w' props k = own w props k) ∧
  own w' vm key =
    (if in_vm E vm w key then own w vm key
     else Some (proxy_property (sharedPropertyDefinition w) "_props" key)) ∧
  (∀ k, k ≠ key → own w' vm k = own w vm k) ∧
  (∀ r, r ≠ vm → r ≠ props → r ≠ karr → heap w' !! r = heap w !! r) ∧
  is_object w' vm ∧ is_object w' props ∧
  trace w' = trace w ++ initProps_events E props key ∧
  enumerable (sharedPropertyDefinition w') = enumerable (sharedPropertyDefinition w) ∧
  configurable (sharedPropertyDefinition w') = configurable (sharedPropertyDefinition w).
Proof.
  intros Hpv Hkv Hkp Hvm Hprops Hkarr. cbv zeta. unfold initProps_key.
  set (w1 := push karr (VString key) w).
  assert (heap w1 = <[karr := Elements (vs ++ [VString key])]> (heap w)) as Hh1
    by (unfold w1, push; by rewrite Hkarr).
  assert (trace w1 = trace w ∧ sharedPropertyDefinition w1 = sharedPropertyDefinition w)
    as [Ht1 Hs1] by (unfold w1, push; by rewrite Hkarr).
  clearbody w1.
  assert (∀ r, r ≠ karr → heap w1 !! r = heap w !! r) as Hoth1
    by (intros r Hr; by rewrite Hh1, list_lookup_insert_ne).
  assert (heap w1 !! karr = Some (Elements (vs ++ [VString key]))) as Hk1.
  { rewrite Hh1. apply list_lookup_insert_eq. by eapply lookup_lt_Some. }
  assert (∀ r k, r ≠ karr → own w1 r k = own w r k) as Hown1
    by (intros r k Hr; unfold own, props_of; by rewrite Hoth1).
  assert (is_object w1 vm ∧ is_object w1 props) as [Hvm1 Hprops1].
  { split; [destruct Hvm as [ps Hps]|destruct Hprops as [ps Hps]]; exists ps;
      by rewrite Hoth1. }
  set (w2 := if negb (production E) then _ else _).
  assert (∃ w1', heap w1' = heap w1 ∧
            sharedPropertyDefinition w1' = sharedPropertyDefinition w1 ∧
            w2 = emit (DefineReactive props key (validateProp E key) (negb (production E)))
                   (write_own props key (Data (validateProp E key)) w1') ∧
            trace w1' = trace w1 ++
              (if negb (production E)
                  && (isReservedAttribute E (hyphenate E key)
                      || config_isReservedAttr E (hyphenate E key))
               then [Warn (reserved_prop_warning (hyphenate E key))] else []))
    as (w1' & Hh1' & Hs1' & -> & Ht1').
  { unfold w2, defineReactive. destruct (production E); cbn [negb andb].
    - exists w1. by rewrite app_nil_r.
    - set (b := isReservedAttribute E _ || _).
      exists (if b then warn (reserved_prop_warning (hyphenate E key)) w1 else w1).
      destruct b; cbn; by rewrite ?app_nil_r. }
  set (w2 := emit _ (write_own props key (Data (validateProp E key)) w1')).
  assert (is_object w1' props) as Hprops1' by (destruct Hprops1 as [ps ?]; exists ps; congruence).
  assert (∀ r k, own w1' r k = own w1 r k) as Hown1'
    by (intros; unfold own, props_of; by rewrite Hh1').
  assert (∀ r k, r ≠ props ∨ k ≠ key → own w2 r k = own w1 r k) as Hown2.
  { intros r k H. change (own w2 r k)
      with (own (write_own props key (Data (validateProp E key)) w1') r k).
    by rewrite own_write_own_ne, Hown1'. }
  assert (own w2 props key = Some (Data (validateProp E key))) as Hkey2
    by (by apply (own_write_own props key _ w1')).
  assert (∀ r, r ≠ props → heap w2 !! r = heap w1 !! r) as Hoth2.
  { intros r Hr. change (heap w2)
      with (heap (write_own props key (Data (validateProp E key)) w1')).
    by rewrite heap_write_own_ne, Hh1'. }
  assert (is_object w2 vm ∧ is_object w2 props) as [Hvm2 Hprops2].
  { split; [destruct Hvm1 as [ps Hps]; exists ps; by rewrite Hoth2|].
    by apply (is_object_write_own props props key _ w1'). }
  assert (trace w2 = trace w ++ initProps_events E props key) as Ht2.
  { unfold initProps_events. change (trace w2)
      with (trace w1' ++ [DefineReactive props key (validateProp E key) (negb (production E))]).
    by rewrite Ht1', Ht1, <- app_assoc. }
  assert (sharedPropertyDefinition w2 = sharedPropertyDefinition w) as Hs2
    by (change (sharedPropertyDefinition w2) with (sharedPropertyDefinition w1'); congruence).
  clearbody w2.
  assert (in_vm E vm w2 key = in_vm E vm w key) as ->.
  { apply in_vm_own. rewrite Hown2 by (by left). by apply Hown1. }
  destruct (in_vm E vm w key); cbn [negb].
  - split; [by rewrite Hoth2|]. split; [done|].
    split; [intros k Hk; by rewrite Hown2, Hown1 by (done || by right)|].
    split; [by rewrite Hown2, Hown1 by (done || by left)|].
    split; [intros k Hk; by rewrite Hown2, Hown1 by (done || by left)|].
    split; [intros r ? ? ?; by rewrite Hoth2, Hoth1|].
    split; [done|]. split; [done|]. split; [done|]. by rewrite Hs2.
  - destruct (proxy_spec vm "_props" key w2)
      as (Hown & Hother & Hheap & Hobj & Htr & _ & Hen & Hco).
    split; [by rewrite Hheap, Hoth2|].
    split; [by rewrite Hother by (by left)|].
    split; [intros k Hk; rewrite Hother by (by left);
            by rewrite Hown2, Hown1 by (done || by right)|].
    split; [rewrite Hown by done; by rewrite Hs2|].
    split; [intros k Hk; rewrite Hother by (by right);
            by rewrite Hown2, Hown1 by (done || by left)|].
    split; [intros r ? ? ?; by rewrite Hheap, Hoth2, Hoth1|].
    split; [auto|]. split; [auto|]. split; [congruence|]. split; congruence.
Qed.

Lemma initProps_fold props karr l : ∀ vs w,
  props ≠ vm → karr ≠ vm → karr ≠ props →
  is_object w vm → is_object w props → heap w !! karr = Some (Elements vs) → NoDup l →
  let w' := foldl (λ w key, initProps_key E vm props karr key w) w l in
  heap w' !! karr = Some (Elements (vs ++ (VString <$> l))) ∧
  (∀ k, own w' props k =
     if bool_decide (k ∈ l) then Some (Data (validateProp E k)) else own w props k) ∧
  (∀ k, own w' vm k =
     if bool_decide (k ∈ l) && negb (in_vm E vm w k)
     then Some (proxy_property (sharedPropertyDefinition w) "_props" k)
     else own w vm k) ∧
  (∀ r, r ≠ vm → r ≠ props → r ≠ karr → heap w' !! r = heap w !! r) ∧
  trace w' = trace w ++ flat_map (initProps_events E props) l ∧
  enumerable (sharedPropertyDefinition w') = enumerable (sharedPropertyDefinition w) ∧
  configurable (sharedPropertyDefinition w') = configurable (sharedPropertyDefinition w).
Proof.
  induction l as [|k0 l IH]; intros vs w Hpv Hkv Hkp Hvm Hprops Hkarr Hnd; cbv zeta.
  - cbn [foldl fmap list_fmap flat_map]. rewrite !app_nil_r. by repeat split.
  - apply NoDup_cons in Hnd as [Hk0 Hnd]. cbn [foldl].
    destruct (initProps_key_spec props karr k0 vs w Hpv Hkv Hkp Hvm Hprops Hkarr)
      as (Hk1 & Hp1 & Hpo1 & Hv1 & Hvo1 & Hh1 & Hvm1 & Hprops1 & Ht1 & Hen1 & Hco1).
    set (w1 := initProps_key E vm props karr k0 w) in *.
    destruct (IH (vs ++ [VString k0]) w1 Hpv Hkv Hkp Hvm1 Hprops1 Hk1 Hnd)
      as (Hk & Hp & Hv & Hh & Ht & Hen & Hco).
    set (w' := foldl _ w1 l) in *.
    assert (∀ k, bool_decide (k ∈ k0 :: l) = bool_decide (k = k0) || bool_decide (k ∈ l))
      as Hin.
    { intros k. destruct (decide (k = k0)) as [->|Hne].
      - by rewrite !bool_decide_true by (done || left).
      - rewrite (bool_decide_false (k = k0)) by done. cbn [orb].
        apply bool_decide_ext. rewrite elem_of_cons. split; [by intros [?|?]|by right]. }
    split; [by rewrite Hk, fmap_cons, <- app_assoc|].
    split; [|split; [|split; [|split; [|split; congruence]]]].
    + intros k. rewrite Hp, Hin. destruct (decide (k = k0)) as [->|Hne].
      * rewrite (bool_decide_false (k0 ∈ l)), bool_decide_true by done. by cbn.
      * rewrite (bool_decide_false (k = k0)) by done. cbn [orb]. by rewrite Hpo1.
    + intros k. rewrite Hv, Hin.
      rewrite (proxy_property_flags (sharedPropertyDefinition w)) by done.
      destruct (decide (k = k0)) as [->|Hne].
      * rewrite (bool_decide_false (k0 ∈ l)), bool_decide_true by done. cbn [orb andb].
        rewrite Hv1. by destruct (in_vm E vm w k0).
      * rewrite (bool_decide_false (k = k0)) by done. cbn [orb].
        rewrite (in_vm_own E vm w w1) by (by apply Hvo1). by rewrite Hvo1.
    + intros r ? ? ?. by rewrite Hh, Hh1.
    + rewrite Ht, Ht1. cbn [flat_map]. by rewrite <- app_assoc.
Qed.

Lemma initProps_spec (w : World) (o po : Ref) :
  is_object w vm → is_object w o → is_object w po →
  o ≠ vm → po ≠ vm → po ≠ o →
  own w vm "$options" = Some (Data (VObject o)) →
  (∀ p, find E vm w vm "_props" ≠ Some (Accessor p)) →
  (∀ p, own w o "_propKeys" ≠ Some (Accessor p)) →
  NoDup (keys w (VObject po)) →
  let ks := keys w (VObject po) in
  let props :=
    (length (heap w) + if truthy (read w (VObject o) "propsData") then 0 else 1)%nat in
  let w' := initProps E vm (VObject po) w in
  (own w' vm "_props" = Some (Data (VObject props)) ∧
   elements w' (read w' (VObject o) "_propKeys") = VString <$> ks ∧
   (∀ k, k ∈ ks → read w' (VObject props) k = validateProp E k) ∧
   (∀ k, k ∈ ks → k ≠ "_props" → in_vm E vm w k = false →
      Get E vm w' vm k = validateProp E k) ∧
   (∀ k, k ≠ "_props" → k ∉ ks ∨ in_vm E vm w k = true → own w' vm k = own w vm k) ∧
   trace w' = trace w
              ++ (if truthy (read w (VObject vm) "$parent") then [ToggleObserving false]
                  else [])
              ++ flat_map (initProps_events E props) ks ++ [ToggleObserving true]) ∧
  (length (heap w) ≤ props)%nat ∧
  (∀ k, k ≠ "_props" →
     own w' vm k =
       if bool_decide (k ∈ ks) && negb (in_vm E vm w k)
       then Some (proxy_property (sharedPropertyDefinition w) "_props" k)
       else own w vm k) ∧
  (∀ r, (r < length (heap w))%nat → r ≠ vm → r ≠ o → heap w' !! r = heap w !! r) ∧
  (∀ k, k ≠ "_propKeys" → own w' o k = own w o k) ∧
  enumerable (sharedPropertyDefinition w') = enumerable (sharedPropertyDefinition w) ∧
  configurable (sharedPropertyDefinition w') = configurable (sharedPropertyDefinition w).
Proof.
  intros Hvm Ho Hpo Hov Hpv Hpo' Hopts Hacc Hacck Hnd. cbv zeta.
  assert (read w (VObject vm) "$options" = VObject o) as Hro
    by (unfold read; by rewrite Hopts).
  assert (vm < length (heap w))%nat as Hltv
    by (destruct Hvm as [ps Hps]; by eapply lookup_lt_Some).
  assert (o < length (heap w))%nat as Hlto
    by (destruct Ho as [ps Hps]; by eapply lookup_lt_Some).
  assert (po < length (heap w))%nat as Hltp
    by (destruct Hpo as [ps Hps]; by eapply lookup_lt_Some).
  pattern (initProps E vm (VObject po) w). set (P := λ w' : World, _).
  unfold initProps. rewrite Hro.
  set (first := if truthy (read w (VObject o) "propsData") then _ else _).
  set (extra := if truthy (read w (VObject o) "propsData") then 0%nat else 1%nat).
  assert (∃ wa, first.2 = wa ∧ heap wa = heap w ++ replicate extra (Plain []) ∧
            trace wa = trace w ∧
            sharedPropertyDefinition wa = sharedPropertyDefinition w)
    as (wa & Hfirst & Hha & Hta & Hsa).
  { unfold first, extra. destruct (truthy (read w (VObject o) "propsData")).
    - exists w. by rewrite app_nil_r.
    - eexists. split; [reflexivity|]. done. }
  destruct first as [propsData wa']. cbn in Hfirst. subst wa'. clear propsData.
  unfold alloc at 1.
  assert (length (heap wa) = length (heap w) + extra)%nat as Hlena
    by (by rewrite Hha, length_app, length_replicate).
  rewrite Hlena. set (props := (length (heap w) + extra)%nat).
  set (wb := set_heap (heap wa ++ [Plain []]) wa).
  assert (∀ r, (r < length (heap w))%nat → heap wb !! r = heap w !! r) as Hhb.
  { intros r Hr. unfold wb. cbn [heap set_heap].
    rewrite Hha, <- app_assoc. by rewrite lookup_app_l. }
  assert (heap wb !! props = Some (Plain [])) as Hpb.
  { unfold wb. cbn [heap set_heap]. rewrite lookup_app_r by lia.
    by rewrite Hlena, Nat.sub_diag. }
  assert (length (heap wb) = S props) as Hlenb
    by (unfold wb; cbn [heap set_heap]; rewrite length_app, Hlena; cbn; lia).
  assert (∀ k, own wb vm k = own w vm k) as Hownb
    by (intros k; unfold own, props_of; by rewrite Hhb).
  rewrite assign_data_property
    by (intros p; unfold find; rewrite Hownb; apply Hacc).
  set (wc := write_own vm "_props" (Data (VObject props)) wb).
  assert (is_object wb vm) as Hvmb
    by (destruct Hvm as [ps Hps]; exists ps; by rewrite Hhb).
  assert (length (heap wc) = S props) as Hlenc
    by (unfold wc; by rewrite heap_length_write_own).
  unfold alloc. rewrite Hlenc. set (karr := S props).
  set (wd := set_heap (heap wc ++ [Elements []]) wc).
  assert (∀ r, (r < S props)%nat → heap wd !! r = heap wc !! r) as Hhd.
  { intros r Hr. unfold wd. cbn [heap set_heap]. by rewrite lookup_app_l by lia. }
  assert (heap wd !! karr = Some (Elements [])) as Hkd.
  { unfold wd, karr. cbn [heap set_heap]. rewrite lookup_app_r by lia.
    by rewrite Hlenc, Nat.sub_diag. }
  assert (∀ k, own wd o k = own w o k) as Hownd.
  { intros k. unfold own, props_of. rewrite Hhd by (unfold props; lia).
    unfold wc. rewrite heap_write_own_ne by done. by rewrite Hhb. }
  rewrite assign_data_property.
  2:{ intros p. unfold find. rewrite Hownd, decide_False by done.
      destruct (own w o "_propKeys") as [q|] eqn:Hq; [|done].
      intros [= ->]. by apply (Hacck p). }
  set (we := write_own o "_propKeys" (Data (VArray karr)) wd).
  assert (∀ r, r ≠ o → heap we !! r = heap wd !! r) as Hhe
    by (intros r Hr; unfold we; by rewrite heap_write_own_ne).
  assert (∀ k, own we vm k = own wc vm k) as Hvme.
  { intros k. unfold own, props_of. rewrite Hhe, Hhd; [done|unfold props; lia|done]. }
  assert (is_object wc vm) as Hvmc by (by apply is_object_write_own).
  assert (own wc vm "_props" = Some (Data (VObject props))) as Hpropsc
    by (by apply own_write_own).
  assert (∀ k, k ≠ "_props" → own wc vm k = own w vm k) as Hvmc'.
  { intros k Hk. unfold wc. by rewrite own_write_own_ne, Hownb by (by right). }
  assert (read we (VObject vm) "$parent" = read w (VObject vm) "$parent") as ->.
  { unfold read. by rewrite Hvme, Hvmc'. }
  rewrite negb_involutive.
  set (wf := if truthy (read w (VObject vm) "$parent") then _ else we).
  assert (heap wf = heap we ∧
          sharedPropertyDefinition wf = sharedPropertyDefinition w ∧
          trace wf = trace w ++ (if truthy (read w (VObject vm) "$parent")
                                 then [ToggleObserving false] else [])) as (Hhf & Hsf & Htf).
  { unfold wf. destruct (truthy (read w (VObject vm) "$parent")); cbn;
      rewrite ?app_nil_r; by rewrite Hta. }
  clearbody wf.
  assert (keys wf (VObject po) = keys w (VObject po)) as ->.
  { unfold keys, props_of. rewrite Hhf, Hhe, Hhd by (done || unfold props; lia).
    unfold wc. rewrite heap_write_own_ne by done. by rewrite Hhb. }
  assert (is_object wf vm) as Hvmf.
  { destruct Hvmc as [ps Hps]. exists ps.
    rewrite Hhf, Hhe, Hhd; [done|unfold props; lia|done]. }
  assert (heap wf !! props = Some (Plain [])) as Hpf.
  { rewrite Hhf, Hhe, Hhd by (unfold props; lia).
    unfold wc. rewrite heap_write_own_ne by (unfold props; lia). done. }
  assert (heap wf !! karr = Some (Elements [])) as Hkf.
  { rewrite Hhf, Hhe by (unfold karr, props; lia). done. }
  destruct (initProps_fold props karr (keys w (VObject po)) [] wf)
    as (Hk & Hp & Hv & Hh & Ht & Hen & Hco); try done; try (unfold karr, props; lia).
  { by exists []. }
  set (wg := foldl _ wf _) in *.
  assert (∀ k, own wf vm k = own wc vm k) as Hvmf'.
  { intros k. rewrite <- Hvme. unfold own, props_of. by rewrite Hhf. }
  assert (in_vm E vm wf "_props" = true) as Hinp.
  { unfold in_vm, find. rewrite Hvmf', Hpropsc. by apply bool_decide_true. }
  assert (own wg vm "_props" = Some (Data (VObject props))) as Hpropsg.
  { rewrite Hv, Hinp. cbn [negb]. by rewrite andb_false_r, Hvmf'. }
  assert (∀ r k, own (emit (ToggleObserving true) wg) r k = own wg r k) as Hfin by done.
  subst P. cbv beta.
  assert (∀ k, k ≠ "_props" → in_vm E vm wf k = in_vm E vm w k) as Hinf'.
  { intros k Hk'. apply in_vm_own. by rewrite Hvmf', Hvmc'. }
  split; [|split; [unfold props; lia|split; [|split; [|split; [|split]]]]].
  2:{ intros k Hk'. rewrite Hfin, Hv, Hinf', Hvmf', Hvmc' by done.
      by rewrite (proxy_property_flags (sharedPropertyDefinition w)) by (by rewrite Hsf). }
  2:{ intros r Hr Hrv Hro'. change (heap (emit (ToggleObserving true) wg)) with (heap wg).
      rewrite Hh, Hhf, Hhe, Hhd by (done || unfold karr, props; lia).
      unfold wc. rewrite heap_write_own_ne by done. by apply Hhb. }
  2:{ intros k Hk'. rewrite Hfin.
      assert (own wg o k = own we o k) as ->.
      { unfold own, props_of. by rewrite Hh, Hhf by (done || unfold karr, props; lia). }
      unfold we. rewrite own_write_own_ne by (by right). apply Hownd. }
  2:{ change (sharedPropertyDefinition (emit (ToggleObserving true) wg))
        with (sharedPropertyDefinition wg). by rewrite Hen, Hsf. }
  2:{ change (sharedPropertyDefinition (emit (ToggleObserving true) wg))
        with (sharedPropertyDefinition wg). by rewrite Hco, Hsf. }
  split; [by rewrite Hfin|].
  split.
  { assert (read (emit (ToggleObserving true) wg) (VObject o) "_propKeys" = VArray karr)
      as ->.
    { unfold read. rewrite Hfin.
      assert (own wg o "_propKeys" = own we o "_propKeys") as ->.
      { unfold own, props_of. by rewrite Hh, Hhf by (done || unfold karr, props; lia). }
      unfold we. rewrite own_write_own; [done|].
      destruct Ho as [ps Hps]. exists ps. rewrite Hhd by (unfold props; lia).
      unfold wc. rewrite heap_write_own_ne by done. by rewrite Hhb. }
    unfold elements. change (heap (emit (ToggleObserving true) wg)) with (heap wg).
    unfold Ref in *. by rewrite Hk. }
  split.
  { intros k Hk'. unfold read. by rewrite Hfin, Hp, bool_decide_true. }
  split.
  { intros k Hk' Hne Hinv.
    assert (in_vm E vm wf k = false) as Hinf.
    { rewrite <- Hinv. apply in_vm_own. by rewrite Hvmf', Hvmc'. }
    unfold Get, find. rewrite Hfin, Hv, bool_decide_true, Hinf by done.
    cbn [negb andb proxy_property get run_getter].
    assert (read (emit (ToggleObserving true) wg) (VObject vm) "_props" = VObject props) as ->
      by (unfold read; by rewrite Hfin, Hpropsg).
    unfold read. by rewrite Hfin, Hp, bool_decide_true. }
  split.
  { intros k Hne Hcase. rewrite Hfin, Hv.
    assert (bool_decide (k ∈ keys w (VObject po)) && negb (in_vm E vm wf k) = false) as ->.
    { destruct Hcase as [Hk'|Hinv].
      - by rewrite bool_decide_false.
      - rewrite (in_vm_own E vm w wf), Hinv by (by rewrite Hvmf', Hvmc').
        by rewrite andb_false_r. }
    by rewrite Hvmf', Hvmc'. }
  change (trace (emit (ToggleObserving true) wg)) with (trace wg ++ [ToggleObserving true]).
  rewrite Ht, Htf. by rewrite <- !app_assoc.
Qed.

(** X27: [initProps] stores a new object as [vm._props], gives it the
    validated value of every key of the props options, caches the keys in
    order in [vm.$options._propKeys], and proxies on [vm] the keys that [vm]
    does not have, so that reading such a key from [vm] gives the validated
    value; a key that [vm] has (through its prototype, for one) is left as
    it is.  Observation is switched off first only when the instance has a
    parent, and is switched on at the end in every case. *)
Theorem initProps_proxies_the_props (w : World) (o po : Ref) :
  is_object w vm → is_object w o → is_object w po →
  o ≠ vm → po ≠ vm → po ≠ o →
  own w vm "$options" = Some (Data (VObject o)) →
  (∀ p, find E vm w vm "_props" ≠ Some (Accessor p)) →
  (∀ p, own w o "_propKeys" ≠ Some (Accessor p)) →
  NoDup (keys w (VObject po)) →
  let ks := keys w (VObject po) in
  let props :=
    (length (heap w) + if truthy (read w (VObject o) "propsData") then 0 else 1)%nat in
  let w' := initProps E vm (VObject po) w in
  own w' vm "_props" = Some (Data (VObject props)) ∧
  elements w' (read w' (VObject o) "_propKeys") = VString <$> ks ∧
  (∀ k, k ∈ ks → read w' (VObject props) k = validateProp E k) ∧
  (∀ k, k ∈ ks → k ≠ "_props" → in_vm E vm w k = false →
     Get E vm w' vm k = validateProp E k) ∧
  (∀ k, k ≠ "_props" → k ∉ ks ∨ in_vm E vm w k = true → own w' vm k = own w vm k) ∧
  trace w' = trace w
             ++ (if truthy (read w (VObject vm) "$parent") then [ToggleObserving false]
                 else [])
             ++ flat_map (initProps_events E props) ks ++ [ToggleObserving true].
Proof.
  intros Hvm Ho Hpo Hov Hpv Hpo' Hopts Hacc Hacck Hnd.
  apply (initProps_spec w o po); assumption.
Qed.

End InitProps.

Section InitState.
Import StateJs.
Context (E : Env) (vm : Ref).

Lemma own_Some_is_object w r k p : own w r k = Some p → is_object w r.
Proof.
  unfold own, props_of, is_object. destruct (heap w !! r) as [[ps|vs]|]; [eauto|done..].
Qed.

Lemma declared_in_keys w r k : declared_in w (VObject r) k = bool_decide (k ∈ keys w (VObject r)).
Proof.
  unfold declared_in, hasOwn, own, keys. cbn [truthy andb].
  apply bool_decide_ext, lookup_key_Some.
Qed.

(** X30: for a component that declares props, methods and data (and no
    computed property or watcher), under names that are not reserved and
    that the instance does not have, with no name both a prop and a method,
    [initState] returns and the instance then reads, under every prop key,
    the validated prop, also when the data object has the key; under every
    other key of the data object that is not reserved, the value of the data
    object, also when a method has the key; and under every method key
    that the data object does not have, the method bound to [vm] (or
    [noop]). *)
Theorem initState_lets_props_shadow_data_and_data_shadow_methods (w : World)
    (o po m d : Ref) (n : nat) :
  is_object w vm → is_object w o → is_object w po → is_object w m → is_object w d →
  o ≠ vm → po ≠ vm → m ≠ vm → d ≠ vm → po ≠ o → m ≠ o → d ≠ o →
  own w vm "$options" = Some (Data (VObject o)) →
  read w (VObject o) "props" = VObject po →
  read w (VObject o) "methods" = VObject m →
  data_source E (read w (VObject o) "data") = Some (VObject d) →
  truthy (read w (VObject o) "computed") = false →
  truthy (read w (VObject o) "watch") = false →
  (∀ p, own w o "_propKeys" ≠ Some (Accessor p)) →
  (∀ k, k ∈ ["_watchers"; "_props"; "_data"] →
     isReserved E k = true ∧ ∀ p, find E vm w vm k ≠ Some (Accessor p)) →
  NoDup (keys w (VObject po)) → NoDup (keys w (VObject m)) →
  (∀ k, k ∈ keys w (VObject po) → k ∉ keys w (VObject m)) →
  (∀ k, k ∈ keys w (VObject po) ∨ k ∈ keys w (VObject m) →
     isReserved E k = false ∧ in_vm E vm w k = false) →
  ∃ w', initState E vm n w = Ok tt w' ∧
    (∀ k, k ∈ keys w (VObject po) → Get E vm w' vm k = validateProp E k) ∧
    (∀ k, k ∈ keys w (VObject d) → k ∉ keys w (VObject po) → isReserved E k = false →
       Get E vm w' vm k = read w (VObject d) k) ∧
    (∀ k, k ∈ keys w (VObject m) → k ∉ keys w (VObject d) →
       Get E vm w' vm k = method_value (read w (VObject m) k)).
Proof.
  intros Hvm Ho Hpo Hm Hd Hov Hpv Hmv Hdv Hpo' Hmo Hdo Hopts Hprops Hmethods Hdata
    Hcomputed Hwatch Hpk Hspecial Hndp Hndm Hdisj Hdecl.
  assert (∀ r, is_object w r → (r < length (heap w))%nat) as Hlt
    by (intros r [ps Hps]; by eapply lookup_lt_Some).
  pose proof (Hlt _ Hvm) as Hltv. pose proof (Hlt _ Ho) as Hlto.
  pose proof (Hlt _ Hpo) as Hltp. pose proof (Hlt _ Hm) as Hltm.
  pose proof (Hlt _ Hd) as Hltd.
  destruct (Hspecial "_watchers") as [Hrw Haw]; [left|].
  destruct (Hspecial "_props") as [Hrp Hap]; [right; left|].
  destruct (Hspecial "_data") as [Hrd Had]; [right; right; left|].
  assert (∀ k, k ∈ keys w (VObject po) ∨ k ∈ keys w (VObject m) →
            k ≠ "_watchers" ∧ k ≠ "_props" ∧ k ≠ "_data" ∧ k ≠ "$options") as Hnames.
  { intros k Hk. destruct (Hdecl k Hk) as [Hr Hin].
    repeat split; intros ->; try congruence.
    unfold in_vm, find in Hin. rewrite Hopts in Hin. by apply bool_decide_eq_false in Hin as []. }
  (* the array of watchers *)
  set (w0 := assign E vm vm "_watchers" (VArray (length (heap w)))
               (set_heap (heap w ++ [Elements []]) w)).
  assert (w0 = write_own vm "_watchers" (Data (VArray (length (heap w))))
                 (set_heap (heap w ++ [Elements []]) w)) as Hw0.
  { unfold w0. apply assign_data_property. intros p. unfold find, own, props_of.
    cbn [heap set_heap]. rewrite lookup_app_l by done. apply Haw. }
  assert (∀ r, (r < length (heap w))%nat → r ≠ vm → heap w0 !! r = heap w !! r) as Hh0.
  { intros r Hr Hrv. rewrite Hw0, heap_write_own_ne by done. cbn [heap set_heap].
    by rewrite lookup_app_l. }
  assert (∀ k, k ≠ "_watchers" → own w0 vm k = own w vm k) as Hown0.
  { intros k Hk. rewrite Hw0, own_write_own_ne by (by right).
    unfold own, props_of. cbn [heap set_heap]. by rewrite lookup_app_l. }
  assert (is_object w0 vm) as Hvm0.
  { rewrite Hw0. apply is_object_write_own. destruct Hvm as [ps Hps]. exists ps.
    cbn [heap set_heap]. by rewrite lookup_app_l. }
  assert (length (heap w0) = S (length (heap w))) as Hlen0.
  { rewrite Hw0, heap_length_write_own. cbn [heap set_heap]. rewrite length_app. cbn. lia. }
  assert (sharedPropertyDefinition w0 = sharedPropertyDefinition w) as Hs0
    by (by rewrite Hw0).
  assert (∀ r k, (r < length (heap w))%nat → r ≠ vm → own w0 r k = own w r k) as Hoth0
    by (intros r k Hr Hrv; unfold own, props_of; by rewrite Hh0).
  assert (∀ r k, (r < length (heap w))%nat → r ≠ vm →
            read w0 (VObject r) k = read w (VObject r) k) as Hread0
    by (intros r k Hr Hrv; unfold read; by rewrite Hoth0).
  assert (∀ r, (r < length (heap w))%nat → r ≠ vm →
            keys w0 (VObject r) = keys w (VObject r))
    as Hkeys0 by (intros r Hr Hrv; unfold keys, props_of; by rewrite Hh0).
  assert (∀ k, k ≠ "_watchers" → in_vm E vm w0 k = in_vm E vm w k) as Hin0
    by (intros k Hk; apply in_vm_own; by apply Hown0).
  (* the props *)
  destruct (initProps_spec E vm w0 o po) as (_ & Hge1 & Hown1 & Hh1 & Ho1 & Hen1 & Hco1).
  { done. }
  { destruct Ho as [ps Hps]. exists ps. by rewrite Hh0. }
  { destruct Hpo as [ps Hps]. exists ps. by rewrite Hh0. }
  { done. } { done. } { done. }
  { by rewrite Hown0. }
  { intros p. unfold find. rewrite Hown0 by done. apply Hap. }
  { intros p. rewrite Hoth0 by done. apply Hpk. }
  { by rewrite Hkeys0. }
  destruct (initProps_spec E vm w0 o po) as ((Hp1 & _ & Hval1 & _) & _).
  { done. }
  { destruct Ho as [ps Hps]. exists ps. by rewrite Hh0. }
  { destruct Hpo as [ps Hps]. exists ps. by rewrite Hh0. }
  { done. } { done. } { done. }
  { by rewrite Hown0. }
  { intros p. unfold find. rewrite Hown0 by done. apply Hap. }
  { intros p. rewrite Hoth0 by done. apply Hpk. }
  { by rewrite Hkeys0. }
  rewrite Hkeys0 in Hown1, Hval1 by done.
  set (props1 := (length (heap w0) + _)%nat) in *.
  set (w1 := initProps E vm (VObject po) w0) in *.
  assert (is_object w1 vm) as Hvm1 by (by eapply own_Some_is_object).
  assert (∀ r k, (r < length (heap w))%nat → r ≠ vm → r ≠ o → own w1 r k = own w r k)
    as Hoth1.
  { intros r k Hr Hrv Hro. unfold own, props_of. rewrite Hh1, Hh0 by (done || lia). done. }
  assert (∀ k, k ≠ "_propKeys" → read w1 (VObject o) k = read w (VObject o) k) as Hro1.
  { intros k Hk. unfold read. by rewrite Ho1, Hoth0. }
  assert (∀ k, k ∈ keys w (VObject po) →
            own w1 vm k = Some (proxy_property (sharedPropertyDefinition w) "_props" k))
    as Hproxied1.
  { intros k Hk. destruct (Hnames k (or_introl Hk)) as (? & ? & ? & ?).
    destruct (Hdecl k (or_introl Hk)) as [_ Hin].
    rewrite Hown1, bool_decide_true, Hin0, Hin by done. cbn [negb andb]. by rewrite Hs0. }
  assert (∀ k, k ∉ keys w (VObject po) → k ≠ "_props" → k ≠ "_watchers" →
            own w1 vm k = own w vm k) as Hrest1.
  { intros k Hk ? ?. rewrite Hown1, bool_decide_false by done. cbn [andb]. by apply Hown0. }
  (* the methods *)
  destruct (initMethods_fold E vm (read w1 (read w1 (VObject vm) "$options") "props")
              (VObject m) (keys w (VObject m)) w1 Hvm1 Hndm) as (Hown2 & Hse2 & _ & Hvm2).
  { intros k p Hk. destruct (Hnames k (or_intror Hk)) as (? & ? & ? & ?).
    destruct (Hdecl k (or_intror Hk)) as [_ Hin].
    unfold find. rewrite Hrest1; [|intros Hk'; by apply (Hdisj k)|done..].
    unfold in_vm, find in Hin. apply bool_decide_eq_false in Hin.
    intros Heq. apply Hin. rewrite Heq. by eexists. }
  assert (keys w1 (VObject m) = keys w (VObject m)) as Hkm1.
  { unfold keys, props_of. by rewrite Hh1, Hh0 by (done || lia). }
  assert (initMethods E vm (VObject m) w1
          = foldl (λ w key, initMethods_key E vm
                              (read w1 (read w1 (VObject vm) "$options") "props")
                              (VObject m) key w) w1 (keys w (VObject m))) as Hinit2
    by (unfold initMethods; by rewrite Hkm1).
  set (w2 := foldl _ w1 (keys w (VObject m))) in *.
  assert (∀ r k, r ≠ vm → own w2 r k = own w1 r k) as Hoth2
    by (intros r k Hr; unfold own, props_of; by rewrite Hse2).
  assert (∀ k, read w1 (VObject m) k = read w (VObject m) k) as Hrm1
    by (intros k; unfold read; by rewrite Hoth1).
  (* the data *)
  assert (own w2 vm "$options" = Some (Data (VObject o))) as Hopts2.
  { rewrite Hown2, bool_decide_false.
    2:{ intros Hk. by destruct (Hnames _ (or_intror Hk)) as (_ & _ & _ & []). }
    rewrite Hrest1; [done| |done..].
    intros Hk. by destruct (Hnames _ (or_introl Hk)) as (_ & _ & _ & []). }
  assert (∀ k, k ≠ "_propKeys" → read w2 (VObject o) k = read w (VObject o) k) as Hro2.
  { intros k Hk. unfold read. rewrite Hoth2 by done. by apply Hro1. }
  destruct (initData_on_a_data_object E vm w2 o d)
    as (Hdata3 & Hown3 & Hget3 & Hse3 & _).
  { done. } { done. } { done. } { done. }
  { by rewrite Hro2. }
  { intros p. unfold find. rewrite Hown2, bool_decide_false.
    2:{ intros Hk. by destruct (Hnames _ (or_intror Hk)) as (_ & _ & [] & _). }
    rewrite Hrest1; [apply Had| |done..].
    intros Hk. by destruct (Hnames _ (or_introl Hk)) as (_ & _ & [] & _). }
  { done. }
  { rewrite Hro2, Hprops by done. congruence. }
  { rewrite Hro2, Hmethods by done. congruence. }
  rewrite !Hro2, Hprops in Hown3, Hget3 by done.
  set (w3 := initData E vm w2) in *.
  assert (∀ r k, r ≠ vm → own w3 r k = own w2 r k) as Hoth3
    by (intros r k Hr; unfold own, props_of; by rewrite Hse3).
  assert (∀ k, k ≠ "_propKeys" → read w3 (VObject o) k = read w (VObject o) k) as Hro3.
  { intros k Hk. unfold read. rewrite Hoth3 by done. by apply Hro2. }
  assert (keys w2 (VObject d) = keys w (VObject d)) as Hkd2.
  { unfold keys, props_of. by rewrite Hse2, Hh1, Hh0 by (done || lia). }
  assert (∀ k, declared_in w2 (VObject po) k = bool_decide (k ∈ keys w (VObject po)))
    as Hdecl2.
  { intros k. rewrite declared_in_keys. apply bool_decide_ext.
    unfold keys, props_of. by rewrite Hse2, Hh1, Hh0 by (done || lia). }
  rewrite Hkd2 in Hown3, Hget3.
  (* the run *)
  exists w3. split.
  { unfold initState, alloc.
    change (assign E vm vm "_watchers" (VArray (length (heap w)))
              (set_heap (heap w ++ [Elements []]) w)) with w0.
    assert (read w0 (VObject vm) "$options" = VObject o) as ->
      by (unfold read; by rewrite Hown0, Hopts).
    rewrite Hread0, Hprops by done. cbn [truthy].
    fold w1. rewrite Hro1, Hmethods by done. cbn [truthy].
    rewrite Hinit2. fold w2.
    assert (truthy (read w2 (VObject o) "data") = true) as ->.
    { rewrite Hro2 by done. unfold data_source in Hdata.
      destruct (read w (VObject o) "data") as [| |[]|z|s| | | |]; try done.
      - by destruct z.
      - by destruct s. }
    fold w3. rewrite (Hro3 "computed"), Hcomputed by done. cbn [bind].
    by rewrite Hro3, Hwatch by done. }
  split; [|split].
  - intros k Hk. destruct (Hnames k (or_introl Hk)) as (? & ? & ? & ?).
    assert (own w3 vm k = Some (proxy_property (sharedPropertyDefinition w) "_props" k))
      as Hk3.
    { rewrite Hown3 by done. rewrite Hdecl2, (bool_decide_true (k ∈ keys w (VObject po))) by done.
      cbn [negb]. rewrite andb_false_r. cbn [andb].
      rewrite Hown2, bool_decide_false by (by apply Hdisj). by apply Hproxied1. }
    assert (own w3 vm "_props" = Some (Data (VObject props1))) as Hp3.
    { rewrite Hown3 by done. rewrite Hrp. cbn [negb]. rewrite andb_false_r.
      rewrite Hown2, bool_decide_false; [done|].
      intros Hk'. by destruct (Hnames _ (or_intror Hk')) as (_ & [] & _). }
    unfold Get, find. rewrite Hk3. cbn [proxy_property get run_getter].
    assert (read w3 (VObject vm) "_props" = VObject props1) as ->
      by (unfold read; by rewrite Hp3).
    assert (props1 ≠ vm) as Hpv1 by (unfold props1; lia).
    unfold read. rewrite Hoth3, Hoth2 by done.
    specialize (Hval1 k Hk). unfold read in Hval1. exact Hval1.
  - intros k Hk Hkp Hrk. rewrite Hget3; [|done| |done].
    + unfold read. by rewrite Hoth2, Hoth1.
    + rewrite Hdecl2. by apply bool_decide_false.
  - intros k Hk Hkd. destruct (Hnames k (or_intror Hk)) as (? & ? & ? & ?).
    unfold Get, find. rewrite Hown3 by done.
    rewrite (bool_decide_false (k ∈ keys w (VObject d))) by done. cbn [andb].
    by rewrite Hown2, bool_decide_true, Hrm1.
Qed.

End InitState.

Section Witnesses.
Import StateJs.

Lemma proxy_reads_and_writes_the_source_witness :
  let w1 := proxy 0%nat "_data" "count" bare_world in
  let w2 := assign (sample_env false false) 0%nat 0%nat "count" (VNumber 5) w1 in
  Get (sample_env false false) 0%nat w1 0%nat "count" = VNumber 0 ∧
  Get (sample_env false false) 0%nat w2 0%nat "count" = VNumber 5 ∧
  read w2 (VObject 1) "count" = VNumber 5.
Proof.
  destruct (proxy_reads_and_writes_the_source (sample_env false false) 0%nat bare_world
              0%nat 1%nat "_data" "count" (VNumber 5))
    as (_ & _ & Hget1 & Hget2 & Hread & _).
  - by eexists.
  - by eexists.
  - done.
  - done.
  - done.
  - intros d H. vm_compute in H. discriminate.
  - split; [exact Hget1|]. split; [exact Hget2|exact Hread].
Defined.

Lemma initData_proxies_the_free_keys_witness :
  let E := sample_env false false in
  let w' := initData E 0%nat (sample_world (VFunction (UserFunction 0))) in
  Get E 0%nat w' 0%nat "count" = VNumber 0 ∧
  own w' 0%nat "title" = None ∧
  own w' 0%nat "_secret" = None ∧
  trace w' =
    [PushTarget; CallData (UserFunction 0); PopTarget;
     Warn (data_prop_warning "title"); Warn (method_data_warning "count");
     Observe (VObject 4)].
Proof.
  destruct (initData_proxies_the_free_keys (sample_env false false) 0%nat
              (sample_world (VFunction (UserFunction 0))) 1%nat 4%nat)
    as (_ & Hown & Hget & _ & Htr).
  - by eexists.
  - done.
  - done.
  - done.
  - done.
  - intros p H. vm_compute in H. discriminate.
  - done.
  - done.
  - done.
  - split; [|split; [|split]].
    + apply Hget; [|done..]. vm_compute. left.
    + by rewrite Hown.
    + by rewrite Hown.
    + exact Htr.
Defined.

Lemma initData_without_a_data_object_witness :
  let E := sample_env false false in
  let returns_a_number := initData E 0%nat (sample_world (VFunction (UserFunction 1))) in
  let throws := initData E 0%nat (sample_world (VFunction (UserFunction 2))) in
  own returns_a_number 0%nat "_data" = Some (Data (VNumber 7)) ∧
  trace returns_a_number =
    [PushTarget; CallData (UserFunction 1); PopTarget;
     Warn data_not_object_warning; Observe (VObject 12)] ∧
  own throws 0%nat "_data" = Some (Data (VObject 12)) ∧
  trace throws =
    [PushTarget; CallData (UserFunction 2); HandleError "boom" "data()"; PopTarget;
     Observe (VObject 12)].
Proof.
  destruct (initData_without_a_data_object (sample_env false false) 0%nat
              (sample_world (VFunction (UserFunction 1))) 1%nat)
    as (Hd1 & _ & _ & _ & _ & Ht1).
  - by eexists.
  - done.
  - done.
  - intros p H. vm_compute in H. discriminate.
  - intros r H. vm_compute in H. discriminate.
  - destruct (initData_without_a_data_object (sample_env false false) 0%nat
                (sample_world (VFunction (UserFunction 2))) 1%nat)
      as (Hd2 & _ & _ & _ & _ & Ht2).
    + by eexists.
    + done.
    + done.
    + intros p H. vm_compute in H. discriminate.
    + intros r H. vm_compute in H. discriminate.
    + split; [exact Hd1|]. split; [exact Ht1|]. split; [exact Hd2|exact Ht2].
Defined.

Lemma sample_no_accessor (data : Value) (k : string) (p : PropertyDescriptor) :
  find (sample_env false false) 0%nat (sample_world data) 0%nat k ≠ Some (Accessor p).
Proof.
  unfold find, own, props_of. cbn.
  destruct (decide ("$options" = k)); discriminate.
Defined.








Lemma initProps_proxies_the_props_witness :
  let E := sample_env false false in
  let w' := initProps E 0%nat (VObject 2) (sample_world VUndefined) in
  own w' 0%nat "_props" = Some (Data (VObject 13)) ∧
  elements w' (read w' (VObject 1) "_propKeys") = [VString "title"] ∧
  Get E 0%nat w' 0%nat "title" = VString "title" ∧
  trace w' = [DefineReactive 13 "title" (VString "title") true; ToggleObserving true].
Proof.
  destruct (initProps_proxies_the_props (sample_env false false) 0%nat
              (sample_world VUndefined) 1%nat 2%nat)
    as (Hprops & Hkeys & _ & Hget & _ & Htr).
  - by eexists.
  - by eexists.
  - by eexists.
  - done.
  - done.
  - done.
  - done.
  - intros p. apply sample_no_accessor.
  - intros p H. vm_compute in H. discriminate.
  - apply (bool_decide_unpack _). by vm_compute.
  - split; [exact Hprops|]. split; [exact Hkeys|]. split; [|exact Htr].
    apply Hget; [|done..]. vm_compute. left.
Defined.



Ltac list_cases H :=
  repeat (apply elem_of_cons in H as [->|H]); [..|by apply elem_of_nil in H].

Lemma initState_lets_props_shadow_data_and_data_shadow_methods_witness :
  let E := sample_env false false in
  ∃ w', initState E 0%nat 0 plain_world = Ok tt w' ∧
    Get E 0%nat w' 0%nat "title" = VString "title" ∧
    Get E 0%nat w' 0%nat "count" = VNumber 0 ∧
    Get E 0%nat w' 0%nat "greet" = VFunction (Bound (UserFunction 1)).
Proof.
  destruct (initState_lets_props_shadow_data_and_data_shadow_methods
              (sample_env false false) 0%nat plain_world 1%nat 2%nat 3%nat 4%nat 0%nat)
    as (w' & Hrun & Hprops & Hdata & Hmethods).
  - by eexists.
  - by eexists.
  - by eexists.
  - by eexists.
  - by eexists.
  - done.
  - done.
  - done.
  - done.
  - done.
  - done.
  - done.
  - done.
  - done.
  - done.
  - done.
  - done.
  - done.
  - intros p H. vm_compute in H. discriminate.
  - intros k Hk. list_cases Hk; (split; [done|intros p H; vm_compute in H; discriminate]).
  - apply (bool_decide_unpack _). by vm_compute.
  - apply (bool_decide_unpack _). by vm_compute.
  - intros k Hk. vm_compute in Hk. list_cases Hk.
    apply (bool_decide_unpack _). by vm_compute.
  - intros k [Hk|Hk]; vm_compute in Hk; list_cases Hk; by vm_compute.
  - exists w'. split; [exact Hrun|]. split; [|split].
    + apply Hprops. vm_compute. left.
    + apply Hdata; [vm_compute; left| |done].
      apply (bool_decide_unpack _). by vm_compute.
    + apply Hmethods; [vm_compute; left|].
      apply (bool_decide_unpack _). by vm_compute.
Defined.

End Witnesses.

